(** * GraphFormatter: the layered-layout core of FFormatterGraph

    A shallow embedding of [FormatterGraph.cpp] and of
    [FastAndSimplePositioningStrategy.cpp].

    Objects that the C++ code reaches through pointers (nodes, pins, edges,
    owned sub-graphs) live in an explicit store, addressed by [addr]; a
    [new] takes the next free address, a [delete] drops the object from the
    store.  A graph the code holds by value or as the receiver of a method is
    a [FFormatterGraph] record threaded through the calls together with the
    store.  Reading through a pointer is total: an address without an object
    reads as the null object of its type; the checked accessors of the engine
    containers ([TMap::operator[]]) are partial and return [option]. *)

From Stdlib Require Import ZArith Lia Bool SpecFloat Permutation.
From stdpp Require Import base option list gmap.

(** ** Machine numbers *)

(** [int32]: the value an [int32] holds after an arithmetic result [z]. *)
Definition int32 (z : Z) : Z := ((z + 2 ^ 31) mod 2 ^ 32 - 2 ^ 31)%Z.

Definition INT32_MAX : Z := (2 ^ 31 - 1)%Z.
Definition INDEX_NONE : Z := (-1)%Z.

(** [float] is IEEE-754 binary32, computed by the specification of the
    standard library (24 bits of precision, exponents up to 128). *)
Definition float : Type := spec_float.
Definition f32_zero : float := S754_zero false.
Definition f32_of_int (z : Z) : float := binary_normalize 24 128 z 0 false.
Definition f32_add : float -> float -> float := SFadd 24 128.
Definition f32_div : float -> float -> float := SFdiv 24 128.
Definition f32_ltb : float -> float -> bool := SFltb.

Record FVector2D := mkFVector2D { X : float; Y : float }.
Definition ZeroVector : FVector2D := mkFVector2D f32_zero f32_zero.

(** ** Engine containers *)

(** [TArray::Num]. *)
Definition Num {A} (l : list A) : Z := Z.of_nat (length l).

(** [TArray::Find]: index of the first element equal to [x], or
    [INDEX_NONE]. *)
Fixpoint Find `{EqDecision A} (x : A) (l : list A) : Z :=
  match l with
  | [] => INDEX_NONE
  | y :: r => if decide (y = x) then 0%Z
              else let i := Find x r in
                   if (i =? INDEX_NONE)%Z then INDEX_NONE else (i + 1)%Z
  end.

(** [TArray::IndexOfByPredicate] followed by [RemoveAt] when an index was
    found: the first element satisfying [P] is dropped. *)
Fixpoint RemoveFirst {A} (P : A -> bool) (l : list A) : list A :=
  match l with
  | [] => []
  | y :: r => if P y then r else y :: RemoveFirst P r
  end.

(** [TArray::Remove(Item)]: every occurrence is removed. *)
Definition RemoveAll `{EqDecision A} (x : A) (l : list A) : list A :=
  filter (λ y, y ≠ x) l.

(** [TSet::Add] on a set kept in insertion order. *)
Definition SetAdd `{EqDecision A} (x : A) (s : list A) : list A :=
  if decide (x ∈ s) then s else s ++ [x].

(** [TSet::Append]. *)
Definition SetAppend `{EqDecision A} (s t : list A) : list A :=
  fold_left (λ acc x, SetAdd x acc) t s.

(** ** The object model *)

(** Addresses of objects in the store, and [FGuid] identifiers. *)
Abbreviation addr := nat (only parsing).
Abbreviation FGuid := nat (only parsing).

Inductive EEdGraphPinDirection := EGPD_Input | EGPD_Output.

Global Instance EEdGraphPinDirection_eq_dec : EqDecision EEdGraphPinDirection.
Proof. solve_decision. Defined.

Record FFormatterPin := mkPin {
  PinGuid : FGuid;
  OriginalPin : option nat;
  Direction : EEdGraphPinDirection;
  OwningNode : addr;
  NodeOffset : FVector2D
}.

Record FFormatterEdge := mkEdge {
  From : addr;
  FromIndex : Z;
  To : addr;
  ToIndex : Z
}.

Record FFormatterNode := mkNode {
  Guid : FGuid;
  OriginalNode : option nat;
  SubGraph : option addr;
  Size : FVector2D;
  InEdges : list addr;
  OutEdges : list addr;
  InPins : list addr;
  OutPins : list addr;
  PathDepth : Z;
  OrderValue : float;
  Position : FVector2D
}.

Record FFormatterGraph := mkGraph {
  Nodes : list addr;
  NodesMap : gmap FGuid addr;
  SubGraphs : gmap FGuid addr;
  OriginalPinsMap : gmap nat addr;
  PinsMap : gmap FGuid addr;
  LayeredList : list (list addr);
  IsolatedGraphs : list addr
}.

Record Heap := mkHeap {
  nodes : gmap addr FFormatterNode;
  pins : gmap addr FFormatterPin;
  edges : gmap addr FFormatterEdge;
  graphs : gmap addr FFormatterGraph;
  next : addr;
  nextGuid : FGuid
}.

Definition null_pin : FFormatterPin := mkPin 0 None EGPD_Input 0 ZeroVector.
Definition null_edge : FFormatterEdge := mkEdge 0 0 0 0.
Definition null_node : FFormatterNode :=
  mkNode 0 None None ZeroVector [] [] [] [] 0 f32_zero ZeroVector.
Definition null_graph : FFormatterGraph := mkGraph [] ∅ ∅ ∅ ∅ [] [].

Definition node (h : Heap) (a : addr) : FFormatterNode := default null_node (nodes h !! a).
Definition pin (h : Heap) (a : addr) : FFormatterPin := default null_pin (pins h !! a).
Definition edge (h : Heap) (a : addr) : FFormatterEdge := default null_edge (edges h !! a).
Definition graph (h : Heap) (a : addr) : FFormatterGraph := default null_graph (graphs h !! a).

Definition set_node (h : Heap) (a : addr) (n : FFormatterNode) : Heap :=
  mkHeap (<[a := n]> (nodes h)) (pins h) (edges h) (graphs h) (next h) (nextGuid h).
Definition set_pin (h : Heap) (a : addr) (p : FFormatterPin) : Heap :=
  mkHeap (nodes h) (<[a := p]> (pins h)) (edges h) (graphs h) (next h) (nextGuid h).
Definition set_edge (h : Heap) (a : addr) (e : FFormatterEdge) : Heap :=
  mkHeap (nodes h) (pins h) (<[a := e]> (edges h)) (graphs h) (next h) (nextGuid h).
Definition set_graph (h : Heap) (a : addr) (g : FFormatterGraph) : Heap :=
  mkHeap (nodes h) (pins h) (edges h) (<[a := g]> (graphs h)) (next h) (nextGuid h).

(** [new]: the next free address. *)
Definition bump (h : Heap) : Heap :=
  mkHeap (nodes h) (pins h) (edges h) (graphs h) (S (next h)) (nextGuid h).
Definition alloc (h : Heap) : addr * Heap := (next h, bump h).

(** [FGuid::NewGuid]: identifiers are handed out in sequence. *)
Definition bumpGuid (h : Heap) : Heap :=
  mkHeap (nodes h) (pins h) (edges h) (graphs h) (next h) (S (nextGuid h)).
Definition NewGuid (h : Heap) : FGuid * Heap := (nextGuid h, bumpGuid h).

(** Field updates of a node. *)
Definition with_InEdges (l : list addr) (n : FFormatterNode) : FFormatterNode :=
  mkNode (Guid n) (OriginalNode n) (SubGraph n) (Size n) l (OutEdges n)
         (InPins n) (OutPins n) (PathDepth n) (OrderValue n) (Position n).
Definition with_OutEdges (l : list addr) (n : FFormatterNode) : FFormatterNode :=
  mkNode (Guid n) (OriginalNode n) (SubGraph n) (Size n) (InEdges n) l
         (InPins n) (OutPins n) (PathDepth n) (OrderValue n) (Position n).
Definition with_PathDepth (d : Z) (n : FFormatterNode) : FFormatterNode :=
  mkNode (Guid n) (OriginalNode n) (SubGraph n) (Size n) (InEdges n) (OutEdges n)
         (InPins n) (OutPins n) d (OrderValue n) (Position n).
Definition with_OrderValue (v : float) (n : FFormatterNode) : FFormatterNode :=
  mkNode (Guid n) (OriginalNode n) (SubGraph n) (Size n) (InEdges n) (OutEdges n)
         (InPins n) (OutPins n) (PathDepth n) v (Position n).

(** ** FFormatterEdge *)

(** [FFormatterEdge::IsCrossing]. *)
Definition IsCrossing (this Edge : FFormatterEdge) : bool :=
  ((FromIndex this <? FromIndex Edge)%Z && (ToIndex this >? ToIndex Edge)%Z)
  || ((FromIndex this >? FromIndex Edge)%Z && (ToIndex this <? ToIndex Edge)%Z).

(** ** FFormatterNode *)

(** [FFormatterNode::Connect]: a new edge object is appended to the out-edges
    when the source pin is an output pin and to the in-edges otherwise.  The
    two index fields of a new edge are written by [GetEdgeLinkedToLayer]
    before they are read. *)
Definition Connect (h : Heap) (this SourcePin TargetPin : addr) : Heap :=
  let '(Edge, h) := alloc h in
  let h := set_edge h Edge (mkEdge SourcePin 0 TargetPin 0) in
  if decide (Direction (pin h SourcePin) = EGPD_Output)
  then set_node h this (with_OutEdges (OutEdges (node h this) ++ [Edge]) (node h this))
  else set_node h this (with_InEdges (InEdges (node h this) ++ [Edge]) (node h this)).

(** [FFormatterNode::Disconnect]. *)
Definition Disconnect (h : Heap) (this SourcePin TargetPin : addr) : Heap :=
  let Predicate (Edge : addr) :=
    bool_decide (From (edge h Edge) = SourcePin ∧ To (edge h Edge) = TargetPin) in
  if decide (Direction (pin h SourcePin) = EGPD_Output)
  then set_node h this (with_OutEdges (RemoveFirst Predicate (OutEdges (node h this))) (node h this))
  else set_node h this (with_InEdges (RemoveFirst Predicate (InEdges (node h this))) (node h this)).

(** [FFormatterNode::GetSuccessors]. *)
Definition GetSuccessors (h : Heap) (this : addr) : list addr :=
  map (λ Edge, OwningNode (pin h (To (edge h Edge)))) (OutEdges (node h this)).

(** [FFormatterNode::GetPredecessors]: an in-edge is stored with the node's
    own input pin as [From], so its [To] is the pin of the predecessor. *)
Definition GetPredecessors (h : Heap) (this : addr) : list addr :=
  map (λ Edge, OwningNode (pin h (To (edge h Edge)))) (InEdges (node h this)).

Definition IsSource (h : Heap) (this : addr) : bool :=
  bool_decide (Num (InEdges (node h this)) = 0%Z).

Definition IsSink (h : Heap) (this : addr) : bool :=
  bool_decide (Num (OutEdges (node h this)) = 0%Z).

(** [FFormatterNode::AnySuccessorPathDepthEqu0]. *)
Definition AnySuccessorPathDepthEqu0 (h : Heap) (this : addr) : bool :=
  existsb (λ OutEdge,
    bool_decide (PathDepth (node h (OwningNode (pin h (To (edge h OutEdge))))) = 0%Z))
    (OutEdges (node h this)).

Definition GetInputPinCount (h : Heap) (this : addr) : Z := Num (InPins (node h this)).
Definition GetInputPinIndex (h : Heap) (this InputPin : addr) : Z := Find InputPin (InPins (node h this)).
Definition GetOutputPinCount (h : Heap) (this : addr) : Z := Num (OutPins (node h this)).
Definition GetOutputPinIndex (h : Heap) (this OutputPin : addr) : Z := Find OutputPin (OutPins (node h this)).

(** The body of the inner [for] of [GetEdgeLinkedToLayer], for the edge
    [Edge] and one node of the layer. *)
Definition GetEdgeLinkedToLayer_node (this : addr) (StartIndex : Z)
    (Dir : EEdGraphPinDirection) (Edge : addr) (s : Heap * list addr * Z)
    (NextLayerNode : addr) : Heap * list addr * Z :=
  let '(h, Result, Index) := s in
  if decide (OwningNode (pin h (To (edge h Edge))) ≠ NextLayerNode)
  then (h, Result,
        int32 (Index + (if decide (Dir = EGPD_Output)
                        then GetInputPinCount h NextLayerNode
                        else GetOutputPinCount h NextLayerNode)))
  else
    let Index := int32 (Index + (if decide (Dir = EGPD_Output)
                                 then GetInputPinIndex h NextLayerNode (To (edge h Edge))
                                 else GetOutputPinIndex h NextLayerNode (To (edge h Edge)))) in
    let FromIdx := int32 (StartIndex + (if decide (Dir = EGPD_Output)
                                        then GetOutputPinIndex h this (From (edge h Edge))
                                        else GetInputPinIndex h this (From (edge h Edge)))) in
    let h := set_edge h Edge (mkEdge (From (edge h Edge)) FromIdx (To (edge h Edge)) Index) in
    (h, Result ++ [Edge], Index).

(** The body of the outer [for] of [GetEdgeLinkedToLayer], for one edge. *)
Definition GetEdgeLinkedToLayer_edge (this : addr) (Layer : list addr) (StartIndex : Z)
    (Dir : EEdGraphPinDirection) (s : Heap * list addr) (Edge : addr) : Heap * list addr :=
  let '(h, Result, _) :=
    fold_left (GetEdgeLinkedToLayer_node this StartIndex Dir Edge) Layer (s.1, s.2, 0%Z) in
  (h, Result).

(** [FFormatterNode::GetEdgeLinkedToLayer]: the edges of [this] towards the
    nodes of [Layer], after writing into each of them the pin index of its
    two ends.  The edges are returned by pointer, so an edge listed twice is
    one object. *)
Definition GetEdgeLinkedToLayer (h : Heap) (this : addr) (Layer : list addr)
    (StartIndex : Z) (Dir : EEdGraphPinDirection) : Heap * list addr :=
  let Edges := if decide (Dir = EGPD_Output) then OutEdges (node h this) else InEdges (node h this) in
  fold_left (GetEdgeLinkedToLayer_edge this Layer StartIndex Dir) Edges (h, []).

(** [FFormatterNode::CalcBarycenter]. *)
Definition CalcBarycenter (h : Heap) (this : addr) (Layer : list addr)
    (StartIndex : Z) (Dir : EEdGraphPinDirection) : Heap * float :=
  let '(h, Edges) := GetEdgeLinkedToLayer h this Layer StartIndex Dir in
  if decide (Num Edges = 0%Z) then (h, f32_zero)
  else
    let Sum := fold_left (λ Sum Edge, f32_add Sum (f32_of_int (ToIndex (edge h Edge)))) Edges f32_zero in
    (h, f32_div Sum (f32_of_int (Num Edges))).

(** ** FFormatterGraph: cycle removal helpers *)

(** [FFormatterGraph::FindSourceNode]. *)
Definition FindSourceNode (h : Heap) (g : FFormatterGraph) : option addr :=
  List.find (IsSource h) (Nodes g).

(** [FFormatterGraph::FindSinkNode]. *)
Definition FindSinkNode (h : Heap) (g : FFormatterGraph) : option addr :=
  List.find (IsSink h) (Nodes g).

(** [DegreeDiff] of [FindMedianNode]: out-degree minus in-degree. *)
Definition DegreeDiff (h : Heap) (Node : addr) : Z :=
  int32 (Num (OutEdges (node h Node)) - Num (InEdges (node h Node))).

(** [FFormatterGraph::FindMedianNode]. *)
Definition FindMedianNode (h : Heap) (g : FFormatterGraph) : option addr :=
  fst (fold_left (λ '(Result, MaxDegreeDiff) Node,
         if (DegreeDiff h Node >=? MaxDegreeDiff)%Z
         then (Some Node, DegreeDiff h Node)
         else (Result, MaxDegreeDiff))
       (Nodes g) (None, 0%Z)).

(** ** FFormatterGraph: layering *)

(** [FFormatterGraph::GetSuccessorsForNodes]; the argument is a [TSet]. *)
Definition GetSuccessorsForNodes (h : Heap) (Nodes : list addr) : list addr :=
  flat_map (λ Node,
    filter (λ n, n ∉ Nodes) (GetSuccessors h Node)) Nodes.

(** [FFormatterGraph::GetNodesGreaterThan]. *)
Definition GetNodesGreaterThan (h : Heap) (g : FFormatterGraph) (i : Z)
    (Excluded : list addr) : list addr :=
  filter (λ Node, (Node ∉ Excluded) ∧ (PathDepth (node h Node) >= i)%Z) (Nodes g).

(** [FFormatterGraph::GetLeavesWidthPathDepthEqu0]. *)
Definition GetLeavesWidthPathDepthEqu0 (h : Heap) (g : FFormatterGraph) : list addr :=
  filter (λ Node,
    ¬ (PathDepth (node h Node) ≠ 0%Z ∨ AnySuccessorPathDepthEqu0 h Node = true)) (Nodes g).

(** The [while (true)] of [CalculateLongestPath]; [fuel] bounds the number of
    rounds and [None] means that it ran out. *)
Fixpoint CalculateLongestPath_loop (fuel : nat) (h : Heap) (g : FFormatterGraph)
    (LongestPath : Z) : option (Heap * Z) :=
  match fuel with
  | O => None
  | S fuel =>
    let Leaves := GetLeavesWidthPathDepthEqu0 h g in
    if decide (Num Leaves = 0%Z) then Some (h, LongestPath)
    else
      let h := fold_left (λ h leaf, set_node h leaf (with_PathDepth LongestPath (node h leaf)))
                         Leaves h in
      CalculateLongestPath_loop fuel h g (int32 (LongestPath + 1))
  end.

(** [FFormatterGraph::CalculateLongestPath]. *)
Definition CalculateLongestPath (fuel : nat) (h : Heap) (g : FFormatterGraph)
    : option (Heap * Z) :=
  '(h, LongestPath) ← CalculateLongestPath_loop fuel h g 1%Z;
  Some (h, int32 (LongestPath - 1)).

(** One round of the [for] of [DoLayering], for the counter value [i]. *)
Definition DoLayering_body (h : Heap) (g : FFormatterGraph) (i : Z)
    (Set_ : list addr) : list addr * list addr :=
  let Successors := GetSuccessorsForNodes h Set_ in
  let NodesToProcess := GetNodesGreaterThan h g i Set_ ++ Successors in
  let Layer :=
    fold_left (λ Layer Node,
      let Predecessors := GetPredecessors h Node in
      let bPredecessorsFinished := forallb (λ Predecessor, bool_decide (Predecessor ∈ Set_)) Predecessors in
      if bPredecessorsFinished then SetAdd Node Layer else Layer)
      NodesToProcess [] in
  (SetAppend Set_ Layer, Layer).

(** The [for (i = ...; i != 0; i--)] of [DoLayering], [n] rounds from
    [i = n] down to [1]. *)
Fixpoint DoLayering_loop (n : nat) (h : Heap) (g : FFormatterGraph)
    (Set_ : list addr) (LayeredList : list (list addr)) : list (list addr) :=
  match n with
  | O => LayeredList
  | S n' =>
    let '(Set_, Layer) := DoLayering_body h g (Z.of_nat n) Set_ in
    DoLayering_loop n' h g Set_ (LayeredList ++ [Layer])
  end.

Definition with_LayeredList (l : list (list addr)) (g : FFormatterGraph) : FFormatterGraph :=
  mkGraph (Nodes g) (NodesMap g) (SubGraphs g) (OriginalPinsMap g) (PinsMap g) l (IsolatedGraphs g).

(** [FFormatterGraph::DoLayering].  The counter starts at the result of
    [CalculateLongestPath]; a negative start, which that function never
    returns, is outside the model. *)
Definition DoLayering (fuel : nat) (h : Heap) (g : FFormatterGraph)
    : option (Heap * FFormatterGraph) :=
  '(h, i) ← CalculateLongestPath fuel h g;
  if (i <? 0)%Z then None
  else Some (h, with_LayeredList (DoLayering_loop (Z.to_nat i) h g [] []) g).

(** ** FFormatterGraph: nodes *)

(** [FFormatterNode::FFormatterNode()]: the synthetic node, with one new
    input pin and one new output pin. *)
Definition FFormatterNode_new (h : Heap) : addr * Heap :=
  let '(this, h) := alloc h in
  let '(guid, h) := NewGuid h in
  let '(InPin, h) := alloc h in
  let '(ig, h) := NewGuid h in
  let h := set_pin h InPin (mkPin ig None EGPD_Input this ZeroVector) in
  let '(OutPin, h) := alloc h in
  let '(og, h) := NewGuid h in
  let h := set_pin h OutPin (mkPin og None EGPD_Output this ZeroVector) in
  (this, set_node h this
     (mkNode guid None None (mkFVector2D (f32_of_int 1) (f32_of_int 1)) [] []
             [InPin] [OutPin] 0 f32_zero ZeroVector)).

(** [FFormatterGraph::AddNode]. *)
Definition AddNode (h : Heap) (g : FFormatterGraph) (InNode : addr) : FFormatterGraph :=
  let add_pins (Pins : list addr) (m : gmap nat addr * gmap FGuid addr) :=
    fold_left (λ '(om, pm) Pin,
      (match OriginalPin (pin h Pin) with
       | Some o => <[o := Pin]> om
       | None => om
       end,
       <[PinGuid (pin h Pin) := Pin]> pm)) Pins m in
  let maps := add_pins (OutPins (node h InNode))
                       (add_pins (InPins (node h InNode)) (OriginalPinsMap g, PinsMap g)) in
  mkGraph (Nodes g ++ [InNode])
          (<[Guid (node h InNode) := InNode]> (NodesMap g))
          (match SubGraph (node h InNode) with
           | Some s => <[Guid (node h InNode) := s]> (SubGraphs g)
           | None => SubGraphs g
           end)
          maps.1 maps.2 (LayeredList g) (IsolatedGraphs g).

(** One long edge of [AddDummyNodes]: it is cut at a new synthetic node,
    which joins the next layer [LayeredList[i + 1]]. *)
Definition AddDummyNodes_edge (i : nat) (Node : addr)
    (s : Heap * FFormatterGraph) (Edge : addr) : Heap * FFormatterGraph :=
  let '(h, g) := s in
  let h := Disconnect h Node (From (edge h Edge)) (To (edge h Edge)) in
  let '(dummyNode, h) := FFormatterNode_new h in
  let g := AddNode h g dummyNode in
  let InPin0 := InPins (node h dummyNode) !!! 0%nat in
  let OutPin0 := OutPins (node h dummyNode) !!! 0%nat in
  let h := Connect h Node (From (edge h Edge)) InPin0 in
  let h := Connect h dummyNode InPin0 (From (edge h Edge)) in
  let h := Connect h dummyNode OutPin0 (To (edge h Edge)) in
  let h := Connect h (OwningNode (pin h (To (edge h Edge)))) (To (edge h Edge)) OutPin0 in
  let NextLayer := LayeredList g !!! S i in
  (h, with_LayeredList (<[S i := NextLayer ++ [dummyNode]]> (LayeredList g)) g).

(** One node of the layer [LayeredList[i]]. *)
Definition AddDummyNodes_node (i : nat) (s : Heap * FFormatterGraph) (Node : addr)
    : Heap * FFormatterGraph :=
  let '(h, g) := s in
  let NextLayer := LayeredList g !!! S i in
  let LongEdges :=
    filter (λ Edge, OwningNode (pin h (To (edge h Edge))) ∉ NextLayer)
           (OutEdges (node h Node)) in
  fold_left (AddDummyNodes_edge i Node) LongEdges (h, g).

(** [FFormatterGraph::AddDummyNodes]. *)
Definition AddDummyNodes (h : Heap) (g : FFormatterGraph) : Heap * FFormatterGraph :=
  fold_left (λ s i, fold_left (AddDummyNodes_node i) (LayeredList (snd s) !!! i) s)
            (seq 0 (length (LayeredList g) - 1)) (h, g).

(** ** FFormatterGraph: ordering *)

(** The body of the [for] of [GetEdgeBetweenTwoLayer]. *)
Definition GetEdgeBetweenTwoLayer_node (Layer2 : list addr) (Dir : EEdGraphPinDirection)
    (s : Heap * list addr * Z) (NodeInLayer1 : addr) : Heap * list addr * Z :=
  let '(h, Result, Index) := s in
  let '(h, Edges) := GetEdgeLinkedToLayer h NodeInLayer1 Layer2 Index Dir in
  (h, Result ++ Edges,
   int32 (Index + (if decide (Dir = EGPD_Output)
                   then GetOutputPinCount h NodeInLayer1
                   else GetInputPinCount h NodeInLayer1))).

(** [GetEdgeBetweenTwoLayer]. *)
Definition GetEdgeBetweenTwoLayer (h : Heap) (Layer1 Layer2 : list addr)
    (Dir : EEdGraphPinDirection) : Heap * list addr :=
  let '(h, Result, _) :=
    fold_left (GetEdgeBetweenTwoLayer_node Layer2 Dir) Layer1 (h, [], 0%Z) in
  (h, Result).

(** The [while (NodeEdges.Num() != 0)] of [CalculateCrossing]: [n] is the
    number of edges still in the array; the last one is popped and compared
    with the ones that remain. *)
Fixpoint CalculateCrossing_pop (h : Heap) (n : nat) (NodeEdges : list addr)
    (CrossingValue : Z) : Z :=
  match n with
  | O => CrossingValue
  | S n' =>
    let Edge1 := NodeEdges !!! n' in
    let NodeEdges := take n' NodeEdges in
    let CrossingValue :=
      fold_left (λ CrossingValue Edge2,
        if IsCrossing (edge h Edge1) (edge h Edge2)
        then int32 (CrossingValue + 1) else CrossingValue)
        NodeEdges CrossingValue in
    CalculateCrossing_pop h n' NodeEdges CrossingValue
  end.

(** The body of the [for] of [CalculateCrossing]. *)
Definition CalculateCrossing_layer (Order : list (list addr)) (s : Heap * Z) (i : nat)
    : Heap * Z :=
  let Layer := Order !!! (i - 1)%nat in
  let NextLayer := Order !!! i in
  let '(h, NodeEdges) := GetEdgeBetweenTwoLayer s.1 Layer NextLayer EGPD_Output in
  (h, CalculateCrossing_pop h (length NodeEdges) NodeEdges s.2).

(** [CalculateCrossing]. *)
Definition CalculateCrossing (h : Heap) (Order : list (list addr)) : Heap * Z :=
  fold_left (CalculateCrossing_layer Order) (seq 1 (length Order - 1)) (h, 0%Z).

(** [TArray::Sort] with a predicate is engine code; the ordering functions
    take it as the parameter [Sort]. *)
Definition SortFn : Type := (addr -> addr -> bool) -> list addr -> list addr.

(** The first inner [for] of [SortInLayer]: the order value of a node of the
    free layer. *)
Definition SortInLayer_node (FixedLayer : list addr) (Dir : EEdGraphPinDirection)
    (s : Heap * Z) (Node : addr) : Heap * Z :=
  let '(h, StartIndex) := s in
  let '(h, v) := CalcBarycenter h Node FixedLayer StartIndex Dir in
  let h := set_node h Node (with_OrderValue v (node h Node)) in
  (h, int32 (StartIndex + (if decide (Dir = EGPD_Output)
                           then GetOutputPinCount h Node
                           else GetInputPinCount h Node))).

(** The [for (i = Start; i != End; i += Step)] of [SortInLayer], [k] rounds. *)
Fixpoint SortInLayer_loop (Sort : SortFn) (k : nat) (h : Heap) (Order : list (list addr))
    (Dir : EEdGraphPinDirection) (i Step : Z) : Heap * list (list addr) :=
  match k with
  | O => (h, Order)
  | S k' =>
    let FixedLayer := Order !!! Z.to_nat (i - Step) in
    let FreeLayer := Order !!! Z.to_nat i in
    let h := (fold_left (SortInLayer_node FixedLayer Dir) FreeLayer (h, 0%Z)).1 in
    let FreeLayer :=
      Sort (λ A B, f32_ltb (OrderValue (node h A)) (OrderValue (node h B))) FreeLayer in
    SortInLayer_loop Sort k' h (<[Z.to_nat i := FreeLayer]> Order) Dir (i + Step)%Z Step
  end.

(** [FFormatterGraph::SortInLayer]. *)
Definition SortInLayer (Sort : SortFn) (h : Heap) (Order : list (list addr))
    (Dir : EEdGraphPinDirection) : Heap * list (list addr) :=
  if (Num Order <? 2)%Z then (h, Order)
  else
    let Start := if decide (Dir = EGPD_Output) then (Num Order - 2)%Z else 1%Z in
    let Step := if decide (Dir = EGPD_Output) then (-1)%Z else 1%Z in
    SortInLayer_loop Sort (length Order - 1) h Order Dir Start Step.

(** The [for] of [DoOrderingSweep]: [k] rounds starting at counter [i]. *)
Fixpoint DoOrderingSweep_loop (Sort : SortFn) (k : nat) (i : Z) (h : Heap)
    (Best Order : list (list addr)) : Heap * list (list addr) :=
  match k with
  | O => (h, Best)
  | S k' =>
    let '(h, Order) :=
      SortInLayer Sort h Order (if (i mod 2 =? 0)%Z then EGPD_Input else EGPD_Output) in
    let '(h, cOrder) := CalculateCrossing h Order in
    let '(h, cBest) := CalculateCrossing h Best in
    let Best := if (cOrder <? cBest)%Z then Order else Best in
    DoOrderingSweep_loop Sort k' (i + 1)%Z h Best Order
  end.

(** [FFormatterGraph::DoOrderingSweep]; [MaxOrderingIterations] is the
    setting read from [UFormatterSettings]. *)
Definition DoOrderingSweep (Sort : SortFn) (MaxOrderingIterations : Z) (h : Heap)
    (g : FFormatterGraph) : Heap * FFormatterGraph :=
  let '(h, Best) :=
    DoOrderingSweep_loop Sort (Z.to_nat MaxOrderingIterations) 0%Z h
                         (LayeredList g) (LayeredList g) in
  (h, with_LayeredList Best g).

(** ** FFormatterGraph: copies, removal of nodes, cycle removal *)

(** A loop whose body can fail. *)
Fixpoint fold_leftM {A B} (f : B -> A -> option B) (l : list A) (b : B) : option B :=
  match l with
  | [] => Some b
  | x :: r => b' ← f b x; fold_leftM f r b'
  end.

Definition free_node (h : Heap) (a : addr) : Heap :=
  mkHeap (delete a (nodes h)) (pins h) (edges h) (graphs h) (next h) (nextGuid h).
Definition free_pin (h : Heap) (a : addr) : Heap :=
  mkHeap (nodes h) (delete a (pins h)) (edges h) (graphs h) (next h) (nextGuid h).
Definition free_edge (h : Heap) (a : addr) : Heap :=
  mkHeap (nodes h) (pins h) (delete a (edges h)) (graphs h) (next h) (nextGuid h).
Definition free_graph (h : Heap) (a : addr) : Heap :=
  mkHeap (nodes h) (pins h) (edges h) (delete a (graphs h)) (next h) (nextGuid h).

(** [delete Node]: [FFormatterNode::~FFormatterNode] and the release of the
    node; [delete_graph] is [delete] on an owned graph. *)
Definition FFormatterNode_delete (delete_graph : Heap -> addr -> option Heap)
    (h : Heap) (this : addr) : option Heap :=
  let h := fold_left free_edge (InEdges (node h this)) h in
  let h := fold_left free_edge (OutEdges (node h this)) h in
  let h := fold_left free_pin (InPins (node h this)) h in
  let h := fold_left free_pin (OutPins (node h this)) h in
  h ← match SubGraph (node h this) with
      | Some s => delete_graph h s
      | None => Some h
      end;
  Some (free_node h this).

(** [delete Graph] on an owned graph: [FFormatterGraph::~FFormatterGraph]
    and the release of the graph.  The nesting of owned graphs is followed
    by recursion on [fuel]. *)
Fixpoint FFormatterGraph_delete (fuel : nat) (h : Heap) (this : addr) : option Heap :=
  match fuel with
  | O => None
  | S fuel =>
    h ← fold_leftM (FFormatterNode_delete (FFormatterGraph_delete fuel)) (Nodes (graph h this)) h;
    h ← fold_leftM (FFormatterGraph_delete fuel) (IsolatedGraphs (graph h this)) h;
    Some (free_graph h this)
  end.

(** [FFormatterGraph::~FFormatterGraph] on a graph held by value. *)
Definition FFormatterGraph_dtor (fuel : nat) (h : Heap) (this : FFormatterGraph) : option Heap :=
  h ← fold_leftM (FFormatterNode_delete (FFormatterGraph_delete fuel)) (Nodes this) h;
  fold_leftM (FFormatterGraph_delete fuel) (IsolatedGraphs this) h.

(** The pin copies made by [FFormatterNode(const FFormatterNode&)]. *)
Definition FFormatterPin_copy (this : addr) (s : list addr * Heap) (Pin : addr)
    : list addr * Heap :=
  let '(Pins, h) := s in
  let '(NewPin, h) := alloc h in
  (Pins ++ [NewPin],
   set_pin h NewPin (mkPin (PinGuid (pin h Pin)) (OriginalPin (pin h Pin))
                           (Direction (pin h Pin)) this (NodeOffset (pin h Pin)))).

(** [new FFormatterNode(Other)]: the copy constructor of a node.  The edge
    arrays of the copy start empty; [copy_graph] is the copy constructor of
    a graph, used for an owned sub-graph. *)
Definition FFormatterNode_copy
    (copy_graph : Heap -> FFormatterGraph -> option (Heap * FFormatterGraph))
    (h : Heap) (Other : addr) : option (addr * Heap) :=
  let '(this, h) := alloc h in
  '(sub, h) ← match SubGraph (node h Other) with
              | Some s =>
                let '(a, h) := alloc h in
                '(h, g) ← copy_graph h (graph h s);
                Some (Some a, set_graph h a g)
              | None => Some (None, h)
              end;
  let '(ins, h) := fold_left (FFormatterPin_copy this) (InPins (node h Other)) ([], h) in
  let '(outs, h) := fold_left (FFormatterPin_copy this) (OutPins (node h Other)) ([], h) in
  Some (this,
        set_node h this
          (mkNode (Guid (node h Other)) (OriginalNode (node h Other)) sub
                  (Size (node h Other)) [] [] ins outs
                  (PathDepth (node h Other)) f32_zero (Position (node h Other)))).

(** The re-creation of one edge of [Other] in the copy [this]. *)
Definition copy_edge (this : FFormatterGraph) (Node : addr) (h : Heap) (Edge : addr)
    : option Heap :=
  From_ ← PinsMap this !! PinGuid (pin h (From (edge h Edge)));
  To_ ← PinsMap this !! PinGuid (pin h (To (edge h Edge)));
  n ← NodesMap this !! Guid (node h Node);
  Some (Connect h n From_ To_).

Definition with_IsolatedGraphs (l : list addr) (g : FFormatterGraph) : FFormatterGraph :=
  mkGraph (Nodes g) (NodesMap g) (SubGraphs g) (OriginalPinsMap g) (PinsMap g) (LayeredList g) l.

(** [FFormatterGraph::FFormatterGraph(const FFormatterGraph&)]. *)
Fixpoint FFormatterGraph_copy (fuel : nat) (h : Heap) (Other : FFormatterGraph)
    : option (Heap * FFormatterGraph) :=
  match fuel with
  | O => None
  | S fuel =>
    '(h, this) ←
      fold_leftM (λ '(h, this) Node,
        '(Cloned, h) ← FFormatterNode_copy (FFormatterGraph_copy fuel) h Node;
        Some (h, AddNode h this Cloned))
        (Nodes Other) (h, null_graph);
    h ← fold_leftM (λ h Node,
           h ← fold_leftM (copy_edge this Node) (InEdges (node h Node)) h;
           fold_leftM (copy_edge this Node) (OutEdges (node h Node)) h)
           (Nodes Other) h;
    fold_leftM (λ '(h, this) Isolated,
        let '(a, h) := alloc h in
        '(h, g) ← FFormatterGraph_copy fuel h (graph h Isolated);
        Some (set_graph h a g, with_IsolatedGraphs (IsolatedGraphs this ++ [a]) this))
      (IsolatedGraphs Other) (h, this)
  end.

(** The disconnection loops of [RemoveNode]: each edge of the node is
    removed from the edge array of the node at its other end. *)
Definition RemoveNode_disconnect (h : Heap) (Edges : list addr) : Heap :=
  fold_left (λ h Edge,
    Disconnect h (OwningNode (pin h (To (edge h Edge)))) (To (edge h Edge)) (From (edge h Edge)))
    Edges h.

(** [FFormatterGraph::RemoveNode]. *)
Definition RemoveNode (fuel : nat) (h : Heap) (g : FFormatterGraph) (NodeToRemove : addr)
    : option (Heap * FFormatterGraph) :=
  let h := RemoveNode_disconnect h (InEdges (node h NodeToRemove)) in
  let h := RemoveNode_disconnect h (OutEdges (node h NodeToRemove)) in
  let remove_pins (Pins : list addr) (m : gmap nat addr * gmap FGuid addr) :=
    fold_left (λ '(om, pm) Pin,
      (match OriginalPin (pin h Pin) with
       | Some o => delete o om
       | None => om
       end,
       delete (PinGuid (pin h Pin)) pm)) Pins m in
  let maps := remove_pins (OutPins (node h NodeToRemove))
                     (remove_pins (InPins (node h NodeToRemove)) (OriginalPinsMap g, PinsMap g)) in
  let g := mkGraph (RemoveAll NodeToRemove (Nodes g))
                   (delete (Guid (node h NodeToRemove)) (NodesMap g))
                   (delete (Guid (node h NodeToRemove)) (SubGraphs g))
                   maps.1 maps.2 (LayeredList g) (IsolatedGraphs g) in
  h ← FFormatterNode_delete (FFormatterGraph_delete fuel) h NodeToRemove;
  Some (h, g).

(** The first two [while] loops of [RemoveCycle], for [Find] either
    [FindSourceNode] or [FindSinkNode]; [k] bounds the number of rounds. *)
Fixpoint RemoveCycle_peel (Find_ : Heap -> FFormatterGraph -> option addr)
    (fuel k : nat) (h : Heap) (ClonedGraph : FFormatterGraph)
    : option (Heap * FFormatterGraph) :=
  match k with
  | O => None
  | S k =>
    match Find_ h ClonedGraph with
    | Some Node =>
      '(h, ClonedGraph) ← RemoveNode fuel h ClonedGraph Node;
      RemoveCycle_peel Find_ fuel k h ClonedGraph
    | None => Some (h, ClonedGraph)
    end
  end.

(** The body of the [for] over the in-edges of the median node: the edge
    with the same pin identifiers is removed from both of its ends in
    [this], the graph being formatted. *)
Definition RemoveCycle_cut (this : FFormatterGraph) (MedianNode : addr) (h : Heap)
    (Edge : addr) : option Heap :=
  From_ ← PinsMap this !! PinGuid (pin h (From (edge h Edge)));
  To_ ← PinsMap this !! PinGuid (pin h (To (edge h Edge)));
  n ← NodesMap this !! Guid (node h MedianNode);
  let h := Disconnect h n From_ To_ in
  Some (Disconnect h (OwningNode (pin h To_)) To_ From_).

(** The third [while] loop of [RemoveCycle]. *)
Fixpoint RemoveCycle_medians (fuel k : nat) (h : Heap) (this ClonedGraph : FFormatterGraph)
    : option (Heap * FFormatterGraph) :=
  match k with
  | O => None
  | S k =>
    match FindMedianNode h ClonedGraph with
    | Some MedianNode =>
      h ← fold_leftM (RemoveCycle_cut this MedianNode) (InEdges (node h MedianNode)) h;
      '(h, ClonedGraph) ← RemoveNode fuel h ClonedGraph MedianNode;
      RemoveCycle_medians fuel k h this ClonedGraph
    | None => Some (h, ClonedGraph)
    end
  end.

(** [FFormatterGraph::RemoveCycle] up to, and without, its last statement
    [delete ClonedGraph]: the store and the working copy at that point. *)
Definition RemoveCycle_run (fuel : nat) (h : Heap) (this : FFormatterGraph)
    : option (Heap * FFormatterGraph) :=
  '(h, ClonedGraph) ← FFormatterGraph_copy fuel h this;
  '(h, ClonedGraph) ← RemoveCycle_peel FindSourceNode fuel fuel h ClonedGraph;
  '(h, ClonedGraph) ← RemoveCycle_peel FindSinkNode fuel fuel h ClonedGraph;
  RemoveCycle_medians fuel fuel h this ClonedGraph.

(** [FFormatterGraph::RemoveCycle]. *)
Definition RemoveCycle (fuel : nat) (h : Heap) (this : FFormatterGraph) : option Heap :=
  '(h, ClonedGraph) ← RemoveCycle_run fuel h this;
  FFormatterGraph_dtor fuel h ClonedGraph.

(** ** Construction from the editor's graph *)

(** The constructor of [FFormatterNode] from an editor node, for a node with
    identifier [NodeGuid] whose pins are given by their editor identity and
    their direction. *)
Definition FFormatterNode_of (h : Heap) (InNode : nat) (NodeGuid : FGuid)
    (Pins : list (nat * EEdGraphPinDirection)) : addr * Heap :=
  let '(this, h) := alloc h in
  let '(ins, outs, h) :=
    fold_left (λ '(ins, outs, h) Pin,
      let '(NewPin, h) := alloc h in
      let '(guid, h) := NewGuid h in
      let h := set_pin h NewPin (mkPin guid (Some (fst Pin)) (snd Pin) this ZeroVector) in
      if decide (snd Pin = EGPD_Input) then (ins ++ [NewPin], outs, h)
      else (ins, outs ++ [NewPin], h))
      Pins ([], [], h) in
  (this, set_node h this
     (mkNode NodeGuid (Some InNode) None ZeroVector [] [] ins outs 0 f32_zero ZeroVector)).

(** The two [Connect] calls that [BuildEdges] makes for a link of the editor
    from the output pin [OutPin] to the input pin [InPin]: one at each end. *)
Definition BuildEdge (h : Heap) (OutPin InPin : addr) : Heap :=
  let h := Connect h (OwningNode (pin h OutPin)) OutPin InPin in
  Connect h (OwningNode (pin h InPin)) InPin OutPin.

(** The store before any allocation; address 0 is left to the null pointer. *)
Definition empty_heap : Heap := mkHeap ∅ ∅ ∅ ∅ 1%nat 1%nat.

(** ** Example graphs *)

(** The 3-cycle A -> B -> C -> A: three nodes with one input and one output
    pin each, listed in the order A, B, C. *)
Definition cycle3 : Heap * FFormatterGraph :=
  let h := empty_heap in
  let '(A, h) := FFormatterNode_of h 100 100 [(10, EGPD_Input); (11, EGPD_Output)] in
  let '(B, h) := FFormatterNode_of h 101 101 [(12, EGPD_Input); (13, EGPD_Output)] in
  let '(C, h) := FFormatterNode_of h 102 102 [(14, EGPD_Input); (15, EGPD_Output)] in
  let g := AddNode h (AddNode h (AddNode h null_graph A) B) C in
  let out n := OutPins (node h n) !!! 0%nat in
  let inp n := InPins (node h n) !!! 0%nat in
  let h := BuildEdge h (out A) (inp B) in
  let h := BuildEdge h (out B) (inp C) in
  let h := BuildEdge h (out C) (inp A) in
  (h, g).

(** A two-rank graph with four nodes: A and B in the first rank, C and D in
    the second, and the two edges A -> D and B -> C, which cross. *)
Definition crossed4 : Heap * list (list addr) :=
  let h := empty_heap in
  let '(A, h) := FFormatterNode_of h 100 100 [(10, EGPD_Input); (11, EGPD_Output)] in
  let '(B, h) := FFormatterNode_of h 101 101 [(12, EGPD_Input); (13, EGPD_Output)] in
  let '(C, h) := FFormatterNode_of h 102 102 [(14, EGPD_Input); (15, EGPD_Output)] in
  let '(D, h) := FFormatterNode_of h 103 103 [(16, EGPD_Input); (17, EGPD_Output)] in
  let out n := OutPins (node h n) !!! 0%nat in
  let inp n := InPins (node h n) !!! 0%nat in
  let h := BuildEdge h (out A) (inp D) in
  let h := BuildEdge h (out B) (inp C) in
  (h, [[A; B]; [C; D]]).

(** The diamond A -> B, A -> C, B -> D, C -> D, with the nodes listed in the
    order A, B, C, D. *)
Definition diamond4 : Heap * FFormatterGraph :=
  let h := empty_heap in
  let '(A, h) := FFormatterNode_of h 100 100 [(10, EGPD_Input); (11, EGPD_Output)] in
  let '(B, h) := FFormatterNode_of h 101 101 [(12, EGPD_Input); (13, EGPD_Output)] in
  let '(C, h) := FFormatterNode_of h 102 102 [(14, EGPD_Input); (15, EGPD_Output)] in
  let '(D, h) := FFormatterNode_of h 103 103 [(16, EGPD_Input); (17, EGPD_Output)] in
  let g := AddNode h (AddNode h (AddNode h (AddNode h null_graph A) B) C) D in
  let out n := OutPins (node h n) !!! 0%nat in
  let inp n := InPins (node h n) !!! 0%nat in
  let h := BuildEdge h (out A) (inp B) in
  let h := BuildEdge h (out A) (inp C) in
  let h := BuildEdge h (out B) (inp D) in
  let h := BuildEdge h (out C) (inp D) in
  (h, g).

(** The triangle A -> B, B -> C, A -> C in the three layers A, B, C: the
    edge A -> C spans two ranks. *)
Definition long3 : Heap * FFormatterGraph :=
  let h := empty_heap in
  let '(A, h) := FFormatterNode_of h 100 100 [(10, EGPD_Input); (11, EGPD_Output)] in
  let '(B, h) := FFormatterNode_of h 101 101 [(12, EGPD_Input); (13, EGPD_Output)] in
  let '(C, h) := FFormatterNode_of h 102 102 [(14, EGPD_Input); (15, EGPD_Output)] in
  let g := AddNode h (AddNode h (AddNode h null_graph A) B) C in
  let out n := OutPins (node h n) !!! 0%nat in
  let inp n := InPins (node h n) !!! 0%nat in
  let h := BuildEdge h (out A) (inp B) in
  let h := BuildEdge h (out B) (inp C) in
  let h := BuildEdge h (out A) (inp C) in
  (h, with_LayeredList [[A]; [B]; [C]] g).

(** ** Notions used to state the properties *)

(** An engine array holds at most [INT32_MAX] elements. *)
Definition array_ok {A} (l : list A) : Prop := (Num l <= INT32_MAX)%Z.

(** Out-degree minus in-degree of a node, as an integer. *)
Definition degree_diff (h : Heap) (n : addr) : Z :=
  (Num (OutEdges (node h n)) - Num (InEdges (node h n)))%Z.

(** The state of the scan of [FindMedianNode] after the nodes [l], for the
    degree difference [d]: the running maximum is the larger of 0 and the
    differences seen, and the result is the last node that attains it. *)
Definition scan_inv (d : addr -> Z) (l : list addr) (s : option addr * Z) : Prop :=
  (0 <= s.2)%Z ∧ (∀ n, n ∈ l -> (d n <= s.2)%Z) ∧
  match s.1 with
  | None => s.2 = 0%Z ∧ ∀ n, n ∈ l -> (d n < 0)%Z
  | Some m => ∃ i, l !! i = Some m ∧ d m = s.2 ∧
                   ∀ j n, i < j -> l !! j = Some n -> (d n < s.2)%Z
  end.

(** Two edges between the same two ranks have inverted end-point orders. *)
Definition inverted (e1 e2 : FFormatterEdge) : Prop :=
  ((FromIndex e1 < FromIndex e2)%Z ∧ (ToIndex e1 > ToIndex e2)%Z) ∨
  ((FromIndex e1 > FromIndex e2)%Z ∧ (ToIndex e1 < ToIndex e2)%Z).

Global Instance inverted_dec e1 e2 : Decision (inverted e1 e2).
Proof. unfold inverted. apply _. Defined.

(** All unordered pairs of positions of a list, the earlier element first. *)
Fixpoint unordered_pairs {A} (l : list A) : list (A * A) :=
  match l with
  | [] => []
  | x :: r => map (pair x) r ++ unordered_pairs r
  end.

(** The brute-force crossing count of the edges between two ranks: the
    number of unordered pairs with inverted end points. *)
Definition brute_force_crossings (es : list FFormatterEdge) : nat :=
  length (filter (λ p, inverted p.1 p.2) (unordered_pairs es)).

(** The brute-force count over a layered list: the sum, over each pair of
    adjacent ranks, of the brute-force count of the edges that
    [GetEdgeBetweenTwoLayer] lists between them. *)
Definition brute_force_layer (Order : list (list addr)) (s : Heap * nat) (i : nat)
    : Heap * nat :=
  let '(h, NodeEdges) :=
    GetEdgeBetweenTwoLayer s.1 (Order !!! (i - 1)%nat) (Order !!! i) EGPD_Output in
  (h, s.2 + brute_force_crossings (map (edge h) NodeEdges)).

Definition brute_force_total (h : Heap) (Order : list (list addr)) : nat :=
  (fold_left (brute_force_layer Order) (seq 1 (length Order - 1)) (h, 0)).2.

(** Two stores hold the same graph structure: they differ at most in the
    order values of nodes and in the two index fields of edges, the scratch
    fields that the ordering phase writes. *)
Definition same_structure (h h' : Heap) : Prop :=
  (∀ a, with_OrderValue f32_zero (node h a) = with_OrderValue f32_zero (node h' a)) ∧
  (∀ a, From (edge h a) = From (edge h' a) ∧ To (edge h a) = To (edge h' a)) ∧
  (∀ a, pin h a = pin h' a).

(** Same structure, and the same contents for the edges listed in [L]. *)
Definition agree_on (L : list addr) (h h' : Heap) : Prop :=
  same_structure h h' ∧ ∀ e, e ∈ L -> edge h e = edge h' e.

(** The crossing count of an ordering, as [CalculateCrossing] computes it
    in the store [h]. *)
Definition crossings (h : Heap) (Order : list (list addr)) : Z :=
  (CalculateCrossing h Order).2.

(** The orderings that the passes of [DoOrderingSweep] produce, in turn. *)
Fixpoint DoOrderingSweep_orders (Sort : SortFn) (k : nat) (i : Z) (h : Heap)
    (Best Order : list (list addr)) : list (list (list addr)) :=
  match k with
  | O => []
  | S k' =>
    let '(h, Order) :=
      SortInLayer Sort h Order (if (i mod 2 =? 0)%Z then EGPD_Input else EGPD_Output) in
    let '(h, cOrder) := CalculateCrossing h Order in
    let '(h, cBest) := CalculateCrossing h Best in
    let Best := if (cOrder <? cBest)%Z then Order else Best in
    Order :: DoOrderingSweep_orders Sort k' (i + 1)%Z h Best Order
  end.

(** There is an edge from [u] to [v]: [v] is the owner of the target pin
    of an out-edge of [u]. *)
Definition edge_to (h : Heap) (u v : addr) : Prop := v ∈ GetSuccessors h u.

(** No node of the graph lies on a directed cycle. *)
Definition acyclic (h : Heap) (g : FFormatterGraph) : Prop :=
  ∀ n, n ∈ Nodes g -> ¬ tc (edge_to h) n n.

(** Every edge is recorded at both ends, which are nodes of the graph: in
    the out-edges of its tail and in the in-edges of its head. *)
Definition edges_recorded (h : Heap) (g : FFormatterGraph) : Prop :=
  (∀ u v, u ∈ Nodes g -> v ∈ GetSuccessors h u -> v ∈ Nodes g ∧ u ∈ GetPredecessors h v) ∧
  (∀ u v, v ∈ Nodes g -> u ∈ GetPredecessors h v -> u ∈ Nodes g ∧ v ∈ GetSuccessors h u).

(** Every edge of the graph in the store [h] is still an edge in the store
    [h'], in its original direction or in the opposite one. *)
Definition edges_kept (h h' : Heap) (g : FFormatterGraph) : Prop :=
  ∀ u v, u ∈ Nodes g -> v ∈ GetSuccessors h u ->
         v ∈ GetSuccessors h' u ∨ u ∈ GetSuccessors h' v.

(** The node [n] is in the layer of index [i] of a layered list. *)
Definition layer_of (LL : list (list addr)) (n : addr) (i : nat) : Prop :=
  ∃ Layer, LL !! i = Some Layer ∧ n ∈ Layer.

(** Two stores hold the same graph: they differ at most in the path depth
    of nodes, the field that the layering phase writes. *)
Definition same_graph (h h' : Heap) : Prop :=
  (∀ a, edge h a = edge h' a) ∧ (∀ a, pin h a = pin h' a) ∧
  (∀ a, with_PathDepth 0 (node h a) = with_PathDepth 0 (node h' a)).

(** The number of entries of the node array whose path depth is still 0. *)
Definition depth0_count (h : Heap) (g : FFormatterGraph) : nat :=
  length (filter (λ n, PathDepth (node h n) = 0%Z) (Nodes g)).

(** The path depths during [CalculateLongestPath], before the round that
    assigns the depth [k]: the depths assigned so far are below [k], and an
    assigned node lies strictly above each of its successors, all of which
    are assigned. *)
Definition depth_inv (g : FFormatterGraph) (h : Heap) (k : Z) : Prop :=
  (∀ n, n ∈ Nodes g -> (0 <= PathDepth (node h n) < k)%Z) ∧
  (∀ u v, u ∈ Nodes g -> PathDepth (node h u) ≠ 0%Z -> v ∈ GetSuccessors h u ->
          (0 < PathDepth (node h v) < PathDepth (node h u))%Z).

(** The state of the loop of [DoLayering] when the counter is about to
    take the value [i]: the set holds the nodes of the layers built so far,
    no node is in two layers, the predecessors of a layered node are in
    earlier layers, and every node deeper than [i] is layered. *)
Definition layering_inv (h : Heap) (g : FFormatterGraph) (Set_ : list addr)
    (LL : list (list addr)) (i : Z) : Prop :=
  (∀ x, x ∈ Set_ <-> ∃ j, layer_of LL x j) ∧
  (∀ x j1 j2, layer_of LL x j1 -> layer_of LL x j2 -> j1 = j2) ∧
  (∀ v j, layer_of LL v j ->
          ∀ u, u ∈ GetPredecessors h v -> ∃ j', j' < j ∧ layer_of LL u j') ∧
  (∀ n, n ∈ Nodes g -> (i < PathDepth (node h n))%Z -> n ∈ Set_) ∧
  (∀ x, x ∈ Set_ -> x ∈ Nodes g).

(** The node that an edge leads to: the owner of its target pin. *)
Definition target (h : Heap) (e : addr) : addr := OwningNode (pin h (To (edge h e))).

(** An out-edge in good order: the edge, its two pins and its target node
    are allocated, the source pin is an output pin and the target pin an
    input pin. *)
Definition edge_ok (h : Heap) (e : addr) : Prop :=
  e < next h ∧ From (edge h e) < next h ∧ To (edge h e) < next h ∧
  Direction (pin h (From (edge h e))) = EGPD_Output ∧
  Direction (pin h (To (edge h e))) = EGPD_Input ∧
  target h e < next h.

(** The nodes of the layered list are allocated and their out-edges are in
    good order. *)
Definition layers_ok (h : Heap) (LL : list (list addr)) : Prop :=
  ∀ n j, layer_of LL n j -> n < next h ∧ ∀ e, e ∈ OutEdges (node h n) -> edge_ok h e.

(** No node is in two layers. *)
Definition layers_disjoint (LL : list (list addr)) : Prop :=
  ∀ n j1 j2, layer_of LL n j1 -> layer_of LL n j2 -> j1 = j2.

(** Every out-edge of [n], a node of layer [j], leads to the layer that
    immediately follows. *)
Definition next_layer (h : Heap) (LL : list (list addr)) (n : addr) (j : nat) : Prop :=
  ∀ v, v ∈ GetSuccessors h n -> layer_of LL v (S j).

(** Every out-edge of [n], a node of layer [j], leads to a later layer. *)
Definition later_layer (h : Heap) (LL : list (list addr)) (n : addr) (j : nat) : Prop :=
  ∀ v, v ∈ GetSuccessors h n -> ∃ j', j < j' ∧ layer_of LL v j'.

(** The effect of [AddDummyNodes_edge] for the edge [Edge] of [Node]: the
    store [h] with layered list [LL] becomes [h'] with [LL']. *)
Definition dummy_step (h : Heap) (LL : list (list addr)) (i : nat) (Node Edge : addr)
    (h' : Heap) (LL' : list (list addr)) : Prop :=
  let d := next h in
  next h' = 7 + d ∧
  (∀ e, e < d -> edge h' e = edge h e) ∧
  (∀ x, x < d -> pin h' x = pin h x) ∧
  (∀ n, n < d -> InPins (node h' n) = InPins (node h n) ∧
                 OutPins (node h' n) = OutPins (node h n)) ∧
  (∀ n, n < d -> n ≠ Node -> OutEdges (node h' n) = OutEdges (node h n)) ∧
  OutEdges (node h' Node) =
    RemoveFirst (λ e, bool_decide (From (edge h e) = From (edge h Edge) ∧
                                   To (edge h e) = To (edge h Edge)))
                (OutEdges (node h Node)) ++ [3 + d] ∧
  edge h' (3 + d) = mkEdge (From (edge h Edge)) 0 (1 + d) 0 ∧
  pin h' (1 + d) = mkPin (S (nextGuid h)) None EGPD_Input d ZeroVector ∧
  pin h' (2 + d) = mkPin (S (S (nextGuid h))) None EGPD_Output d ZeroVector ∧
  OutEdges (node h' d) = [5 + d] ∧
  edge h' (5 + d) = mkEdge (2 + d) 0 (To (edge h Edge)) 0 ∧
  InPins (node h' d) = [1 + d] ∧ OutPins (node h' d) = [2 + d] ∧
  LL' = <[S i := LL !!! S i ++ [d]]> LL.

(** The state of [AddDummyNodes] while the layer [k] is processed: the
    layers before [k] are finished, as are the nodes [Done] of the layer
    [k], and every out-edge of a layered node leads to a later layer. *)
Definition dummies_inv (h : Heap) (LL : list (list addr)) (k : nat) (Done : list addr)
    : Prop :=
  layers_ok h LL ∧ layers_disjoint LL ∧
  (∀ n j, layer_of LL n j -> j < k -> next_layer h LL n j) ∧
  (∀ n j, layer_of LL n j -> later_layer h LL n j) ∧
  (∀ n, n ∈ Done -> layer_of LL n k ∧ next_layer h LL n k).

(** A chain from [u] to [v] in the layered graph: an edge, or an edge to a
    node allocated at or after [N0] from which a chain leads on to [v]. *)
Inductive chain (h : Heap) (LL : list (list addr)) (N0 : nat) : addr -> addr -> Prop :=
  | chain_edge (u v : addr) (j : nat) :
      layer_of LL u j -> v ∈ GetSuccessors h u -> chain h LL N0 u v
  | chain_step (u d v : addr) (j : nat) :
      layer_of LL u j -> d ∈ GetSuccessors h u -> N0 <= d ->
      chain h LL N0 d v -> chain h LL N0 u v.

(** What [AddDummyNodes] has added to the graph [g0] in the store [h0]: the
    nodes added are allocated after [h0], they are the layered nodes that
    are, they have one input pin and one output pin, and every edge of a
    layered node of [g0] is still there as a chain through them. *)
Definition synthetic_inv (h0 : Heap) (g0 : FFormatterGraph) (h : Heap) (g : FFormatterGraph)
    : Prop :=
  next h0 <= next h ∧
  (∀ n, n ∈ Nodes g ->
        n ∈ Nodes g0 ∨ (next h0 <= n ∧ ∃ j, layer_of (LayeredList g) n j)) ∧
  (∀ n j, layer_of (LayeredList g) n j -> next h0 <= n ->
          n ∈ Nodes g ∧
          length (InPins (node h n)) = 1 ∧ length (OutPins (node h n)) = 1) ∧
  (∀ u v j, layer_of (LayeredList g0) u j -> v ∈ GetSuccessors h0 u ->
            chain h (LayeredList g) (next h0) u v).

(** ** Notions for copies *)

(** The addresses from [lo] up to, and without, [hi]. *)
Definition in_range (lo hi : nat) (a : addr) : Prop := lo <= a < hi.

(** The pins of a node, and the pins of the nodes of a list. *)
Definition pins_of (h : Heap) (n : addr) : list addr :=
  InPins (node h n) ++ OutPins (node h n).
Definition all_pins (h : Heap) (ns : list addr) : list addr :=
  ns ≫= pins_of h.

(** The objects below [N] are the same in the two stores. *)
Definition frame (N : nat) (h h' : Heap) : Prop :=
  ∀ a, a < N ->
       node h' a = node h a ∧ pin h' a = pin h a ∧ edge h' a = edge h a ∧
       graph h' a = graph h a.

(** The store [h'] is [h] with objects released, all at addresses that
    satisfy [P]. *)
Definition shrinks (P : addr -> Prop) (h h' : Heap) : Prop :=
  next h' = next h ∧
  ∀ a, (node h' a = node h a ∨ (P a ∧ node h' a = null_node)) ∧
       (pin h' a = pin h a ∨ (P a ∧ pin h' a = null_pin)) ∧
       (edge h' a = edge h a ∨ (P a ∧ edge h' a = null_edge)) ∧
       (graph h' a = graph h a ∨ (P a ∧ graph h' a = null_graph)).

(** A node that lies in a range of addresses with its edges and pins. *)
Definition node_in (lo hi : nat) (h : Heap) (n : addr) : Prop :=
  in_range lo hi n ∧
  Forall (in_range lo hi) (InEdges (node h n)) ∧
  Forall (in_range lo hi) (OutEdges (node h n)) ∧
  Forall (in_range lo hi) (InPins (node h n)) ∧
  Forall (in_range lo hi) (OutPins (node h n)).

(** A graph that lies in a range of addresses with everything it owns,
    its owned graphs being nested less than [d] deep. *)
Fixpoint graph_in (d lo hi : nat) (h : Heap) (g : FFormatterGraph) : Prop :=
  match d with
  | O => False
  | S d' =>
    (∀ n, n ∈ Nodes g ->
          node_in lo hi h n ∧
          ∀ s, SubGraph (node h n) = Some s ->
               in_range lo hi s ∧ graph_in d' lo hi h (graph h s)) ∧
    (∀ i, i ∈ IsolatedGraphs g -> in_range lo hi i ∧ graph_in d' lo hi h (graph h i))
  end.

(** The nodes of a graph as the constructors build them, all below [N]:
    node and pin identifiers are not shared, a pin is in the array of its
    direction and knows its node, and an edge starts at a pin of the node
    that holds it and leads to a pin of a node of the graph. *)
Definition graph_ok (N : nat) (h : Heap) (g : FFormatterGraph) : Prop :=
  NoDup (map (λ n, Guid (node h n)) (Nodes g)) ∧
  NoDup (map (λ p, PinGuid (pin h p)) (all_pins h (Nodes g))) ∧
  ∀ n, n ∈ Nodes g ->
    0 < n < N ∧
    (∀ p, p ∈ InPins (node h n) ->
          0 < p < N ∧ Direction (pin h p) = EGPD_Input ∧ OwningNode (pin h p) = n) ∧
    (∀ p, p ∈ OutPins (node h n) ->
          0 < p < N ∧ Direction (pin h p) = EGPD_Output ∧ OwningNode (pin h p) = n) ∧
    (∀ e, e ∈ InEdges (node h n) ->
          0 < e < N ∧ From (edge h e) ∈ InPins (node h n) ∧
          ∃ m, m ∈ Nodes g ∧ To (edge h e) ∈ OutPins (node h m)) ∧
    (∀ e, e ∈ OutEdges (node h n) ->
          0 < e < N ∧ From (edge h e) ∈ OutPins (node h n) ∧
          ∃ m, m ∈ Nodes g ∧ To (edge h e) ∈ InPins (node h m)).

(** A well-formed graph, its owned graphs being well-formed too and nested
    less than [d] deep. *)
Fixpoint wf_graph (d N : nat) (h : Heap) (g : FFormatterGraph) : Prop :=
  match d with
  | O => False
  | S d' =>
    graph_ok N h g ∧
    (∀ n s, n ∈ Nodes g -> SubGraph (node h n) = Some s ->
            0 < s < N ∧ wf_graph d' N h (graph h s)) ∧
    (∀ i, i ∈ IsolatedGraphs g -> 0 < i < N ∧ wf_graph d' N h (graph h i))
  end.

(** What a copy constructor of graphs does on a well-formed graph nested
    less than [d] deep: it returns a graph that lies, with everything it
    owns, in the addresses it has allocated, and leaves the rest alone. *)
Definition copies (d : nat)
    (cg : Heap -> FFormatterGraph -> option (Heap * FFormatterGraph)) : Prop :=
  ∀ N h g, N <= next h -> wf_graph d N h g ->
    ∃ h' c, cg h g = Some (h', c) ∧ next h <= next h' ∧ frame (next h) h h' ∧
            graph_in d (next h) (next h') h' c.

(** The pin [P'] of the store [h'] is the copy, for the node [X], of the
    pin [P] of the store [h]. *)
Definition mirror_pin (h h' : Heap) (X P P' : addr) : Prop :=
  pin h' P' = mkPin (PinGuid (pin h P)) (OriginalPin (pin h P)) (Direction (pin h P)) X
                    (NodeOffset (pin h P)).

(** The effect of [new FFormatterNode(Other)] in the store [h]: the copy
    is at the address [next h]; the copy of its sub-graph, when there is
    one, lies between that address and [mid], and the copies of the pins
    are at the addresses from [mid] on. *)
Definition node_copied (d : nat) (h : Heap) (Other : addr) (h' : Heap) (mid : nat) : Prop :=
  S (next h) <= mid ∧
  next h' = mid + length (InPins (node h Other)) + length (OutPins (node h Other)) ∧
  frame (next h) h h' ∧
  node h' (next h) =
    mkNode (Guid (node h Other)) (OriginalNode (node h Other))
           (if SubGraph (node h Other) is Some _ then Some (S (next h)) else None)
           (Size (node h Other)) [] []
           (seq mid (length (InPins (node h Other))))
           (seq (mid + length (InPins (node h Other))) (length (OutPins (node h Other))))
           (PathDepth (node h Other)) f32_zero (Position (node h Other)) ∧
  (∀ i P, InPins (node h Other) !! i = Some P ->
          mirror_pin h h' (next h) P (mid + i)) ∧
  (∀ i P, OutPins (node h Other) !! i = Some P ->
          mirror_pin h h' (next h) P (mid + length (InPins (node h Other)) + i)) ∧
  match SubGraph (node h Other) with
  | Some _ => S (next h) < mid ∧ graph_in d (S (next h)) mid h' (graph h' (S (next h)))
  | None => mid = S (next h)
  end.

(** The pin [P'] is the copy of [P] and the pin map of [c] finds it. *)
Definition pin_image (h h' : Heap) (c : FFormatterGraph) (X P P' : addr) : Prop :=
  mirror_pin h h' X P P' ∧ PinsMap c !! PinGuid (pin h P) = Some P'.

(** The node [X] of the graph [c] in the store [h'] is the copy of the
    node [N] of the store [h]: it has the identifier of [N], its pins are
    the copies of the pins of [N], the maps of [c] find it and its pins,
    and it lies from [lo] on with everything it owns. *)
Definition node_image (lo : nat) (h h' : Heap) (c : FFormatterGraph) (N X : addr) : Prop :=
  node_in lo (next h') h' X ∧
  Guid (node h' X) = Guid (node h N) ∧
  NodesMap c !! Guid (node h N) = Some X ∧
  Forall2 (pin_image h h' c X) (InPins (node h N)) (InPins (node h' X)) ∧
  Forall2 (pin_image h h' c X) (OutPins (node h N)) (OutPins (node h' X)).

(** The nodes [Xs] of a copy were allocated one after the other: the pins
    and the sub-graph of each lie between it and the next one, or [E] for
    the last one, the sub-graph with everything it owns. *)
Definition blocks (d : nat) (h' : Heap) (Xs : list addr) (E : nat) : Prop :=
  ∀ i X, Xs !! i = Some X ->
    X < default E (Xs !! S i) ∧ default E (Xs !! S i) <= E ∧
    Forall (in_range (S X) (default E (Xs !! S i))) (pins_of h' X) ∧
    ∀ s, SubGraph (node h' X) = Some s ->
         in_range (S X) (default E (Xs !! S i)) s ∧
         graph_in d (S X) (default E (Xs !! S i)) h' (graph h' s).

(** The state of the copy constructor in its first loop, when the nodes
    [Ns] of the graph in [h] have been copied. *)
Definition copy_nodes_inv (d : nat) (h : Heap) (Ns : list addr) (h' : Heap)
    (c : FFormatterGraph) : Prop :=
  next h <= next h' ∧ frame (next h) h h' ∧ IsolatedGraphs c = [] ∧
  NoDup (Nodes c) ∧ blocks d h' (Nodes c) (next h') ∧
  Forall2 (node_image (next h) h h' c) Ns (Nodes c) ∧
  Forall (λ X, InEdges (node h' X) = [] ∧ OutEdges (node h' X) = []) (Nodes c) ∧
  (∀ k X, NodesMap c !! k = Some X -> k ∈ map (λ n, Guid (node h n)) Ns) ∧
  (∀ k P, PinsMap c !! k = Some P -> k ∈ map (λ p, PinGuid (pin h p)) (all_pins h Ns)).

(** The edge [e'] of the copy is the copy of the edge [e]: its pins are
    the ones that the pin map of [c] finds for the pins of [e]. *)
Definition edge_image (h h' : Heap) (c : FFormatterGraph) (e e' : addr) : Prop :=
  PinsMap c !! PinGuid (pin h (From (edge h e))) = Some (From (edge h' e')) ∧
  PinsMap c !! PinGuid (pin h (To (edge h e))) = Some (To (edge h' e')).

(** The state of the copy constructor in its second loop, when the edges
    of the first [k] nodes of [g] have been copied; [h1] is the store at
    the start of the loop. *)
Definition copy_edges_inv (h : Heap) (g c : FFormatterGraph) (h1 : Heap) (k : nat)
    (h2 : Heap) : Prop :=
  next h1 <= next h2 ∧ frame (next h) h h2 ∧
  (∀ a, pin h2 a = pin h1 a) ∧ (∀ a, graph h2 a = graph h1 a) ∧
  (∀ a, a < next h1 -> edge h2 a = edge h1 a) ∧
  (∀ a, a ∉ Nodes c -> node h2 a = node h1 a) ∧
  (∀ i N X, Nodes g !! i = Some N -> Nodes c !! i = Some X ->
      ∃ ie oe, node h2 X = with_InEdges ie (with_OutEdges oe (node h1 X)) ∧
        Forall (in_range (next h1) (next h2)) ie ∧
        Forall (in_range (next h1) (next h2)) oe ∧
        if decide (i < k)
        then Forall2 (edge_image h h2 c) (InEdges (node h N)) ie ∧
             Forall2 (edge_image h h2 c) (OutEdges (node h N)) oe
        else ie = [] ∧ oe = []).

(** The state of the copy constructor in its third loop: [c] and [h2] are
    the copy and the store at its start. *)
Definition copy_isolated_inv (d : nat) (c : FFormatterGraph) (h2 h3 : Heap)
    (c3 : FFormatterGraph) : Prop :=
  next h2 <= next h3 ∧ frame (next h2) h2 h3 ∧
  c3 = with_IsolatedGraphs (IsolatedGraphs c3) c ∧
  ∀ a, a ∈ IsolatedGraphs c3 ->
       in_range (next h2) (next h3) a ∧
       graph_in d (next h2) (next h3) h3 (graph h3 a).

(** The node [X] of the copy [c] is the copy of the node [N], with its
    pins and its edges. *)
Definition full_image (h h' : Heap) (c : FFormatterGraph) (N X : addr) : Prop :=
  Guid (node h' X) = Guid (node h N) ∧
  Forall2 (pin_image h h' c X) (InPins (node h N)) (InPins (node h' X)) ∧
  Forall2 (pin_image h h' c X) (OutPins (node h N)) (OutPins (node h' X)) ∧
  Forall2 (edge_image h h' c) (InEdges (node h N)) (InEdges (node h' X)) ∧
  Forall2 (edge_image h h' c) (OutEdges (node h N)) (OutEdges (node h' X)).

(** The graph [c] of the store [h'] is the copy of the graph [g] of the
    store [h], made in the addresses from [next h] on: its nodes are the
    copies of the nodes of [g], in the same order. *)
Definition copied (d : nat) (h : Heap) (g : FFormatterGraph) (h' : Heap)
    (c : FFormatterGraph) : Prop :=
  next h <= next h' ∧ frame (next h) h h' ∧
  graph_in d (next h) (next h') h' c ∧
  graph_ok (next h') h' c ∧
  Forall2 (full_image h h' c) (Nodes g) (Nodes c) ∧
  ∃ E, E <= next h' ∧ blocks (pred d) h' (Nodes c) E ∧
       ∀ X e, X ∈ Nodes c -> e ∈ InEdges (node h' X) ++ OutEdges (node h' X) -> E <= e.

(** [graph_ok] and [wf_graph] in a form that can be decided by
    evaluation, for the example graphs. *)
Definition graph_okd (N : nat) (h : Heap) (g : FFormatterGraph) : Prop :=
  NoDup (map (λ n, Guid (node h n)) (Nodes g)) ∧
  NoDup (map (λ p, PinGuid (pin h p)) (all_pins h (Nodes g))) ∧
  Forall (λ n,
    (0 < n ∧ n < N) ∧
    Forall (λ p, (0 < p ∧ p < N) ∧ Direction (pin h p) = EGPD_Input ∧
                 OwningNode (pin h p) = n) (InPins (node h n)) ∧
    Forall (λ p, (0 < p ∧ p < N) ∧ Direction (pin h p) = EGPD_Output ∧
                 OwningNode (pin h p) = n) (OutPins (node h n)) ∧
    Forall (λ e, (0 < e ∧ e < N) ∧ From (edge h e) ∈ InPins (node h n) ∧
                 Exists (λ m, To (edge h e) ∈ OutPins (node h m)) (Nodes g))
           (InEdges (node h n)) ∧
    Forall (λ e, (0 < e ∧ e < N) ∧ From (edge h e) ∈ OutPins (node h n) ∧
                 Exists (λ m, To (edge h e) ∈ InPins (node h m)) (Nodes g))
           (OutEdges (node h n))) (Nodes g).

Fixpoint wf_graphd (d N : nat) (h : Heap) (g : FFormatterGraph) : Prop :=
  match d with
  | O => False
  | S d' =>
    graph_okd N h g ∧
    Forall (λ n, match SubGraph (node h n) with
                 | Some s => (0 < s ∧ s < N) ∧ wf_graphd d' N h (graph h s)
                 | None => True
                 end) (Nodes g) ∧
    Forall (λ i, (0 < i ∧ i < N) ∧ wf_graphd d' N h (graph h i)) (IsolatedGraphs g)
  end.

Global Instance graph_okd_dec (N : nat) (h : Heap) (g : FFormatterGraph) :
  Decision (graph_okd N h g).
Proof. unfold graph_okd. apply _. Defined.

Global Instance wf_graphd_dec (d : nat) :
  ∀ (N : nat) (h : Heap) (g : FFormatterGraph), Decision (wf_graphd d N h g).
Proof.
  induction d as [|d IH]; intros N h g; cbn [wf_graphd]; [apply _|].
  apply and_dec; [apply _|]. apply and_dec.
  - apply Forall_dec. intros n. destruct (SubGraph (node h n)); apply _.
  - apply _.
Defined.

(** ** Notions for the removal of cycles *)

(** The pins of an edge, from its own end to the other one, and read the
    other way round. *)
Definition edge_key (h : Heap) (e : addr) : addr * addr :=
  (From (edge h e), To (edge h e)).
Definition rev_key (h : Heap) (e : addr) : addr * addr :=
  (To (edge h e), From (edge h e)).

(** [RemoveFirst] for each key of [ks] in turn, on the elements of [L]
    whose key under [κ] is that key. *)
Definition remove_keys {A K} `{EqDecision K} (κ : A -> K) (ks : list K) (L : list A)
    : list A :=
  fold_left (λ L k, RemoveFirst (λ x, bool_decide (κ x = k)) L) ks L.

(** The pairs of pins of the edges that the nodes [Ns] hold as out-edges,
    and of the edges that they hold as in-edges, these read from the far
    end: a link of the editor gives one pair to each list. *)
Definition out_pairs (h : Heap) (Ns : list addr) : list (addr * addr) :=
  Ns ≫= λ n, map (edge_key h) (OutEdges (node h n)).
Definition in_pairs (h : Heap) (Ns : list addr) : list (addr * addr) :=
  Ns ≫= λ n, map (rev_key h) (InEdges (node h n)).

(** Every edge is recorded at both of its ends: the out-edges and the
    in-edges of the nodes are the same links, each as many times. *)
Definition edges_paired (h : Heap) (Ns : list addr) : Prop :=
  out_pairs h Ns ≡ₚ in_pairs h Ns.

(** The node [a] after the removal of the node [X] from its graph: it has
    lost its edges from and to [X] and is otherwise as it was in the store
    [h], with its pins and the edges it keeps. *)
Definition node_kept (h h' : Heap) (X a : addr) : Prop :=
  node h' a =
    with_InEdges (filter (λ e, To (edge h e) ∉ OutPins (node h X)) (InEdges (node h a)))
      (with_OutEdges (filter (λ e, To (edge h e) ∉ InPins (node h X)) (OutEdges (node h a)))
         (node h a)) ∧
  (∀ p, p ∈ pins_of h a -> pin h' p = pin h p) ∧
  (∀ e, e ∈ InEdges (node h a) ++ OutEdges (node h a) -> edge h' e = edge h e).

(** A check that two lists are permutations of one another, to decide
    [edges_paired] on the example graphs. *)
Fixpoint remove_one {A} `{EqDecision A} (x : A) (l : list A) : option (list A) :=
  match l with
  | [] => None
  | y :: r => if decide (x = y) then Some r else (λ r', y :: r') <$> remove_one x r
  end.

Fixpoint permb {A} `{EqDecision A} (l1 l2 : list A) : bool :=
  match l1 with
  | [] => bool_decide (l2 = [])
  | x :: r => match remove_one x l2 with
              | Some l2' => permb r l2'
              | None => false
              end
  end.

(** The diamond, and a fifth node E built in its store but not yet added
    to the graph nor linked. *)
Definition diamond4_fresh : addr * Heap :=
  FFormatterNode_of diamond4.1 104 104 [(18, EGPD_Input); (19, EGPD_Output)].

(** ** FFastAndSimplePositioningStrategy: the position maps *)

(** The three maps that [Initialize] fills: the index of each node in its
    layer, and the node before it and the node after it in the layer, the
    null pointer at the two ends. *)
Record FPositionMaps := mkPositionMaps {
  PosMap : gmap addr Z;
  PredecessorMap : gmap addr (option addr);
  SuccessorMap : gmap addr (option addr)
}.

(** The body of the inner [for] of [Initialize], for the index [i]. *)
Definition Initialize_node (Layer : list addr) (m : FPositionMaps) (i : nat)
    : FPositionMaps :=
  let Node := Layer !!! i in
  mkPositionMaps
    (<[Node := Z.of_nat i]> (PosMap m))
    (<[Node := if decide (i ≠ 0) then Some (Layer !!! (i - 1)) else None]>
       (PredecessorMap m))
    (<[Node := if decide (i ≠ length Layer - 1) then Some (Layer !!! (i + 1)) else None]>
       (SuccessorMap m)).

(** [FFastAndSimplePositioningStrategy::Initialize], up to its last
    statement, the call of [MarkConflicts], which writes none of the three
    maps. *)
Definition Initialize (LayeredNodes : list (list addr)) : FPositionMaps :=
  fold_left (λ m Layer, fold_left (Initialize_node Layer) (seq 0 (length Layer)) m)
            LayeredNodes (mkPositionMaps ∅ ∅ ∅).

(** What the maps hold for the node at index [i] of [Layer]. *)
Definition positioned (m : FPositionMaps) (Layer : list addr) (i : nat) (n : addr) : Prop :=
  PosMap m !! n = Some (Z.of_nat i) ∧
  PredecessorMap m !! n = Some (match i with O => None | S i' => Layer !! i' end) ∧
  SuccessorMap m !! n = Some (Layer !! S i).

(** Where the copy constructor has put the parts of the copy [c]: the
    nodes with their pins and sub-graphs below [E], in blocks; the edges
    from [E] up to [E2]; the isolated graphs from [E2] on. *)
Definition copy_regions (d : nat) (h h' : Heap) (c : FFormatterGraph) (E E2 : nat) : Prop :=
  next h <= E ∧ E <= E2 ∧ E2 <= next h' ∧
  blocks d h' (Nodes c) E ∧
  (∀ X e, X ∈ Nodes c -> e ∈ InEdges (node h' X) ++ OutEdges (node h' X) ->
          in_range E E2 e) ∧
  (∀ i, i ∈ IsolatedGraphs c ->
        in_range E2 (next h') i ∧ graph_in d E2 (next h') h' (graph h' i)).

(** ** RemoveCycle: the working copy and the graph being formatted *)

(** The maps of the graph know the identifier of every node and of every
    pin of the graph, and they hold nodes and pins below [Nb], the pins
    with owners below [Nb]. *)
Definition maps_ok (Nb : nat) (h : Heap) (g : FFormatterGraph) : Prop :=
  Forall (λ N, is_Some (NodesMap g !! Guid (node h N))) (Nodes g) ∧
  Forall (λ P, is_Some (PinsMap g !! PinGuid (pin h P))) (all_pins h (Nodes g)) ∧
  map_Forall (λ _ n, n < Nb) (NodesMap g) ∧
  map_Forall (λ _ p, p < Nb ∧ OwningNode (pin h p) < Nb) (PinsMap g).

#[global] Instance maps_ok_dec (Nb : nat) (h : Heap) (g : FFormatterGraph) :
  Decision (maps_ok Nb h g).
Proof. unfold maps_ok. apply _. Defined.

(** The store [h'] is [h] below [N0], but for edges taken out of the edge
    arrays of nodes: no edge is added to an array or moved in it, and no
    pin, edge or graph is changed. *)
Definition edges_removed (N0 : nat) (h h' : Heap) : Prop :=
  ∀ a, a < N0 ->
    pin h' a = pin h a ∧ edge h' a = edge h a ∧ graph h' a = graph h a ∧
    ∃ ie oe, node h' a = with_InEdges ie (with_OutEdges oe (node h a)) ∧
             sublist ie (InEdges (node h a)) ∧ sublist oe (OutEdges (node h a)).

(** The state of [RemoveCycle] in its loops.  [c] is the working copy of
    the graph [g], made from [N0] on: its nodes lie below [E] in the order
    of their allocation, its edges between [E] and [E2] and its isolated
    graphs from [E2] on; it is well formed with its edges recorded at both
    ends, and [g] knows the identifiers of its nodes and pins. *)
Record clone_inv (d N0 E E2 : nat) (g : FFormatterGraph) (h : Heap) (c : FFormatterGraph)
    : Prop := mk_clone_inv {
  ci_bounds : N0 <= E ∧ E <= E2 ∧ E2 <= next h;
  ci_ok : graph_ok (next h) h c;
  ci_paired : edges_paired h (Nodes c);
  ci_blocks : blocks d h (Nodes c) E;
  ci_above : ∀ Y, Y ∈ Nodes c -> N0 <= Y;
  ci_edges : ∀ Y e, Y ∈ Nodes c -> e ∈ InEdges (node h Y) ++ OutEdges (node h Y) ->
                    in_range E E2 e;
  ci_arrays : ∀ Y, Y ∈ Nodes c ->
                   array_ok (OutEdges (node h Y)) ∧ array_ok (InEdges (node h Y));
  ci_links : ∀ Y, Y ∈ Nodes c ->
                  is_Some (NodesMap g !! Guid (node h Y)) ∧
                  ∀ P, P ∈ pins_of h Y -> is_Some (PinsMap g !! PinGuid (pin h P));
  ci_maps : map_Forall (λ _ n, n < N0) (NodesMap g) ∧
            map_Forall (λ _ p, p < N0 ∧ OwningNode (pin h p) < N0) (PinsMap g);
  ci_isolated : ∀ i, i ∈ IsolatedGraphs c ->
                     in_range E2 (next h) i ∧ graph_in d E2 (next h) h (graph h i)
}.

(** ** RemoveCycle: the order in which the nodes leave the working copy *)

(** [PinsMap[Pin->Guid]] in the graph [g], for a pin of the working copy. *)
Definition pin_of_guid (h : Heap) (g : FFormatterGraph) (p : addr) : addr :=
  default 0 (PinsMap g !! PinGuid (pin h p)).

(** The two pins of [g] that the cut looks up for an edge of the working
    copy. *)
Definition cut_key (h : Heap) (g : FFormatterGraph) (e : addr) : addr * addr :=
  (pin_of_guid h g (From (edge h e)), pin_of_guid h g (To (edge h e))).

(** The maps of the graph find every node and every pin of the graph by
    its identifier, as [AddNode] fills them. *)
Definition maps_exact (h : Heap) (g : FFormatterGraph) : Prop :=
  Forall (λ N, NodesMap g !! Guid (node h N) = Some N) (Nodes g) ∧
  Forall (λ P, PinsMap g !! PinGuid (pin h P) = Some P) (all_pins h (Nodes g)).

#[global] Instance maps_exact_dec (h : Heap) (g : FFormatterGraph) :
  Decision (maps_exact h g).
Proof. unfold maps_exact. apply _. Defined.

(** The list [l] is a topological order of the graph: it lists the nodes
    of [g], and every edge leads from a node to a node further on in the
    list.  A graph with such an order has no directed cycle. *)
Definition topological (h : Heap) (g : FFormatterGraph) (l : list addr) : Prop :=
  l ≡ₚ Nodes g ∧
  ∀ i j a b, l !! i = Some a -> l !! j = Some b -> b ∈ GetSuccessors h a -> i < j.

(** The node [X] of the working copy stands for the node [N] of the graph:
    its pins are found as the pins of [N], its out-edges as the out-edges
    of [N] towards the nodes [Rem] that are still in the working copy, and
    it is itself found as [N].  Pins and edges are read in [h0], the store
    after the copy. *)
Definition sim_node (g : FFormatterGraph) (h0 h : Heap) (Rem : list addr) (N X : addr)
    : Prop :=
  map (pin_of_guid h0 g) (InPins (node h0 X)) = InPins (node h0 N) ∧
  map (pin_of_guid h0 g) (OutPins (node h0 X)) = OutPins (node h0 N) ∧
  map (cut_key h0 g) (OutEdges (node h X))
  = map (edge_key h0) (filter (λ e, target h0 e ∈ Rem) (OutEdges (node h N))) ∧
  NodesMap g !! Guid (node h X) = Some N.

(** The state of the loops of [RemoveCycle] seen from the graph [g] being
    formatted.  [Rem] are the nodes of [g] whose copy is still in the
    working copy [c]; [L] are the nodes taken out as sources or as median
    nodes, in that order, and [R] the nodes taken out as sinks, last
    first.  No edge of [g] leads back in [L], out of [R], or back in
    [R], and the edges of [g] are recorded at both ends. *)
Record sim_inv (Nb N0 : nat) (g : FFormatterGraph) (h0 h : Heap) (c : FFormatterGraph)
    (L Rem R : list addr) : Prop := mk_sim_inv {
  si_ok : graph_ok Nb h0 g;
  si_le : Nb <= N0;
  si_removed : edges_removed N0 h0 h;
  si_clone : ∀ X, X ∈ Nodes c ->
    InPins (node h X) = InPins (node h0 X) ∧ OutPins (node h X) = OutPins (node h0 X) ∧
    (∀ p, p ∈ pins_of h0 X -> pin h p = pin h0 p) ∧
    (∀ e, e ∈ InEdges (node h X) ++ OutEdges (node h X) -> edge h e = edge h0 e);
  si_guid : ∀ X p, X ∈ Nodes c -> p ∈ pins_of h0 X ->
    PinGuid (pin h0 (pin_of_guid h0 g p)) = PinGuid (pin h0 p);
  si_perm : Nodes g ≡ₚ L ++ Rem ++ R;
  si_nodes : Forall2 (sim_node g h0 h Rem) Rem (Nodes c);
  si_left : ∀ a e j, a ∈ Nodes g -> e ∈ OutEdges (node h a) ->
    L !! j = Some (target h0 e) -> ∃ i, i < j ∧ L !! i = Some a;
  si_right : ∀ a e i, R !! i = Some a -> e ∈ OutEdges (node h a) ->
    ∃ j, i < j ∧ R !! j = Some (target h0 e);
  si_paired : edges_paired h (Nodes g)
}.

(** ** FFormatterGraph: isolated sub-graphs *)

(** [FFormatterGraph::GetOriginalNodes]; the result is a [TSet] of editor
    nodes.  [fuel] bounds the nesting of the graphs. *)
Fixpoint GetOriginalNodes (fuel : nat) (h : Heap) (this : FFormatterGraph)
    : option (list (option nat)) :=
  match fuel with
  | O => None
  | S fuel =>
    if decide (0 < Num (IsolatedGraphs this))%Z then
      fold_leftM (λ Result IsolatedGraph,
          r ← GetOriginalNodes fuel h (graph h IsolatedGraph);
          Some (SetAppend Result r))
        (IsolatedGraphs this) []
    else
      fold_leftM (λ Result Node,
          Result ← match SubGraphs this !! Guid (node h Node) with
                   | Some s =>
                     r ← GetOriginalNodes fuel h (graph h s);
                     Some (SetAppend Result r)
                   | None => Some Result
                   end;
          Some (if OriginalNode (node h Node) is Some _
                then SetAdd (OriginalNode (node h Node)) Result
                else Result))
        (Nodes this) []
  end.

(** The first statements of the [while] loop of [FindIsolated], after
    [Stack.Pop()]: what the node [Top] adds to [IsolatedNodes]. *)
Definition FindIsolated_add (fuel : nat) (h : Heap) (IsolatedNodes : list (option nat))
    (Top : addr) : option (list (option nat)) :=
  let IsolatedNodes := SetAdd (OriginalNode (node h Top)) IsolatedNodes in
  match SubGraph (node h Top) with
  | Some s =>
    r ← GetOriginalNodes fuel h (graph h s);
    Some (SetAppend IsolatedNodes r)
  | None => Some IsolatedNodes
  end.

(** A node that is not in [CheckedNodes] is added to it and pushed; the
    stack is kept with its top first. *)
Definition FindIsolated_push (s : list addr * list addr) (ConnectedNode : addr)
    : list addr * list addr :=
  let '(Stack, CheckedNodes) := s in
  if decide (ConnectedNode ∈ CheckedNodes) then (Stack, CheckedNodes)
  else (ConnectedNode :: Stack, SetAdd ConnectedNode CheckedNodes).

(** The [while] loop of [FindIsolated]; [k] bounds the number of rounds. *)
Fixpoint FindIsolated_while (k fuel : nat) (h : Heap) (Stack CheckedNodes : list addr)
    (IsolatedNodes : list (option nat))
    : option (list addr * list addr * list (option nat)) :=
  match Stack with
  | [] => Some (Stack, CheckedNodes, IsolatedNodes)
  | Top :: Stack =>
    match k with
    | O => None
    | S k =>
      IsolatedNodes ← FindIsolated_add fuel h IsolatedNodes Top;
      let ConnectedNodes := GetSuccessors h Top ++ GetPredecessors h Top in
      let '(Stack, CheckedNodes) :=
        fold_left FindIsolated_push ConnectedNodes (Stack, CheckedNodes) in
      FindIsolated_while k fuel h Stack CheckedNodes IsolatedNodes
    end
  end.

(** The body of the [for] loop of [FindIsolated]. *)
Definition FindIsolated_node (k fuel : nat) (h : Heap)
    (s : list (list (option nat)) * list addr * list addr) (Node : addr)
    : option (list (list (option nat)) * list addr * list addr) :=
  let '(Result, CheckedNodes, Stack) := s in
  let '(Stack, CheckedNodes) := FindIsolated_push (Stack, CheckedNodes) Node in
  '(Stack, CheckedNodes, IsolatedNodes) ←
    FindIsolated_while k fuel h Stack CheckedNodes [];
  Some (if decide (Num IsolatedNodes ≠ 0%Z) then Result ++ [IsolatedNodes] else Result,
        CheckedNodes, Stack).

(** [FFormatterGraph::FindIsolated], from the graph [TempGraph] that its
    first statements build on: the sets of editor nodes it returns. *)
Definition FindIsolated (k fuel : nat) (h : Heap) (TempGraph : FFormatterGraph)
    : option (list (list (option nat))) :=
  '(Result, _, _) ← fold_leftM (FindIsolated_node k fuel h) (Nodes TempGraph) ([], [], []);
  Some Result.

(** Two nodes are linked when one is a successor or a predecessor of the
    other. *)
Definition linked (h : Heap) (n m : addr) : Prop :=
  m ∈ GetSuccessors h n ++ GetPredecessors h n.

(** The nodes [C], in the order in which [FindIsolated] pops them, give
    the set [Os] of editor nodes. *)
Definition isolated_set (fuel : nat) (h : Heap) (C : list addr) (Os : list (option nat))
    : Prop :=
  fold_leftM (FindIsolated_add fuel h) C [] = Some Os.

(** The nodes [C] are a connected component of the graph: they are linked
    to nodes of [C] only, and all can be reached from one of them. *)
Definition component (h : Heap) (C : list addr) : Prop :=
  (∀ n m, n ∈ C -> linked h n m -> m ∈ C) ∧
  ∃ r, r ∈ C ∧ ∀ n, n ∈ C -> rtc (linked h) r n.

(** ** GetEdgeLinkedToLayer: the numbers of the pins of a layer *)

(** The pins of a node at the far end of the edges of direction [Dir]: its
    input pins for out-edges, its output pins for in-edges. *)
Definition far_pins (h : Heap) (Dir : EEdGraphPinDirection) (n : addr) : list addr :=
  if decide (Dir = EGPD_Output) then InPins (node h n) else OutPins (node h n).

(** The pins of [this] at the near end of those edges. *)
Definition near_pins (h : Heap) (Dir : EEdGraphPinDirection) (this : addr) : list addr :=
  if decide (Dir = EGPD_Output) then OutPins (node h this) else InPins (node h this).

(** The number of the pin [p] of the node [T] when the far pins of the
    nodes of [Layer] are numbered from 0, node after node. *)
Fixpoint pin_number (h : Heap) (Dir : EEdGraphPinDirection) (Layer : list addr)
    (T p : addr) : Z :=
  match Layer with
  | [] => 0
  | n :: r =>
    if decide (n = T) then Find p (far_pins h Dir n)
    else (Num (far_pins h Dir n) + pin_number h Dir r T p)%Z
  end.

(** The edge [e] with the two indices that [GetEdgeLinkedToLayer] gives
    it. *)
Definition numbered_edge (h : Heap) (this : addr) (Layer : list addr) (StartIndex : Z)
    (Dir : EEdGraphPinDirection) (e : addr) : FFormatterEdge :=
  mkEdge (From (edge h e))
         (int32 (StartIndex + Find (From (edge h e)) (near_pins h Dir this)))
         (To (edge h e))
         (pin_number h Dir Layer (target h e) (To (edge h e))).

(** ** A sort for the examples *)

(** Insertion sort by the predicate [lt], stable: an instance of the sort
    that the ordering functions take as a parameter. *)
Fixpoint insert_sorted {A} (lt : A -> A -> bool) (x : A) (l : list A) : list A :=
  match l with
  | [] => [x]
  | y :: r => if lt y x then y :: insert_sorted lt x r else x :: y :: r
  end.

Definition insertion_sort {A} (lt : A -> A -> bool) (l : list A) : list A :=
  foldr (insert_sorted lt) [] l.

(** ** binary32: further operations *)

Definition f32_sub : float -> float -> float := SFsub 24 128.
Definition f32_opp : float -> float := SFopp.
Definition f32_leb : float -> float -> bool := SFleb.
Definition f32_eqb : float -> float -> bool := SFeqb.
Definition f32_gtb (a b : float) : bool :=
  match SFcompare a b with Some Gt => true | _ => false end.
Definition f32_geb (a b : float) : bool :=
  match SFcompare a b with Some (Gt | Eq) => true | _ => false end.

(** [FLT_MAX]. *)
Definition FLT_MAX : float := S754_finite false 16777215 104.

(** The mantissa of the whole number [r] brought to 24 digits. *)
Definition canon (r : positive) : positive :=
  Z.to_pos (Z.pos r * 2 ^ (24 - Z.pos (digits2_pos r))).

(** The binary32 value of a whole number of at most 24 digits, written out. *)
Definition f32_whole (z : Z) : float :=
  match z with
  | Z0 => S754_zero false
  | Zpos r => S754_finite false (canon r) (Z.pos (digits2_pos r) - 24)
  | Zneg r => S754_finite true (canon r) (Z.pos (digits2_pos r) - 24)
  end.

(** ** FFastAndSimplePositioningStrategy: Combine *)

(** The values of [EGraphFormatterPositioningAlgorithm] that the two files
    name. *)
Inductive EGraphFormatterPositioningAlgorithm :=
  | EEvenlyInLayer
  | EPriorityMethod
  | EFastAndSimpleMethodTop
  | EFastAndSimpleMethodMedian.

Global Instance EGraphFormatterPositioningAlgorithm_eq_dec :
  EqDecision EGraphFormatterPositioningAlgorithm.
Proof. solve_decision. Defined.

(** [TMap::operator[]] on a [TMap<FFormatterNode*, float>], which checks
    that the key is present.  [Combine] iterates over these maps, so a map is
    kept as the list of its pairs in the order of the iteration. *)
Definition TMap_at (m : list (addr * float)) (Key : addr) : option float :=
  snd <$> List.find (λ Pair, bool_decide (Pair.1 = Key)) m.

(** [TArray::operator[]], which checks the index. *)
Definition TArray_at {A} (l : list A) (i : Z) : option A :=
  if (i <? 0)%Z then None else l !! Z.to_nat i.

(** The inner [for] of the first loop of [Combine]: [LeftMost] and
    [RightMost] of a layout. *)
Definition Combine_bounds (Layout : list (addr * float)) : float * float :=
  fold_left (λ '(LeftMost, RightMost) Pair,
    (if f32_ltb Pair.2 LeftMost then Pair.2 else LeftMost,
     if f32_gtb Pair.2 RightMost then Pair.2 else RightMost))
    Layout (FLT_MAX, f32_opp FLT_MAX).

(** The body of the first loop of [Combine] for the layout at index [i]; the
    state is [MinWidthIndex], [MinWidth] and the entries of [Bounds] written
    so far. *)
Definition Combine_width (s : Z * float * list (float * float))
    (iLayout : nat * list (addr * float)) : Z * float * list (float * float) :=
  let '(MinWidthIndex, MinWidth, Bounds) := s in
  let '(LeftMost, RightMost) := Combine_bounds iLayout.2 in
  if f32_ltb (f32_sub RightMost LeftMost) MinWidth
  then (Z.of_nat iLayout.1, f32_sub RightMost LeftMost, Bounds ++ [(LeftMost, RightMost)])
  else (MinWidthIndex, MinWidth, Bounds ++ [(LeftMost, RightMost)]).

Definition Combine_widths (Layouts : list (list (addr * float)))
    : Z * float * list (float * float) :=
  fold_left Combine_width (imap pair Layouts) ((-1)%Z, FLT_MAX, []).

(** The body of the second loop of [Combine] for the layout at index [i]. *)
Definition Combine_shift (MinWidthIndex : Z) (Bounds : list (float * float))
    (iLayout : nat * list (addr * float)) : option (list (addr * float)) :=
  if decide (Z.of_nat iLayout.1 ≠ MinWidthIndex) then
    Min ← TArray_at Bounds MinWidthIndex;
    This ← TArray_at Bounds (Z.of_nat iLayout.1);
    let Offset := f32_sub Min.1 This.1 in
    Some (map (λ Pair, (Pair.1, f32_add Pair.2 Offset)) iLayout.2)
  else Some iLayout.2.

(** [TArray<float>::Sort], which orders by [operator<], is engine code;
    [Combine] takes it as the parameter [Sort]. *)
Definition SortFloatFn : Type := list float -> list float.

(** The body of the inner [for] of the third loop of [Combine]. *)
Definition Combine_node (Sort : SortFloatFn) (Algorithm : EGraphFormatterPositioningAlgorithm)
    (Layouts : list (list (addr * float))) (m : option (gmap addr float)) (Node : addr)
    : option (gmap addr float) :=
  CombinedPositionMap ← m;
  Values ← mapM (λ Layout, TMap_at Layout Node) Layouts;
  let Values := Sort Values in
  match Algorithm with
  | EFastAndSimpleMethodTop =>
    a ← TArray_at Values 1; b ← TArray_at Values 2;
    Some (<[Node := f32_div (f32_add a b) (f32_of_int 2)]> CombinedPositionMap)
  | EFastAndSimpleMethodMedian =>
    a ← TArray_at Values 0; b ← TArray_at Values 3;
    Some (<[Node := f32_div (f32_add a b) (f32_of_int 2)]> CombinedPositionMap)
  | _ => Some CombinedPositionMap
  end.

(** [FFastAndSimplePositioningStrategy::Combine], for the four position maps
    in the order of [Layouts] and the map [CombinedPositionMap] before the
    call; the result is [CombinedPositionMap] after it, to which [XMap] then
    points.  [None] stands for a failed check of the engine containers. *)
Definition Combine (Sort : SortFloatFn) (Algorithm : EGraphFormatterPositioningAlgorithm)
    (UpperLeftPositionMap UpperRightPositionMap LowerLeftPositionMap
       LowerRightPositionMap : list (addr * float))
    (LayeredNodes : list (list addr)) (CombinedPositionMap : gmap addr float)
    : option (gmap addr float) :=
  let Layouts := [UpperLeftPositionMap; UpperRightPositionMap; LowerLeftPositionMap;
                  LowerRightPositionMap] in
  let '(MinWidthIndex, _, Bounds) := Combine_widths Layouts in
  Layouts ← mapM (Combine_shift MinWidthIndex Bounds) (imap pair Layouts);
  fold_left (λ m Layer, fold_left (Combine_node Sort Algorithm Layouts) Layer m)
            LayeredNodes (Some CombinedPositionMap).

(** ** Notions used to state the properties of Combine *)

Definition leftmost (Layout : list (addr * float)) : float := (Combine_bounds Layout).1.
Definition width (Layout : list (addr * float)) : float :=
  f32_sub (Combine_bounds Layout).2 (Combine_bounds Layout).1.

(** The layouts after the second loop of [Combine] that leaves the layout
    at index [i0] as it is. *)
Definition shifted (i0 : nat) (Layouts : list (list (addr * float)))
    : list (list (addr * float)) :=
  imap (λ i Layout,
    if decide (i = i0) then Layout
    else map (λ Pair, (Pair.1, f32_add Pair.2
                          (f32_sub (leftmost (Layouts !!! i0)) (leftmost Layout)))) Layout)
    Layouts.

Fixpoint ascending (l : list float) : Prop :=
  match l with
  | [] => True
  | x :: r => Forall (λ y, f32_leb x y = true) r ∧ ascending r
  end.

Definition mean (a b : float) : float := f32_div (f32_add a b) (f32_of_int 2).

(** A layout that is not empty and holds whole numbers of magnitude at most
    [M]. *)
Definition whole_layout (M : Z) (Layout : list (addr * float)) : Prop :=
  Layout ≠ [] ∧
  Forall (λ Pair, ∃ z, (Z.abs z <= M)%Z ∧ Pair.2 = f32_of_int z) Layout.

(** The leftmost coordinates coincide. *)
Definition aligned (Layouts : list (list (addr * float))) : Prop :=
  ∀ L1 L2, L1 ∈ Layouts -> L2 ∈ Layouts -> leftmost L1 = leftmost L2.

(** The state of the first loop of [Combine] after the layouts [l]. *)
Definition Combine_widths_inv (l : list (list (addr * float)))
    (s : Z * float * list (float * float)) : Prop :=
  s.2 = map Combine_bounds l ∧ s.1.2 ≠ S754_nan ∧ f32_leb s.1.2 FLT_MAX = true ∧
  (∀ j L, l !! j = Some L -> f32_ltb (width L) s.1.2 = false) ∧
  ((s.1.1 = (-1)%Z ∧ s.1.2 = FLT_MAX) ∨
   ∃ i0 L0, s.1.1 = Z.of_nat i0 ∧ l !! i0 = Some L0 ∧ s.1.2 = width L0 ∧
     ∀ j L, j < i0 -> l !! j = Some L -> f32_ltb (width L) FLT_MAX = true ->
            f32_ltb (width L0) (width L) = true).

(** The value that the third loop of [Combine] stores for a node. *)
Definition Combine_value (Sort : SortFloatFn) (Algorithm : EGraphFormatterPositioningAlgorithm)
    (Layouts : list (list (addr * float))) (Node : addr) : option float :=
  Values ← mapM (λ Layout, TMap_at Layout Node) Layouts;
  match Algorithm with
  | EFastAndSimpleMethodTop =>
    a ← TArray_at (Sort Values) 1; b ← TArray_at (Sort Values) 2; Some (mean a b)
  | EFastAndSimpleMethodMedian =>
    a ← TArray_at (Sort Values) 0; b ← TArray_at (Sort Values) 3; Some (mean a b)
  | _ => None
  end.

(** ** Example position maps *)

Definition f32_halves (z : Z) : float := f32_div (f32_of_int z) (f32_of_int 2).

(** Four maps of whole numbers for the nodes 1 and 2, of widths 10, 15, 10
    and 10. *)
Definition plain_maps : list (list (addr * float)) :=
  [ [(1, f32_of_int 0); (2, f32_of_int 10)];
    [(1, f32_of_int 5); (2, f32_of_int 20)];
    [(1, f32_of_int 3); (2, f32_of_int 13)];
    [(1, f32_of_int (-4)); (2, f32_of_int 6)] ].

(** Four maps of widths 1, 4, 1 and 1, the second far to the right of the
    others. *)
Definition far_maps : list (list (addr * float)) :=
  [ [(1, f32_halves 1); (2, f32_halves 3)];
    [(1, f32_of_int 16777216); (2, f32_of_int 16777220)];
    [(1, f32_halves 5); (2, f32_halves 7)];
    [(1, f32_halves (-3)); (2, f32_halves (-1))] ].

(** ** Engine geometry: FVector2D and FSlateRect *)

(** [FVector2D::operator+] and [FVector2D::operator-]. *)
Definition FVector2D_add (a b : FVector2D) : FVector2D :=
  mkFVector2D (f32_add (X a) (X b)) (f32_add (Y a) (Y b)).
Definition FVector2D_sub (a b : FVector2D) : FVector2D :=
  mkFVector2D (f32_sub (X a) (X b)) (f32_sub (Y a) (Y b)).

(** [FMath::Min] and [FMath::Max], in their generic definitions. *)
Definition FMath_Min (A B : float) : float := if f32_leb A B then A else B.
Definition FMath_Max (A B : float) : float := if f32_geb A B then A else B.

(** [FSlateRect]: four binary32 fields, all -1 after the default
    constructor. *)
Record FSlateRect := mkFSlateRect {
  Left : float;
  Top : float;
  Right : float;
  Bottom : float
}.

Definition FSlateRect_default : FSlateRect :=
  mkFSlateRect (f32_of_int (-1)) (f32_of_int (-1)) (f32_of_int (-1)) (f32_of_int (-1)).

(** [FSlateRect::IsValid]. *)
Definition IsValid (r : FSlateRect) : bool :=
  negb (f32_eqb (Left r) (f32_of_int (-1)) && f32_eqb (Right r) (f32_of_int (-1))
        && f32_eqb (Bottom r) (f32_of_int (-1)) && f32_eqb (Top r) (f32_of_int (-1)))
  && f32_geb (Right r) (Left r) && f32_geb (Bottom r) (Top r).

Definition GetTopLeft (r : FSlateRect) : FVector2D := mkFVector2D (Left r) (Top r).
Definition GetBottomLeft (r : FSlateRect) : FVector2D := mkFVector2D (Left r) (Bottom r).
Definition GetBottomRight (r : FSlateRect) : FVector2D := mkFVector2D (Right r) (Bottom r).

(** [FSlateRect::OffsetBy]. *)
Definition FSlateRect_OffsetBy (r : FSlateRect) (OffsetAmount : FVector2D) : FSlateRect :=
  let StartPos := FVector2D_add (GetTopLeft r) OffsetAmount in
  let EndPos := FVector2D_add (GetBottomRight r) OffsetAmount in
  mkFSlateRect (X StartPos) (Y StartPos) (X EndPos) (Y EndPos).

(** [FSlateRect::Expand]: the rectangle around both. *)
Definition Expand (r Other : FSlateRect) : FSlateRect :=
  mkFSlateRect (FMath_Min (Left r) (Left Other)) (FMath_Min (Top r) (Top Other))
               (FMath_Max (Right r) (Right Other)) (FMath_Max (Bottom r) (Bottom Other)).

(** ** FFormatterGraph: Format, OffsetBy and SetPosition *)

(** The store together with the field [TotalBound] of the graph objects,
    which is kept by the address of the graph; a graph that was never given
    a bound holds the default rectangle. *)
Record FLayout := mkLayout {
  store : Heap;
  bounds : gmap addr FSlateRect
}.

(** [FFormatterGraph::GetTotalBound]. *)
Definition TotalBound (s : FLayout) (this : addr) : FSlateRect :=
  default FSlateRect_default (bounds s !! this).

Definition set_TotalBound (s : FLayout) (this : addr) (r : FSlateRect) : FLayout :=
  mkLayout (store s) (<[this := r]> (bounds s)).

Definition with_Position (p : FVector2D) (n : FFormatterNode) : FFormatterNode :=
  mkNode (Guid n) (OriginalNode n) (SubGraph n) (Size n) (InEdges n) (OutEdges n)
         (InPins n) (OutPins n) (PathDepth n) (OrderValue n) p.

(** [FFormatterNode::SetPosition]; [OffsetBy] is [FFormatterGraph::OffsetBy]
    on the sub-graph. *)
Definition FFormatterNode_SetPosition (OffsetBy : FLayout -> addr -> FVector2D -> option FLayout)
    (s : FLayout) (this : addr) (InPosition : FVector2D) : option FLayout :=
  let Offset := FVector2D_sub InPosition (Position (node (store s) this)) in
  let s := mkLayout (set_node (store s) this (with_Position InPosition (node (store s) this)))
                    (bounds s) in
  match SubGraph (node (store s) this) with
  | Some g => OffsetBy s g Offset
  | None => Some s
  end.

(** [FFormatterGraph::OffsetBy].  The nesting of the graphs is followed by
    recursion on [fuel]. *)
Fixpoint OffsetBy (fuel : nat) (s : FLayout) (this : addr) (InOffset : FVector2D)
    : option FLayout :=
  match fuel with
  | O => None
  | S fuel =>
    s ← (if (Num (IsolatedGraphs (graph (store s) this)) >? 0)%Z
         then fold_leftM (λ s isolatedGraph, OffsetBy fuel s isolatedGraph InOffset)
                         (IsolatedGraphs (graph (store s) this)) s
         else fold_leftM (λ s Node,
                FFormatterNode_SetPosition (OffsetBy fuel) s Node
                  (FVector2D_add (Position (node (store s) Node)) InOffset))
                (Nodes (graph (store s) this)) s);
    Some (set_TotalBound s this (FSlateRect_OffsetBy (TotalBound s this) InOffset))
  end.

(** [FFormatterGraph::SetPosition]. *)
Definition SetPosition (fuel : nat) (s : FLayout) (this : addr) (Position : FVector2D)
    : option FLayout :=
  OffsetBy fuel s this (FVector2D_sub Position (GetTopLeft (TotalBound s this))).

Section Format.

(** [Settings.VerticalSpacing], as the binary32 value that the
    constructor of [FVector2D] receives. *)
Variable VerticalSpacing : float.

(** The [else] branch of [Format], for a graph with at most one isolated
    graph: the sizes and offsets asked from the delegates, the sub-graphs,
    and the phases that end in [DoPositioning], whose positioning
    strategies give the graph its [TotalBound]. *)
Variable Format_single : FLayout -> addr -> option FLayout.

(** The body of the [for] of [Format] for one isolated graph; the state is
    the store and the local [PreBound]. *)
Definition Format_isolated (Format : FLayout -> addr -> option FLayout) (fuel : nat)
    (this : addr) (st : FLayout * FSlateRect) (isolatedGraph : addr)
    : option (FLayout * FSlateRect) :=
  s ← Format st.1 isolatedGraph;
  s ← (if IsValid st.2 then SetPosition fuel s isolatedGraph (GetBottomLeft st.2)
       else Some s);
  let Bound := TotalBound s isolatedGraph in
  let s := set_TotalBound s this
             (if IsValid (TotalBound s this) then Expand (TotalBound s this) Bound
              else Bound) in
  Some (s, FSlateRect_OffsetBy (TotalBound s this) (mkFVector2D f32_zero VerticalSpacing)).

(** [FFormatterGraph::Format]. *)
Fixpoint Format (fuel : nat) (s : FLayout) (this : addr) : option FLayout :=
  match fuel with
  | O => None
  | S fuel =>
    if (Num (IsolatedGraphs (graph (store s) this)) >? 1)%Z
    then fst <$> fold_leftM (Format_isolated (Format fuel) fuel this)
                            (IsolatedGraphs (graph (store s) this)) (s, FSlateRect_default)
    else Format_single s this
  end.

End Format.

(** ** Notions used to state the properties of Format *)

(** The graph objects whose [TotalBound] a call of [OffsetBy] on [this]
    writes, [this] first. *)
Fixpoint moved_graphs (fuel : nat) (h : Heap) (this : addr) : option (list addr) :=
  match fuel with
  | O => None
  | S fuel =>
    ls ← (if (Num (IsolatedGraphs (graph h this)) >? 0)%Z
          then mapM (moved_graphs fuel h) (IsolatedGraphs (graph h this))
          else mapM (λ Node, match SubGraph (node h Node) with
                             | Some g => moved_graphs fuel h g
                             | None => Some []
                             end) (Nodes (graph h this)));
    Some (this :: concat ls)
  end.

(** The isolated graph [c] of [this] holds at most one isolated graph of
    its own, and a call of [OffsetBy] on it returns within [fuel] levels and
    writes the bound of each graph once, and of none of [avoid]. *)
Definition nested (fuel : nat) (avoid : list addr) (s : FLayout) (c : addr) : Prop :=
  length (IsolatedGraphs (graph (store s) c)) <= 1 ∧
  ∃ l, moved_graphs fuel (store s) c = Some l ∧ NoDup l ∧
       ∀ a, a ∈ avoid -> a ≠ c -> a ∉ l.

(** Stores with the same graph objects and the same sub-graph of every
    node. *)
Definition same_shape (h h' : Heap) : Prop :=
  graphs h' = graphs h ∧ ∀ n, SubGraph (node h' n) = SubGraph (node h n).

(** Rectangles of whole numbers. *)
Record ZRect := mkZRect { zLeft : Z; zTop : Z; zRight : Z; zBottom : Z }.

Definition whole_rect (R : ZRect) : FSlateRect :=
  mkFSlateRect (f32_of_int (zLeft R)) (f32_of_int (zTop R))
               (f32_of_int (zRight R)) (f32_of_int (zBottom R)).

Definition ZRect_move (dx dy : Z) (R : ZRect) : ZRect :=
  mkZRect (zLeft R + dx) (zTop R + dy) (zRight R + dx) (zBottom R + dy).

(** Coordinates of magnitude at most [K]. *)
Definition ZRect_within (K : Z) (R : ZRect) : Prop :=
  (- K <= zLeft R <= K ∧ - K <= zTop R <= K ∧ - K <= zRight R <= K ∧
   - K <= zBottom R <= K)%Z.

(** A rectangle of positive width and height with coordinates of magnitude
    at most [M]. *)
Definition ZRect_in (M : Z) (R : ZRect) : Prop :=
  ZRect_within M R ∧ (zLeft R < zRight R)%Z ∧ (zTop R < zBottom R)%Z.

Definition ZRect_union (U R : ZRect) : ZRect :=
  mkZRect (Z.min (zLeft U) (zLeft R)) (Z.min (zTop U) (zTop R))
          (Z.max (zRight U) (zRight R)) (Z.max (zBottom U) (zBottom R)).

(** The rectangle [R] moved so that its top-left corner is at the left edge
    of [U] and [vs] below the bottom edge of [U]. *)
Definition ZRect_below (vs : Z) (U R : ZRect) : ZRect :=
  mkZRect (zLeft U) (zBottom U + vs) (zLeft U + (zRight R - zLeft R))
          (zBottom U + vs + (zBottom R - zTop R)).

(** The rectangles [Rs] put one after the other below [U]. *)
Fixpoint stack (vs : Z) (U : ZRect) (Rs : list ZRect) : list ZRect :=
  match Rs with
  | [] => []
  | R :: Rs => ZRect_below vs U R :: stack vs (ZRect_union U (ZRect_below vs U R)) Rs
  end.

(** The first rectangle where it is, the others below it. *)
Definition place (vs : Z) (Rs : list ZRect) : list ZRect :=
  match Rs with
  | [] => []
  | R :: Rs => R :: stack vs R Rs
  end.

(** The rectangle around a rectangle and a list of rectangles. *)
Definition ZRect_unions (U : ZRect) (Rs : list ZRect) : ZRect := fold_left ZRect_union Rs U.

(** The rectangle around the rectangles of a list that is not empty. *)
Definition ZRect_hull (Rs : list ZRect) : option ZRect :=
  match Rs with
  | [] => None
  | R :: Rs => Some (ZRect_unions R Rs)
  end.

(** ** Example: two disjoint edges *)

(** The two edges A -> B and C -> D, each in an isolated graph of its own,
    and the graph that holds the two isolated graphs; no graph has a bound
    yet.  The result is the store and the address of the outer graph. *)
Definition two_edges : FLayout * addr :=
  let h := empty_heap in
  let '(A, h) := FFormatterNode_of h 100 100 [(10, EGPD_Input); (11, EGPD_Output)] in
  let '(B, h) := FFormatterNode_of h 101 101 [(12, EGPD_Input); (13, EGPD_Output)] in
  let '(C, h) := FFormatterNode_of h 102 102 [(14, EGPD_Input); (15, EGPD_Output)] in
  let '(D, h) := FFormatterNode_of h 103 103 [(16, EGPD_Input); (17, EGPD_Output)] in
  let g1 := AddNode h (AddNode h null_graph A) B in
  let g2 := AddNode h (AddNode h null_graph C) D in
  let out n := OutPins (node h n) !!! 0%nat in
  let inp n := InPins (node h n) !!! 0%nat in
  let h := BuildEdge h (out A) (inp B) in
  let h := BuildEdge h (out C) (inp D) in
  let '(G1, h) := alloc h in
  let h := set_graph h G1 g1 in
  let '(G2, h) := alloc h in
  let h := set_graph h G2 g2 in
  let '(G, h) := alloc h in
  let h := set_graph h G (mkGraph [] ∅ ∅ ∅ ∅ [] [G1; G2]) in
  (mkLayout h ∅, G).

(** A format of a single graph for the examples: it puts every node of the
    graph at the top-left corner of the rectangle [Bound this] and makes
    this rectangle the bound of the graph. *)
Definition Format_place (Bound : addr -> FSlateRect) (s : FLayout) (this : addr)
    : option FLayout :=
  let h := fold_left (λ h Node,
             set_node h Node (with_Position (GetTopLeft (Bound this)) (node h Node)))
           (Nodes (graph (store s) this)) (store s) in
  Some (mkLayout h (<[this := Bound this]> (bounds s))).

(** Bounds of whole numbers for the two isolated graphs of [two_edges]. *)
Definition plain_bounds (c : addr) : ZRect :=
  if decide (c = 17) then mkZRect 0 0 200 100 else mkZRect 50 30 350 130.

(** Bounds of which the second lies far below the first, whose bottom edge
    is at 1/2. *)
Definition far_bounds (c : addr) : FSlateRect :=
  if decide (c = 17)
  then mkFSlateRect (f32_of_int 0) (f32_of_int 0) (f32_of_int 10) (f32_halves 1)
  else mkFSlateRect (f32_of_int 0) (f32_of_int 16777216) (f32_of_int 10)
                    (f32_of_int 16777316).

(** * Properties *)

(** Case analysis on membership in an explicit list. *)
Ltac list_cases H :=
  first [ apply elem_of_cons in H; destruct H as [H|H];
          [ first [discriminate H | subst] | list_cases H ]
        | by inversion H
        | idtac ].

(** ** Machine integers and containers *)

Lemma int32_small (z : Z) : (- 2 ^ 31 <= z < 2 ^ 31)%Z -> int32 z = z.
Proof.
  intros Hz. unfold int32.
  rewrite Z.mod_small by lia. lia.
Qed.

Lemma Num_nonneg {A} (l : list A) : (0 <= Num l)%Z.
Proof. unfold Num. lia. Qed.

Lemma DegreeDiff_exact (h : Heap) (n : addr) :
  array_ok (OutEdges (node h n)) -> array_ok (InEdges (node h n)) ->
  DegreeDiff h n = degree_diff h n.
Proof.
  unfold array_ok, DegreeDiff, degree_diff, INT32_MAX. intros Ho Hi.
  pose proof (Num_nonneg (OutEdges (node h n))).
  pose proof (Num_nonneg (InEdges (node h n))).
  apply int32_small. lia.
Qed.

(** ** FindMedianNode *)

Lemma scan_inv_fold (d : addr -> Z) (l : list addr) :
  scan_inv d l
    (fold_left (λ '(Result, MaxDegreeDiff) Node,
         if (d Node >=? MaxDegreeDiff)%Z then (Some Node, d Node)
         else (Result, MaxDegreeDiff)) l (None, 0%Z)).
Proof.
  induction l as [|x l IH] using rev_ind.
  - simpl. unfold scan_inv; simpl. repeat split; try lia; intros n Hn; inversion Hn.
  - rewrite fold_left_app. simpl.
    destruct (fold_left _ l (None, 0%Z)) as [r M].
    destruct IH as (HM & Hle & Hr). simpl in *.
    destruct (Z.geb_spec (d x) M) as [Hge|Hlt].
    + unfold scan_inv; simpl. split; [lia|]. split.
      * intros n Hn. apply elem_of_app in Hn as [Hn|Hn].
        -- specialize (Hle n Hn). lia.
        -- apply list_elem_of_singleton in Hn. subst. lia.
      * exists (length l). split; [|split; [done|]].
        -- rewrite lookup_app_r by lia. by rewrite Nat.sub_diag.
        -- intros j n Hj Hjn. apply lookup_lt_Some in Hjn.
           rewrite length_app in Hjn. simpl in Hjn. lia.
    + unfold scan_inv; simpl. split; [lia|]. split.
      * intros n Hn. apply elem_of_app in Hn as [Hn|Hn].
        -- by apply Hle.
        -- apply list_elem_of_singleton in Hn. subst. lia.
      * destruct r as [m|].
        -- destruct Hr as (i & Hi & Hdm & Hafter).
           exists i. split; [|split; [done|]].
           ++ apply lookup_app_l_Some. done.
           ++ intros j n Hj Hjn.
              destruct (decide (j < length l)) as [Hjl|Hjl].
              ** rewrite lookup_app_l in Hjn by done. eauto.
              ** rewrite lookup_app_r in Hjn by lia.
                 destruct (j - length l) eqn:E; simpl in Hjn; [|by destruct n0].
                 injection Hjn as <-. lia.
        -- destruct Hr as (-> & Hneg). split; [done|].
           intros n Hn. apply elem_of_app in Hn as [Hn|Hn].
           ++ by apply Hneg.
           ++ apply list_elem_of_singleton in Hn. subst. lia.
Qed.

Lemma FindMedianNode_scan (h : Heap) (g : FFormatterGraph) :
  scan_inv (DegreeDiff h) (Nodes g)
    (fold_left (λ '(Result, MaxDegreeDiff) Node,
         if (DegreeDiff h Node >=? MaxDegreeDiff)%Z
         then (Some Node, DegreeDiff h Node)
         else (Result, MaxDegreeDiff))
       (Nodes g) (None, 0%Z)).
Proof. apply scan_inv_fold. Qed.

(** C5.  When some node of the graph has out-degree minus in-degree at least
    0, [FindMedianNode] returns a node whose degree difference is maximal
    over the node array, and among the nodes that attain the maximum it
    returns the one at the last position of the array. *)
Theorem FindMedianNode_last_maximal (h : Heap) (g : FFormatterGraph) :
  (∀ n, n ∈ Nodes g ->
        array_ok (OutEdges (node h n)) ∧ array_ok (InEdges (node h n))) ->
  (∃ n, n ∈ Nodes g ∧ (0 <= degree_diff h n)%Z) ->
  ∃ i m, FindMedianNode h g = Some m ∧ Nodes g !! i = Some m ∧
    (∀ n, n ∈ Nodes g -> (degree_diff h n <= degree_diff h m)%Z) ∧
    (∀ j n, i < j -> Nodes g !! j = Some n -> (degree_diff h n < degree_diff h m)%Z).
Proof.
  intros Hok (n0 & Hn0 & Hpos).
  pose proof (FindMedianNode_scan h g) as Hinv.
  unfold FindMedianNode.
  destruct (fold_left _ (Nodes g) (None, 0%Z)) as [r M].
  destruct Hinv as (HM & Hle & Hr). simpl in *.
  assert (Hex : ∀ n, n ∈ Nodes g -> DegreeDiff h n = degree_diff h n).
  { intros n Hn. destruct (Hok n Hn). by apply DegreeDiff_exact. }
  destruct r as [m|].
  - destruct Hr as (i & Hi & Hdm & Hafter).
    assert (Hm : m ∈ Nodes g) by (apply list_elem_of_lookup; eauto).
    exists i, m. repeat split; try done.
    + intros n Hn. rewrite <- (Hex n Hn), <- (Hex m Hm), Hdm. by apply Hle.
    + intros j n Hj Hjn.
      assert (Hn : n ∈ Nodes g) by (apply list_elem_of_lookup; eauto).
      rewrite <- (Hex n Hn), <- (Hex m Hm), Hdm. eauto.
  - destruct Hr as (_ & Hneg). specialize (Hneg n0 Hn0).
    rewrite (Hex n0 Hn0) in Hneg. lia.
Qed.

Lemma FindMedianNode_last_maximal_witness :
  ∃ i m, FindMedianNode cycle3.1 cycle3.2 = Some m ∧ Nodes cycle3.2 !! i = Some m ∧
    (∀ n, n ∈ Nodes cycle3.2 -> (degree_diff cycle3.1 n <= degree_diff cycle3.1 m)%Z) ∧
    (∀ j n, i < j -> Nodes cycle3.2 !! j = Some n ->
            (degree_diff cycle3.1 n < degree_diff cycle3.1 m)%Z).
Proof.
  apply (FindMedianNode_last_maximal cycle3.1 cycle3.2).
  - intros n Hn.
    assert (E : Nodes cycle3.2 = [1; 4; 7]) by (vm_compute; reflexivity).
    rewrite E in Hn. rewrite !elem_of_cons in Hn.
    destruct Hn as [->|[->|[->|Hn]]]; [..|inversion Hn]; split; by vm_compute.
  - exists 1. split; [|by vm_compute].
    assert (E : Nodes cycle3.2 = [1; 4; 7]) by (vm_compute; reflexivity).
    rewrite E. apply list_elem_of_here.
Defined.

(** ** IsCrossing and CalculateCrossing *)

Lemma int32_add_l (a b : Z) : int32 (int32 a + b) = int32 (a + b).
Proof.
  unfold int32.
  replace ((a + 2 ^ 31) mod 2 ^ 32 - 2 ^ 31 + b + 2 ^ 31)%Z
    with ((a + 2 ^ 31) mod 2 ^ 32 + b)%Z by lia.
  rewrite Zplus_mod_idemp_l. f_equal. f_equal. lia.
Qed.

Lemma IsCrossing_inverted (e1 e2 : FFormatterEdge) :
  IsCrossing e1 e2 = true <-> inverted e1 e2.
Proof.
  unfold IsCrossing, inverted.
  rewrite orb_true_iff, !andb_true_iff, !Z.ltb_lt, !Z.gtb_gt. tauto.
Qed.

Lemma inverted_sym (e1 e2 : FFormatterEdge) : inverted e1 e2 <-> inverted e2 e1.
Proof. unfold inverted. lia. Qed.

Lemma brute_force_crossings_snoc (l : list FFormatterEdge) (x : FFormatterEdge) :
  brute_force_crossings (l ++ [x]) =
  brute_force_crossings l + length (filter (λ y, inverted x y) l).
Proof.
  unfold brute_force_crossings.
  induction l as [|a l IH]; [done|].
  simpl. rewrite !filter_app, !length_app, IH, map_app, filter_app, length_app.
  simpl. rewrite (filter_cons _ a l).
  assert (Hlast : length (filter (λ p : FFormatterEdge * FFormatterEdge, inverted p.1 p.2) [(a, x)])
                  = if decide (inverted x a) then 1 else 0).
  { rewrite filter_cons, filter_nil. simpl.
    destruct (decide (inverted a x)) as [H|H], (decide (inverted x a)) as [H'|H'];
      try done; exfalso; apply inverted_sym in H || apply inverted_sym in H'; done. }
  rewrite Hlast. destruct (decide (inverted x a)); simpl; lia.
Qed.

Lemma CalculateCrossing_inner (h : Heap) (Edge1 : addr) (l : list addr) (c : Z) :
  fold_left (λ CrossingValue Edge2,
      if IsCrossing (edge h Edge1) (edge h Edge2)
      then int32 (CrossingValue + 1) else CrossingValue) l (int32 c)
  = int32 (c + Z.of_nat (length (filter (λ y, inverted (edge h Edge1) y) (map (edge h) l)))).
Proof.
  revert c. induction l as [|y l IH]; intros c.
  - simpl. f_equal. lia.
  - simpl. rewrite filter_cons.
    destruct (IsCrossing (edge h Edge1) (edge h y)) eqn:E.
    + apply IsCrossing_inverted in E. rewrite decide_True by done.
      rewrite int32_add_l, IH. f_equal. simpl length. lia.
    + rewrite decide_False; [apply IH|].
      intros Hi. apply IsCrossing_inverted in Hi. congruence.
Qed.

Lemma CalculateCrossing_pop_S (h : Heap) (n : nat) (es : list addr) (cv : Z) :
  CalculateCrossing_pop h (S n) es cv =
  CalculateCrossing_pop h n (take n es)
    (fold_left (λ CrossingValue Edge2,
        if IsCrossing (edge h (es !!! n)) (edge h Edge2)
        then int32 (CrossingValue + 1) else CrossingValue) (take n es) cv).
Proof. reflexivity. Qed.

Lemma CalculateCrossing_pop_count (h : Heap) (n : nat) (es : list addr) (c : Z) :
  n = length es ->
  CalculateCrossing_pop h n es (int32 c)
  = int32 (c + Z.of_nat (brute_force_crossings (map (edge h) es))).
Proof.
  revert es c. induction n as [|n IH]; intros es c Hn.
  - destruct es; [|done]. simpl. f_equal. unfold brute_force_crossings. simpl. lia.
  - induction es as [|x es' _] using rev_ind; [done|].
    rewrite length_app in Hn. simpl in Hn.
    assert (Hlen : n = length es') by lia.
    assert (Hx : (es' ++ [x]) !!! n = x).
    { rewrite Hlen, list_lookup_total_alt, lookup_app_r by lia.
      by rewrite Nat.sub_diag. }
    subst n. rewrite CalculateCrossing_pop_S, Hx, take_app_length.
    rewrite CalculateCrossing_inner, IH by done.
    rewrite map_app. simpl. rewrite brute_force_crossings_snoc.
    f_equal. lia.
Qed.

Lemma CalculateCrossing_fold (Order : list (list addr)) (idx : list nat)
    (h : Heap) (count : nat) :
  (fold_left (CalculateCrossing_layer Order) idx (h, int32 (Z.of_nat count))).2
  = int32 (Z.of_nat (fold_left (brute_force_layer Order) idx (h, count)).2).
Proof.
  revert h count. induction idx as [|i idx IH]; intros h count; [done|].
  simpl. unfold CalculateCrossing_layer at 2, brute_force_layer at 2. simpl.
  destruct (GetEdgeBetweenTwoLayer h (Order !!! (i - 1)) (Order !!! i) EGPD_Output)
    as [h' es].
  rewrite CalculateCrossing_pop_count by done.
  rewrite <- Nat2Z.inj_add. apply IH.
Qed.

(** C6.  [IsCrossing] holds exactly for two edges whose end-point index
    orders are inverted, and [CalculateCrossing] is the brute-force count of
    the inverted unordered pairs of edges between each two adjacent ranks,
    held in an [int32]: equal to the count whenever the count fits. *)
Theorem CalculateCrossing_brute_force :
  (∀ e1 e2 : FFormatterEdge,
     IsCrossing e1 e2 = true <->
     ((FromIndex e1 < FromIndex e2)%Z ∧ (ToIndex e1 > ToIndex e2)%Z) ∨
     ((FromIndex e1 > FromIndex e2)%Z ∧ (ToIndex e1 < ToIndex e2)%Z)) ∧
  (∀ (h : Heap) (Order : list (list addr)),
     (CalculateCrossing h Order).2 = int32 (Z.of_nat (brute_force_total h Order))) ∧
  (∀ (h : Heap) (Order : list (list addr)),
     (Z.of_nat (brute_force_total h Order) <= INT32_MAX)%Z ->
     (CalculateCrossing h Order).2 = Z.of_nat (brute_force_total h Order)).
Proof.
  assert (Hcount : ∀ h Order,
    (CalculateCrossing h Order).2 = int32 (Z.of_nat (brute_force_total h Order))).
  { intros h Order. unfold CalculateCrossing, brute_force_total.
    change 0%Z with (int32 (Z.of_nat 0)). apply CalculateCrossing_fold. }
  split; [apply IsCrossing_inverted|]. split; [done|].
  intros h Order Hfit. rewrite Hcount. apply int32_small.
  unfold INT32_MAX in Hfit. lia.
Qed.

Lemma CalculateCrossing_brute_force_witness :
  (CalculateCrossing crossed4.1 crossed4.2).2 = 1%Z ∧
  (CalculateCrossing crossed4.1 crossed4.2).2 =
    Z.of_nat (brute_force_total crossed4.1 crossed4.2).
Proof.
  split; [by vm_compute|].
  apply CalculateCrossing_brute_force. by vm_compute.
Defined.

(** ** The store *)

Lemma node_set_node (h : Heap) (a b : addr) (n : FFormatterNode) :
  node (set_node h a n) b = if decide (b = a) then n else node h b.
Proof.
  unfold node, set_node; simpl. destruct (decide (b = a)) as [->|Hne].
  - by rewrite lookup_insert_eq.
  - by rewrite lookup_insert_ne.
Qed.

Lemma edge_set_edge (h : Heap) (a b : addr) (e : FFormatterEdge) :
  edge (set_edge h a e) b = if decide (b = a) then e else edge h b.
Proof.
  unfold edge, set_edge; simpl. destruct (decide (b = a)) as [->|Hne].
  - by rewrite lookup_insert_eq.
  - by rewrite lookup_insert_ne.
Qed.

Lemma pin_set_pin (h : Heap) (a b : addr) (p : FFormatterPin) :
  pin (set_pin h a p) b = if decide (b = a) then p else pin h b.
Proof.
  unfold pin, set_pin; simpl. destruct (decide (b = a)) as [->|Hne].
  - by rewrite lookup_insert_eq.
  - by rewrite lookup_insert_ne.
Qed.

(** ** Stores with the same structure *)

Lemma same_structure_refl (h : Heap) : same_structure h h.
Proof. by repeat split. Qed.

Lemma same_structure_sym (h h' : Heap) : same_structure h h' -> same_structure h' h.
Proof.
  intros (Hn & He & Hp). split; [|split].
  - intros a. by symmetry.
  - intros a. destruct (He a). by split.
  - intros a. by symmetry.
Qed.

Lemma same_structure_trans (h1 h2 h3 : Heap) :
  same_structure h1 h2 -> same_structure h2 h3 -> same_structure h1 h3.
Proof.
  intros (Hn & He & Hp) (Hn' & He' & Hp'). split; [|split].
  - intros a. by rewrite Hn.
  - intros a. destruct (He a), (He' a). split; congruence.
  - intros a. by rewrite Hp.
Qed.

Lemma same_structure_node (h h' : Heap) (a : addr) :
  same_structure h h' ->
  InEdges (node h a) = InEdges (node h' a) ∧ OutEdges (node h a) = OutEdges (node h' a) ∧
  InPins (node h a) = InPins (node h' a) ∧ OutPins (node h a) = OutPins (node h' a).
Proof.
  intros (Hn & _). specialize (Hn a).
  repeat split.
  - apply (f_equal InEdges) in Hn. exact Hn.
  - apply (f_equal OutEdges) in Hn. exact Hn.
  - apply (f_equal InPins) in Hn. exact Hn.
  - apply (f_equal OutPins) in Hn. exact Hn.
Qed.

Lemma same_structure_set_edge (h : Heap) (e : addr) (fi ti : Z) :
  same_structure h (set_edge h e (mkEdge (From (edge h e)) fi (To (edge h e)) ti)).
Proof.
  split; [|split]; try done.
  intros a. rewrite edge_set_edge. by destruct (decide (a = e)) as [->|].
Qed.

Lemma same_structure_set_OrderValue (h : Heap) (n : addr) (v : float) :
  same_structure h (set_node h n (with_OrderValue v (node h n))).
Proof.
  split; [|split]; try done.
  intros a. rewrite node_set_node. by destruct (decide (a = n)) as [->|].
Qed.

Lemma fold_left_inv {A B} (P : B -> Prop) (f : B -> A -> B) (l : list A) (b : B) :
  (∀ b x, P b -> P (f b x)) -> P b -> P (fold_left f l b).
Proof.
  intros Hstep. revert b. induction l as [|x l IH]; intros b Hb; [done|].
  simpl. apply IH. by apply Hstep.
Qed.

Lemma fold_left_rel {A B} (R : B -> B -> Prop) (f : B -> A -> B) (l : list A) (b1 b2 : B) :
  (∀ b1 b2 x, R b1 b2 -> R (f b1 x) (f b2 x)) -> R b1 b2 ->
  R (fold_left f l b1) (fold_left f l b2).
Proof.
  intros Hstep. revert b1 b2. induction l as [|x l IH]; intros b1 b2 Hb; [done|].
  simpl. apply IH. by apply Hstep.
Qed.

(** *** The ordering phase keeps the structure *)

Lemma GetEdgeLinkedToLayer_node_structure (h0 : Heap) (this : addr) (StartIndex : Z)
    (Dir : EEdGraphPinDirection) (Edge : addr) (s : Heap * list addr * Z) (n : addr) :
  same_structure h0 s.1.1 ->
  same_structure h0 (GetEdgeLinkedToLayer_node this StartIndex Dir Edge s n).1.1.
Proof.
  destruct s as [[h R] I]. simpl. intros Hs.
  unfold GetEdgeLinkedToLayer_node.
  destruct (decide (OwningNode (pin h (To (edge h Edge))) ≠ n)); simpl; [done|].
  eapply same_structure_trans; [exact Hs|]. apply same_structure_set_edge.
Qed.

Lemma GetEdgeLinkedToLayer_structure (h0 h : Heap) (this : addr) (Layer : list addr)
    (StartIndex : Z) (Dir : EEdGraphPinDirection) :
  same_structure h0 h ->
  same_structure h0 (GetEdgeLinkedToLayer h this Layer StartIndex Dir).1.
Proof.
  intros Hs. unfold GetEdgeLinkedToLayer.
  apply (fold_left_inv (λ s : Heap * list addr, same_structure h0 s.1)); [|done].
  intros [h1 R] Edge H1. unfold GetEdgeLinkedToLayer_edge. simpl in *.
  pose proof (fold_left_inv (λ s : Heap * list addr * Z, same_structure h0 s.1.1)
                (GetEdgeLinkedToLayer_node this StartIndex Dir Edge) Layer (h1, R, 0%Z)) as HI.
  destruct (fold_left _ Layer (h1, R, 0%Z)) as [[h2 R2] I2]. simpl in *.
  apply HI; [|done]. intros b x. apply GetEdgeLinkedToLayer_node_structure.
Qed.

Lemma GetEdgeBetweenTwoLayer_structure (h0 h : Heap) (Layer1 Layer2 : list addr)
    (Dir : EEdGraphPinDirection) :
  same_structure h0 h ->
  same_structure h0 (GetEdgeBetweenTwoLayer h Layer1 Layer2 Dir).1.
Proof.
  intros Hs. unfold GetEdgeBetweenTwoLayer.
  pose proof (fold_left_inv (λ s : Heap * list addr * Z, same_structure h0 s.1.1)
                (GetEdgeBetweenTwoLayer_node Layer2 Dir) Layer1 (h, [], 0%Z)) as HI.
  destruct (fold_left _ Layer1 (h, [], 0%Z)) as [[h2 R2] I2]. simpl in *.
  apply HI; [|done]. intros [[h1 R] I] x H1. simpl in *.
  unfold GetEdgeBetweenTwoLayer_node.
  pose proof (GetEdgeLinkedToLayer_structure h0 h1 x Layer2 I Dir H1) as HG.
  by destruct (GetEdgeLinkedToLayer h1 x Layer2 I Dir).
Qed.

Lemma CalculateCrossing_structure (h0 h : Heap) (Order : list (list addr)) :
  same_structure h0 h -> same_structure h0 (CalculateCrossing h Order).1.
Proof.
  intros Hs. unfold CalculateCrossing.
  apply (fold_left_inv (λ s : Heap * Z, same_structure h0 s.1)); [|done].
  intros [h1 cv] i H1. unfold CalculateCrossing_layer. simpl in *.
  pose proof (GetEdgeBetweenTwoLayer_structure h0 h1 (Order !!! (i - 1)) (Order !!! i)
                EGPD_Output H1) as HG.
  by destruct (GetEdgeBetweenTwoLayer h1 _ _ EGPD_Output).
Qed.

Lemma SortInLayer_node_structure (h0 : Heap) (FixedLayer : list addr)
    (Dir : EEdGraphPinDirection) (s : Heap * Z) (Node : addr) :
  same_structure h0 s.1 -> same_structure h0 (SortInLayer_node FixedLayer Dir s Node).1.
Proof.
  destruct s as [h I]. simpl. intros Hs. unfold SortInLayer_node, CalcBarycenter.
  pose proof (GetEdgeLinkedToLayer_structure h0 h Node FixedLayer I Dir Hs) as HG.
  destruct (GetEdgeLinkedToLayer h Node FixedLayer I Dir) as [h1 Edges]. simpl in HG.
  destruct (decide (Num Edges = 0%Z)); simpl;
    (eapply same_structure_trans; [exact HG|apply same_structure_set_OrderValue]).
Qed.

Lemma SortInLayer_loop_structure (Sort : SortFn) (k : nat) (h0 h : Heap)
    (Order : list (list addr)) (Dir : EEdGraphPinDirection) (i Step : Z) :
  same_structure h0 h -> same_structure h0 (SortInLayer_loop Sort k h Order Dir i Step).1.
Proof.
  revert h Order i. induction k as [|k IH]; intros h Order i Hs; [done|].
  simpl. apply IH.
  apply (fold_left_inv (λ s : Heap * Z, same_structure h0 s.1)); [|done].
  intros b x. apply SortInLayer_node_structure.
Qed.

Lemma SortInLayer_structure (Sort : SortFn) (h0 h : Heap) (Order : list (list addr))
    (Dir : EEdGraphPinDirection) :
  same_structure h0 h -> same_structure h0 (SortInLayer Sort h Order Dir).1.
Proof.
  intros Hs. unfold SortInLayer. destruct (Num Order <? 2)%Z; [done|].
  by apply SortInLayer_loop_structure.
Qed.

(** *** The crossing count depends on the structure only *)

Lemma same_structure_pin_counts (h1 h2 : Heap) (n p : addr) :
  same_structure h1 h2 ->
  GetInputPinCount h1 n = GetInputPinCount h2 n ∧
  GetOutputPinCount h1 n = GetOutputPinCount h2 n ∧
  GetInputPinIndex h1 n p = GetInputPinIndex h2 n p ∧
  GetOutputPinIndex h1 n p = GetOutputPinIndex h2 n p.
Proof.
  intros Hs. destruct (same_structure_node h1 h2 n Hs) as (_ & _ & Hi & Ho).
  unfold GetInputPinCount, GetOutputPinCount, GetInputPinIndex, GetOutputPinIndex.
  by rewrite Hi, Ho.
Qed.

Lemma GetEdgeLinkedToLayer_node_agree (L : list addr) (this : addr) (StartIndex : Z)
    (Dir : EEdGraphPinDirection) (Edge : addr) (s1 s2 : Heap * list addr * Z) (n : addr) :
  s1.1.2 = s2.1.2 ∧ s1.2 = s2.2 ∧ agree_on (s1.1.2 ++ L) s1.1.1 s2.1.1 ->
  (GetEdgeLinkedToLayer_node this StartIndex Dir Edge s1 n).1.2
    = (GetEdgeLinkedToLayer_node this StartIndex Dir Edge s2 n).1.2 ∧
  (GetEdgeLinkedToLayer_node this StartIndex Dir Edge s1 n).2
    = (GetEdgeLinkedToLayer_node this StartIndex Dir Edge s2 n).2 ∧
  agree_on ((GetEdgeLinkedToLayer_node this StartIndex Dir Edge s1 n).1.2 ++ L)
           (GetEdgeLinkedToLayer_node this StartIndex Dir Edge s1 n).1.1
           (GetEdgeLinkedToLayer_node this StartIndex Dir Edge s2 n).1.1.
Proof.
  destruct s1 as [[h1 R] I], s2 as [[h2 R2] I2]. simpl.
  intros (<- & <- & Hs & Hag).
  unfold GetEdgeLinkedToLayer_node.
  destruct Hs as (Hn & He & Hp).
  assert (Hs : same_structure h1 h2) by done.
  destruct (He Edge) as [HF HT].
  destruct (same_structure_pin_counts h1 h2 n (To (edge h2 Edge)) Hs) as (C1 & C2 & C3 & C4).
  destruct (same_structure_pin_counts h1 h2 this (From (edge h2 Edge)) Hs) as (_ & _ & D3 & D4).
  rewrite HF, HT, Hp, C1, C2, C3, C4, D3, D4.
  destruct (decide (OwningNode (pin h2 (To (edge h2 Edge))) ≠ n)); simpl.
  - done.
  - split; [done|]. split; [done|].
    set (x := mkEdge _ _ _ _).
    split.
    + split; [|split]; try done.
      intros a. rewrite !edge_set_edge. destruct (decide (a = Edge)); [done|apply He].
    + intros e Hin. rewrite !edge_set_edge.
      destruct (decide (e = Edge)) as [->|Hne]; [done|].
      apply Hag. rewrite !elem_of_app in Hin. rewrite elem_of_app.
      destruct Hin as [[Hin|Hin]|Hin]; auto.
      apply list_elem_of_singleton in Hin. done.
Qed.

Lemma GetEdgeLinkedToLayer_agree (L : list addr) (h1 h2 : Heap) (this : addr)
    (Layer : list addr) (StartIndex : Z) (Dir : EEdGraphPinDirection) :
  agree_on L h1 h2 ->
  (GetEdgeLinkedToLayer h1 this Layer StartIndex Dir).2
    = (GetEdgeLinkedToLayer h2 this Layer StartIndex Dir).2 ∧
  agree_on ((GetEdgeLinkedToLayer h1 this Layer StartIndex Dir).2 ++ L)
           (GetEdgeLinkedToLayer h1 this Layer StartIndex Dir).1
           (GetEdgeLinkedToLayer h2 this Layer StartIndex Dir).1.
Proof.
  intros Hag. unfold GetEdgeLinkedToLayer.
  destruct (same_structure_node h1 h2 this (proj1 Hag)) as (Hi & Ho & _).
  rewrite Hi, Ho.
  apply (fold_left_rel (λ s1 s2 : Heap * list addr,
           s1.2 = s2.2 ∧ agree_on (s1.2 ++ L) s1.1 s2.1)); [|done].
  intros [ha R] [hb R'] Edge. simpl. intros (<- & Hab).
  unfold GetEdgeLinkedToLayer_edge. simpl.
  pose proof (fold_left_rel (λ s1 s2 : Heap * list addr * Z,
                s1.1.2 = s2.1.2 ∧ s1.2 = s2.2 ∧ agree_on (s1.1.2 ++ L) s1.1.1 s2.1.1)
              (GetEdgeLinkedToLayer_node this StartIndex Dir Edge) Layer
              (ha, R, 0%Z) (hb, R, 0%Z)) as HI.
  destruct (fold_left _ Layer (ha, R, 0%Z)) as [[ha' Ra] Ia].
  destruct (fold_left _ Layer (hb, R, 0%Z)) as [[hb' Rb] Ib]. simpl in *.
  destruct HI as (-> & _ & HI'); [|done|done].
  intros b1 b2 x. apply GetEdgeLinkedToLayer_node_agree.
Qed.

Lemma GetEdgeBetweenTwoLayer_agree (h1 h2 : Heap) (Layer1 Layer2 : list addr)
    (Dir : EEdGraphPinDirection) :
  same_structure h1 h2 ->
  (GetEdgeBetweenTwoLayer h1 Layer1 Layer2 Dir).2
    = (GetEdgeBetweenTwoLayer h2 Layer1 Layer2 Dir).2 ∧
  agree_on (GetEdgeBetweenTwoLayer h1 Layer1 Layer2 Dir).2
           (GetEdgeBetweenTwoLayer h1 Layer1 Layer2 Dir).1
           (GetEdgeBetweenTwoLayer h2 Layer1 Layer2 Dir).1.
Proof.
  intros Hs. unfold GetEdgeBetweenTwoLayer.
  pose proof (fold_left_rel (λ s1 s2 : Heap * list addr * Z,
                s1.1.2 = s2.1.2 ∧ s1.2 = s2.2 ∧ agree_on s1.1.2 s1.1.1 s2.1.1)
              (GetEdgeBetweenTwoLayer_node Layer2 Dir) Layer1
              (h1, [], 0%Z) (h2, [], 0%Z)) as HI.
  destruct (fold_left _ Layer1 (h1, [], 0%Z)) as [[ha' Ra] Ia].
  destruct (fold_left _ Layer1 (h2, [], 0%Z)) as [[hb' Rb] Ib]. simpl in *.
  destruct HI as (-> & _ & HI'); [| |done].
  - intros [[ha R] I] [[hb R'] I'] x. simpl. intros (<- & <- & Hab).
    unfold GetEdgeBetweenTwoLayer_node.
    pose proof (GetEdgeLinkedToLayer_agree R ha hb x Layer2 I Dir Hab) as HG.
    destruct (GetEdgeLinkedToLayer ha x Layer2 I Dir) as [ha1 Ea].
    destruct (GetEdgeLinkedToLayer hb x Layer2 I Dir) as [hb1 Eb]. simpl in *.
    destruct HG as (-> & Hs1 & Hag1).
    destruct (same_structure_pin_counts ha1 hb1 x 0 Hs1) as (C1 & C2 & _).
    rewrite C1, C2. split; [done|]. split; [done|].
    split; [done|]. intros e He. apply Hag1. rewrite elem_of_app in *. tauto.
  - split; [done|]. split; [done|]. split; [done|]. intros e He. inversion He.
Qed.

Lemma CalculateCrossing_pop_ext (h1 h2 : Heap) (n : nat) (es : list addr) (cv : Z) :
  n <= length es -> (∀ e, e ∈ es -> edge h1 e = edge h2 e) ->
  CalculateCrossing_pop h1 n es cv = CalculateCrossing_pop h2 n es cv.
Proof.
  revert es cv. induction n as [|n IH]; intros es cv Hn Hag; [done|].
  rewrite !CalculateCrossing_pop_S.
  assert (Hlast : es !!! n ∈ es).
  { apply list_elem_of_lookup_total_2. lia. }
  rewrite (Hag _ Hlast).
  assert (Hsub : ∀ e, e ∈ take n es -> e ∈ es).
  { intros e He. rewrite <- (take_drop n es). apply elem_of_app. by left. }
  assert (Hfold : ∀ l c, (∀ e, e ∈ l -> e ∈ es) ->
    fold_left (λ CrossingValue Edge2,
        if IsCrossing (edge h2 (es !!! n)) (edge h1 Edge2)
        then int32 (CrossingValue + 1) else CrossingValue) l c
    = fold_left (λ CrossingValue Edge2,
        if IsCrossing (edge h2 (es !!! n)) (edge h2 Edge2)
        then int32 (CrossingValue + 1) else CrossingValue) l c).
  { induction l as [|y l IHl]; intros c Hl; [done|]. simpl.
    rewrite (Hag y) by (apply Hl; left). apply IHl.
    intros e He. apply Hl. by right. }
  rewrite Hfold by done.
  apply IH.
  - rewrite length_take. lia.
  - intros e He. apply Hag. by apply Hsub.
Qed.

Lemma crossings_same_structure (h1 h2 : Heap) (Order : list (list addr)) :
  same_structure h1 h2 -> crossings h1 Order = crossings h2 Order.
Proof.
  intros Hs. unfold crossings, CalculateCrossing.
  pose proof (fold_left_rel (λ s1 s2 : Heap * Z, s1.2 = s2.2 ∧ same_structure s1.1 s2.1)
              (CalculateCrossing_layer Order) (seq 1 (length Order - 1))
              (h1, 0%Z) (h2, 0%Z)) as HI.
  apply HI; [|done].
  intros [ha c] [hb c'] i. simpl. intros (<- & Hab).
  unfold CalculateCrossing_layer. simpl.
  pose proof (GetEdgeBetweenTwoLayer_agree ha hb (Order !!! (i - 1)) (Order !!! i)
                EGPD_Output Hab) as HG.
  destruct (GetEdgeBetweenTwoLayer ha _ _ EGPD_Output) as [ha1 Ea].
  destruct (GetEdgeBetweenTwoLayer hb _ _ EGPD_Output) as [hb1 Eb]. simpl in *.
  destruct HG as (-> & Hs1 & Hag1). split; [|done].
  by apply CalculateCrossing_pop_ext.
Qed.

(** ** DoOrderingSweep *)

Lemma DoOrderingSweep_loop_best (Sort : SortFn) (h0 : Heap) (k : nat) :
  ∀ (i : Z) (h : Heap) (Best Order : list (list addr)) (visited : list (list (list addr))),
    same_structure h0 h ->
    Best ∈ visited ->
    (∀ O, O ∈ visited -> (crossings h0 Best <= crossings h0 O)%Z) ->
    same_structure h0 (DoOrderingSweep_loop Sort k i h Best Order).1 ∧
    (DoOrderingSweep_loop Sort k i h Best Order).2
      ∈ visited ++ DoOrderingSweep_orders Sort k i h Best Order ∧
    ∀ O, O ∈ visited ++ DoOrderingSweep_orders Sort k i h Best Order ->
         (crossings h0 (DoOrderingSweep_loop Sort k i h Best Order).2 <= crossings h0 O)%Z.
Proof.
  induction k as [|k IH]; intros i h Best Order visited Hs Hin Hmin.
  - simpl. rewrite app_nil_r. done.
  - simpl.
    pose proof (SortInLayer_structure Sort h0 h Order
                  (if (i mod 2 =? 0)%Z then EGPD_Input else EGPD_Output) Hs) as Hs1.
    destruct (SortInLayer Sort h Order _) as [h1 Order1]. simpl in Hs1.
    pose proof (CalculateCrossing_structure h0 h1 Order1 Hs1) as Hs2.
    assert (Hc1 : (CalculateCrossing h1 Order1).2 = crossings h0 Order1).
    { symmetry. by apply crossings_same_structure. }
    destruct (CalculateCrossing h1 Order1) as [h2 cOrder]. simpl in Hs2, Hc1.
    pose proof (CalculateCrossing_structure h0 h2 Best Hs2) as Hs3.
    assert (Hc2 : (CalculateCrossing h2 Best).2 = crossings h0 Best).
    { symmetry. by apply crossings_same_structure. }
    destruct (CalculateCrossing h2 Best) as [h3 cBest]. simpl in Hs3, Hc2.
    subst cOrder cBest.
    specialize (IH (i + 1)%Z h3
                  (if (crossings h0 Order1 <? crossings h0 Best)%Z then Order1 else Best)
                  Order1 (visited ++ [Order1]) Hs3).
    rewrite <- app_assoc in IH. simpl in IH. apply IH.
    + destruct (crossings h0 Order1 <? crossings h0 Best)%Z; rewrite elem_of_app.
      * right. apply list_elem_of_here.
      * by left.
    + intros O HO. apply elem_of_app in HO as [HO|HO].
      * specialize (Hmin O HO).
        destruct (Z.ltb_spec (crossings h0 Order1) (crossings h0 Best)); lia.
      * apply list_elem_of_singleton in HO as ->.
        destruct (Z.ltb_spec (crossings h0 Order1) (crossings h0 Best)); lia.
Qed.

(** C4.  For every iteration cap, the layered list that [DoOrderingSweep]
    stores is one of the orderings tried (the initial one and the one after
    each alternating barycenter pass) and its crossing count, as
    [CalculateCrossing] computes it, is the least among them; the sweep
    leaves the crossing count of every ordering unchanged, so the count of
    the stored list is never greater than that of the initial list. *)
Theorem DoOrderingSweep_keeps_best (Sort : SortFn) (MaxOrderingIterations : Z)
    (h : Heap) (g : FFormatterGraph) :
  let r := DoOrderingSweep Sort MaxOrderingIterations h g in
  let tried := LayeredList g ::
               DoOrderingSweep_orders Sort (Z.to_nat MaxOrderingIterations) 0%Z h
                                      (LayeredList g) (LayeredList g) in
  LayeredList r.2 ∈ tried ∧
  (∀ O, O ∈ tried -> (crossings r.1 (LayeredList r.2) <= crossings r.1 O)%Z) ∧
  (∀ O, crossings r.1 O = crossings h O) ∧
  (crossings r.1 (LayeredList r.2) <= crossings h (LayeredList g))%Z.
Proof.
  intros r tried. subst r tried. unfold DoOrderingSweep.
  pose proof (DoOrderingSweep_loop_best Sort h (Z.to_nat MaxOrderingIterations) 0%Z h
                (LayeredList g) (LayeredList g) [LayeredList g]
                (same_structure_refl h)) as H.
  destruct (DoOrderingSweep_loop Sort _ 0%Z h (LayeredList g) (LayeredList g)) as [h' Best].
  simpl in *.
  destruct H as (Hs & Hin & Hmin).
  { apply list_elem_of_here. }
  { intros O HO. apply list_elem_of_singleton in HO as ->. lia. }
  assert (Hst : ∀ O, crossings h' O = crossings h O).
  { intros O. symmetry. by apply crossings_same_structure. }
  split; [done|]. split; [|split; [done|]].
  - intros O HO. rewrite !Hst. by apply Hmin.
  - rewrite Hst. apply Hmin. apply list_elem_of_here.
Qed.

(** ** Directed cycles *)

Lemma ranked_acyclic (h : Heap) (g : FFormatterGraph) (rank : addr -> nat) :
  (∀ u v, u ∈ Nodes g -> v ∈ GetSuccessors h u -> v ∈ Nodes g ∧ rank v < rank u) ->
  acyclic h g.
Proof.
  intros Hr n Hn Hcyc.
  assert (Hpath : ∀ u v, tc (edge_to h) u v -> u ∈ Nodes g -> v ∈ Nodes g ∧ rank v < rank u).
  { clear n Hn Hcyc. intros u v Htc. induction Htc as [u v Huv|u w v Huw _ IH]; intros Hu.
    - by apply Hr.
    - destruct (Hr u w Hu Huw) as [Hw Hlt]. destruct (IH Hw). split; [done|lia]. }
  destruct (Hpath n n Hcyc Hn). lia.
Qed.

(** ** RemoveCycle on the 3-cycle *)

(** C2, as the code behaves.  On the 3-cycle A -> B -> C -> A, [RemoveCycle]
    leaves a graph without directed cycle in which exactly one edge of the
    input, B -> C, the in-edge of the last node, is gone from both of its
    ends; the edges A -> B and C -> A are as before, and no edge is turned
    around. *)
Theorem RemoveCycle_cycle3_cuts_one_edge :
  ∃ h', RemoveCycle 10 cycle3.1 cycle3.2 = Some h' ∧
    Nodes cycle3.2 = [1; 4; 7] ∧
    (GetSuccessors cycle3.1 1 = [4] ∧ GetSuccessors cycle3.1 4 = [7] ∧
     GetSuccessors cycle3.1 7 = [1]) ∧
    (GetSuccessors h' 1 = [4] ∧ GetSuccessors h' 4 = [] ∧ GetSuccessors h' 7 = [1]) ∧
    (GetPredecessors h' 1 = [7] ∧ GetPredecessors h' 4 = [1] ∧ GetPredecessors h' 7 = []) ∧
    acyclic h' cycle3.2.
Proof.
  eexists. split; [vm_compute; reflexivity|].
  split; [by vm_compute|]. split; [by vm_compute|].
  split; [by vm_compute|]. split; [by vm_compute|].
  apply (ranked_acyclic _ _ (λ n, match n with 4 => 0 | 1 => 1 | _ => 2 end)).
  intros u v Hu Hv.
  change (Nodes cycle3.2) with [1; 4; 7] in *.
  list_cases Hu; vm_compute in Hv; list_cases Hv; (split; [|lia]).
  - apply list_elem_of_further, list_elem_of_here.
  - apply list_elem_of_here.
Qed.

(** C2, as stated, fails: the edge B -> C of the 3-cycle is deleted by
    [RemoveCycle], it is present after it in neither direction. *)
Lemma RemoveCycle_cycle3_deletes_edge :
  ∃ h', RemoveCycle 10 cycle3.1 cycle3.2 = Some h' ∧ ¬ edges_kept cycle3.1 h' cycle3.2.
Proof.
  eexists. split; [vm_compute; reflexivity|].
  intros Hkept. destruct (Hkept 4 7) as [H|H].
  - change (Nodes cycle3.2) with [1; 4; 7]. apply list_elem_of_further, list_elem_of_here.
  - vm_compute. apply list_elem_of_here.
  - vm_compute in H. list_cases H.
  - vm_compute in H. list_cases H.
Qed.

(** ** Layering *)

Lemma exists_cycle (S : list addr) :
  ∀ R : addr -> addr -> Prop,
    S ≠ [] -> (∀ x, x ∈ S -> ∃ y, y ∈ S ∧ R x y) -> ∃ x, x ∈ S ∧ tc R x x.
Proof.
  induction S as [|x S IH]; intros R Hne Hsucc; [done|].
  destruct (Hsucc x) as (z & Hz & Hxz); [apply list_elem_of_here|].
  apply elem_of_cons in Hz as [->|Hz].
  { exists x. split; [apply list_elem_of_here|]. by apply tc_once. }
  destruct (IH (λ y w, R y w ∨ (R y x ∧ R x w))) as (y & Hy & Hcyc).
  - intros ->. inversion Hz.
  - intros y Hy. destruct (Hsucc y) as (w & Hw & Hyw); [by apply list_elem_of_further|].
    apply elem_of_cons in Hw as [->|Hw].
    + exists z. split; [done|]. right. done.
    + exists w. split; [done|]. by left.
  - exists y. split; [by apply list_elem_of_further|].
    clear Hy. revert Hcyc. generalize y at 1 3. generalize y.
    intros b a Hcyc. induction Hcyc as [a b Hab|a b c Hab _ IHc].
    + destruct Hab as [Hab|[Hax Hxb]]; [by apply tc_once|].
      eapply tc_l; [exact Hax|]. by apply tc_once.
    + destruct Hab as [Hab|[Hax Hxb]].
      * eapply tc_l; [exact Hab|exact IHc].
      * eapply tc_l; [exact Hax|]. eapply tc_l; [exact Hxb|exact IHc].
Qed.

Lemma same_graph_refl (h : Heap) : same_graph h h.
Proof. by repeat split. Qed.

Lemma same_graph_trans (h1 h2 h3 : Heap) :
  same_graph h1 h2 -> same_graph h2 h3 -> same_graph h1 h3.
Proof.
  intros (He & Hp & Hn) (He' & Hp' & Hn'). split; [|split]; intros a.
  - by rewrite He.
  - by rewrite Hp.
  - by rewrite Hn.
Qed.

Lemma same_graph_node (h h' : Heap) (a : addr) :
  same_graph h h' ->
  InEdges (node h a) = InEdges (node h' a) ∧ OutEdges (node h a) = OutEdges (node h' a).
Proof.
  intros (_ & _ & Hn). specialize (Hn a). split.
  - apply (f_equal InEdges) in Hn. exact Hn.
  - apply (f_equal OutEdges) in Hn. exact Hn.
Qed.

Lemma same_graph_neighbours (h h' : Heap) (n : addr) :
  same_graph h h' ->
  GetSuccessors h n = GetSuccessors h' n ∧ GetPredecessors h n = GetPredecessors h' n.
Proof.
  intros Hs. destruct (same_graph_node h h' n Hs) as [Hi Ho].
  destruct Hs as (He & Hp & _).
  unfold GetSuccessors, GetPredecessors. rewrite Hi, Ho.
  split; apply map_ext; intros e; by rewrite He, Hp.
Qed.

(** The assignment loop of [CalculateLongestPath]. *)
Lemma assign_depth_node (k : Z) (Leaves : list addr) (h : Heap) (n : addr) :
  node (fold_left (λ h leaf, set_node h leaf (with_PathDepth k (node h leaf))) Leaves h) n
  = if decide (n ∈ Leaves) then with_PathDepth k (node h n) else node h n.
Proof.
  revert h. induction Leaves as [|x Leaves IH]; intros h; cbn [fold_left].
  - destruct (decide (n ∈ [])) as [H|_]; [inversion H|done].
  - rewrite IH, !node_set_node.
    destruct (decide (n ∈ Leaves)) as [Hin|Hin], (decide (n = x)) as [->|Hne].
    + rewrite decide_True by apply list_elem_of_here. done.
    + rewrite decide_True by (by apply list_elem_of_further). done.
    + rewrite decide_True by apply list_elem_of_here. done.
    + rewrite decide_False; [done|]. intros H. apply elem_of_cons in H as [?|?]; done.
Qed.

Lemma assign_depth_same_graph (k : Z) (Leaves : list addr) (h : Heap) :
  same_graph h (fold_left (λ h leaf, set_node h leaf (with_PathDepth k (node h leaf))) Leaves h).
Proof.
  split; [|split].
  - intros a. revert h. induction Leaves as [|x Leaves IH]; intros h; [done|].
    simpl. by rewrite <- IH.
  - intros a. revert h. induction Leaves as [|x Leaves IH]; intros h; [done|].
    simpl. by rewrite <- IH.
  - intros a. rewrite assign_depth_node. by destruct (decide (a ∈ Leaves)).
Qed.

Lemma filter_length_lt {A} (P Q : A -> Prop) `{!∀ x, Decision (P x)} `{!∀ x, Decision (Q x)}
    (l : list A) (x : A) :
  (∀ y, Q y -> P y) -> x ∈ l -> P x -> ¬ Q x ->
  length (filter Q l) < length (filter P l).
Proof.
  intros HQP Hx HPx HQx.
  assert (Hle : ∀ l', length (filter Q l') <= length (filter P l')).
  { induction l' as [|y l' IH]; [done|]. rewrite !filter_cons.
    destruct (decide (Q y)) as [Hq|Hq].
    - rewrite decide_True by auto. simpl. lia.
    - destruct (decide (P y)); simpl; lia. }
  induction l as [|y l IH]; [inversion Hx|].
  rewrite !filter_cons. apply elem_of_cons in Hx as [<-|Hx].
  - rewrite decide_False, decide_True by done. simpl. specialize (Hle l). lia.
  - specialize (IH Hx). destruct (decide (Q y)) as [Hq|Hq].
    + rewrite decide_True by auto. simpl. lia.
    + destruct (decide (P y)); simpl; lia.
Qed.

Lemma AnySuccessorPathDepthEqu0_spec (h : Heap) (n : addr) :
  AnySuccessorPathDepthEqu0 h n = true <->
  ∃ v, v ∈ GetSuccessors h n ∧ PathDepth (node h v) = 0%Z.
Proof.
  unfold AnySuccessorPathDepthEqu0, GetSuccessors. rewrite existsb_exists. split.
  - intros (e & He & Hd). apply bool_decide_eq_true in Hd.
    eexists. split; [|exact Hd]. apply list_elem_of_In.
    apply in_map_iff. by exists e.
  - intros (v & Hv & Hd). apply list_elem_of_In, in_map_iff in Hv as (e & <- & He).
    exists e. split; [done|]. by apply bool_decide_eq_true.
Qed.

Lemma GetLeaves_spec (h : Heap) (g : FFormatterGraph) (n : addr) :
  n ∈ GetLeavesWidthPathDepthEqu0 h g <->
  n ∈ Nodes g ∧ PathDepth (node h n) = 0%Z ∧ AnySuccessorPathDepthEqu0 h n = false.
Proof.
  unfold GetLeavesWidthPathDepthEqu0. rewrite list_elem_of_filter. split.
  - intros [Hn Hin]. split; [done|].
    destruct (decide (PathDepth (node h n) = 0%Z)) as [Hd|Hd]; [|tauto].
    split; [done|]. destruct (AnySuccessorPathDepthEqu0 h n); [tauto|done].
  - intros (Hin & Hd & Ha). split; [|done]. rewrite Ha. intros [?|?]; done.
Qed.

Lemma CalculateLongestPath_loop_ok (h0 : Heap) (g : FFormatterGraph) :
  (∀ u v, u ∈ Nodes g -> v ∈ GetSuccessors h0 u -> v ∈ Nodes g) ->
  acyclic h0 g ->
  (Num (Nodes g) < INT32_MAX)%Z ->
  ∀ (fuel : nat) (h : Heap) (k : Z),
    same_graph h0 h -> depth_inv g h k -> (1 <= k)%Z ->
    (k - 1 + Z.of_nat (depth0_count h g) <= Num (Nodes g))%Z ->
    depth0_count h g < fuel ->
    ∃ h' L, CalculateLongestPath_loop fuel h g k = Some (h', L) ∧
      same_graph h0 h' ∧ (1 <= L <= Num (Nodes g) + 1)%Z ∧
      (∀ n, n ∈ Nodes g -> (1 <= PathDepth (node h' n) < L)%Z) ∧
      (∀ u v, u ∈ Nodes g -> v ∈ GetSuccessors h' u ->
              (PathDepth (node h' v) < PathDepth (node h' u))%Z).
Proof.
  intros Hclosed Hacyc Hnum.
  induction fuel as [|fuel IH]; intros h k Hsg (Hrange & Hedge) Hk Hbound Hfuel; [lia|].
  assert (Hsucc : ∀ n, GetSuccessors h n = GetSuccessors h0 n).
  { intros n. symmetry. by apply same_graph_neighbours. }
  cbn [CalculateLongestPath_loop].
  destruct (decide (Num (GetLeavesWidthPathDepthEqu0 h g) = 0%Z)) as [Hnone|Hsome].
  - (* no leaf is left: every node has its depth *)
    assert (Hall : ∀ n, n ∈ Nodes g -> PathDepth (node h n) ≠ 0%Z).
    { intros n Hn Hd.
      destruct (exists_cycle (filter (λ n, PathDepth (node h n) = 0%Z) (Nodes g))
                  (edge_to h0)) as (x & Hx & Hcyc).
      - intros Hnil. assert (Hin : n ∈ filter (λ n, PathDepth (node h n) = 0%Z) (Nodes g))
          by (by apply list_elem_of_filter).
        rewrite Hnil in Hin. inversion Hin.
      - intros x Hx. apply list_elem_of_filter in Hx as [Hdx Hxin].
        destruct (AnySuccessorPathDepthEqu0 h x) eqn:Hany.
        + apply AnySuccessorPathDepthEqu0_spec in Hany as (v & Hv & Hdv).
          rewrite Hsucc in Hv. exists v. split; [|done].
          apply list_elem_of_filter. split; [done|]. by eapply Hclosed.
        + assert (Hleaf : x ∈ GetLeavesWidthPathDepthEqu0 h g) by (by apply GetLeaves_spec).
          unfold Num in Hnone.
          destruct (GetLeavesWidthPathDepthEqu0 h g); [inversion Hleaf|simpl in Hnone; lia].
      - apply list_elem_of_filter in Hx as [_ Hxin]. by apply (Hacyc x). }
    exists h, k. split; [done|]. split; [done|]. split; [lia|]. split.
    + intros n Hn. specialize (Hrange n Hn). specialize (Hall n Hn). lia.
    + intros u v Hu Hv. specialize (Hedge u v Hu (Hall u Hu) Hv). lia.
  - (* the leaves take the depth [k] *)
    set (Leaves := GetLeavesWidthPathDepthEqu0 h g) in *.
    set (h1 := fold_left (λ h leaf, set_node h leaf (with_PathDepth k (node h leaf))) Leaves h).
    assert (Hd1 : ∀ n, PathDepth (node h1 n)
                       = if decide (n ∈ Leaves) then k else PathDepth (node h n)).
    { intros n. unfold h1. rewrite assign_depth_node. by destruct (decide (n ∈ Leaves)). }
    assert (Hsg1 : same_graph h h1) by apply assign_depth_same_graph.
    assert (Hsucc1 : ∀ n, GetSuccessors h1 n = GetSuccessors h n).
    { intros n. symmetry. by apply same_graph_neighbours. }
    destruct Leaves as [|l0 Leaves'] eqn:HL; [done|].
    assert (Hl0 : l0 ∈ Nodes g ∧ PathDepth (node h l0) = 0%Z ∧
                  AnySuccessorPathDepthEqu0 h l0 = false).
    { apply GetLeaves_spec. fold Leaves. rewrite HL. apply list_elem_of_here. }
    rewrite <- HL in *.
    assert (Hlt : depth0_count h1 g < depth0_count h g).
    { unfold depth0_count. apply (filter_length_lt _ _ _ l0); try tauto.
      - intros y. rewrite Hd1. destruct (decide (y ∈ Leaves)) as [Hy|Hy]; [lia|done].
      - rewrite Hd1, decide_True; [lia|]. rewrite HL. apply list_elem_of_here. }
    assert (Hpos : 0 < depth0_count h g) by lia.
    assert (Hk1 : int32 (k + 1) = (k + 1)%Z).
    { apply int32_small. unfold INT32_MAX in Hnum. lia. }
    rewrite Hk1. apply IH.
    + by eapply same_graph_trans.
    + split.
      * intros n Hn. rewrite Hd1. specialize (Hrange n Hn).
        destruct (decide (n ∈ Leaves)); lia.
      * intros u v Hu Hdu Hv. rewrite Hsucc1 in Hv. rewrite !Hd1 in *.
        assert (Hvin : v ∈ Nodes g).
        { rewrite Hsucc in Hv. by eapply Hclosed. }
        destruct (decide (u ∈ Leaves)) as [Hul|Hul].
        -- apply GetLeaves_spec in Hul as (_ & _ & Hany).
           assert (Hdv : PathDepth (node h v) ≠ 0%Z).
           { intros Hdv. assert (AnySuccessorPathDepthEqu0 h u = true); [|congruence].
             apply AnySuccessorPathDepthEqu0_spec. eauto. }
           rewrite decide_False.
           ++ specialize (Hrange v Hvin). lia.
           ++ intros Hvl. apply GetLeaves_spec in Hvl as (_ & ? & _). done.
        -- specialize (Hedge u v Hu Hdu Hv). rewrite decide_False; [lia|].
           intros Hvl. apply GetLeaves_spec in Hvl as (_ & ? & _). lia.
    + lia.
    + lia.
    + lia.
Qed.

Lemma SetAdd_elem (x y : addr) (s : list addr) : y ∈ SetAdd x s <-> y = x ∨ y ∈ s.
Proof.
  unfold SetAdd. destruct (decide (x ∈ s)) as [Hx|Hx].
  - split; [by right|]. intros [->|?]; done.
  - rewrite elem_of_app, list_elem_of_singleton. tauto.
Qed.

Lemma SetAppend_elem (y : addr) (s t : list addr) : y ∈ SetAppend s t <-> y ∈ s ∨ y ∈ t.
Proof.
  unfold SetAppend. revert s. induction t as [|x t IH]; intros s; simpl.
  - split; [by left|]. intros [?|H]; [done|inversion H].
  - rewrite IH, SetAdd_elem, elem_of_cons. tauto.
Qed.

Lemma layer_fold_elem (P : addr -> bool) (l acc : list addr) (x : addr) :
  x ∈ fold_left (λ Layer Node, if P Node then SetAdd Node Layer else Layer) l acc
  <-> x ∈ acc ∨ (x ∈ l ∧ P x = true).
Proof.
  revert acc. induction l as [|y l IH]; intros acc; simpl.
  - split; [by left|]. intros [?|[H _]]; [done|inversion H].
  - rewrite IH, elem_of_cons. destruct (P y) eqn:Hy.
    + rewrite SetAdd_elem. split.
      * intros [[->|?]|[? ?]]; auto.
      * intros [?|[[->|?] ?]]; auto.
    + split.
      * intros [?|[? ?]]; auto.
      * intros [?|[[->|?] ?]]; auto. congruence.
Qed.

Lemma layer_of_snoc (LL : list (list addr)) (Layer : list addr) (x : addr) (j : nat) :
  layer_of (LL ++ [Layer]) x j <-> layer_of LL x j ∨ (j = length LL ∧ x ∈ Layer).
Proof.
  unfold layer_of. split.
  - intros (L & HL & Hx). destruct (decide (j < length LL)) as [Hj|Hj].
    + rewrite lookup_app_l in HL by done. left. eauto.
    + rewrite lookup_app_r in HL by lia.
      destruct (j - length LL) as [|k] eqn:E; simpl in HL; [|by destruct k].
      injection HL as <-. right. split; [lia|done].
  - intros [(L & HL & Hx)|[-> Hx]].
    + exists L. split; [|done]. by apply lookup_app_l_Some.
    + exists Layer. split; [|done]. rewrite lookup_app_r by lia.
      by rewrite Nat.sub_diag.
Qed.

Lemma layer_of_lt (LL : list (list addr)) (x : addr) (j : nat) :
  layer_of LL x j -> j < length LL.
Proof. intros (L & HL & _). by eapply lookup_lt_Some. Qed.

Lemma GetNodesGreaterThan_elem (h : Heap) (g : FFormatterGraph) (i : Z)
    (Excluded : list addr) (x : addr) :
  x ∈ GetNodesGreaterThan h g i Excluded <->
  x ∈ Nodes g ∧ (x ∉ Excluded) ∧ (i <= PathDepth (node h x))%Z.
Proof.
  unfold GetNodesGreaterThan. rewrite list_elem_of_filter.
  split; intros H; repeat split; try tauto; lia.
Qed.

Lemma GetSuccessorsForNodes_elem (h : Heap) (Set_ : list addr) (x : addr) :
  x ∈ GetSuccessorsForNodes h Set_ <->
  ∃ u, u ∈ Set_ ∧ x ∈ GetSuccessors h u ∧ (x ∉ Set_).
Proof.
  unfold GetSuccessorsForNodes. rewrite list_elem_of_In, in_flat_map. split.
  - intros (u & Hu & Hx). exists u. apply list_elem_of_In in Hu, Hx.
    apply list_elem_of_filter in Hx. tauto.
  - intros (u & Hu & Hx & Hs). exists u. split; [by apply list_elem_of_In|].
    apply list_elem_of_In, list_elem_of_filter. done.
Qed.

Lemma DoLayering_body_spec (h : Heap) (g : FFormatterGraph) (i : Z) (Set_ : list addr)
    (x : addr) :
  (x ∈ (DoLayering_body h g i Set_).2 <->
     ((x ∈ Nodes g ∧ (x ∉ Set_) ∧ (i <= PathDepth (node h x))%Z) ∨
      (∃ u, u ∈ Set_ ∧ x ∈ GetSuccessors h u ∧ (x ∉ Set_))) ∧
     (∀ p, p ∈ GetPredecessors h x -> p ∈ Set_)) ∧
  (x ∈ (DoLayering_body h g i Set_).1 <-> x ∈ Set_ ∨ x ∈ (DoLayering_body h g i Set_).2).
Proof.
  unfold DoLayering_body. cbn [fst snd]. split; [|apply SetAppend_elem].
  rewrite (layer_fold_elem
             (λ Node, forallb (λ Predecessor, bool_decide (Predecessor ∈ Set_))
                              (GetPredecessors h Node))).
  rewrite elem_of_app, forallb_forall, GetNodesGreaterThan_elem, GetSuccessorsForNodes_elem.
  split.
  - intros [H|[Hin Hp]]; [inversion H|]. split; [done|].
    intros p Hp'. apply list_elem_of_In in Hp'. specialize (Hp p Hp').
    by apply bool_decide_eq_true in Hp.
  - intros [Hin Hp]. right. split; [done|].
    intros p Hp'. apply bool_decide_eq_true, Hp. by apply list_elem_of_In.
Qed.

Lemma DoLayering_loop_inv (h : Heap) (g : FFormatterGraph) :
  (∀ u v, u ∈ Nodes g -> v ∈ GetSuccessors h u -> v ∈ Nodes g) ->
  (∀ u v, v ∈ Nodes g -> u ∈ GetPredecessors h v -> u ∈ Nodes g ∧ v ∈ GetSuccessors h u) ->
  (∀ u v, u ∈ Nodes g -> v ∈ GetSuccessors h u ->
          (PathDepth (node h v) < PathDepth (node h u))%Z) ->
  ∀ (n : nat) (Set_ : list addr) (LL : list (list addr)),
    layering_inv h g Set_ LL (Z.of_nat n) ->
    ∃ Set', layering_inv h g Set' (DoLayering_loop n h g Set_ LL) 0.
Proof.
  intros Hclosed Hpred Hdepth.
  induction n as [|n IH]; intros Set_ LL Hinv; [by exists Set_|].
  cbn [DoLayering_loop].
  pose proof (DoLayering_body_spec h g (Z.of_nat (S n)) Set_) as Hbody.
  destruct (DoLayering_body h g (Z.of_nat (S n)) Set_) as [Set' Layer].
  cbn [fst snd] in Hbody.
  apply IH.
  destruct Hinv as (Hset & Huniq & Hearlier & Hdeep & Hsub).
  assert (Hfresh : ∀ x, x ∈ Layer -> x ∉ Set_).
  { intros x Hx. apply Hbody in Hx as [[(_ & ? & _)|(u & _ & _ & ?)] _]; done. }
  split; [|split; [|split; [|split]]].
  - intros x. rewrite (proj2 (Hbody x)), Hset. split.
    + intros [[j Hj]|Hx].
      * exists j. apply layer_of_snoc. by left.
      * exists (length LL). apply layer_of_snoc. by right.
    + intros [j Hj]. apply layer_of_snoc in Hj as [Hj|[_ Hx]]; eauto.
  - intros x j1 j2 H1 H2.
    apply layer_of_snoc in H1 as [H1|[-> H1]], H2 as [H2|[-> H2]].
    + by eapply Huniq.
    + exfalso. apply (Hfresh x H2), Hset. eauto.
    + exfalso. apply (Hfresh x H1), Hset. eauto.
    + done.
  - intros v j Hv u Hu. apply layer_of_snoc in Hv as [Hv|[-> Hv]].
    + destruct (Hearlier v j Hv u Hu) as (j' & Hlt & Hj').
      exists j'. split; [done|]. apply layer_of_snoc. by left.
    + apply Hbody in Hv as [_ Hp]. specialize (Hp u Hu).
      apply Hset in Hp as [j' Hj']. exists j'. split.
      * by eapply layer_of_lt.
      * apply layer_of_snoc. by left.
  - intros x Hx Hd. apply Hbody.
    destruct (decide (x ∈ Set_)) as [Hin|Hnin]; [by left|]. right.
    apply Hbody. split.
    + left. split; [done|]. split; [done|]. lia.
    + intros p Hp. destruct (Hpred p x Hx Hp) as [Hpin Hxp].
      apply Hdeep; [done|]. specialize (Hdepth p x Hpin Hxp). lia.
  - intros x Hx. apply Hbody in Hx as [Hx|Hx]; [by apply Hsub|].
    apply Hbody in Hx as [[(? & _)|(u & Hu & Hxu & _)] _]; [done|].
    eapply Hclosed; [|exact Hxu]. by apply Hsub.
Qed.

Lemma depth0_count_le (h : Heap) (g : FFormatterGraph) :
  depth0_count h g <= length (Nodes g).
Proof. unfold depth0_count. apply length_filter. Qed.

(** C1.  For a graph without directed cycle whose edges are recorded at both
    ends and whose path depths are still 0, [DoLayering] returns, leaves the
    graph as it is, puts every node in exactly one layer, and puts the head
    of every edge in a layer of strictly greater index than its tail: the
    rank difference of every edge is at least 1. *)
Theorem DoLayering_rank_feasible (fuel : nat) (h : Heap) (g : FFormatterGraph) :
  (∀ n, n ∈ Nodes g -> PathDepth (node h n) = 0%Z) ->
  edges_recorded h g ->
  acyclic h g ->
  (Num (Nodes g) < INT32_MAX)%Z ->
  length (Nodes g) < fuel ->
  ∃ h' g', DoLayering fuel h g = Some (h', g') ∧
    same_graph h h' ∧
    (∀ n, n ∈ Nodes g -> ∃ i, layer_of (LayeredList g') n i) ∧
    (∀ n i j, layer_of (LayeredList g') n i -> layer_of (LayeredList g') n j -> i = j) ∧
    (∀ u v, u ∈ Nodes g -> v ∈ GetSuccessors h' u ->
       ∃ i j, layer_of (LayeredList g') u i ∧ layer_of (LayeredList g') v j ∧ 1 <= j - i).
Proof.
  intros Hzero [Hrec1 Hrec2] Hacyc Hnum Hfuel.
  pose proof (depth0_count_le h g) as Hcnt.
  assert (Hclosed : ∀ u v, u ∈ Nodes g -> v ∈ GetSuccessors h u -> v ∈ Nodes g).
  { intros u v Hu Hv. by apply (Hrec1 u v). }
  assert (Hdi : depth_inv g h 1).
  { split.
    - intros n Hn. rewrite (Hzero n Hn). lia.
    - intros u v Hu Hd. by rewrite (Hzero u Hu) in Hd. }
  assert (Hb : (1 - 1 + Z.of_nat (depth0_count h g) <= Num (Nodes g))%Z).
  { unfold Num. lia. }
  assert (Hf : depth0_count h g < fuel) by lia.
  destruct (CalculateLongestPath_loop_ok h g Hclosed Hacyc Hnum fuel h 1%Z
              (same_graph_refl h) Hdi (Z.le_refl 1) Hb Hf)
    as (h' & L & Hloop & Hsg & HL & Hrange & Hdepth).
  assert (Hnb : ∀ n, GetSuccessors h' n = GetSuccessors h n ∧
                     GetPredecessors h' n = GetPredecessors h n).
  { intros n. destruct (same_graph_neighbours h h' n Hsg). by split. }
  unfold DoLayering, CalculateLongestPath. rewrite Hloop. simpl.
  assert (HL1 : int32 (L - 1) = (L - 1)%Z).
  { apply int32_small. unfold INT32_MAX in Hnum. lia. }
  rewrite HL1. destruct (Z.ltb_spec (L - 1) 0) as [Hneg|_]; [lia|].
  assert (Hclosed' : ∀ u v, u ∈ Nodes g -> v ∈ GetSuccessors h' u -> v ∈ Nodes g).
  { intros u v Hu Hv. rewrite (proj1 (Hnb u)) in Hv. by apply (Hrec1 u v). }
  assert (Hpred' : ∀ u v, v ∈ Nodes g -> u ∈ GetPredecessors h' v ->
                          u ∈ Nodes g ∧ v ∈ GetSuccessors h' u).
  { intros u v Hv Hu. rewrite (proj2 (Hnb v)) in Hu. rewrite (proj1 (Hnb u)).
    by apply Hrec2. }
  assert (Hinit : layering_inv h' g [] [] (Z.of_nat (Z.to_nat (L - 1)))).
  { split; [|split; [|split; [|split]]].
    - intros x. split; [intros H; inversion H|].
      intros (j & Layer & HLy & _). by rewrite lookup_nil in HLy.
    - intros x j1 j2 (Layer & HLy & _). by rewrite lookup_nil in HLy.
    - intros v j (Layer & HLy & _). by rewrite lookup_nil in HLy.
    - intros n Hn Hd. specialize (Hrange n Hn). lia.
    - intros x H. inversion H. }
  destruct (DoLayering_loop_inv h' g Hclosed' Hpred' Hdepth (Z.to_nat (L - 1)) [] [] Hinit)
    as (Set' & Hset & Huniq & Hearlier & Hdeep & Hsub).
  eexists h', _. split; [reflexivity|]. cbn [LayeredList with_LayeredList].
  split; [done|]. split; [|split; [done|]].
  - intros n Hn. apply Hset, Hdeep; [done|]. specialize (Hrange n Hn). lia.
  - intros u v Hu Hv.
    assert (Hvn : v ∈ Nodes g ∧ u ∈ GetPredecessors h' v).
    { rewrite (proj1 (Hnb u)) in Hv. rewrite (proj2 (Hnb v)). by apply Hrec1. }
    destruct Hvn as [Hvn Hpred].
    assert (Hvl : ∃ j, layer_of (DoLayering_loop (Z.to_nat (L - 1)) h' g [] []) v j).
    { apply Hset, Hdeep; [done|]. specialize (Hrange v Hvn). lia. }
    destruct Hvl as [j Hj]. destruct (Hearlier v j Hj u Hpred) as (i & Hlt & Hi).
    exists i, j. split; [done|]. split; [done|]. lia.
Qed.

Lemma DoLayering_rank_feasible_witness :
  ∃ h' g', DoLayering 5 diamond4.1 diamond4.2 = Some (h', g') ∧
    same_graph diamond4.1 h' ∧
    (∀ n, n ∈ Nodes diamond4.2 -> ∃ i, layer_of (LayeredList g') n i) ∧
    (∀ n i j, layer_of (LayeredList g') n i -> layer_of (LayeredList g') n j -> i = j) ∧
    (∀ u v, u ∈ Nodes diamond4.2 -> v ∈ GetSuccessors h' u ->
       ∃ i j, layer_of (LayeredList g') u i ∧ layer_of (LayeredList g') v j ∧ 1 <= j - i).
Proof.
  assert (E : Nodes diamond4.2 = [1; 4; 7; 10]) by (vm_compute; reflexivity).
  apply (DoLayering_rank_feasible 5 diamond4.1 diamond4.2).
  - intros n Hn. rewrite E in Hn. list_cases Hn; by vm_compute.
  - split; intros u v Hu Hv; rewrite E in *.
    + list_cases Hu; vm_compute in Hv; list_cases Hv;
        (split; [|vm_compute]); repeat first [apply list_elem_of_here | apply list_elem_of_further].
    + list_cases Hu; vm_compute in Hv; list_cases Hv;
        (split; [|vm_compute]); repeat first [apply list_elem_of_here | apply list_elem_of_further].
  - apply (ranked_acyclic _ _ (λ n, match n with 1 => 2 | 10 => 0 | _ => 1 end)).
    intros u v Hu Hv. rewrite E in *.
    list_cases Hu; vm_compute in Hv; list_cases Hv; (split; [|lia]);
      repeat first [apply list_elem_of_here | apply list_elem_of_further].
  - by vm_compute.
  - rewrite E. simpl. lia.
Defined.

(** ** The effect of the node operations on the store *)

Lemma node_Connect (h : Heap) (this p q n : addr) :
  node (Connect h this p q) n =
  if decide (n = this)
  then (if decide (Direction (pin h p) = EGPD_Output)
        then with_OutEdges (OutEdges (node h this) ++ [next h]) (node h this)
        else with_InEdges (InEdges (node h this) ++ [next h]) (node h this))
  else node h n.
Proof.
  unfold Connect. cbn [alloc].
  change (pin (set_edge _ _ _) p) with (pin h p).
  change (node (set_edge _ _ _) this) with (node h this).
  destruct (decide (Direction (pin h p) = EGPD_Output)); rewrite node_set_node;
    by destruct (decide (n = this)).
Qed.

Lemma pin_Connect (h : Heap) (this p q x : addr) : pin (Connect h this p q) x = pin h x.
Proof.
  unfold Connect. cbn [alloc].
  by destruct (decide (Direction (pin _ p) = EGPD_Output)).
Qed.

Lemma edge_Connect (h : Heap) (this p q e : addr) :
  edge (Connect h this p q) e = if decide (e = next h) then mkEdge p 0 q 0 else edge h e.
Proof.
  unfold Connect. cbn [alloc].
  destruct (decide (Direction (pin _ p) = EGPD_Output));
    change (edge (set_node ?h' _ _) e) with (edge h' e); rewrite edge_set_edge;
    unfold edge; simpl; done.
Qed.

Lemma next_Connect (h : Heap) (this p q : addr) : next (Connect h this p q) = S (next h).
Proof.
  unfold Connect. cbn [alloc].
  by destruct (decide (Direction (pin _ p) = EGPD_Output)).
Qed.

Lemma node_Disconnect (h : Heap) (this p q n : addr) :
  node (Disconnect h this p q) n =
  if decide (n = this)
  then (if decide (Direction (pin h p) = EGPD_Output)
        then with_OutEdges
               (RemoveFirst (λ Edge, bool_decide (From (edge h Edge) = p ∧ To (edge h Edge) = q))
                            (OutEdges (node h this))) (node h this)
        else with_InEdges
               (RemoveFirst (λ Edge, bool_decide (From (edge h Edge) = p ∧ To (edge h Edge) = q))
                            (InEdges (node h this))) (node h this))
  else node h n.
Proof.
  unfold Disconnect.
  destruct (decide (Direction (pin h p) = EGPD_Output)); rewrite node_set_node;
    by destruct (decide (n = this)).
Qed.

Lemma pin_Disconnect (h : Heap) (this p q x : addr) : pin (Disconnect h this p q) x = pin h x.
Proof. unfold Disconnect. by destruct (decide (Direction (pin h p) = EGPD_Output)). Qed.

Lemma edge_Disconnect (h : Heap) (this p q e : addr) :
  edge (Disconnect h this p q) e = edge h e.
Proof. unfold Disconnect. by destruct (decide (Direction (pin h p) = EGPD_Output)). Qed.

Lemma next_Disconnect (h : Heap) (this p q : addr) : next (Disconnect h this p q) = next h.
Proof. unfold Disconnect. by destruct (decide (Direction (pin h p) = EGPD_Output)). Qed.

Lemma nextGuid_Disconnect (h : Heap) (this p q : addr) :
  nextGuid (Disconnect h this p q) = nextGuid h.
Proof. unfold Disconnect. by destruct (decide (Direction (pin h p) = EGPD_Output)). Qed.

Lemma node_bump (h : Heap) (n : addr) : node (bump h) n = node h n.
Proof. reflexivity. Qed.
Lemma node_bumpGuid (h : Heap) (n : addr) : node (bumpGuid h) n = node h n.
Proof. reflexivity. Qed.
Lemma node_set_pin (h : Heap) (a : addr) (p : FFormatterPin) (n : addr) :
  node (set_pin h a p) n = node h n.
Proof. reflexivity. Qed.
Lemma node_set_edge (h : Heap) (a : addr) (e : FFormatterEdge) (n : addr) :
  node (set_edge h a e) n = node h n.
Proof. reflexivity. Qed.
Lemma pin_bump (h : Heap) (x : addr) : pin (bump h) x = pin h x.
Proof. reflexivity. Qed.
Lemma pin_bumpGuid (h : Heap) (x : addr) : pin (bumpGuid h) x = pin h x.
Proof. reflexivity. Qed.
Lemma pin_set_node (h : Heap) (a : addr) (n : FFormatterNode) (x : addr) :
  pin (set_node h a n) x = pin h x.
Proof. reflexivity. Qed.
Lemma pin_set_edge (h : Heap) (a : addr) (e : FFormatterEdge) (x : addr) :
  pin (set_edge h a e) x = pin h x.
Proof. reflexivity. Qed.
Lemma edge_bump (h : Heap) (x : addr) : edge (bump h) x = edge h x.
Proof. reflexivity. Qed.
Lemma edge_bumpGuid (h : Heap) (x : addr) : edge (bumpGuid h) x = edge h x.
Proof. reflexivity. Qed.
Lemma edge_set_node (h : Heap) (a : addr) (n : FFormatterNode) (x : addr) :
  edge (set_node h a n) x = edge h x.
Proof. reflexivity. Qed.
Lemma edge_set_pin (h : Heap) (a : addr) (p : FFormatterPin) (x : addr) :
  edge (set_pin h a p) x = edge h x.
Proof. reflexivity. Qed.
Lemma next_bump (h : Heap) : next (bump h) = S (next h).
Proof. reflexivity. Qed.
Lemma next_bumpGuid (h : Heap) : next (bumpGuid h) = next h.
Proof. reflexivity. Qed.
Lemma next_set_node (h : Heap) (a : addr) (n : FFormatterNode) : next (set_node h a n) = next h.
Proof. reflexivity. Qed.
Lemma next_set_pin (h : Heap) (a : addr) (p : FFormatterPin) : next (set_pin h a p) = next h.
Proof. reflexivity. Qed.
Lemma next_set_edge (h : Heap) (a : addr) (e : FFormatterEdge) : next (set_edge h a e) = next h.
Proof. reflexivity. Qed.
Lemma nextGuid_bump (h : Heap) : nextGuid (bump h) = nextGuid h.
Proof. reflexivity. Qed.
Lemma nextGuid_bumpGuid (h : Heap) : nextGuid (bumpGuid h) = S (nextGuid h).
Proof. reflexivity. Qed.
Lemma nextGuid_set_pin (h : Heap) (a : addr) (p : FFormatterPin) :
  nextGuid (set_pin h a p) = nextGuid h.
Proof. reflexivity. Qed.

Lemma FFormatterNode_new_eq (h : Heap) :
  FFormatterNode_new h =
  (next h,
   set_node
     (set_pin (bumpGuid (bump
        (set_pin (bumpGuid (bump (bumpGuid (bump h)))) (S (next h))
           (mkPin (S (nextGuid h)) None EGPD_Input (next h) ZeroVector))))
        (S (S (next h)))
        (mkPin (S (S (nextGuid h))) None EGPD_Output (next h) ZeroVector))
     (next h)
     (mkNode (nextGuid h) None None (mkFVector2D (f32_of_int 1) (f32_of_int 1)) [] []
             [S (next h)] [S (S (next h))] 0 f32_zero ZeroVector)).
Proof. reflexivity. Qed.

Lemma FFormatterNode_new_fst (h : Heap) : (FFormatterNode_new h).1 = next h.
Proof. reflexivity. Qed.

Lemma next_FFormatterNode_new (h : Heap) :
  next (FFormatterNode_new h).2 = S (S (S (next h))).
Proof. reflexivity. Qed.

Lemma edge_FFormatterNode_new (h : Heap) (e : addr) :
  edge (FFormatterNode_new h).2 e = edge h e.
Proof. reflexivity. Qed.

Lemma node_FFormatterNode_new (h : Heap) (n : addr) :
  node (FFormatterNode_new h).2 n =
  if decide (n = next h)
  then mkNode (nextGuid h) None None (mkFVector2D (f32_of_int 1) (f32_of_int 1)) [] []
              [S (next h)] [S (S (next h))] 0 f32_zero ZeroVector
  else node h n.
Proof.
  rewrite FFormatterNode_new_eq. cbn [snd]. rewrite node_set_node.
  by destruct (decide (n = next h)).
Qed.

Lemma pin_FFormatterNode_new (h : Heap) (x : addr) :
  pin (FFormatterNode_new h).2 x =
  if decide (x = S (S (next h)))
  then mkPin (S (S (nextGuid h))) None EGPD_Output (next h) ZeroVector
  else if decide (x = S (next h))
       then mkPin (S (nextGuid h)) None EGPD_Input (next h) ZeroVector
       else pin h x.
Proof.
  rewrite FFormatterNode_new_eq. cbn [snd].
  rewrite pin_set_node, pin_set_pin.
  destruct (decide (x = S (S (next h)))); [done|].
  rewrite pin_bumpGuid, pin_bump, pin_set_pin.
  by destruct (decide (x = S (next h))).
Qed.

(** ** AddDummyNodes *)

Lemma AddDummyNodes_edge_unfold (i : nat) (Node Edge : addr) (h : Heap) (g : FFormatterGraph)
    (h1 h2 h3 h4 h5 h6 : Heap) (d InPin0 OutPin0 : addr) :
  h1 = Disconnect h Node (From (edge h Edge)) (To (edge h Edge)) ->
  d = (FFormatterNode_new h1).1 ->
  h2 = (FFormatterNode_new h1).2 ->
  InPin0 = InPins (node h2 d) !!! 0 ->
  OutPin0 = OutPins (node h2 d) !!! 0 ->
  h3 = Connect h2 Node (From (edge h2 Edge)) InPin0 ->
  h4 = Connect h3 d InPin0 (From (edge h3 Edge)) ->
  h5 = Connect h4 d OutPin0 (To (edge h4 Edge)) ->
  h6 = Connect h5 (OwningNode (pin h5 (To (edge h5 Edge)))) (To (edge h5 Edge)) OutPin0 ->
  AddDummyNodes_edge i Node (h, g) Edge =
  (h6, with_LayeredList (<[S i := LayeredList (AddNode h2 g d) !!! S i ++ [d]]>
                           (LayeredList (AddNode h2 g d))) (AddNode h2 g d)).
Proof.
  intros -> -> -> -> -> -> -> -> ->. unfold AddDummyNodes_edge.
  rewrite (surjective_pairing (FFormatterNode_new _)). reflexivity.
Qed.

Lemma AddDummyNodes_edge_stages (i : nat) (Node Edge : addr) (h : Heap)
    (LL : list (list addr)) (h1 h2 h3 h4 h5 h6 : Heap) (d InPin0 OutPin0 p q t : addr) :
  edge_ok h Edge -> Node < next h ->
  d = next h -> p = From (edge h Edge) -> q = To (edge h Edge) ->
  t = OwningNode (pin h q) ->
  h1 = Disconnect h Node p q ->
  d = (FFormatterNode_new h1).1 ->
  h2 = (FFormatterNode_new h1).2 ->
  InPin0 = InPins (node h2 d) !!! 0 ->
  OutPin0 = OutPins (node h2 d) !!! 0 ->
  h3 = Connect h2 Node (From (edge h2 Edge)) InPin0 ->
  h4 = Connect h3 d InPin0 (From (edge h3 Edge)) ->
  h5 = Connect h4 d OutPin0 (To (edge h4 Edge)) ->
  h6 = Connect h5 (OwningNode (pin h5 (To (edge h5 Edge)))) (To (edge h5 Edge)) OutPin0 ->
  dummy_step h LL i Node Edge h6 (<[S i := LL !!! S i ++ [d]]> LL).
Proof.
  intros (He & Hp & Hq & Hdp & Hdq & Ht) HNode Ed Ep Eq Et E1 _ E2 Hin0 Hout0 E3 E4 E5 E6.
  unfold target in Ht. rewrite <- ?Ed, <- ?Ep, <- ?Eq, <- ?Et in *.
  (* the store after each call *)
  (* the store after each call *)
  assert (Hn1 : next h1 = d) by (rewrite E1, Ed; apply next_Disconnect).
  assert (Hg1 : nextGuid h1 = nextGuid h) by (rewrite E1; apply nextGuid_Disconnect).
  assert (He1 : ∀ e, edge h1 e = edge h e) by (intros; rewrite E1; apply edge_Disconnect).
  assert (Hp1 : ∀ x, pin h1 x = pin h x) by (intros; rewrite E1; apply pin_Disconnect).
  assert (Hnode1 : ∀ n, node h1 n =
            if decide (n = Node)
            then with_OutEdges
                   (RemoveFirst (λ e, bool_decide (From (edge h e) = p ∧ To (edge h e) = q))
                                (OutEdges (node h Node))) (node h Node)
            else node h n).
  { intros n. rewrite E1, node_Disconnect.
    destruct (decide (n = Node)); [|done]. by rewrite decide_True. }
  clear E1.
  assert (Hn2 : next h2 = 3 + d) by (rewrite E2, next_FFormatterNode_new, Hn1; lia).
  assert (He2 : ∀ e, edge h2 e = edge h e).
  { intros e. by rewrite E2, edge_FFormatterNode_new. }
  assert (Hp2 : ∀ x, pin h2 x =
            if decide (x = 2 + d)
            then mkPin (S (S (nextGuid h))) None EGPD_Output d ZeroVector
            else if decide (x = 1 + d)
                 then mkPin (S (nextGuid h)) None EGPD_Input d ZeroVector
                 else pin h x).
  { intros x. by rewrite E2, pin_FFormatterNode_new, Hn1, Hp1, Hg1. }
  assert (Hnode2 : ∀ n, node h2 n =
            if decide (n = d)
            then mkNode (nextGuid h) None None (mkFVector2D (f32_of_int 1) (f32_of_int 1))
                        [] [] [1 + d] [2 + d] 0 f32_zero ZeroVector
            else node h1 n).
  { intros n. by rewrite E2, node_FFormatterNode_new, Hn1, Hg1. }
  clear E2.
  assert (Hin0' : InPin0 = 1 + d).
  { rewrite Hin0, Hnode2, decide_True by done. done. }
  assert (Hout0' : OutPin0 = 2 + d).
  { rewrite Hout0, Hnode2, decide_True by done. done. }
  clear Hin0 Hout0. subst InPin0 OutPin0.
  assert (Hpold : ∀ x, x < d -> pin h2 x = pin h x).
  { intros x Hx. rewrite Hp2, !decide_False by lia. done. }
  rewrite He2, <- Ep in E3.
  assert (Hn3 : next h3 = 4 + d) by (rewrite E3, next_Connect, Hn2; lia).
  assert (He3 : ∀ e, edge h3 e = if decide (e = 3 + d) then mkEdge p 0 (1 + d) 0 else edge h e).
  { intros e. by rewrite E3, edge_Connect, Hn2, He2. }
  assert (Hp3 : ∀ x, pin h3 x = pin h2 x) by (intros; rewrite E3; apply pin_Connect).
  assert (Hnode3 : ∀ n, node h3 n =
            if decide (n = Node)
            then with_OutEdges (OutEdges (node h2 Node) ++ [3 + d]) (node h2 Node)
            else node h2 n).
  { intros n. rewrite E3, node_Connect, Hn2, (Hpold p Hp).
    destruct (decide (n = Node)); [|done]. by rewrite decide_True. }
  clear E3.
  assert (HE3 : edge h3 Edge = edge h Edge) by (rewrite He3, decide_False by lia; done).
  rewrite HE3, <- Ep in E4.
  assert (Hn4 : next h4 = 5 + d) by (rewrite E4, next_Connect, Hn3; lia).
  assert (He4 : ∀ e, edge h4 e = if decide (e = 4 + d) then mkEdge (1 + d) 0 p 0 else edge h3 e).
  { intros e. by rewrite E4, edge_Connect, Hn3. }
  assert (Hp4 : ∀ x, pin h4 x = pin h2 x) by (intros; by rewrite E4, pin_Connect, Hp3).
  assert (Hnode4 : ∀ n, node h4 n =
            if decide (n = d)
            then with_InEdges (InEdges (node h3 d) ++ [4 + d]) (node h3 d)
            else node h3 n).
  { intros n. rewrite E4, node_Connect, Hn3, Hp3, Hp2.
    rewrite (decide_False (P := 1 + d = 2 + d)) by lia.
    rewrite (decide_True (P := 1 + d = 1 + d)) by done. cbn [Direction].
    destruct (decide (n = d)); [|done]. by rewrite decide_False. }
  clear E4.
  assert (HE4 : edge h4 Edge = edge h Edge).
  { rewrite He4, decide_False by lia. done. }
  rewrite HE4, <- Eq in E5.
  assert (Hn5 : next h5 = 6 + d) by (rewrite E5, next_Connect, Hn4; lia).
  assert (He5 : ∀ e, edge h5 e = if decide (e = 5 + d) then mkEdge (2 + d) 0 q 0 else edge h4 e).
  { intros e. by rewrite E5, edge_Connect, Hn4. }
  assert (Hp5 : ∀ x, pin h5 x = pin h2 x) by (intros; by rewrite E5, pin_Connect, Hp4).
  assert (Hnode5 : ∀ n, node h5 n =
            if decide (n = d)
            then with_OutEdges (OutEdges (node h4 d) ++ [5 + d]) (node h4 d)
            else node h4 n).
  { intros n. rewrite E5, node_Connect, Hn4, Hp4, Hp2.
    rewrite (decide_True (P := 2 + d = 2 + d)) by done. cbn [Direction].
    destruct (decide (n = d)); [|done]. by rewrite decide_True. }
  clear E5.
  assert (HE5 : edge h5 Edge = edge h Edge).
  { rewrite He5, decide_False by lia. rewrite He4, decide_False by lia. done. }
  rewrite HE5, <- Eq, Hp5, (Hpold q Hq), <- Et in E6.
  assert (Hn6 : next h6 = 7 + d) by (rewrite E6, next_Connect, Hn5; lia).
  assert (He6 : ∀ e, edge h6 e = if decide (e = 6 + d) then mkEdge q 0 (2 + d) 0 else edge h5 e).
  { intros e. by rewrite E6, edge_Connect, Hn5. }
  assert (Hp6 : ∀ x, pin h6 x = pin h2 x) by (intros; by rewrite E6, pin_Connect, Hp5).
  assert (Hnode6 : ∀ n, node h6 n =
            if decide (n = t)
            then with_InEdges (InEdges (node h5 t) ++ [6 + d]) (node h5 t)
            else node h5 n).
  { intros n. rewrite E6, node_Connect, Hn5, Hp5, (Hpold q Hq).
    destruct (decide (n = t)); [|done]. rewrite decide_False; [done|].
    rewrite Hdq. done. }
  clear E6.
  assert (Hout : ∀ n, OutEdges (node h6 n) =
            if decide (n = d) then [5 + d]
            else if decide (n = Node)
                 then RemoveFirst (λ e, bool_decide (From (edge h e) = p ∧ To (edge h e) = q))
                                  (OutEdges (node h Node)) ++ [3 + d]
                 else OutEdges (node h n)).
  { intros n.
    assert (H6 : OutEdges (node h6 n) = OutEdges (node h5 n)).
    { rewrite Hnode6. destruct (decide (n = t)) as [->|]; reflexivity. }
    rewrite H6, Hnode5. destruct (decide (n = d)) as [->|Hnd].
    - cbn [OutEdges with_OutEdges]. rewrite Hnode4, decide_True by done.
      cbn [OutEdges with_InEdges]. rewrite Hnode3, decide_False by lia.
      rewrite Hnode2, decide_True by done. reflexivity.
    - rewrite Hnode4, decide_False by done. rewrite Hnode3.
      destruct (decide (n = Node)) as [->|Hnn].
      + cbn [OutEdges with_OutEdges]. rewrite Hnode2, decide_False by lia.
        rewrite Hnode1, decide_True by done. reflexivity.
      + rewrite Hnode2, decide_False by done. rewrite Hnode1, decide_False by done.
        reflexivity. }
  assert (Hpins : ∀ n, InPins (node h6 n) = (if decide (n = d) then [1 + d] else InPins (node h n))
                     ∧ OutPins (node h6 n) = (if decide (n = d) then [2 + d] else OutPins (node h n))).
  { intros n.
    assert (H6 : InPins (node h6 n) = InPins (node h5 n) ∧ OutPins (node h6 n) = OutPins (node h5 n)).
    { rewrite Hnode6. destruct (decide (n = t)) as [->|]; split; reflexivity. }
    destruct H6 as [H6a H6b]. rewrite H6a, H6b, Hnode5. destruct (decide (n = d)) as [->|Hnd].
    - cbn [InPins OutPins with_OutEdges]. rewrite Hnode4, decide_True by done.
      cbn [InPins OutPins with_InEdges]. rewrite Hnode3, decide_False by lia.
      rewrite Hnode2, decide_True by done. split; reflexivity.
    - rewrite Hnode4, decide_False by done. rewrite Hnode3.
      destruct (decide (n = Node)) as [->|Hnn].
      + cbn [InPins OutPins with_OutEdges]. rewrite Hnode2, decide_False by lia.
        rewrite Hnode1, decide_True by done. split; reflexivity.
      + rewrite Hnode2, decide_False by done. rewrite Hnode1, decide_False by done.
        split; reflexivity. }
  unfold dummy_step. rewrite <- Ed, <- Ep, <- Eq.
  split; [exact Hn6|]. split.
  { intros e Hlt. rewrite He6, decide_False by lia. rewrite He5, decide_False by lia.
    rewrite He4, decide_False by lia. rewrite He3, decide_False by lia. reflexivity. }
  split. { intros x Hx. rewrite Hp6. by apply Hpold. }
  split. { intros n Hn. destruct (Hpins n) as [-> ->]. rewrite !decide_False by lia.
           split; reflexivity. }
  split. { intros n Hn Hne. rewrite Hout, decide_False by lia.
           rewrite decide_False by done. reflexivity. }
  split. { rewrite Hout, decide_False by lia. rewrite decide_True by done. reflexivity. }
  split. { rewrite He6, decide_False by lia. rewrite He5, decide_False by lia.
           rewrite He4, decide_False by lia. rewrite He3, decide_True by done. reflexivity. }
  split. { rewrite Hp6, Hp2, decide_False by lia. rewrite decide_True by done. reflexivity. }
  split. { rewrite Hp6, Hp2, decide_True by done. reflexivity. }
  split. { rewrite Hout, decide_True by done. reflexivity. }
  split. { rewrite He6, decide_False by lia. rewrite He5, decide_True by done. reflexivity. }
  split. { destruct (Hpins d) as [-> _]. by rewrite decide_True. }
  split. { destruct (Hpins d) as [_ ->]. by rewrite decide_True. }
  reflexivity.
Qed.

Lemma AddDummyNodes_edge_effect (i : nat) (Node Edge : addr) (h : Heap) (g : FFormatterGraph) :
  edge_ok h Edge -> Node < next h ->
  dummy_step h (LayeredList g) i Node Edge
             (AddDummyNodes_edge i Node (h, g) Edge).1
             (LayeredList (AddDummyNodes_edge i Node (h, g) Edge).2) ∧
  Nodes (AddDummyNodes_edge i Node (h, g) Edge).2 = Nodes g ++ [next h].
Proof.
  intros Hok HNode.
  rewrite (AddDummyNodes_edge_unfold i Node Edge h g _ _ _ _ _ _ _ _ _
             eq_refl eq_refl eq_refl eq_refl eq_refl eq_refl eq_refl eq_refl eq_refl).
  cbn [fst snd LayeredList with_LayeredList Nodes AddNode].
  rewrite !FFormatterNode_new_fst, !next_Disconnect.
  split; [|reflexivity].
  eapply (AddDummyNodes_edge_stages i Node Edge h (LayeredList g)
            _ _ _ _ _ _ _ _ _ _ _ _ Hok HNode eq_refl eq_refl eq_refl eq_refl eq_refl).
  all: rewrite ?FFormatterNode_new_fst, ?next_Disconnect; reflexivity.
Qed.

Lemma layer_of_insert_snoc (LL : list (list addr)) (k : nat) (d x : addr) (j : nat) :
  k < length LL ->
  layer_of (<[k := LL !!! k ++ [d]]> LL) x j <-> layer_of LL x j ∨ (j = k ∧ x = d).
Proof.
  intros Hk. unfold layer_of.
  destruct (lookup_lt_is_Some_2 LL k Hk) as [Lk HLk].
  assert (Htot : LL !!! k = Lk) by (by apply list_lookup_total_correct).
  rewrite Htot. split.
  - intros (L & HL & Hx). destruct (decide (j = k)) as [->|Hne].
    + rewrite list_lookup_insert_eq in HL by done. injection HL as <-.
      apply elem_of_app in Hx as [Hx|Hx].
      * left. eauto.
      * right. apply list_elem_of_singleton in Hx. done.
    + rewrite list_lookup_insert_ne in HL by done. left. eauto.
  - intros [(L & HL & Hx)|[-> ->]].
    + destruct (decide (j = k)) as [->|Hne].
      * exists (Lk ++ [d]). rewrite list_lookup_insert_eq by done. split; [done|].
        apply elem_of_app. left. congruence.
      * exists L. by rewrite list_lookup_insert_ne.
    + exists (Lk ++ [d]). rewrite list_lookup_insert_eq by done. split; [done|].
      apply elem_of_app. right. apply list_elem_of_here.
Qed.

Lemma GetSuccessors_target (h : Heap) (n v : addr) :
  v ∈ GetSuccessors h n <-> ∃ e, e ∈ OutEdges (node h n) ∧ target h e = v.
Proof.
  unfold GetSuccessors, target. rewrite list_elem_of_fmap. split.
  - intros (e & -> & He). eauto.
  - intros (e & He & <-). eauto.
Qed.

Lemma filter_RemoveFirst {A} (P : A -> Prop) `{!∀ x, Decision (P x)} (Q : A -> bool)
    (l rest : list A) (e : A) :
  filter P l = e :: rest -> Q e = true -> (∀ x, Q x = true -> P x) ->
  filter P (RemoveFirst Q l) = rest.
Proof.
  intros Hf HQe HQP. induction l as [|x l IH]; [done|].
  rewrite filter_cons in Hf. simpl. destruct (decide (P x)) as [HPx|HPx].
  - injection Hf as -> Hrest. by rewrite HQe.
  - destruct (Q x) eqn:HQx; [by apply HQP in HQx|].
    rewrite filter_cons, decide_False by done. by apply IH.
Qed.

Lemma RemoveFirst_subset {A} (Q : A -> bool) (l : list A) (x : A) :
  x ∈ RemoveFirst Q l -> x ∈ l.
Proof.
  induction l as [|y l IH]; [done|]. simpl. destruct (Q y).
  - intros. by apply list_elem_of_further.
  - intros H. apply elem_of_cons in H as [->|H].
    + apply list_elem_of_here.
    + apply list_elem_of_further. by apply IH.
Qed.

Lemma dummy_step_edge_ok (h : Heap) (LL : list (list addr)) (i : nat) (Node Edge : addr)
    (h' : Heap) (LL' : list (list addr)) (e : addr) :
  dummy_step h LL i Node Edge h' LL' -> edge_ok h e ->
  edge_ok h' e ∧ target h' e = target h e.
Proof.
  intros (Hn & He & Hp & _) (H1 & H2 & H3 & H4 & H5 & H6).
  unfold edge_ok, target in *. rewrite (He e H1), (Hp _ H2), (Hp _ H3), Hn.
  repeat split; try done; lia.
Qed.

Lemma dummy_step_inv (h : Heap) (LL : list (list addr)) (k : nat) (Done : list addr)
    (Node Edge : addr) (h' : Heap) (LL' : list (list addr)) :
  dummies_inv h LL k Done -> layer_of LL Node k -> S k < length LL ->
  Edge ∈ OutEdges (node h Node) -> target h Edge ∉ LL !!! S k ->
  dummy_step h LL k Node Edge h' LL' ->
  dummies_inv h' LL' k Done.
Proof.
  intros (Hok & Hdis & Hprev & Hlater & Hdone) HNode Hk HEdge Hlong Hstep.
  assert (Hpres : ∀ e, edge_ok h e -> edge_ok h' e ∧ target h' e = target h e)
    by (intros e; by apply (dummy_step_edge_ok _ _ _ _ _ _ _ _ Hstep)).
  unfold dummy_step in Hstep. cbv zeta in Hstep.
  destruct Hstep as (Hn & He & Hp & Hpins & Hout & HoutN & He3 & Hp1 & Hp2 & HoutD & He5
                     & _ & _ & ->).
  assert (Hlay : ∀ x j, layer_of (<[S k := LL !!! S k ++ [next h]]> LL) x j
                        <-> layer_of LL x j ∨ (j = S k ∧ x = next h))
    by (intros; by apply layer_of_insert_snoc).
  assert (Hold : ∀ x j, layer_of LL x j -> x < next h)
    by (intros x j Hx; by destruct (Hok x j Hx)).
  assert (HEok : edge_ok h Edge) by (destruct (Hok Node k HNode) as [_ H]; by apply H).
  assert (Hsucc : ∀ x j, layer_of LL x j -> x ≠ Node ->
                         ∀ v, v ∈ GetSuccessors h' x -> v ∈ GetSuccessors h x).
  { intros x j Hx Hne v Hv. apply GetSuccessors_target in Hv as (e & He' & <-).
    rewrite Hout in He' by eauto. apply GetSuccessors_target. exists e. split; [done|].
    destruct (Hok x j Hx) as [_ Hes]. symmetry. by apply Hpres, Hes. }
  assert (HsuccN : ∀ v, v ∈ GetSuccessors h' Node -> v = next h ∨ v ∈ GetSuccessors h Node).
  { intros v Hv. apply GetSuccessors_target in Hv as (e & He' & <-).
    rewrite HoutN in He'. apply elem_of_app in He' as [He'|He'].
    - right. apply RemoveFirst_subset in He'. apply GetSuccessors_target.
      exists e. split; [done|].
      destruct (Hok Node k HNode) as [_ Hes]. symmetry. by apply Hpres, Hes.
    - left. apply list_elem_of_singleton in He'. subst e.
      unfold target. rewrite He3. cbn [To]. rewrite Hp1. done. }
  assert (HsuccD : ∀ v, v ∈ GetSuccessors h' (next h) -> v = target h Edge).
  { intros v Hv. apply GetSuccessors_target in Hv as (e & He' & <-).
    rewrite HoutD in He'. apply list_elem_of_singleton in He'. subst e.
    unfold target. rewrite He5. cbn [To]. rewrite Hp; [done|]. destruct HEok; lia. }
  assert (HtE : target h Edge ∈ GetSuccessors h Node)
    by (apply GetSuccessors_target; eauto).
  split; [|split; [|split; [|split]]].
  - intros x j Hx. apply Hlay in Hx as [Hx|[-> ->]].
    + destruct (Hok x j Hx) as [Hlt Hes]. split; [lia|]. intros e He'.
      destruct (decide (x = Node)) as [->|Hne].
      * rewrite HoutN in He'. apply elem_of_app in He' as [He'|He'].
        -- apply RemoveFirst_subset in He'. by apply Hpres, Hes.
        -- apply list_elem_of_singleton in He'. subst e.
           destruct HEok as (E1 & E2 & E3 & E4 & E5 & E6).
           unfold edge_ok, target. rewrite He3. cbn [From To].
           rewrite Hp1, (Hp _ E2), Hn. cbn [Direction OwningNode].
           repeat split; try done; lia.
      * rewrite Hout in He' by done. by apply Hpres, Hes.
    + split; [lia|]. intros e He'. rewrite HoutD in He'.
      apply list_elem_of_singleton in He'. subst e.
      destruct HEok as (E1 & E2 & E3 & E4 & E5 & E6).
      unfold edge_ok, target in *. rewrite He5. cbn [From To].
      rewrite Hp2, (Hp _ E3), Hn. cbn [Direction OwningNode].
      repeat split; try done; lia.
  - intros x j1 j2 H1 H2. apply Hlay in H1, H2.
    destruct H1 as [H1|[-> ->]].
    + destruct H2 as [H2|[-> ->]]; [by eapply Hdis|]. apply Hold in H1. lia.
    + destruct H2 as [H2|[-> _]]; [|done]. apply Hold in H2. lia.
  - intros x j Hx Hj v Hv. apply Hlay in Hx as [Hx|[-> ->]]; [|lia].
    apply Hlay. left. apply (Hprev x j Hx Hj). apply (Hsucc x j Hx); [|done].
    intros ->. pose proof (Hdis _ _ _ Hx HNode). lia.
  - intros x j Hx v Hv. apply Hlay in Hx as [Hx|[-> ->]].
    + destruct (decide (x = Node)) as [->|Hne].
      * assert (j = k) as -> by (by eapply Hdis).
        apply HsuccN in Hv as [->|Hv].
        -- exists (S k). split; [lia|]. apply Hlay. by right.
        -- destruct (Hlater Node k HNode v Hv) as (j' & Hj' & Hl).
           exists j'. split; [done|]. apply Hlay; by left.
      * destruct (Hlater x j Hx v (Hsucc x j Hx Hne v Hv)) as (j' & ? & ?).
        exists j'. split; [done|]. apply Hlay. by left.
    + apply HsuccD in Hv as ->.
      destruct (Hlater Node k HNode _ HtE) as (j' & Hj' & Hl).
      exists j'. split; [|apply Hlay; by left].
      destruct (decide (j' = S k)) as [->|]; [|lia].
      exfalso. apply Hlong. destruct Hl as (L & HL & Hin).
      by rewrite (list_lookup_total_correct _ _ _ HL).
  - intros x Hx. destruct (Hdone x Hx) as [Hxl Hnx].
    assert (x ≠ Node).
    { intros ->. apply Hlong. destruct (Hnx _ HtE) as (L & HL & Hin).
      by rewrite (list_lookup_total_correct _ _ _ HL). }
    split; [apply Hlay; by left|].
    intros v Hv. apply Hlay. left. apply Hnx. by apply (Hsucc x k Hxl).
Qed.

Lemma RemoveFirst_keep {A} (Q : A -> bool) (l : list A) (x : A) :
  x ∈ l -> Q x = false -> x ∈ RemoveFirst Q l.
Proof.
  intros Hx HQ. induction l as [|y l IH]; [done|]. simpl.
  apply elem_of_cons in Hx as [->|Hx].
  - rewrite HQ. apply list_elem_of_here.
  - destruct (Q y); [done|]. apply list_elem_of_further. by apply IH.
Qed.

Lemma dummy_step_succ (h : Heap) (LL : list (list addr)) (k : nat) (Node Edge : addr)
    (h' : Heap) (LL' : list (list addr)) :
  layers_ok h LL -> layer_of LL Node k -> Edge ∈ OutEdges (node h Node) ->
  dummy_step h LL k Node Edge h' LL' ->
  (∀ x j, layer_of LL x j -> x ≠ Node ->
          ∀ v, v ∈ GetSuccessors h x -> v ∈ GetSuccessors h' x) ∧
  (∀ v, v ∈ GetSuccessors h Node -> v ≠ target h Edge -> v ∈ GetSuccessors h' Node) ∧
  next h ∈ GetSuccessors h' Node ∧
  target h Edge ∈ GetSuccessors h' (next h).
Proof.
  intros Hok HNode HEdge Hstep.
  assert (Hpres : ∀ e, edge_ok h e -> edge_ok h' e ∧ target h' e = target h e)
    by (intros e; by apply (dummy_step_edge_ok _ _ _ _ _ _ _ _ Hstep)).
  unfold dummy_step in Hstep. cbv zeta in Hstep.
  destruct Hstep as (Hn & He & Hp & Hpins & Hout & HoutN & He3 & Hp1 & Hp2 & HoutD & He5
                     & _ & _ & ->).
  assert (HEok : edge_ok h Edge) by (destruct (Hok Node k HNode) as [_ H]; by apply H).
  split; [|split; [|split]].
  - intros x j Hx Hne v Hv. apply GetSuccessors_target in Hv as (e & He' & <-).
    destruct (Hok x j Hx) as [Hlt Hes].
    apply GetSuccessors_target. exists e. rewrite Hout by done.
    split; [done|]. by apply Hpres, Hes.
  - intros v Hv Hne. apply GetSuccessors_target in Hv as (e & He' & <-).
    destruct (Hok Node k HNode) as [Hlt Hes].
    apply GetSuccessors_target. exists e. split; [|by apply Hpres, Hes].
    rewrite HoutN. apply elem_of_app. left. apply RemoveFirst_keep; [done|].
    apply bool_decide_eq_false. intros [_ HTo]. apply Hne. unfold target. by rewrite HTo.
  - apply GetSuccessors_target. exists (3 + next h). split.
    + rewrite HoutN. apply elem_of_app. right. apply list_elem_of_here.
    + unfold target. rewrite He3. cbn [To]. by rewrite Hp1.
  - apply GetSuccessors_target. exists (5 + next h). split.
    + rewrite HoutD. apply list_elem_of_here.
    + unfold target. rewrite He5. cbn [To]. rewrite Hp; [done|]. destruct HEok; lia.
Qed.

Lemma dummy_step_synthetic (h0 : Heap) (g0 : FFormatterGraph) (h : Heap)
    (g : FFormatterGraph) (k : nat) (Node Edge : addr) (h' : Heap) (g' : FFormatterGraph) :
  layers_ok h (LayeredList g) -> synthetic_inv h0 g0 h g ->
  layer_of (LayeredList g) Node k -> S k < length (LayeredList g) ->
  Edge ∈ OutEdges (node h Node) ->
  dummy_step h (LayeredList g) k Node Edge h' (LayeredList g') ->
  Nodes g' = Nodes g ++ [next h] ->
  synthetic_inv h0 g0 h' g'.
Proof.
  intros Hok (HN & Hnodes & Hsyn & Hchain) HNode Hk HEdge Hstep HNodes'.
  destruct (dummy_step_succ _ _ _ _ _ _ _ Hok HNode HEdge Hstep)
    as (Hfwd & HfwdN & HdN & Htd).
  unfold dummy_step in Hstep. cbv zeta in Hstep.
  destruct Hstep as (Hn & _ & _ & Hpins & _ & _ & _ & _ & _ & _ & _ & HinD & HoutD & HLL).
  assert (Hlay : ∀ x j, layer_of (LayeredList g') x j
                        <-> layer_of (LayeredList g) x j ∨ (j = S k ∧ x = next h))
    by (intros; rewrite HLL; by apply layer_of_insert_snoc).
  assert (Hold : ∀ x j, layer_of (LayeredList g) x j -> x < next h)
    by (intros x j Hx; by destruct (Hok x j Hx)).
  split; [lia|]. split; [|split].
  - intros n Hin. rewrite HNodes' in Hin. apply elem_of_app in Hin as [Hin|Hin].
    + destruct (Hnodes n Hin) as [?|(? & j & Hj)]; [by left|].
      right. split; [done|]. exists j. apply Hlay. by left.
    + apply list_elem_of_singleton in Hin. subst n.
      right. split; [done|]. exists (S k). apply Hlay. by right.
  - intros n j Hl Hge. rewrite HNodes'. apply Hlay in Hl as [Hl|[-> ->]].
    + destruct (Hsyn n j Hl Hge) as (Hin & Hi & Ho).
      destruct (Hpins n (Hold n j Hl)) as [-> ->].
      split; [|done]. apply elem_of_app. by left.
    + rewrite HinD, HoutD. split; [|done]. apply elem_of_app. right. apply list_elem_of_here.
  - intros u v j Hu Hv. specialize (Hchain u v j Hu Hv). clear Hu Hv j.
    induction Hchain as [u v j Hl Hv|u w v j Hl Hw Hge _ IH].
    + destruct (decide (u = Node)) as [->|Hne].
      * destruct (decide (v = target h Edge)) as [->|Hvt].
        -- apply (chain_step _ _ _ Node (next h) _ j); [apply Hlay; by left|done|done|].
           apply (chain_edge _ _ _ _ _ (S k)); [apply Hlay; by right|done].
        -- apply (chain_edge _ _ _ _ _ j); [apply Hlay; by left|by apply HfwdN].
      * apply (chain_edge _ _ _ _ _ j); [apply Hlay; by left|by apply (Hfwd u j)].
    + destruct (decide (u = Node)) as [->|Hne].
      * destruct (decide (w = target h Edge)) as [->|Hwt].
        -- apply (chain_step _ _ _ Node (next h) _ j); [apply Hlay; by left|done|done|].
           apply (chain_step _ _ _ _ (target h Edge) _ (S k));
             [apply Hlay; by right|done|done|done].
        -- apply (chain_step _ _ _ _ w _ j);
             [apply Hlay; by left|by apply HfwdN|done|done].
      * apply (chain_step _ _ _ _ w _ j);
          [apply Hlay; by left|by apply (Hfwd u j)|done|done].
Qed.

Lemma filter_ext_elem {A} (P1 P2 : A -> Prop) `{!∀ x, Decision (P1 x)}
    `{!∀ x, Decision (P2 x)} (l : list A) :
  (∀ x, x ∈ l -> P1 x <-> P2 x) -> filter P1 l = filter P2 l.
Proof.
  induction l as [|x l IH]; [done|]. intros Hext. rewrite !filter_cons.
  rewrite IH by (intros y Hy; apply Hext; by apply list_elem_of_further).
  destruct (decide (P1 x)) as [H1|H1], (decide (P2 x)) as [H2|H2]; try done.
  - by apply (Hext x (list_elem_of_here _ _)) in H1.
  - by apply (Hext x (list_elem_of_here _ _)) in H2.
Qed.

(** The long edges of a node of the layer [k] are cut one after the other;
    when the loop ends no out-edge of the node is long. *)
Lemma AddDummyNodes_edges_inv (h0 : Heap) (g0 : FFormatterGraph) (k : nat)
    (Done : list addr) (Node : addr) (rest : list addr) :
  ∀ (h : Heap) (g : FFormatterGraph),
  dummies_inv h (LayeredList g) k Done -> synthetic_inv h0 g0 h g ->
  layer_of (LayeredList g) Node k -> S k < length (LayeredList g) ->
  filter (λ e, target h e ∉ LayeredList g !!! S k) (OutEdges (node h Node)) = rest ->
  ∃ h' g', fold_left (AddDummyNodes_edge k Node) rest (h, g) = (h', g') ∧
    dummies_inv h' (LayeredList g') k Done ∧ synthetic_inv h0 g0 h' g' ∧
    filter (λ e, target h' e ∉ LayeredList g' !!! S k) (OutEdges (node h' Node)) = [] ∧
    length (LayeredList g') = length (LayeredList g) ∧
    (∀ j, j ≠ S k -> LayeredList g' !! j = LayeredList g !! j) ∧
    (∀ x j, layer_of (LayeredList g) x j -> layer_of (LayeredList g') x j).
Proof.
  induction rest as [|Edge rest IH]; intros h g Hinv Hsyn HNode Hk Hfilter.
  { exists h, g. do 5 (split; [done|]). done. }
  assert (HE : Edge ∈ OutEdges (node h Node) ∧ target h Edge ∉ LayeredList g !!! S k).
  { assert (HEf : Edge ∈ Edge :: rest) by apply list_elem_of_here.
    rewrite <- Hfilter in HEf. apply list_elem_of_filter in HEf. tauto. }
  destruct HE as [HEdge Hlong].
  pose proof Hinv as (Hok & _).
  destruct (Hok Node k HNode) as [HNlt Hes].
  destruct (AddDummyNodes_edge_effect k Node Edge h g (Hes Edge HEdge) HNlt)
    as [Hstep HNodes].
  cbn [fold_left].
  destruct (AddDummyNodes_edge k Node (h, g) Edge) as [h1 g1]. cbn [fst snd] in *.
  pose proof (dummy_step_inv _ _ _ _ _ _ _ _ Hinv HNode Hk HEdge Hlong Hstep) as Hinv1.
  pose proof (dummy_step_synthetic _ _ _ _ _ _ _ _ _ Hok Hsyn HNode Hk HEdge Hstep HNodes)
    as Hsyn1.
  pose proof Hstep as Hstep'.
  unfold dummy_step in Hstep'. cbv zeta in Hstep'.
  destruct Hstep' as (Hn & He & Hp & _ & _ & HoutN & He3 & Hp1 & _ & _ & _ & _ & _ & HLL).
  assert (Hlay : ∀ x j, layer_of (LayeredList g1) x j
                        <-> layer_of (LayeredList g) x j ∨ (j = S k ∧ x = next h))
    by (intros; rewrite HLL; by apply layer_of_insert_snoc).
  assert (Hlen : length (LayeredList g1) = length (LayeredList g))
    by (rewrite HLL; apply length_insert).
  assert (Hnext : LayeredList g1 !!! S k = LayeredList g !!! S k ++ [next h])
    by (rewrite HLL; by apply list_lookup_total_insert_eq).
  destruct (IH h1 g1) as (h' & g' & Hfold & Hinv' & Hsyn' & Hnil & Hlen' & Hlook & Hmono).
  - done.
  - done.
  - apply Hlay. by left.
  - lia.
  - rewrite HoutN, filter_app.
    rewrite (filter_cons_False _ (3 + next h)).
    2:{ intros Hnot. apply Hnot. unfold target. rewrite He3. cbn [To]. rewrite Hp1.
        cbn [OwningNode]. rewrite Hnext. apply elem_of_app. right. apply list_elem_of_here. }
    rewrite filter_nil, app_nil_r.
    rewrite (filter_ext_elem _ (λ e, target h e ∉ LayeredList g !!! S k)).
    + eapply filter_RemoveFirst; [exact Hfilter| |].
      * by apply bool_decide_eq_true.
      * intros x Hx. apply bool_decide_eq_true in Hx as [_ HTo].
        unfold target in *. by rewrite HTo.
    + intros x Hx. apply RemoveFirst_subset in Hx.
      destruct (dummy_step_edge_ok _ _ _ _ _ _ _ x Hstep (Hes x Hx)) as [_ ->].
      rewrite Hnext, elem_of_app, list_elem_of_singleton.
      destruct (Hes x Hx) as (_ & _ & _ & _ & _ & Ht). split; [tauto|].
      intros Hnot [Hin|Heq]; [done|lia].
  - exists h', g'. split; [done|]. split; [done|]. split; [done|]. split; [done|].
    split; [lia|]. split.
    + intros j Hj. rewrite Hlook by done. rewrite HLL. by apply list_lookup_insert_ne.
    + intros x j Hx. apply Hmono, Hlay. by left.
Qed.

Lemma AddDummyNodes_node_inv (h0 : Heap) (g0 : FFormatterGraph) (k : nat)
    (Done : list addr) (Node : addr) (h : Heap) (g : FFormatterGraph) :
  dummies_inv h (LayeredList g) k Done -> synthetic_inv h0 g0 h g ->
  layer_of (LayeredList g) Node k -> S k < length (LayeredList g) ->
  ∃ h' g', AddDummyNodes_node k (h, g) Node = (h', g') ∧
    dummies_inv h' (LayeredList g') k (Node :: Done) ∧ synthetic_inv h0 g0 h' g' ∧
    length (LayeredList g') = length (LayeredList g) ∧
    (∀ j, j ≠ S k -> LayeredList g' !! j = LayeredList g !! j) ∧
    (∀ x j, layer_of (LayeredList g) x j -> layer_of (LayeredList g') x j).
Proof.
  intros Hinv Hsyn HNode Hk.
  destruct (AddDummyNodes_edges_inv h0 g0 k Done Node _ h g Hinv Hsyn HNode Hk eq_refl)
    as (h' & g' & Hfold & Hinv' & Hsyn' & Hnil & Hlen & Hlook & Hmono).
  exists h', g'. split; [exact Hfold|]. split; [|done].
  destruct Hinv' as (Hok & Hdis & Hprev & Hlater & Hdone).
  do 4 (split; [done|]).
  intros n Hn. apply elem_of_cons in Hn as [->|Hn]; [|by apply Hdone].
  split; [by apply Hmono|].
  intros v Hv. apply GetSuccessors_target in Hv as (e & He & <-).
  destruct (lookup_lt_is_Some_2 (LayeredList g') (S k)) as [L HL]; [lia|].
  exists L. split; [done|].
  rewrite <- (list_lookup_total_correct _ _ _ HL).
  destruct (decide (target h' e ∈ LayeredList g' !!! S k)) as [Hin|Hnin]; [done|].
  assert (Hf : e ∈ filter (λ e, target h' e ∉ LayeredList g' !!! S k)
                          (OutEdges (node h' Node)))
    by (by apply list_elem_of_filter).
  rewrite Hnil in Hf. by apply elem_of_nil in Hf.
Qed.

Lemma AddDummyNodes_layer_inv (h0 : Heap) (g0 : FFormatterGraph) (k : nat)
    (ns : list addr) :
  ∀ (Done : list addr) (h : Heap) (g : FFormatterGraph),
  (∀ n, n ∈ ns -> layer_of (LayeredList g) n k) ->
  dummies_inv h (LayeredList g) k Done -> synthetic_inv h0 g0 h g ->
  S k < length (LayeredList g) ->
  ∃ h' g', fold_left (AddDummyNodes_node k) ns (h, g) = (h', g') ∧
    dummies_inv h' (LayeredList g') k (rev ns ++ Done) ∧ synthetic_inv h0 g0 h' g' ∧
    length (LayeredList g') = length (LayeredList g) ∧
    (∀ j, j ≠ S k -> LayeredList g' !! j = LayeredList g !! j) ∧
    (∀ x j, layer_of (LayeredList g) x j -> layer_of (LayeredList g') x j).
Proof.
  induction ns as [|Node ns IH]; intros Done h g Hns Hinv Hsyn Hk.
  { exists h, g. do 5 (split; [done|]). done. }
  destruct (AddDummyNodes_node_inv h0 g0 k Done Node h g Hinv Hsyn)
    as (h1 & g1 & Hstep & Hinv1 & Hsyn1 & Hlen1 & Hlook1 & Hmono1);
    [apply Hns, list_elem_of_here|done|].
  destruct (IH (Node :: Done) h1 g1)
    as (h' & g' & Hfold & Hinv' & Hsyn' & Hlen' & Hlook' & Hmono'); [|done|done|lia|].
  { intros n Hn. apply Hmono1, Hns. by apply list_elem_of_further. }
  exists h', g'. cbn [fold_left rev]. rewrite Hstep, <- app_assoc.
  split; [done|]. split; [done|]. split; [done|]. split; [lia|]. split.
  - intros j Hj. rewrite Hlook', Hlook1; done.
  - intros x j Hx. by apply Hmono', Hmono1.
Qed.

Lemma AddDummyNodes_rank_inv (h0 : Heap) (g0 : FFormatterGraph) (k : nat)
    (h : Heap) (g : FFormatterGraph) :
  dummies_inv h (LayeredList g) k [] -> synthetic_inv h0 g0 h g ->
  S k < length (LayeredList g) ->
  ∃ h' g', fold_left (AddDummyNodes_node k) (LayeredList g !!! k) (h, g) = (h', g') ∧
    dummies_inv h' (LayeredList g') (S k) [] ∧ synthetic_inv h0 g0 h' g' ∧
    length (LayeredList g') = length (LayeredList g) ∧
    (∀ x j, layer_of (LayeredList g) x j -> layer_of (LayeredList g') x j).
Proof.
  intros Hinv Hsyn Hk.
  destruct (lookup_lt_is_Some_2 (LayeredList g) k) as [L HL]; [lia|].
  rewrite (list_lookup_total_correct _ _ _ HL).
  destruct (AddDummyNodes_layer_inv h0 g0 k L [] h g)
    as (h' & g' & Hfold & Hinv' & Hsyn' & Hlen' & Hlook' & Hmono'); [|done|done|done|].
  { intros n Hn. by exists L. }
  exists h', g'. split; [done|]. split; [|done].
  destruct Hinv' as (Hok & Hdis & Hprev & Hlater & Hdone).
  do 2 (split; [done|]). split; [|split; [done|]].
  - intros n j Hn Hj. destruct (decide (j = k)) as [->|Hne].
    + apply Hdone. destruct Hn as (L' & HL' & Hn).
      rewrite Hlook', HL in HL' by lia. injection HL' as <-.
      rewrite app_nil_r. apply list_elem_of_In. rewrite <- in_rev.
      by apply list_elem_of_In.
    + apply Hprev; [done|lia].
  - intros n Hn. by apply elem_of_nil in Hn.
Qed.

Lemma AddDummyNodes_ranks_inv (h0 : Heap) (g0 : FFormatterGraph) (m : nat) :
  ∀ (k : nat) (h : Heap) (g : FFormatterGraph),
  dummies_inv h (LayeredList g) k [] -> synthetic_inv h0 g0 h g ->
  k + m <= length (LayeredList g) - 1 ->
  ∃ h' g',
    fold_left (λ s i, fold_left (AddDummyNodes_node i) (LayeredList (snd s) !!! i) s)
              (seq k m) (h, g) = (h', g') ∧
    dummies_inv h' (LayeredList g') (k + m) [] ∧ synthetic_inv h0 g0 h' g' ∧
    length (LayeredList g') = length (LayeredList g) ∧
    (∀ x j, layer_of (LayeredList g) x j -> layer_of (LayeredList g') x j).
Proof.
  induction m as [|m IH]; intros k h g Hinv Hsyn Hk.
  { exists h, g. rewrite Nat.add_0_r. do 4 (split; [done|]). done. }
  destruct (AddDummyNodes_rank_inv h0 g0 k h g Hinv Hsyn)
    as (h1 & g1 & Hstep & Hinv1 & Hsyn1 & Hlen1 & Hmono1); [lia|].
  destruct (IH (S k) h1 g1 Hinv1 Hsyn1)
    as (h' & g' & Hfold & Hinv' & Hsyn' & Hlen' & Hmono'); [lia|].
  exists h', g'. cbn [seq fold_left snd]. rewrite Hstep.
  split; [done|]. replace (k + S m) with (S k + m) by lia.
  split; [done|]. split; [done|]. split; [lia|].
  intros x j Hx. by apply Hmono', Hmono1.
Qed.

(** C3.  When every out-edge of a layered node leads to a later layer (the
    nodes and edges being allocated and no node being in two layers), after
    [AddDummyNodes] every out-edge of every node of a layer leads to a node
    of the layer that immediately follows; the nodes of the input keep
    their layers; every node added is a layered node allocated by the
    function, with exactly one input pin and exactly one output pin; and
    every edge of the input is still there as a chain through added nodes. *)
Theorem AddDummyNodes_single_rank (h : Heap) (g : FFormatterGraph) :
  layers_ok h (LayeredList g) -> layers_disjoint (LayeredList g) ->
  (∀ n j, layer_of (LayeredList g) n j -> later_layer h (LayeredList g) n j) ->
  ∃ h' g', AddDummyNodes h g = (h', g') ∧
    (∀ n j v, layer_of (LayeredList g') n j -> v ∈ GetSuccessors h' n ->
              layer_of (LayeredList g') v (S j)) ∧
    (∀ n j, layer_of (LayeredList g) n j -> layer_of (LayeredList g') n j) ∧
    (∀ n, n ∈ Nodes g' ->
          n ∈ Nodes g ∨ (next h <= n ∧ ∃ j, layer_of (LayeredList g') n j)) ∧
    (∀ n j, layer_of (LayeredList g') n j -> next h <= n ->
            n ∈ Nodes g' ∧
            length (InPins (node h' n)) = 1 ∧ length (OutPins (node h' n)) = 1) ∧
    (∀ u v j, layer_of (LayeredList g) u j -> v ∈ GetSuccessors h u ->
              chain h' (LayeredList g') (next h) u v).
Proof.
  intros Hok Hdis Hlater.
  destruct (AddDummyNodes_ranks_inv h g (length (LayeredList g) - 1) 0 h g)
    as (h' & g' & Hfold & Hinv & Hsyn & Hlen & Hmono).
  - do 2 (split; [done|]). split; [|split; [done|]].
    + intros n j _ Hj. lia.
    + intros n Hn. by apply elem_of_nil in Hn.
  - split; [done|]. split; [|split].
    + intros n Hn. by left.
    + intros n j Hn Hge. destruct (Hok n j Hn). lia.
    + intros u v j Hu Hv. by apply (chain_edge _ _ _ _ _ j).
  - lia.
  - exists h', g'. split; [exact Hfold|].
    destruct Hinv as (_ & _ & Hprev & Hlater' & _).
    destruct Hsyn as (_ & Hnodes & Hpins & Hchain).
    split; [|done].
    intros n j v Hn Hv.
    destruct (decide (j < length (LayeredList g) - 1)) as [Hj|Hj].
    + by apply (Hprev n j Hn).
    + destruct (Hlater' n j Hn v Hv) as (j' & Hj' & L & HL & _).
      apply lookup_lt_Some in HL. lia.
Qed.

Lemma AddDummyNodes_single_rank_witness :
  ∃ h' g', AddDummyNodes long3.1 long3.2 = (h', g') ∧
    (∀ n j v, layer_of (LayeredList g') n j -> v ∈ GetSuccessors h' n ->
              layer_of (LayeredList g') v (S j)) ∧
    (∀ n j, layer_of (LayeredList long3.2) n j -> layer_of (LayeredList g') n j) ∧
    (∀ n, n ∈ Nodes g' ->
          n ∈ Nodes long3.2 ∨ (next long3.1 <= n ∧ ∃ j, layer_of (LayeredList g') n j)) ∧
    (∀ n j, layer_of (LayeredList g') n j -> next long3.1 <= n ->
            n ∈ Nodes g' ∧
            length (InPins (node h' n)) = 1 ∧ length (OutPins (node h' n)) = 1) ∧
    (∀ u v j, layer_of (LayeredList long3.2) u j -> v ∈ GetSuccessors long3.1 u ->
              chain h' (LayeredList g') (next long3.1) u v).
Proof.
  assert (E : LayeredList long3.2 = [[1]; [4]; [7]]) by (vm_compute; reflexivity).
  assert (Hcases : ∀ n j, layer_of (LayeredList long3.2) n j ->
                          (n = 1 ∧ j = 0) ∨ (n = 4 ∧ j = 1) ∨ (n = 7 ∧ j = 2)).
  { intros n j (L & HL & Hn). rewrite E in HL.
    destruct j as [|[|[|j]]]; simpl in HL; try discriminate;
      injection HL as <-; apply list_elem_of_singleton in Hn; subst; tauto. }
  apply (AddDummyNodes_single_rank long3.1 long3.2).
  - intros n j Hn. apply Hcases in Hn as [[-> ->]|[[-> ->]|[-> ->]]].
    + split; [vm_compute; lia|]. intros e He.
      assert (Eo : OutEdges (node long3.1 1) = [10; 14]) by (vm_compute; reflexivity).
      rewrite Eo in He. list_cases He; vm_compute; repeat split; lia.
    + split; [vm_compute; lia|]. intros e He.
      assert (Eo : OutEdges (node long3.1 4) = [12]) by (vm_compute; reflexivity).
      rewrite Eo in He. list_cases He; vm_compute; repeat split; lia.
    + split; [vm_compute; lia|]. intros e He.
      assert (Eo : OutEdges (node long3.1 7) = []) by (vm_compute; reflexivity).
      rewrite Eo in He. list_cases He.
  - intros n j1 j2 H1 H2. apply Hcases in H1, H2. lia.
  - intros n j Hn v Hv. apply Hcases in Hn as [[-> ->]|[[-> ->]|[-> ->]]].
    + assert (Es : GetSuccessors long3.1 1 = [4; 7]) by (vm_compute; reflexivity).
      rewrite Es in Hv. list_cases Hv.
      * exists 1. split; [lia|]. rewrite E. exists [4]. split; [done|apply list_elem_of_here].
      * exists 2. split; [lia|]. rewrite E. exists [7]. split; [done|apply list_elem_of_here].
    + assert (Es : GetSuccessors long3.1 4 = [7]) by (vm_compute; reflexivity).
      rewrite Es in Hv. list_cases Hv.
      exists 2. split; [lia|]. rewrite E. exists [7]. split; [done|apply list_elem_of_here].
    + assert (Es : GetSuccessors long3.1 7 = []) by (vm_compute; reflexivity).
      rewrite Es in Hv. list_cases Hv.
Defined.

(** [AddDummyNodes] cuts a long edge at its tail only: on the triangle the
    node C keeps A, two layers before it, among its predecessors, next to
    the new node. *)
Lemma AddDummyNodes_long3_predecessors :
  LayeredList (AddDummyNodes long3.1 long3.2).2 = [[1]; [4; 16]; [7]] ∧
  GetSuccessors (AddDummyNodes long3.1 long3.2).1 1 = [4; 16] ∧
  GetSuccessors (AddDummyNodes long3.1 long3.2).1 16 = [7] ∧
  GetPredecessors (AddDummyNodes long3.1 long3.2).1 7 = [4; 1; 16].
Proof. vm_compute. done. Qed.

(** ** The store: released objects and frames *)

Lemma graph_set_graph (h : Heap) (a b : addr) (g : FFormatterGraph) :
  graph (set_graph h a g) b = if decide (b = a) then g else graph h b.
Proof.
  unfold graph, set_graph. cbn [graphs]. destruct (decide (b = a)) as [->|Hne].
  - by rewrite lookup_insert_eq.
  - by rewrite lookup_insert_ne.
Qed.

Lemma node_free_node (h : Heap) (a b : addr) :
  node (free_node h a) b = if decide (b = a) then null_node else node h b.
Proof.
  unfold node, free_node. cbn [nodes]. destruct (decide (b = a)) as [->|Hne].
  - by rewrite lookup_delete_eq.
  - by rewrite lookup_delete_ne.
Qed.

Lemma pin_free_pin (h : Heap) (a b : addr) :
  pin (free_pin h a) b = if decide (b = a) then null_pin else pin h b.
Proof.
  unfold pin, free_pin. cbn [pins]. destruct (decide (b = a)) as [->|Hne].
  - by rewrite lookup_delete_eq.
  - by rewrite lookup_delete_ne.
Qed.

Lemma edge_free_edge (h : Heap) (a b : addr) :
  edge (free_edge h a) b = if decide (b = a) then null_edge else edge h b.
Proof.
  unfold edge, free_edge. cbn [edges]. destruct (decide (b = a)) as [->|Hne].
  - by rewrite lookup_delete_eq.
  - by rewrite lookup_delete_ne.
Qed.

Lemma graph_free_graph (h : Heap) (a b : addr) :
  graph (free_graph h a) b = if decide (b = a) then null_graph else graph h b.
Proof.
  unfold graph, free_graph. cbn [graphs]. destruct (decide (b = a)) as [->|Hne].
  - by rewrite lookup_delete_eq.
  - by rewrite lookup_delete_ne.
Qed.

Lemma frame_refl (N : nat) (h : Heap) : frame N h h.
Proof. by intros a _. Qed.

Lemma frame_trans (N1 N2 : nat) (h1 h2 h3 : Heap) :
  frame N1 h1 h2 -> frame N2 h2 h3 -> N1 <= N2 -> frame N1 h1 h3.
Proof.
  intros H12 H23 Hle a Ha.
  destruct (H12 a Ha) as (E1 & E2 & E3 & E4).
  destruct (H23 a) as (F1 & F2 & F3 & F4); [lia|].
  by rewrite F1, F2, F3, F4.
Qed.

Lemma frame_weaken (N N' : nat) (h h' : Heap) : frame N h h' -> N' <= N -> frame N' h h'.
Proof. intros H Hle a Ha. apply H. lia. Qed.

(** ** The copy constructors *)

Lemma graph_set_node (h : Heap) (a : addr) (n : FFormatterNode) (x : addr) :
  graph (set_node h a n) x = graph h x.
Proof. reflexivity. Qed.
Lemma graph_set_pin (h : Heap) (a : addr) (p : FFormatterPin) (x : addr) :
  graph (set_pin h a p) x = graph h x.
Proof. reflexivity. Qed.
Lemma graph_set_edge (h : Heap) (a : addr) (e : FFormatterEdge) (x : addr) :
  graph (set_edge h a e) x = graph h x.
Proof. reflexivity. Qed.
Lemma graph_bump (h : Heap) (x : addr) : graph (bump h) x = graph h x.
Proof. reflexivity. Qed.
Lemma node_set_graph (h : Heap) (a : addr) (g : FFormatterGraph) (x : addr) :
  node (set_graph h a g) x = node h x.
Proof. reflexivity. Qed.
Lemma pin_set_graph (h : Heap) (a : addr) (g : FFormatterGraph) (x : addr) :
  pin (set_graph h a g) x = pin h x.
Proof. reflexivity. Qed.
Lemma edge_set_graph (h : Heap) (a : addr) (g : FFormatterGraph) (x : addr) :
  edge (set_graph h a g) x = edge h x.
Proof. reflexivity. Qed.
Lemma next_set_graph (h : Heap) (a : addr) (g : FFormatterGraph) :
  next (set_graph h a g) = next h.
Proof. reflexivity. Qed.

Lemma FFormatterPin_copy_eq (this : addr) (acc : list addr) (h : Heap) (P : addr) :
  FFormatterPin_copy this (acc, h) P =
  (acc ++ [next h],
   set_pin (bump h) (next h)
     (mkPin (PinGuid (pin h P)) (OriginalPin (pin h P)) (Direction (pin h P)) this
            (NodeOffset (pin h P)))).
Proof. reflexivity. Qed.

(** The pins of a node are copied to consecutive new addresses. *)
Lemma FFormatterPin_copy_fold (this : addr) (Ps : list addr) :
  ∀ (acc : list addr) (h : Heap),
  (∀ P, P ∈ Ps -> P < next h) ->
  ∃ h', fold_left (FFormatterPin_copy this) Ps (acc, h)
        = (acc ++ seq (next h) (length Ps), h') ∧
    next h' = next h + length Ps ∧
    (∀ a, node h' a = node h a) ∧ (∀ a, edge h' a = edge h a) ∧
    (∀ a, graph h' a = graph h a) ∧
    (∀ a, a < next h -> pin h' a = pin h a) ∧
    (∀ i P, Ps !! i = Some P ->
            pin h' (next h + i) =
            mkPin (PinGuid (pin h P)) (OriginalPin (pin h P)) (Direction (pin h P)) this
                  (NodeOffset (pin h P))).
Proof.
  induction Ps as [|P Ps IH]; intros acc h Hlt.
  { exists h. cbn [fold_left length seq]. rewrite app_nil_r, Nat.add_0_r.
    do 6 (split; [done|]). intros i P Hi. by rewrite lookup_nil in Hi. }
  cbn [fold_left]. rewrite FFormatterPin_copy_eq.
  destruct (IH (acc ++ [next h])
              (set_pin (bump h) (next h)
                 (mkPin (PinGuid (pin h P)) (OriginalPin (pin h P)) (Direction (pin h P))
                        this (NodeOffset (pin h P)))))
    as (h' & Hfold & Hnext & Hnode & Hedge & Hgraph & Hpin & Hnew).
  { intros Q HQ. rewrite next_set_pin, next_bump.
    assert (Q < next h) by (apply Hlt; by apply list_elem_of_further). lia. }
  rewrite next_set_pin, next_bump in *.
  exists h'. split; [|split; [|split; [|split; [|split; [|split]]]]].
  - rewrite Hfold, <- app_assoc. done.
  - cbn [length]. lia.
  - intros a. by rewrite Hnode.
  - intros a. by rewrite Hedge.
  - intros a. by rewrite Hgraph.
  - intros a Ha. rewrite Hpin by lia. rewrite pin_set_pin, pin_bump.
    destruct (decide (a = next h)); [lia|done].
  - intros i Q Hi. destruct i as [|i]; cbn in Hi.
    + injection Hi as <-. rewrite Nat.add_0_r, Hpin by lia.
      rewrite pin_set_pin. by destruct (decide (next h = next h)).
    + replace (next h + S i) with (S (next h) + i) by lia.
      rewrite (Hnew i Q Hi). rewrite pin_set_pin, pin_bump.
      assert (Q < next h) by (apply Hlt, list_elem_of_further; by eapply list_elem_of_lookup_2).
      destruct (decide (Q = next h)); [lia|done].
Qed.

Lemma node_in_mono (lo hi lo' hi' : nat) (h : Heap) (n : addr) :
  lo' <= lo -> hi <= hi' -> node_in lo hi h n -> node_in lo' hi' h n.
Proof.
  intros Hlo Hhi (Hn & H1 & H2 & H3 & H4).
  assert (Hr : ∀ a, in_range lo hi a -> in_range lo' hi' a)
    by (unfold in_range; intros; lia).
  split; [by apply Hr|].
  repeat split; eapply Forall_impl; eauto.
Qed.

Lemma graph_in_mono (d : nat) :
  ∀ (d' lo hi lo' hi' : nat) (h : Heap) (g : FFormatterGraph),
  d <= d' -> lo' <= lo -> hi <= hi' -> graph_in d lo hi h g -> graph_in d' lo' hi' h g.
Proof.
  induction d as [|d IH]; intros d' lo hi lo' hi' h g Hd Hlo Hhi Hin; [done|].
  destruct d' as [|d']; [lia|]. destruct Hin as [Hnodes Hiso].
  assert (Hr : ∀ a, in_range lo hi a -> in_range lo' hi' a)
    by (unfold in_range; intros; lia).
  split.
  - intros n Hn. destruct (Hnodes n Hn) as [Hni Hsub]. split.
    + by apply (node_in_mono lo hi).
    + intros s Hs. destruct (Hsub s Hs) as [Hsr Hsg]. split; [by apply Hr|].
      apply (IH d' lo hi); [lia|done|done|done].
  - intros i Hi. destruct (Hiso i Hi) as [Hir Hig]. split; [by apply Hr|].
    apply (IH d' lo hi); [lia|done|done|done].
Qed.

Lemma graph_in_same_on (d : nat) :
  ∀ (lo hi : nat) (h h' : Heap) (g : FFormatterGraph),
  (∀ a, in_range lo hi a -> node h' a = node h a ∧ graph h' a = graph h a) ->
  graph_in d lo hi h g -> graph_in d lo hi h' g.
Proof.
  induction d as [|d IH]; intros lo hi h h' g Hsame Hin; [done|].
  destruct Hin as [Hnodes Hiso]. split.
  - intros n Hn. destruct (Hnodes n Hn) as [Hni Hsub].
    destruct (Hsame n (proj1 Hni)) as [En _]. unfold node_in. rewrite En. split; [done|].
    intros s Hs. destruct (Hsub s Hs) as [Hsr Hsg]. split; [done|].
    destruct (Hsame s Hsr) as [_ ->]. by apply (IH lo hi h).
  - intros i Hi. destruct (Hiso i Hi) as [Hir Hig]. split; [done|].
    destruct (Hsame i Hir) as [_ ->]. by apply (IH lo hi h).
Qed.

Lemma all_pins_frame (N : nat) (h h' : Heap) (ns : list addr) :
  frame N h h' -> (∀ n, n ∈ ns -> n < N) -> all_pins h' ns = all_pins h ns.
Proof.
  intros Hfr Hns. unfold all_pins. apply Forall_bind_ext, Forall_forall.
  intros n Hn. unfold pins_of. by destruct (Hfr n (Hns n Hn)) as (-> & _).
Qed.

Lemma graph_ok_frame (N : nat) (h h' : Heap) (g : FFormatterGraph) :
  frame N h h' -> graph_ok N h g -> graph_ok N h' g.
Proof.
  intros Hfr (Hguid & Hpguid & Hnodes).
  assert (Hlt : ∀ n, n ∈ Nodes g -> n < N) by (intros n Hn; destruct (Hnodes n Hn); lia).
  assert (Hplt : ∀ p, p ∈ all_pins h (Nodes g) -> p < N).
  { intros p Hp. unfold all_pins in Hp. apply list_elem_of_bind in Hp as (n & Hp & Hn).
    destruct (Hnodes n Hn) as (_ & Hin & Hout & _).
    apply elem_of_app in Hp as [Hp|Hp]; [destruct (Hin p Hp)|destruct (Hout p Hp)]; lia. }
  split; [|split].
  - erewrite map_ext_in; [exact Hguid|]. intros n Hn. apply list_elem_of_In in Hn.
    by destruct (Hfr n (Hlt n Hn)) as (-> & _).
  - rewrite (all_pins_frame N h h') by done.
    erewrite map_ext_in; [exact Hpguid|]. intros p Hp. apply list_elem_of_In in Hp.
    by destruct (Hfr p (Hplt p Hp)) as (_ & -> & _).
  - intros n Hn. destruct (Hnodes n Hn) as (Hr & Hin & Hout & Hie & Hoe).
    destruct (Hfr n (Hlt n Hn)) as (En & _). rewrite En.
    split; [done|]. split; [|split; [|split]].
    + intros p Hp. destruct (Hin p Hp) as (Hpr & ? & ?).
      destruct (Hfr p) as (_ & -> & _); [lia|]. done.
    + intros p Hp. destruct (Hout p Hp) as (Hpr & ? & ?).
      destruct (Hfr p) as (_ & -> & _); [lia|]. done.
    + intros e He. destruct (Hie e He) as (Her & HF & m & Hm & HT).
      destruct (Hfr e) as (_ & _ & -> & _); [lia|].
      split; [done|]. split; [done|]. exists m. split; [done|].
      by destruct (Hfr m (Hlt m Hm)) as (-> & _).
    + intros e He. destruct (Hoe e He) as (Her & HF & m & Hm & HT).
      destruct (Hfr e) as (_ & _ & -> & _); [lia|].
      split; [done|]. split; [done|]. exists m. split; [done|].
      by destruct (Hfr m (Hlt m Hm)) as (-> & _).
Qed.

Lemma wf_graph_frame (d : nat) :
  ∀ (N : nat) (h h' : Heap) (g : FFormatterGraph),
  frame N h h' -> wf_graph d N h g -> wf_graph d N h' g.
Proof.
  induction d as [|d IH]; intros N h h' g Hfr Hwf; [done|].
  destruct Hwf as (Hok & Hsub & Hiso). split; [by apply (graph_ok_frame N h)|]. split.
  - intros n s Hn Hs.
    assert (Hlt : n < N) by (destruct Hok as (_ & _ & Hnodes); destruct (Hnodes n Hn); lia).
    destruct (Hfr n Hlt) as (En & _). rewrite En in Hs.
    destruct (Hsub n s Hn Hs) as [Hsr Hsg]. split; [done|].
    destruct (Hfr s) as (_ & _ & _ & ->); [lia|]. by apply (IH N h).
  - intros i Hi. destruct (Hiso i Hi) as [Hir Hig]. split; [done|].
    destruct (Hfr i) as (_ & _ & _ & ->); [lia|]. by apply (IH N h).
Qed.

Lemma FFormatterNode_copy_stages
    (cg : Heap -> FFormatterGraph -> option (Heap * FFormatterGraph))
    (h : Heap) (Other : addr) (sub : option addr) (h1 : Heap)
    (ins : list addr) (h2 : Heap) (outs : list addr) (h3 : Heap) :
  match SubGraph (node h Other) with
  | Some s => ∃ h' g, cg (bump (bump h)) (graph h s) = Some (h', g) ∧
                      sub = Some (S (next h)) ∧ h1 = set_graph h' (S (next h)) g
  | None => sub = None ∧ h1 = bump h
  end ->
  fold_left (FFormatterPin_copy (next h)) (InPins (node h1 Other)) ([], h1) = (ins, h2) ->
  fold_left (FFormatterPin_copy (next h)) (OutPins (node h2 Other)) ([], h2) = (outs, h3) ->
  FFormatterNode_copy cg h Other =
  Some (next h,
        set_node h3 (next h)
          (mkNode (Guid (node h3 Other)) (OriginalNode (node h3 Other)) sub
                  (Size (node h3 Other)) [] [] ins outs
                  (PathDepth (node h3 Other)) f32_zero (Position (node h3 Other)))).
Proof.
  intros Hsub Hin Hout. unfold FFormatterNode_copy. cbn [alloc].
  change (node (bump h) Other) with (node h Other).
  destruct (SubGraph (node h Other)) as [s|].
  - destruct Hsub as (h' & g & Hcg & -> & ->).
    change (graph (bump (bump h)) s) with (graph h s).
    change (next (bump h)) with (S (next h)).
    rewrite Hcg. cbn [mbind option_bind]. rewrite Hin, Hout. reflexivity.
  - destruct Hsub as [-> ->]. cbn [mbind option_bind]. rewrite Hin, Hout. reflexivity.
Qed.

Lemma FFormatterNode_copy_sub (d : nat)
    (cg : Heap -> FFormatterGraph -> option (Heap * FFormatterGraph))
    (N : nat) (h : Heap) (Other : addr) :
  copies d cg -> N <= next h ->
  (∀ s, SubGraph (node h Other) = Some s -> 0 < s < N ∧ wf_graph d N h (graph h s)) ->
  ∃ sub h1,
    match SubGraph (node h Other) with
    | Some s => ∃ h' g, cg (bump (bump h)) (graph h s) = Some (h', g) ∧
                        sub = Some (S (next h)) ∧ h1 = set_graph h' (S (next h)) g
    | None => sub = None ∧ h1 = bump h
    end ∧
    sub = (if SubGraph (node h Other) is Some _ then Some (S (next h)) else None) ∧
    S (next h) <= next h1 ∧ frame (next h) h h1 ∧
    match SubGraph (node h Other) with
    | Some _ => S (next h) < next h1 ∧
                graph_in d (S (next h)) (next h1) h1 (graph h1 (S (next h)))
    | None => next h1 = S (next h)
    end.
Proof.
  intros Hcg HN Hsub.
  destruct (SubGraph (node h Other)) as [s|] eqn:Es.
  - destruct (Hsub s eq_refl) as [Hs Hwf].
    destruct (Hcg N (bump (bump h)) (graph h s)) as (h' & g & Hcopy & Hle & Hfr & Hin).
    { rewrite !next_bump. lia. }
    { apply (wf_graph_frame d N h (bump (bump h))); [by intros a _|done]. }
    rewrite !next_bump in *.
    exists (Some (S (next h))), (set_graph h' (S (next h)) g).
    split; [by exists h', g|]. split; [done|]. rewrite next_set_graph.
    split; [lia|]. split; [|split; [lia|]].
    + intros a Ha. destruct (Hfr a) as (E1 & E2 & E3 & E4); [lia|].
      rewrite node_set_graph, pin_set_graph, edge_set_graph, graph_set_graph.
      destruct (decide (a = S (next h))); [lia|]. by rewrite E1, E2, E3, E4.
    + rewrite graph_set_graph. destruct (decide (S (next h) = S (next h))); [|done].
      apply (graph_in_mono d d (S (S (next h))) (next h')); [lia|lia|lia|].
      apply (graph_in_same_on d _ _ h'); [|done].
      intros a [Ha1 Ha2]. rewrite node_set_graph, graph_set_graph.
      destruct (decide (a = S (next h))); [lia|done].
  - exists None, (bump h). rewrite next_bump. do 3 (split; [done|]).
    split; [by intros a _|done].
Qed.

Lemma FFormatterNode_copy_spec (d : nat)
    (cg : Heap -> FFormatterGraph -> option (Heap * FFormatterGraph))
    (N : nat) (h : Heap) (Other : addr) :
  copies d cg -> N <= next h -> Other < N ->
  (∀ P, P ∈ pins_of h Other -> P < N) ->
  (∀ s, SubGraph (node h Other) = Some s -> 0 < s < N ∧ wf_graph d N h (graph h s)) ->
  ∃ h' mid, FFormatterNode_copy cg h Other = Some (next h, h') ∧
            node_copied d h Other h' mid.
Proof.
  intros Hcg HN HOther Hpins Hsub.
  destruct (FFormatterNode_copy_sub d cg N h Other Hcg HN Hsub)
    as (sub & h1 & Hmatch & Hsubeq & Hle1 & Hfr1 & Hreg).
  assert (E1 : node h1 Other = node h Other) by (destruct (Hfr1 Other) as (-> & _); [lia|done]).
  destruct (FFormatterPin_copy_fold (next h) (InPins (node h1 Other)) [] h1)
    as (h2 & Hf2 & Hn2 & Hnode2 & Hedge2 & Hgraph2 & Hpin2 & Hnew2).
  { rewrite E1. intros P HP.
    assert (P < N) by (apply Hpins, elem_of_app; by left). lia. }
  destruct (FFormatterPin_copy_fold (next h) (OutPins (node h2 Other)) [] h2)
    as (h3 & Hf3 & Hn3 & Hnode3 & Hedge3 & Hgraph3 & Hpin3 & Hnew3).
  { rewrite Hnode2, E1. intros P HP.
    assert (P < N) by (apply Hpins, elem_of_app; by right). lia. }
  rewrite (FFormatterNode_copy_stages cg h Other sub h1 _ h2 _ h3 Hmatch Hf2 Hf3).
  rewrite Hnode3, Hnode2, E1. rewrite E1 in Hn2, Hnew2. rewrite Hnode2, E1 in Hn3, Hnew3.
  cbn [app].
  eexists _, (next h1). split; [reflexivity|].
  split; [done|]. rewrite next_set_node.
  split; [lia|]. split; [|split; [|split; [|split]]].
  - intros a Ha. destruct (Hfr1 a Ha) as (F1 & F2 & F3 & F4).
    rewrite node_set_node, pin_set_node, edge_set_node, graph_set_node.
    destruct (decide (a = next h)); [lia|].
    rewrite Hnode3, Hnode2, Hedge3, Hedge2, Hgraph3, Hgraph2, Hpin3, Hpin2 by lia. done.
  - rewrite node_set_node. destruct (decide (next h = next h)); [|done].
    rewrite Hn2, Hsubeq. done.
  - intros i P Hi. unfold mirror_pin. rewrite pin_set_node.
    assert (i < length (InPins (node h Other))) by (by eapply lookup_lt_Some).
    rewrite Hpin3 by lia. rewrite (Hnew2 i P Hi).
    destruct (Hfr1 P) as (_ & -> & _); [|done].
    assert (P < N) by (apply Hpins, elem_of_app; left; by eapply list_elem_of_lookup_2). lia.
  - intros i P Hi. unfold mirror_pin. rewrite pin_set_node.
    rewrite <- Hn2. rewrite (Hnew3 i P Hi).
    assert (P < N) by (apply Hpins, elem_of_app; right; by eapply list_elem_of_lookup_2).
    rewrite Hpin2 by lia.
    destruct (Hfr1 P) as (_ & -> & _); [lia|done].
  - destruct (SubGraph (node h Other)) as [s|]; [|done].
    destruct Hreg as [Hlt Hin]. split; [done|].
    rewrite graph_set_node, Hgraph3, Hgraph2.
    apply (graph_in_same_on d _ _ h1); [|done].
    intros a [Ha1 Ha2]. rewrite node_set_node, graph_set_node.
    destruct (decide (a = next h)); [lia|].
    by rewrite Hnode3, Hnode2, Hgraph3, Hgraph2.
Qed.

(** ** AddNode and the two maps *)

Lemma AddNode_pins_fold (h : Heap) (Ps : list addr) :
  ∀ (m : gmap nat addr * gmap FGuid addr),
  (fold_left (λ '(om, pm) Pin,
      (match OriginalPin (pin h Pin) with
       | Some o => <[o := Pin]> om
       | None => om
       end,
       <[PinGuid (pin h Pin) := Pin]> pm)) Ps m).2
  = fold_left (λ pm Pin, <[PinGuid (pin h Pin) := Pin]> pm) Ps m.2.
Proof.
  induction Ps as [|P Ps IH]; intros [om pm]; [done|]. cbn [fold_left]. apply IH.
Qed.

Lemma PinsMap_AddNode (h : Heap) (g : FFormatterGraph) (X : addr) :
  PinsMap (AddNode h g X) =
  fold_left (λ pm Pin, <[PinGuid (pin h Pin) := Pin]> pm) (pins_of h X) (PinsMap g).
Proof.
  unfold AddNode, pins_of. cbn [PinsMap].
  by rewrite fold_left_app, !AddNode_pins_fold.
Qed.

Lemma Nodes_AddNode (h : Heap) (g : FFormatterGraph) (X : addr) :
  Nodes (AddNode h g X) = Nodes g ++ [X].
Proof. reflexivity. Qed.

Lemma NodesMap_AddNode (h : Heap) (g : FFormatterGraph) (X : addr) :
  NodesMap (AddNode h g X) = <[Guid (node h X) := X]> (NodesMap g).
Proof. reflexivity. Qed.

Lemma IsolatedGraphs_AddNode (h : Heap) (g : FFormatterGraph) (X : addr) :
  IsolatedGraphs (AddNode h g X) = IsolatedGraphs g.
Proof. reflexivity. Qed.

Lemma fold_insert_notin {K V} `{Countable K} (key : V -> K) (l : list V) :
  ∀ (m : gmap K V) (k : K),
  k ∉ map key l -> fold_left (λ m v, <[key v := v]> m) l m !! k = m !! k.
Proof.
  induction l as [|v l IH]; intros m k Hk; [done|]. cbn [fold_left].
  rewrite IH.
  - apply lookup_insert_ne. intros <-. apply Hk. cbn. apply list_elem_of_here.
  - intros Hin. apply Hk. cbn. by apply list_elem_of_further.
Qed.

Lemma fold_insert_in {K V} `{Countable K} (key : V -> K) (l : list V) :
  ∀ (m : gmap K V) (i : nat) (v : V),
  NoDup (map key l) -> l !! i = Some v ->
  fold_left (λ m v, <[key v := v]> m) l m !! key v = Some v.
Proof.
  induction l as [|w l IH]; intros m i v Hnd Hi; [by rewrite lookup_nil in Hi|].
  cbn in Hnd. apply NoDup_cons in Hnd as [Hw Hnd]. cbn [fold_left].
  destruct i as [|i]; cbn in Hi.
  - injection Hi as ->. rewrite fold_insert_notin by done. apply lookup_insert_eq.
  - by apply (IH _ i).
Qed.

Lemma fold_insert_dom {K V} `{Countable K} (key : V -> K) (l : list V) :
  ∀ (m : gmap K V) (k : K) (v : V),
  fold_left (λ m v, <[key v := v]> m) l m !! k = Some v ->
  m !! k = Some v ∨ (v ∈ l ∧ k = key v).
Proof.
  induction l as [|w l IH]; intros m k v Hk; [by left|]. cbn [fold_left] in Hk.
  apply IH in Hk as [Hk|[Hv ->]].
  - destruct (decide (k = key w)) as [->|Hne].
    + rewrite lookup_insert_eq in Hk. injection Hk as ->. right.
      split; [apply list_elem_of_here|done].
    + rewrite lookup_insert_ne in Hk by done. by left.
  - right. split; [by apply list_elem_of_further|done].
Qed.

(** ** The first loop of the copy constructor *)

Lemma node_image_frame (lo : nat) (h h1 h2 : Heap) (c1 c2 : FFormatterGraph)
    (N X : addr) :
  node_image lo h h1 c1 N X -> frame (next h1) h1 h2 -> next h1 <= next h2 ->
  NodesMap c2 !! Guid (node h N) = NodesMap c1 !! Guid (node h N) ->
  (∀ P, P ∈ pins_of h N ->
        PinsMap c2 !! PinGuid (pin h P) = PinsMap c1 !! PinGuid (pin h P)) ->
  node_image lo h h2 c2 N X.
Proof.
  intros (Hin & Hguid & Hnm & Hip & Hop) Hfr Hle Hnm' Hpm'.
  assert (HX : X < next h1) by (destruct Hin as ([_ ?] & _); done).
  destruct (Hfr X HX) as (EX & _).
  assert (Hpins : ∀ l l', (∀ P, P ∈ l -> P ∈ pins_of h N) ->
            Forall (in_range lo (next h1)) l' ->
            Forall2 (pin_image h h1 c1 X) l l' -> Forall2 (pin_image h h2 c2 X) l l').
  { intros l l' Hl Hr HF. induction HF as [|P P' l l' [Hm Hpm] HF IH]; [constructor|].
    apply Forall_cons in Hr as [[_ HP'] Hr]. constructor.
    - split.
      + unfold mirror_pin in *. by destruct (Hfr P' HP') as (_ & -> & _).
      + rewrite Hpm'; [done|]. apply Hl, list_elem_of_here.
    - apply IH; [|done]. intros Q HQ. by apply Hl, list_elem_of_further. }
  destruct Hin as (HXr & Hie & Hoe & Hipr & Hopr).
  split; [|split; [|split; [|split]]].
  - apply (node_in_mono lo (next h1)); [lia|done|]. unfold node_in. by rewrite EX.
  - by rewrite EX.
  - by rewrite Hnm'.
  - rewrite EX. apply Hpins; [|done|done].
    intros P HP. apply elem_of_app. by left.
  - rewrite EX. apply Hpins; [|done|done].
    intros P HP. apply elem_of_app. by right.
Qed.

Lemma Forall2_seq_lookup {A} (R : A -> nat -> Prop) (l : list A) :
  ∀ j, (∀ i x, l !! i = Some x -> R x (j + i)) -> Forall2 R l (seq j (length l)).
Proof.
  induction l as [|x l IH]; intros j H; [constructor|]. cbn [length seq]. constructor.
  - specialize (H 0 x eq_refl). by rewrite Nat.add_0_r in H.
  - apply IH. intros i y Hi. specialize (H (S i) y Hi).
    by replace (S j + i) with (j + S i) by lia.
Qed.

Lemma pins_map_lookup (h h' : Heap) (X : addr) (Ps Ps' : list addr)
    (pm : gmap FGuid addr) :
  Forall2 (mirror_pin h h' X) Ps Ps' ->
  NoDup (map (λ p, PinGuid (pin h p)) Ps) ->
  Forall2 (λ P P',
      fold_left (λ pm Pin, <[PinGuid (pin h' Pin) := Pin]> pm) Ps' pm
        !! PinGuid (pin h P) = Some P') Ps Ps'.
Proof.
  intros HF Hnd.
  assert (Hkeys : map (λ p, PinGuid (pin h' p)) Ps' = map (λ p, PinGuid (pin h p)) Ps).
  { clear Hnd. induction HF as [|P P' l l' Hm HF IH]; [done|]. cbn. f_equal; [|done].
    unfold mirror_pin in Hm. by rewrite Hm. }
  apply Forall2_same_length_lookup_2; [by eapply Forall2_length|].
  intros i P P' HP HP'.
  assert (Hm : mirror_pin h h' X P P') by (by eapply Forall2_lookup_lr).
  replace (PinGuid (pin h P)) with (PinGuid (pin h' P'))
    by (unfold mirror_pin in Hm; by rewrite Hm).
  apply (fold_insert_in (λ p, PinGuid (pin h' p)) Ps' pm i); [|done].
  by rewrite Hkeys.
Qed.

Lemma node_image_new (d : nat) (h h1 h2 : Heap) (c1 : FFormatterGraph) (N0 : addr)
    (mid : nat) :
  next h <= next h1 -> frame (next h) h h1 -> N0 < next h ->
  (∀ P, P ∈ pins_of h N0 -> P < next h) ->
  NoDup (map (λ p, PinGuid (pin h p)) (pins_of h N0)) ->
  node_copied d h1 N0 h2 mid ->
  node_image (next h) h h2 (AddNode h2 c1 (next h1)) N0 (next h1) ∧
  InEdges (node h2 (next h1)) = [] ∧ OutEdges (node h2 (next h1)) = [] ∧
  Forall (in_range (S (next h1)) (next h2)) (pins_of h2 (next h1)) ∧
  ∀ s, SubGraph (node h2 (next h1)) = Some s ->
       in_range (S (next h1)) (next h2) s ∧
       graph_in d (S (next h1)) (next h2) h2 (graph h2 s).
Proof.
  intros Hle Hfr HN0 Hplt Hnd (Hmid & Hnext & Hfr2 & Hrec & Hin & Hout & Hsub).
  destruct (Hfr N0 HN0) as (E & _). rewrite E in *.
  assert (Hpin : ∀ P, P ∈ pins_of h N0 -> pin h1 P = pin h P).
  { intros P HP. by destruct (Hfr P (Hplt P HP)) as (_ & -> & _). }
  assert (HFin : Forall2 (mirror_pin h h2 (next h1)) (InPins (node h N0))
                         (InPins (node h2 (next h1)))).
  { rewrite Hrec. cbn [InPins]. apply Forall2_seq_lookup. intros i P Hi.
    specialize (Hin i P Hi). unfold mirror_pin in *. rewrite Hin, Hpin; [done|].
    apply elem_of_app. left. by eapply list_elem_of_lookup_2. }
  assert (HFout : Forall2 (mirror_pin h h2 (next h1)) (OutPins (node h N0))
                          (OutPins (node h2 (next h1)))).
  { rewrite Hrec. cbn [OutPins]. apply Forall2_seq_lookup. intros i P Hi.
    specialize (Hout i P Hi). unfold mirror_pin in *. rewrite Hout, Hpin; [done|].
    apply elem_of_app. right. by eapply list_elem_of_lookup_2. }
  assert (HFall : Forall2 (mirror_pin h h2 (next h1)) (pins_of h N0)
                          (pins_of h2 (next h1))) by (by apply Forall2_app).
  pose proof (pins_map_lookup h h2 (next h1) _ _ (PinsMap c1) HFall Hnd) as Hmap.
  rewrite <- PinsMap_AddNode in Hmap.
  assert (Hlen : length (InPins (node h N0)) = length (InPins (node h2 (next h1))))
    by (by eapply Forall2_length).
  split; [|rewrite Hrec; cbn [InEdges OutEdges]; split; [done|]; split; [done|]; split].
  split; [|split; [|split; [|split]]].
  - split; [unfold in_range; lia|]. rewrite Hrec. cbn [InEdges OutEdges InPins OutPins].
    split; [constructor|]. split; [constructor|].
    split; apply Forall_seq; unfold in_range; intros; lia.
  - by rewrite Hrec.
  - rewrite NodesMap_AddNode, Hrec. cbn [Guid]. apply lookup_insert_eq.
  - apply Forall2_same_length_lookup_2; [done|]. intros i P P' HP HP'.
    split; [exact (Forall2_lookup_lr _ _ _ i P P' HFin HP HP')|].
    apply (Forall2_lookup_lr _ _ _ i P P' Hmap); unfold pins_of.
    + by apply lookup_app_l_Some.
    + by apply lookup_app_l_Some.
  - apply Forall2_same_length_lookup_2; [by eapply Forall2_length|]. intros i P P' HP HP'.
    split; [exact (Forall2_lookup_lr _ _ _ i P P' HFout HP HP')|].
    apply (Forall2_lookup_lr _ _ _ (length (InPins (node h N0)) + i) P P' Hmap);
      unfold pins_of.
    + rewrite lookup_app_r by lia. by replace (_ + i - _) with i by lia.
    + rewrite Hlen, lookup_app_r by lia. by replace (_ + i - _) with i by lia.
  - unfold pins_of. rewrite Hrec. cbn [InPins OutPins].
    apply Forall_app. split; apply Forall_seq; unfold in_range; intros; lia.
  - intros s Hs. cbn [SubGraph] in Hs.
    destruct (SubGraph (node h N0)) as [s0|]; [|done]. injection Hs as <-.
    destruct Hsub as [Hlt Hg]. split; [unfold in_range; lia|].
    apply (graph_in_mono d d (S (next h1)) mid); [lia|lia|lia|done].
Qed.

Lemma all_pins_snoc (h : Heap) (Ns : list addr) (N0 : addr) :
  all_pins h (Ns ++ [N0]) = all_pins h Ns ++ pins_of h N0.
Proof. unfold all_pins. by rewrite bind_app, bind_singleton. Qed.

Lemma copy_nodes_step (d : nat) (h : Heap) (Ns : list addr) (h1 : Heap)
    (c1 : FFormatterGraph) (N0 : addr) (h2 : Heap) (mid : nat) :
  copy_nodes_inv d h Ns h1 c1 -> node_copied d h1 N0 h2 mid ->
  N0 < next h -> (∀ P, P ∈ pins_of h N0 -> P < next h) ->
  NoDup (map (λ n, Guid (node h n)) (Ns ++ [N0])) ->
  NoDup (map (λ p, PinGuid (pin h p)) (all_pins h (Ns ++ [N0]))) ->
  copy_nodes_inv d h (Ns ++ [N0]) h2 (AddNode h2 c1 (next h1)).
Proof.
  intros (Hle & Hfr & Hiso & Hnd & Hbl & HF & Hedges & Hnm & Hpm) Hcopied HN0 Hplt
         Hgnd Hpnd.
  rewrite all_pins_snoc, map_app in Hpnd. rewrite map_app in Hgnd. cbn [map] in Hgnd.
  apply NoDup_app in Hgnd as (_ & Hgdis & _).
  apply NoDup_app in Hpnd as (_ & Hpdis & Hpnd0).
  destruct (node_image_new d h h1 h2 c1 N0 mid Hle Hfr HN0 Hplt Hpnd0 Hcopied)
    as (Hnew & Hie & Hoe & Hpr & Hsubn).
  pose proof Hcopied as (Hmid & Hnext & Hfr2 & _).
  assert (Hle2 : next h1 <= next h2) by lia.
  assert (Hkeys : map (λ p, PinGuid (pin h2 p)) (pins_of h2 (next h1))
                  = map (λ p, PinGuid (pin h p)) (pins_of h N0)).
  { destruct Hnew as (_ & _ & _ & HFi & HFo). unfold pins_of. rewrite !map_app.
    f_equal.
    - clear -HFi. induction HFi as [|P P' l l' [Hm _] _ IH]; [done|]. cbn.
      f_equal; [|done]. unfold mirror_pin in Hm. by rewrite Hm.
    - clear -HFo. induction HFo as [|P P' l l' [Hm _] _ IH]; [done|]. cbn.
      f_equal; [|done]. unfold mirror_pin in Hm. by rewrite Hm. }
  assert (Hgnew : Guid (node h2 (next h1)) = Guid (node h N0))
    by (by destruct Hnew as (_ & ? & _)).
  split; [lia|]. split; [by apply (frame_trans _ (next h1) h h1 h2)|].
  assert (Hold : ∀ X, X ∈ Nodes c1 -> X < next h1).
  { intros X HX. apply list_elem_of_lookup in HX as [i HX].
    destruct (Forall2_lookup_r _ _ _ i X HF HX) as (N & _ & ([_ ?] & _) & _). done. }
  split; [done|]. rewrite Nodes_AddNode.
  split; [|split; [|split; [|split; [|split]]]].
  - apply NoDup_app. split; [done|]. split; [|apply NoDup_singleton].
    intros X HX HX'. apply list_elem_of_singleton in HX'. specialize (Hold X HX). lia.
  - intros i X HX. destruct (decide (i < length (Nodes c1))) as [Hi|Hi].
    + rewrite lookup_app_l in HX by done.
      destruct (Hbl i X HX) as (Hlt & HhiE & Hpins & Hsubg).
      assert (Ehi : default (next h2) ((Nodes c1 ++ [next h1]) !! S i)
                    = default (next h1) (Nodes c1 !! S i)).
      { destruct (decide (S i < length (Nodes c1))) as [Hsi|Hsi].
        - rewrite lookup_app_l by done.
          by destruct (lookup_lt_is_Some_2 _ _ Hsi) as [Y ->].
        - rewrite lookup_app_r by lia. rewrite (lookup_ge_None_2 (Nodes c1)) by lia.
          by replace (S i - length (Nodes c1)) with 0 by lia. }
      rewrite Ehi. set (hi := default (next h1) (Nodes c1 !! S i)) in *.
      destruct (Hfr2 X) as (EX & _); [lia|].
      split; [done|]. split; [lia|]. unfold pins_of. rewrite EX. split; [done|].
      intros s Hs. destruct (Hsubg s Hs) as [Hsr Hsg]. split; [done|].
      destruct (Hfr2 s) as (_ & _ & _ & ->); [unfold in_range in Hsr; lia|].
      apply (graph_in_same_on d _ _ h1); [|done].
      intros a [_ Ha]. destruct (Hfr2 a) as (-> & _ & _ & ->); [lia|done].
    + assert (i = length (Nodes c1)) as ->.
      { apply lookup_lt_Some in HX. rewrite length_app in HX. cbn in HX. lia. }
      rewrite lookup_app_r in HX by lia. rewrite Nat.sub_diag in HX. injection HX as <-.
      rewrite (lookup_ge_None_2 (Nodes c1 ++ [next h1])) by (rewrite length_app; cbn; lia).
      cbn [default]. split; [lia|]. split; [lia|]. split; [done|done].
  - apply Forall2_app; [|by constructor].
    apply Forall2_same_length_lookup_2; [by eapply Forall2_length|].
    intros i N X HN HX.
    assert (HNin : N ∈ Ns) by (by eapply list_elem_of_lookup_2).
    apply (node_image_frame _ h h1 h2 c1); [|done|done| |].
    + exact (Forall2_lookup_lr _ _ _ i N X HF HN HX).
    + rewrite NodesMap_AddNode, Hgnew. apply lookup_insert_ne. intros Heq.
      apply (Hgdis (Guid (node h N))).
      * apply list_elem_of_fmap. by exists N.
      * rewrite Heq. apply list_elem_of_here.
    + intros P HP. rewrite PinsMap_AddNode. apply fold_insert_notin.
      rewrite Hkeys. intros Hin. apply (Hpdis (PinGuid (pin h P))); [|done].
      apply list_elem_of_fmap. exists P. split; [done|].
      apply list_elem_of_bind. by exists N.
  - apply Forall_app. split; [|by repeat constructor].
    apply Forall_forall. intros X HX.
    destruct (Hfr2 X (Hold X HX)) as (-> & _).
    by apply (proj1 (Forall_forall _ _) Hedges).
  - intros k X. rewrite NodesMap_AddNode, Hgnew, map_app. cbn [map]. intros Hk.
    apply elem_of_app. destruct (decide (k = Guid (node h N0))) as [->|Hne].
    + right. apply list_elem_of_here.
    + rewrite lookup_insert_ne in Hk by done. left. by apply (Hnm k X).
  - intros k P. rewrite PinsMap_AddNode, all_pins_snoc, map_app. intros Hk.
    apply elem_of_app. apply fold_insert_dom in Hk as [Hk|[HP ->]].
    + left. by apply (Hpm k P).
    + right. rewrite <- Hkeys. apply list_elem_of_fmap. by exists P.
Qed.

Lemma copy_nodes_loop (d : nat)
    (cg : Heap -> FFormatterGraph -> option (Heap * FFormatterGraph))
    (N : nat) (h : Heap) (g : FFormatterGraph) :
  copies d cg -> N <= next h -> graph_ok N h g ->
  (∀ n s, n ∈ Nodes g -> SubGraph (node h n) = Some s ->
          0 < s < N ∧ wf_graph d N h (graph h s)) ->
  ∀ (Rs Ns : list addr) (h1 : Heap) (c1 : FFormatterGraph),
  Nodes g = Ns ++ Rs -> copy_nodes_inv d h Ns h1 c1 ->
  ∃ h2 c2,
    fold_leftM (λ '(h, this) Node,
        '(Cloned, h) ← FFormatterNode_copy cg h Node;
        Some (h, AddNode h this Cloned)) Rs (h1, c1) = Some (h2, c2) ∧
    copy_nodes_inv d h (Ns ++ Rs) h2 c2.
Proof.
  intros Hcg HN (Hgnd & Hpnd & Hnodes) Hsub.
  induction Rs as [|N0 Rs IH]; intros Ns h1 c1 Hsplit Hinv.
  { exists h1, c1. by rewrite app_nil_r. }
  assert (HN0 : N0 ∈ Nodes g).
  { rewrite Hsplit. apply elem_of_app. right. apply list_elem_of_here. }
  destruct (Hnodes N0 HN0) as (HN0r & Hin & Hout & _).
  assert (Hplt : ∀ P, P ∈ pins_of h N0 -> P < N).
  { intros P HP. apply elem_of_app in HP as [HP|HP];
      [destruct (Hin P HP)|destruct (Hout P HP)]; lia. }
  pose proof Hinv as (Hle & Hfr & _).
  assert (Hfr' : frame N h h1) by (apply (frame_weaken (next h)); done).
  destruct (Hfr' N0) as (E & _); [lia|].
  destruct (FFormatterNode_copy_spec d cg N h1 N0 Hcg) as (h2 & mid & Hcopy & Hcopied).
  - lia.
  - lia.
  - unfold pins_of. rewrite E. apply Hplt.
  - intros s Hs. rewrite E in Hs. destruct (Hsub N0 s HN0 Hs) as [Hsr Hwf].
    split; [done|]. destruct (Hfr' s) as (_ & _ & _ & ->); [lia|].
    by apply (wf_graph_frame d N h).
  - destruct (IH (Ns ++ [N0]) h2 (AddNode h2 c1 (next h1))) as (h3 & c3 & Hfold & Hinv3).
    + by rewrite <- app_assoc.
    + apply (copy_nodes_step d h Ns h1 c1 N0 h2 mid); [done|done|lia| | |].
      * intros P HP. specialize (Hplt P HP). lia.
      * rewrite Hsplit in Hgnd. rewrite map_app in Hgnd. cbn [map] in Hgnd.
        rewrite map_app. cbn [map].
        apply NoDup_app in Hgnd as (H1 & H2 & H3). apply NoDup_app.
        split; [done|]. split.
        -- intros x Hx Hx0. apply (H2 x Hx). apply list_elem_of_singleton in Hx0.
           subst. apply list_elem_of_here.
        -- apply NoDup_singleton.
      * rewrite Hsplit in Hpnd.
        replace (Ns ++ N0 :: Rs) with ((Ns ++ [N0]) ++ Rs) in Hpnd
          by (by rewrite <- app_assoc).
        unfold all_pins in Hpnd. rewrite bind_app, map_app in Hpnd.
        by apply NoDup_app in Hpnd as (? & _).
    + exists h3, c3. split; [|by rewrite <- app_assoc in Hinv3].
      cbn [fold_leftM]. rewrite Hcopy. cbn [mbind option_bind]. exact Hfold.
Qed.

(** ** The second loop of the copy constructor *)

Lemma graph_Connect (h : Heap) (this p q a : addr) :
  graph (Connect h this p q) a = graph h a.
Proof.
  unfold Connect. cbn [alloc].
  by destruct (decide (Direction (pin _ p) = EGPD_Output)).
Qed.

Lemma copy_edge_eq (c : FFormatterGraph) (N : addr) (h : Heap) (e P' Q' X : addr) :
  PinsMap c !! PinGuid (pin h (From (edge h e))) = Some P' ->
  PinsMap c !! PinGuid (pin h (To (edge h e))) = Some Q' ->
  NodesMap c !! Guid (node h N) = Some X ->
  copy_edge c N h e = Some (Connect h X P' Q').
Proof. intros H1 H2 H3. unfold copy_edge. by rewrite H1, H2, H3. Qed.

Lemma copy_edges_fold (h : Heap) (c : FFormatterGraph) (N X : addr)
    (D : EEdGraphPinDirection) (es : list addr) :
  ∀ h2 : Heap,
  frame (next h) h h2 -> next h <= next h2 -> N < next h -> next h <= X ->
  NodesMap c !! Guid (node h N) = Some X ->
  (∀ e, e ∈ es ->
        e < next h ∧ From (edge h e) < next h ∧ To (edge h e) < next h ∧
        ∃ P' Q', PinsMap c !! PinGuid (pin h (From (edge h e))) = Some P' ∧
                 Direction (pin h2 P') = D ∧
                 PinsMap c !! PinGuid (pin h (To (edge h e))) = Some Q') ->
  ∃ h3, fold_leftM (copy_edge c N) es h2 = Some h3 ∧
    next h3 = next h2 + length es ∧ frame (next h) h h3 ∧
    (∀ a, pin h3 a = pin h2 a) ∧ (∀ a, graph h3 a = graph h2 a) ∧
    (∀ a, a < next h2 -> edge h3 a = edge h2 a) ∧
    (∀ a, a ≠ X -> node h3 a = node h2 a) ∧
    node h3 X =
      (if decide (D = EGPD_Output)
       then with_OutEdges (OutEdges (node h2 X) ++ seq (next h2) (length es)) (node h2 X)
       else with_InEdges (InEdges (node h2 X) ++ seq (next h2) (length es)) (node h2 X)) ∧
    (∀ i e, es !! i = Some e ->
        PinsMap c !! PinGuid (pin h (From (edge h e)))
          = Some (From (edge h3 (next h2 + i))) ∧
        PinsMap c !! PinGuid (pin h (To (edge h e)))
          = Some (To (edge h3 (next h2 + i)))).
Proof.
  induction es as [|e es IH]; intros h2 Hfr Hle HN HX Hnm Hes.
  { exists h2. cbn [fold_leftM length seq]. rewrite Nat.add_0_r, !app_nil_r.
    do 7 (split; [done|]). split.
    - by destruct (decide (D = EGPD_Output)), (node h2 X).
    - intros i e Hi. by rewrite lookup_nil in Hi. }
  destruct (Hes e (list_elem_of_here _ _)) as (He & HF & HT & P' & Q' & HP' & HD & HQ').
  destruct (Hfr e He) as (_ & _ & Ee & _).
  destruct (Hfr N HN) as (EN & _).
  destruct (Hfr _ HF) as (_ & EF & _). destruct (Hfr _ HT) as (_ & ET & _).
  assert (Hstep : copy_edge c N h2 e = Some (Connect h2 X P' Q')).
  { apply copy_edge_eq; rewrite ?Ee, ?EF, ?ET, ?EN; done. }
  destruct (IH (Connect h2 X P' Q')) as
    (h3 & Hfold & Hnext & Hfr3 & Hpin & Hgraph & Hedge & Hnode & HnodeX & Hnew).
  - intros a Ha. destruct (Hfr a Ha) as (F1 & F2 & F3 & F4).
    rewrite node_Connect, pin_Connect, edge_Connect, graph_Connect.
    destruct (decide (a = X)); [lia|]. destruct (decide (a = next h2)); [lia|]. done.
  - rewrite next_Connect. lia.
  - done.
  - done.
  - done.
  - intros e' He'. destruct (Hes e' (list_elem_of_further _ _ _ He'))
      as (? & ? & ? & P1 & Q1 & ? & ? & ?).
    do 3 (split; [done|]). exists P1, Q1. by rewrite pin_Connect.
  - rewrite next_Connect in *. exists h3. cbn [fold_leftM]. rewrite Hstep.
    cbn [mbind option_bind]. split; [done|]. cbn [length].
    split; [lia|]. split; [done|]. split; [|split; [|split; [|split; [|split]]]].
    + intros a. by rewrite Hpin, pin_Connect.
    + intros a. by rewrite Hgraph, graph_Connect.
    + intros a Ha. rewrite Hedge by lia. rewrite edge_Connect.
      destruct (decide (a = next h2)); [lia|done].
    + intros a Ha. rewrite Hnode by done. rewrite node_Connect.
      by destruct (decide (a = X)).
    + rewrite HnodeX, node_Connect. destruct (decide (X = X)); [|done]. rewrite HD.
      destruct (decide (D = EGPD_Output)); unfold with_OutEdges, with_InEdges;
        cbn; rewrite <- app_assoc; done.
    + intros i e' Hi. destruct i as [|i]; cbn in Hi.
      * injection Hi as <-. rewrite Nat.add_0_r, Hedge by lia. rewrite edge_Connect.
        destruct (decide (next h2 = next h2)); [|done]. done.
      * replace (next h2 + S i) with (S (next h2) + i) by lia. by apply Hnew.
Qed.

Lemma pin_lookup_image (lo : nat) (h h1 : Heap) (c : FFormatterGraph)
    (Ns Xs : list addr) (m P : addr) :
  Forall2 (node_image lo h h1 c) Ns Xs -> m ∈ Ns ->
  (P ∈ InPins (node h m) ->
   ∃ Xm P', Xm ∈ Xs ∧ P' ∈ InPins (node h1 Xm) ∧ pin_image h h1 c Xm P P') ∧
  (P ∈ OutPins (node h m) ->
   ∃ Xm P', Xm ∈ Xs ∧ P' ∈ OutPins (node h1 Xm) ∧ pin_image h h1 c Xm P P').
Proof.
  intros HF Hm. apply list_elem_of_lookup in Hm as [i Hm].
  destruct (Forall2_lookup_l _ _ _ i m HF Hm) as (Xm & HXm & _ & _ & _ & Hin & Hout).
  assert (HXin : Xm ∈ Xs) by (by eapply list_elem_of_lookup_2).
  split; intros HP; apply list_elem_of_lookup in HP as [j HP].
  - destruct (Forall2_lookup_l _ _ _ j P Hin HP) as (P' & HP' & Himg).
    exists Xm, P'. split; [done|]. split; [by eapply list_elem_of_lookup_2|done].
  - destruct (Forall2_lookup_l _ _ _ j P Hout HP) as (P' & HP' & Himg).
    exists Xm, P'. split; [done|]. split; [by eapply list_elem_of_lookup_2|done].
Qed.

Lemma edge_image_frame (h h2 h4 : Heap) (c : FFormatterGraph) (lo : nat)
    (l ie : list addr) :
  Forall2 (edge_image h h2 c) l ie -> Forall (in_range lo (next h2)) ie ->
  (∀ a, a < next h2 -> edge h4 a = edge h2 a) ->
  Forall2 (edge_image h h4 c) l ie.
Proof.
  intros HF Hr He. induction HF as [|e e' l ie Him HF IH]; [constructor|].
  apply Forall_cons in Hr as [[_ Hlt] Hr]. constructor; [|by apply IH].
  unfold edge_image in *. by rewrite (He e' Hlt).
Qed.

Lemma copy_edges_node (d Nb : nat) (h : Heap) (g c : FFormatterGraph) (h1 : Heap)
    (k : nat) (h2 : Heap) (N : addr) :
  Nb <= next h -> graph_ok Nb h g -> copy_nodes_inv d h (Nodes g) h1 c ->
  copy_edges_inv h g c h1 k h2 -> Nodes g !! k = Some N ->
  ∃ h3 h4, fold_leftM (copy_edge c N) (InEdges (node h2 N)) h2 = Some h3 ∧
           fold_leftM (copy_edge c N) (OutEdges (node h3 N)) h3 = Some h4 ∧
           copy_edges_inv h g c h1 (S k) h4.
Proof.
  intros HNb (Hgnd & Hpnd & Hnodes) (Hle1 & Hfr1 & Hiso & Hxnd & Hbl & HF & Hempty & _ & _)
         (Hle2 & Hfr2 & Hpin2 & Hgraph2 & Hedge2 & Hnode2 & Hper) HkN.
  assert (HNin : N ∈ Nodes g) by (by eapply list_elem_of_lookup_2).
  destruct (Hnodes N HNin) as (HNr & Hin & Hout & Hie & Hoe).
  destruct (Forall2_lookup_l _ _ _ k N HF HkN)
    as (X & HkX & (([HXlo HXhi] & _) & HXguid & HXnm & HXip & HXop)).
  destruct (Hfr2 N) as (EN2 & _); [lia|].
  destruct (copy_edges_fold h c N X EGPD_Input (InEdges (node h N)) h2)
    as (h3 & Hf3 & Hn3 & Hfr3 & Hpin3 & Hgraph3 & Hedge3 & Hnode3 & HnodeX3 & Hnew3);
    [done|lia|lia|done|done| |].
  { intros e He. destruct (Hie e He) as (Her & HFrom & m & Hm & HTo).
    destruct (Hin _ HFrom) as (HFr & HFd & _).
    destruct (Hnodes m Hm) as (_ & _ & Houtm & _). destruct (Houtm _ HTo) as (HTr & _).
    destruct (pin_lookup_image _ h h1 c _ _ N (From (edge h e)) HF HNin) as [Hl _].
    destruct (Hl HFrom) as (XN & P' & _ & _ & [Hmir HP']).
    destruct (pin_lookup_image _ h h1 c _ _ m (To (edge h e)) HF Hm) as [_ Hl2].
    destruct (Hl2 HTo) as (Xm & Q' & _ & _ & [_ HQ']).
    split; [lia|]. split; [lia|]. split; [lia|]. exists P', Q'.
    split; [done|]. split; [|done]. rewrite Hpin2. unfold mirror_pin in Hmir.
    by rewrite Hmir. }
  destruct (Hfr3 N) as (EN3 & _); [lia|].
  destruct (copy_edges_fold h c N X EGPD_Output (OutEdges (node h N)) h3)
    as (h4 & Hf4 & Hn4 & Hfr4 & Hpin4 & Hgraph4 & Hedge4 & Hnode4 & HnodeX4 & Hnew4);
    [done|lia|lia|done|done| |].
  { intros e He. destruct (Hoe e He) as (Her & HFrom & m & Hm & HTo).
    destruct (Hout _ HFrom) as (HFr & HFd & _).
    destruct (Hnodes m Hm) as (_ & Hinm & _). destruct (Hinm _ HTo) as (HTr & _).
    destruct (pin_lookup_image _ h h1 c _ _ N (From (edge h e)) HF HNin) as [_ Hl].
    destruct (Hl HFrom) as (XN & P' & _ & _ & [Hmir HP']).
    destruct (pin_lookup_image _ h h1 c _ _ m (To (edge h e)) HF Hm) as [Hl2 _].
    destruct (Hl2 HTo) as (Xm & Q' & _ & _ & [_ HQ']).
    split; [lia|]. split; [lia|]. split; [lia|]. exists P', Q'.
    split; [done|]. split; [|done]. rewrite Hpin3, Hpin2. unfold mirror_pin in Hmir.
    by rewrite Hmir. }
  exists h3, h4. rewrite EN2, EN3. split; [done|]. split; [done|].
  split; [lia|]. split; [done|]. split; [|split; [|split; [|split]]].
  - intros a. by rewrite Hpin4, Hpin3.
  - intros a. by rewrite Hgraph4, Hgraph3.
  - intros a Ha. rewrite Hedge4, Hedge3 by lia. by apply Hedge2.
  - intros a Ha. assert (a ≠ X) by (intros ->; apply Ha; by eapply list_elem_of_lookup_2).
    rewrite Hnode4, Hnode3 by done. by apply Hnode2.
  - intros i N' X' HN' HX'.
    destruct (Hper i N' X' HN' HX') as (ie & oe & Hrec & Hier & Hoer & Hcase).
    destruct (decide (i = k)) as [->|Hik].
    + assert (X' = X) as -> by congruence. assert (N' = N) as -> by congruence.
      destruct (decide (k < k)); [lia|]. destruct Hcase as [-> ->].
      exists (seq (next h2) (length (InEdges (node h N)))),
             (seq (next h3) (length (OutEdges (node h N)))).
      split; [|split; [|split]].
      * rewrite HnodeX4, HnodeX3, Hrec.
        destruct (decide (EGPD_Output = EGPD_Output)); [|done].
        destruct (decide (EGPD_Input = EGPD_Output)); [done|].
        by destruct (node h1 X).
      * apply Forall_seq. unfold in_range. intros. lia.
      * apply Forall_seq. unfold in_range. intros. lia.
      * destruct (decide (k < S k)); [|lia]. split.
        -- apply Forall2_seq_lookup. intros j e Hj.
           assert (j < length (InEdges (node h N))) by (by eapply lookup_lt_Some).
           unfold edge_image. rewrite Hedge4 by lia. by apply Hnew3.
        -- apply Forall2_seq_lookup. intros j e Hj. by apply Hnew4.
    + assert (X' ≠ X).
      { intros ->. apply Hik. by eapply (NoDup_lookup (Nodes c)). }
      exists ie, oe. rewrite Hnode4, Hnode3 by done.
      assert (Hw : ∀ a, in_range (next h1) (next h2) a -> in_range (next h1) (next h4) a)
        by (unfold in_range; intros; lia).
      split; [done|]. split; [by eapply Forall_impl|]. split; [by eapply Forall_impl|].
      destruct (decide (i < k)), (decide (i < S k)); try lia; [|done].
      destruct Hcase as [H1 H2].
      assert (He : ∀ a, a < next h2 -> edge h4 a = edge h2 a)
        by (intros a Ha; rewrite Hedge4, Hedge3 by lia; done).
      split; by eapply edge_image_frame.
Qed.

Lemma copy_edges_loop (d Nb : nat) (h : Heap) (g c : FFormatterGraph) (h1 : Heap) :
  Nb <= next h -> graph_ok Nb h g -> copy_nodes_inv d h (Nodes g) h1 c ->
  ∀ (Rs : list addr) (k : nat) (h2 : Heap),
  drop k (Nodes g) = Rs -> copy_edges_inv h g c h1 k h2 ->
  ∃ h',
    fold_leftM (λ h Node,
        h ← fold_leftM (copy_edge c Node) (InEdges (node h Node)) h;
        fold_leftM (copy_edge c Node) (OutEdges (node h Node)) h) Rs h2 = Some h' ∧
    copy_edges_inv h g c h1 (length (Nodes g)) h'.
Proof.
  intros HNb Hok Hinv1. induction Rs as [|N Rs IH]; intros k h2 Hdrop Hinv.
  - exists h2. split; [done|].
    assert (Hk : length (Nodes g) <= k).
    { apply (f_equal length) in Hdrop. rewrite length_drop in Hdrop. cbn in Hdrop. lia. }
    destruct Hinv as (H1 & H2 & H3 & H4 & H5 & H6 & Hper).
    do 6 (split; [done|]). intros i N X HN HX.
    destruct (Hper i N X HN HX) as (ie & oe & Hrec & Hier & Hoer & Hcase).
    exists ie, oe. do 3 (split; [done|]).
    apply lookup_lt_Some in HN.
    destruct (decide (i < k)), (decide (i < length (Nodes g))); try lia. done.
  - assert (HkN : Nodes g !! k = Some N).
    { pose proof (lookup_drop (Nodes g) k 0) as Hl.
      rewrite Hdrop, Nat.add_0_r in Hl. done. }
    destruct (copy_edges_node d Nb h g c h1 k h2 N HNb Hok Hinv1 Hinv HkN)
      as (h3 & h4 & Hf3 & Hf4 & Hinv4).
    destruct (IH (S k) h4) as (h' & Hfold & Hinv'); [|done|].
    + replace (S k) with (k + 1) by lia. by rewrite <- drop_drop, Hdrop.
    + exists h'. split; [|done]. cbn [fold_leftM]. rewrite Hf3. cbn [mbind option_bind].
      rewrite Hf4. cbn [mbind option_bind]. exact Hfold.
Qed.

Lemma blocks_sorted (d : nat) (h' : Heap) (Xs : list addr) (E : nat) (i : nat) (X : addr) :
  blocks d h' Xs E -> Xs !! i = Some X ->
  ∀ j Y, Xs !! j = Some Y -> i < j -> default E (Xs !! S i) <= Y.
Proof.
  intros Hbl HX. induction j as [|j IH]; intros Y HY Hij; [lia|].
  destruct (decide (i = j)) as [->|Hne].
  - by rewrite HY.
  - destruct (lookup_lt_is_Some_2 Xs j) as [Y' HY'];
      [apply lookup_lt_Some in HY; lia|].
    specialize (IH Y' HY'). destruct (Hbl j Y' HY') as (Hlt & _).
    rewrite HY in Hlt. cbn in Hlt. lia.
Qed.

Lemma blocks_avoid (d : nat) (h' : Heap) (Xs : list addr) (E : nat) (i : nat)
    (X Y : addr) :
  blocks d h' Xs E -> Xs !! i = Some X -> Y ∈ Xs ->
  ¬ in_range (S X) (default E (Xs !! S i)) Y.
Proof.
  intros Hbl HX HY [Hlo Hhi]. apply list_elem_of_lookup in HY as [j HY].
  destruct (lt_eq_lt_dec i j) as [[Hij|Heq]|Hij].
  - pose proof (blocks_sorted d h' Xs E i X Hbl HX j Y HY Hij). lia.
  - subst j. assert (Y = X) by congruence. lia.
  - pose proof (blocks_sorted d h' Xs E j Y Hbl HY i X HX Hij).
    destruct (Hbl j Y HY) as (Hlt & _). lia.
Qed.

(** ** The third loop of the copy constructor *)

Lemma copy_isolated_loop (d : nat)
    (cg : Heap -> FFormatterGraph -> option (Heap * FFormatterGraph))
    (Nb : nat) (h : Heap) (g c : FFormatterGraph) (h2 : Heap) :
  copies d cg -> Nb <= next h2 -> frame Nb h h2 ->
  (∀ i, i ∈ IsolatedGraphs g -> 0 < i < Nb ∧ wf_graph d Nb h (graph h i)) ->
  ∀ (Is : list addr) (h3 : Heap) (c3 : FFormatterGraph),
  (∀ i, i ∈ Is -> i ∈ IsolatedGraphs g) -> copy_isolated_inv d c h2 h3 c3 ->
  ∃ h' c',
    fold_leftM (λ '(h, this) Isolated,
        let '(a, h) := alloc h in
        '(h, g) ← cg h (graph h Isolated);
        Some (set_graph h a g, with_IsolatedGraphs (IsolatedGraphs this ++ [a]) this))
      Is (h3, c3) = Some (h', c') ∧
    copy_isolated_inv d c h2 h' c'.
Proof.
  intros Hcg HNb Hfr Hiso. induction Is as [|I Is IH]; intros h3 c3 HIs Hinv.
  { by exists h3, c3. }
  destruct Hinv as (Hle3 & Hfr3 & Hc3 & Hgr3).
  destruct (Hiso I (HIs I (list_elem_of_here _ _))) as [HIr Hwf].
  assert (Hfr' : frame Nb h h3).
  { apply (frame_trans Nb (next h2) h h2 h3); [done| |done].
    by apply (frame_weaken (next h2)). }
  destruct (Hfr' I) as (_ & _ & _ & EI); [lia|].
  destruct (Hcg Nb (bump h3) (graph h I)) as (h4 & gI & Hcopy & Hle4 & Hfr4 & Hin4).
  { rewrite next_bump. lia. }
  { apply (wf_graph_frame d Nb h (bump h3)); [|done].
    intros a Ha. by destruct (Hfr' a Ha) as (? & ? & ? & ?). }
  rewrite next_bump in *.
  destruct (IH (set_graph h4 (next h3) gI)
               (with_IsolatedGraphs (IsolatedGraphs c3 ++ [next h3]) c3))
    as (h' & c' & Hfold & Hinv').
  - intros i Hi. by apply HIs, list_elem_of_further.
  - unfold copy_isolated_inv. rewrite next_set_graph. split; [lia|]. split; [|split].
    + intros a Ha. destruct (Hfr3 a Ha) as (F1 & F2 & F3 & F4).
      destruct (Hfr4 a) as (G1 & G2 & G3 & G4); [lia|].
      rewrite node_set_graph, pin_set_graph, edge_set_graph, graph_set_graph.
      destruct (decide (a = next h3)); [lia|].
      rewrite G1, G2, G3, G4. done.
    + rewrite Hc3 at 2. reflexivity.
    + cbn [IsolatedGraphs with_IsolatedGraphs]. intros a Ha.
      rewrite graph_set_graph. apply elem_of_app in Ha as [Ha|Ha].
      * destruct (Hgr3 a Ha) as [[Ha1 Ha2] Hga].
        destruct (decide (a = next h3)); [lia|]. split; [unfold in_range; lia|].
        destruct (Hfr4 a) as (_ & _ & _ & ->); [lia|].
        apply (graph_in_mono d d (next h2) (next h3)); [lia|lia|lia|].
        apply (graph_in_same_on d _ _ h3); [|done].
        intros b [_ Hb]. rewrite node_set_graph, graph_set_graph.
        destruct (decide (b = next h3)); [lia|].
        by destruct (Hfr4 b) as (-> & _ & _ & ->); [lia|].
      * apply list_elem_of_singleton in Ha. subst a.
        destruct (decide (next h3 = next h3)); [|done]. split; [unfold in_range; lia|].
        apply (graph_in_mono d d (S (next h3)) (next h4)); [lia|lia|lia|].
        apply (graph_in_same_on d _ _ h4); [|done].
        intros b [Hb _]. rewrite node_set_graph, graph_set_graph.
        destruct (decide (b = next h3)); [lia|done].
  - exists h', c'. split; [|done]. cbn [fold_leftM alloc].
    change (graph (bump h3) I) with (graph h3 I). rewrite EI, Hcopy.
    cbn [mbind option_bind]. exact Hfold.
Qed.

(** ** The copy of a graph *)

Lemma copy_edges_done_node (d : nat) (h : Heap) (g c : FFormatterGraph) (h1 h2 : Heap)
    (i : nat) (N X : addr) :
  copy_nodes_inv d h (Nodes g) h1 c ->
  copy_edges_inv h g c h1 (length (Nodes g)) h2 ->
  Nodes g !! i = Some N -> Nodes c !! i = Some X ->
  full_image h h2 c N X ∧ node_in (next h) (next h2) h2 X ∧
  InPins (node h2 X) = InPins (node h1 X) ∧ OutPins (node h2 X) = OutPins (node h1 X) ∧
  SubGraph (node h2 X) = SubGraph (node h1 X) ∧
  Forall (in_range (next h1) (next h2)) (InEdges (node h2 X)) ∧
  Forall (in_range (next h1) (next h2)) (OutEdges (node h2 X)).
Proof.
  intros (Hle1 & Hfr1 & Hiso & Hxnd & Hbl & HF & Hempty & _ & _)
         (Hle2 & Hfr2 & Hpin2 & Hgraph2 & Hedge2 & Hnode2 & Hper) HN HX.
  destruct (Hper i N X HN HX) as (ie & oe & Hrec & Hier & Hoer & Hcase).
  destruct (decide (i < length (Nodes g))) as [_|Hi];
    [|apply lookup_lt_Some in HN; lia].
  destruct Hcase as [Hie Hoe].
  destruct (Forall2_lookup_lr _ _ _ i N X HF HN HX)
    as ((HXr & _ & _ & Hipr & Hopr) & Hguid & Hnm & Hip & Hop).
  assert (Hpi : ∀ l l', Forall2 (pin_image h h1 c X) l l' ->
                        Forall2 (pin_image h h2 c X) l l').
  { intros l l' H. eapply Forall2_impl; [exact H|]. intros P P' [Hm Hl].
    split; [|done]. unfold mirror_pin in *. by rewrite Hpin2. }
  assert (Hw : ∀ lo a, in_range lo (next h1) a -> in_range lo (next h2) a)
    by (unfold in_range; intros; lia).
  assert (Hw' : ∀ a, in_range (next h1) (next h2) a -> in_range (next h) (next h2) a)
    by (unfold in_range; intros; lia).
  unfold full_image, node_in. rewrite Hrec.
  cbn [Guid InPins OutPins InEdges OutEdges SubGraph with_InEdges with_OutEdges].
  split; [|split; [|done]].
  - split; [done|]. split; [by apply Hpi|]. split; [by apply Hpi|done].
  - split; [by apply Hw|].
    split; [by eapply Forall_impl|]. split; [by eapply Forall_impl|].
    split; eapply Forall_impl; eauto.
Qed.

Lemma pin_image_guids (h h' : Heap) (c : FFormatterGraph) (X : addr) (l l' : list addr) :
  Forall2 (pin_image h h' c X) l l' ->
  map (λ p, PinGuid (pin h' p)) l' = map (λ p, PinGuid (pin h p)) l.
Proof.
  induction 1 as [|P P' l l' [Hm _] _ IH]; [done|]. cbn. f_equal; [|done].
  unfold mirror_pin in Hm. by rewrite Hm.
Qed.

Lemma pin_image_lookup (h h' : Heap) (c : FFormatterGraph) (X : addr) (l l' : list addr)
    (P : addr) :
  Forall2 (pin_image h h' c X) l l' -> P ∈ l ->
  ∃ P', P' ∈ l' ∧ PinsMap c !! PinGuid (pin h P) = Some P'.
Proof.
  intros HF HP. apply list_elem_of_lookup in HP as [j HP].
  destruct (Forall2_lookup_l _ _ _ j P HF HP) as (P' & HP' & _ & Hl).
  exists P'. split; [by eapply list_elem_of_lookup_2|done].
Qed.

Lemma full_image_guids (h h' : Heap) (c : FFormatterGraph) (Ns Xs : list addr) :
  Forall2 (full_image h h' c) Ns Xs ->
  map (λ n, Guid (node h' n)) Xs = map (λ n, Guid (node h n)) Ns ∧
  map (λ p, PinGuid (pin h' p)) (all_pins h' Xs)
  = map (λ p, PinGuid (pin h p)) (all_pins h Ns).
Proof.
  induction 1 as [|N X Ns Xs (Hg & Hi & Ho & _) _ [IH1 IH2]]; [done|]. split.
  - cbn. by rewrite Hg, IH1.
  - unfold all_pins in *. rewrite !bind_cons, !map_app, IH2. unfold pins_of.
    by rewrite !map_app, (pin_image_guids _ _ _ _ _ _ Hi),
               (pin_image_guids _ _ _ _ _ _ Ho).
Qed.

Lemma graph_ok_image (Nb : nat) (h : Heap) (g : FFormatterGraph) (h' : Heap)
    (c : FFormatterGraph) (N' : nat) :
  graph_ok Nb h g -> Forall2 (full_image h h' c) (Nodes g) (Nodes c) ->
  (∀ X, X ∈ Nodes c -> node_in 1 N' h' X) -> graph_ok N' h' c.
Proof.
  intros (Hgnd & Hpnd & Hnodes) HF Hin.
  destruct (full_image_guids h h' c _ _ HF) as [Eg Ep].
  split; [by rewrite Eg|]. split; [by rewrite Ep|].
  intros X HX. destruct (Hin X HX) as ([HX1 HX2] & Hier & Hoer & Hipr & Hopr).
  apply list_elem_of_lookup in HX as [i HX].
  destruct (Forall2_lookup_r _ _ _ i X HF HX) as (N & HN & Hg & Hip & Hop & Hie & Hoe).
  assert (HNin : N ∈ Nodes g) by (by eapply list_elem_of_lookup_2).
  destruct (Hnodes N HNin) as (_ & HNip & HNop & HNie & HNoe).
  assert (Hr : ∀ l a, Forall (in_range 1 N') l -> a ∈ l -> 0 < a < N').
  { intros l a Hl Ha. apply (proj1 (Forall_forall _ _) Hl) in Ha.
    unfold in_range in Ha. lia. }
  split; [lia|]. split; [|split; [|split]].
  - intros p' Hp'. split; [exact (Hr _ _ Hipr Hp')|].
    apply list_elem_of_lookup in Hp' as [j Hp'].
    destruct (Forall2_lookup_r _ _ _ j p' Hip Hp') as (P & HP & Hm & _).
    destruct (HNip P) as (_ & Hd & _); [by eapply list_elem_of_lookup_2|].
    unfold mirror_pin in Hm. by rewrite Hm.
  - intros p' Hp'. split; [exact (Hr _ _ Hopr Hp')|].
    apply list_elem_of_lookup in Hp' as [j Hp'].
    destruct (Forall2_lookup_r _ _ _ j p' Hop Hp') as (P & HP & Hm & _).
    destruct (HNop P) as (_ & Hd & _); [by eapply list_elem_of_lookup_2|].
    unfold mirror_pin in Hm. by rewrite Hm.
  - intros e' He'. split; [exact (Hr _ _ Hier He')|].
    apply list_elem_of_lookup in He' as [j He'].
    destruct (Forall2_lookup_r _ _ _ j e' Hie He') as (e & He & HeF & HeT).
    destruct (HNie e) as (_ & HFrom & m & Hm & HTo); [by eapply list_elem_of_lookup_2|].
    split.
    + destruct (pin_image_lookup _ _ _ _ _ _ _ Hip HFrom) as (P' & HP' & Hl).
      rewrite Hl in HeF. by injection HeF as <-.
    + apply list_elem_of_lookup in Hm as [i' Hm].
      destruct (Forall2_lookup_l _ _ _ i' m HF Hm) as (Xm & HXm & _ & _ & Hopm & _).
      destruct (pin_image_lookup _ _ _ _ _ _ _ Hopm HTo) as (Q' & HQ' & Hl).
      rewrite Hl in HeT. injection HeT as <-.
      exists Xm. split; [by eapply list_elem_of_lookup_2|done].
  - intros e' He'. split; [exact (Hr _ _ Hoer He')|].
    apply list_elem_of_lookup in He' as [j He'].
    destruct (Forall2_lookup_r _ _ _ j e' Hoe He') as (e & He & HeF & HeT).
    destruct (HNoe e) as (_ & HFrom & m & Hm & HTo); [by eapply list_elem_of_lookup_2|].
    split.
    + destruct (pin_image_lookup _ _ _ _ _ _ _ Hop HFrom) as (P' & HP' & Hl).
      rewrite Hl in HeF. by injection HeF as <-.
    + apply list_elem_of_lookup in Hm as [i' Hm].
      destruct (Forall2_lookup_l _ _ _ i' m HF Hm) as (Xm & HXm & _ & Hipm & _).
      destruct (pin_image_lookup _ _ _ _ _ _ _ Hipm HTo) as (Q' & HQ' & Hl).
      rewrite Hl in HeT. injection HeT as <-.
      exists Xm. split; [by eapply list_elem_of_lookup_2|done].
Qed.

Lemma full_image_frame (h h2 h' : Heap) (c c' : FFormatterGraph) (lo : nat) (N X : addr) :
  full_image h h2 c N X -> node_in lo (next h2) h2 X -> frame (next h2) h2 h' ->
  PinsMap c' = PinsMap c -> full_image h h' c' N X.
Proof.
  intros (Hg & Hip & Hop & Hie & Hoe) ([_ HX] & Hier & Hoer & Hipr & Hopr) Hfr Hpm.
  destruct (Hfr X HX) as (EX & _). unfold full_image. rewrite EX.
  assert (Hp : ∀ l l', Forall (in_range lo (next h2)) l' ->
                       Forall2 (pin_image h h2 c X) l l' ->
                       Forall2 (pin_image h h' c' X) l l').
  { intros l l' Hr HF. induction HF as [|P P' l l' [Hm Hl] _ IH]; [constructor|].
    apply Forall_cons in Hr as [[_ HP'] Hr]. constructor; [|by apply IH].
    split; [|by rewrite Hpm]. unfold mirror_pin in *.
    by destruct (Hfr P' HP') as (_ & -> & _). }
  assert (He : ∀ l l', Forall (in_range lo (next h2)) l' ->
                       Forall2 (edge_image h h2 c) l l' ->
                       Forall2 (edge_image h h' c') l l').
  { intros l l' Hr HF. induction HF as [|e e' l l' [H1 H2] _ IH]; [constructor|].
    apply Forall_cons in Hr as [[_ He'] Hr]. constructor; [|by apply IH].
    unfold edge_image. rewrite Hpm. by destruct (Hfr e' He') as (_ & _ & -> & _). }
  split; [done|]. split; [by apply Hp|]. split; [by apply Hp|].
  split; by apply He.
Qed.

Lemma blocks_frame (d : nat) (h1 h' : Heap) (Xs : list addr) (E : nat) :
  blocks d h1 Xs E ->
  (∀ X, X ∈ Xs -> pins_of h' X = pins_of h1 X ∧
                  SubGraph (node h' X) = SubGraph (node h1 X)) ->
  (∀ a, a < E -> a ∉ Xs -> node h' a = node h1 a) ->
  (∀ a, a < E -> graph h' a = graph h1 a) ->
  blocks d h' Xs E.
Proof.
  intros Hbl Hsame Hnode Hgraph i X HX.
  destruct (Hbl i X HX) as (Hlt & HhiE & Hpins & Hsub).
  assert (HXin : X ∈ Xs) by (by eapply list_elem_of_lookup_2).
  destruct (Hsame X HXin) as [-> ->].
  split; [done|]. split; [done|]. split; [done|].
  intros s Hs. destruct (Hsub s Hs) as [Hsr Hsg]. split; [done|].
  rewrite Hgraph by (unfold in_range in Hsr; lia).
  apply (graph_in_same_on d _ _ h1); [|done].
  intros a Ha. split.
  - apply Hnode; [unfold in_range in Ha; lia|].
    intros Hin. by apply (blocks_avoid d h1 Xs E i X a Hbl HX Hin).
  - apply Hgraph. unfold in_range in Ha. lia.
Qed.

Lemma copied_assemble (f Nb : nat) (h : Heap) (g c1 : FFormatterGraph)
    (h1 h2 h' : Heap) (c' : FFormatterGraph) :
  Nb <= next h -> graph_ok Nb h g -> copy_nodes_inv f h (Nodes g) h1 c1 ->
  copy_edges_inv h g c1 h1 (length (Nodes g)) h2 -> copy_isolated_inv f c1 h2 h' c' ->
  copied (S f) h g h' c'.
Proof.
  intros HNb Hok Hinv1 Hinv2 (Hle3 & Hfr3 & Hc' & Hiso3).
  pose proof Hinv1 as (Hle1 & Hfr1 & Hiso1 & Hxnd & Hbl & HF & Hempty & _ & _).
  pose proof Hinv2 as (Hle2 & Hfr2 & Hpin2 & Hgraph2 & Hedge2 & Hnode2 & Hper).
  assert (HNodes : Nodes c' = Nodes c1) by (by rewrite Hc').
  assert (HPins : PinsMap c' = PinsMap c1) by (by rewrite Hc').
  assert (Hlen : length (Nodes g) = length (Nodes c1)) by (by eapply Forall2_length).
  assert (Hidx : ∀ X, X ∈ Nodes c1 ->
                      ∃ i N, Nodes g !! i = Some N ∧ Nodes c1 !! i = Some X).
  { intros X HX. apply list_elem_of_lookup in HX as [i HX].
    destruct (Forall2_lookup_r _ _ _ i X HF HX) as (N & HN & _). eauto. }
  assert (Hfacts : ∀ i N X, Nodes g !! i = Some N -> Nodes c1 !! i = Some X ->
    full_image h h' c' N X ∧ node_in (next h) (next h') h' X ∧
    pins_of h' X = pins_of h1 X ∧ SubGraph (node h' X) = SubGraph (node h1 X) ∧
    Forall (in_range (next h1) (next h2)) (InEdges (node h' X)) ∧
    Forall (in_range (next h1) (next h2)) (OutEdges (node h' X))).
  { intros i N X HN HX.
    destruct (copy_edges_done_node f h g c1 h1 h2 i N X Hinv1 Hinv2 HN HX)
      as (Hfi & Hni & Eip & Eop & Esub & Hier & Hoer).
    assert (HXlt : X < next h2) by (destruct Hni as ([_ ?] & _); done).
    destruct (Hfr3 X HXlt) as (EX & _).
    split; [by apply (full_image_frame h h2 h' c1 c' (next h))|].
    split; [apply (node_in_mono (next h) (next h2)); [lia|lia|];
            unfold node_in in *; by rewrite EX|].
    unfold pins_of. rewrite EX, Eip, Eop, Esub. done. }
  split; [lia|].
  split; [apply (frame_trans (next h) (next h2) h h2 h'); [done|done|lia]|].
  split; [|split; [|split]].
  - cbn [graph_in]. split.
    + intros X HX. rewrite HNodes in HX. destruct (Hidx X HX) as (i & N & HN & HXi).
      destruct (Hfacts i N X HN HXi) as (_ & Hni & _ & Esub & _).
      split; [done|]. intros s Hs. rewrite Esub in Hs.
      destruct (Hbl i X HXi) as (Hlt & HhiE & _ & Hsubg).
      destruct (Hsubg s Hs) as [[Hs1 Hs2] Hsg].
      destruct Hni as ([HXlo _] & _).
      split; [unfold in_range; lia|].
      destruct (Hfr3 s) as (_ & _ & _ & ->); [lia|]. rewrite Hgraph2.
      apply (graph_in_mono f f (S X) (default (next h1) (Nodes c1 !! S i)));
        [lia|lia|lia|].
      apply (graph_in_same_on f _ _ h1); [|done].
      intros a [Ha1 Ha2].
      destruct (Hfr3 a) as (-> & _ & _ & ->); [lia|]. split; [|done].
      apply Hnode2. intros Hin.
      by apply (blocks_avoid f h1 (Nodes c1) (next h1) i X a Hbl HXi Hin).
    + intros a Ha. destruct (Hiso3 a Ha) as [[Ha1 Ha2] Hag].
      split; [unfold in_range; lia|].
      apply (graph_in_mono f f (next h2) (next h')); [lia|lia|lia|done].
  - apply (graph_ok_image Nb h g h' c' (next h')); [done| |].
    + rewrite HNodes. apply Forall2_same_length_lookup_2; [done|].
      intros i N X HN HX. by destruct (Hfacts i N X HN HX) as (? & _).
    + intros X HX. rewrite HNodes in HX. destruct (Hidx X HX) as (i & N & HN & HXi).
      destruct (Hfacts i N X HN HXi) as (_ & Hni & _).
      destruct Hok as (_ & _ & Hnodes).
      destruct (Hnodes N) as (HNr & _); [by eapply list_elem_of_lookup_2|].
      apply (node_in_mono (next h) (next h')); [lia|lia|done].
  - rewrite HNodes. apply Forall2_same_length_lookup_2; [done|].
    intros i N X HN HX. by destruct (Hfacts i N X HN HX) as (? & _).
  - exists (next h1). split; [lia|]. cbn [pred]. rewrite HNodes. split.
    + apply (blocks_frame f h1 h'); [done| | |].
      * intros X HX. destruct (Hidx X HX) as (i & N & HN & HXi).
        by destruct (Hfacts i N X HN HXi) as (_ & _ & ? & ? & _).
      * intros a Ha Hnot. destruct (Hfr3 a) as (-> & _); [lia|]. by apply Hnode2.
      * intros a Ha. destruct (Hfr3 a) as (_ & _ & _ & ->); [lia|]. apply Hgraph2.
    + intros X e HX He. destruct (Hidx X HX) as (i & N & HN & HXi).
      destruct (Hfacts i N X HN HXi) as (_ & _ & _ & _ & Hier & Hoer).
      apply elem_of_app in He as [He|He].
      * apply (proj1 (Forall_forall _ _) Hier) in He. unfold in_range in He. lia.
      * apply (proj1 (Forall_forall _ _) Hoer) in He. unfold in_range in He. lia.
Qed.

Lemma copy_nodes_inv_init (d : nat) (h : Heap) : copy_nodes_inv d h [] h null_graph.
Proof.
  split; [done|]. split; [apply frame_refl|]. split; [done|].
  split; [constructor|]. split; [by intros i X Hi|]. split; [constructor|].
  split; [constructor|].
  split; intros k X Hk; unfold null_graph in Hk; cbn [NodesMap PinsMap] in Hk;
    by rewrite lookup_empty in Hk.
Qed.

Lemma copy_edges_inv_init (d : nat) (h : Heap) (g c : FFormatterGraph) (h1 : Heap) :
  copy_nodes_inv d h (Nodes g) h1 c -> copy_edges_inv h g c h1 0 h1.
Proof.
  intros (Hle & Hfr & _ & _ & _ & _ & Hempty & _).
  split; [done|]. split; [done|]. do 4 (split; [done|]).
  intros i N X HN HX. exists [], []. split; [|done].
  assert (HXin : X ∈ Nodes c) by (by eapply list_elem_of_lookup_2).
  destruct (proj1 (Forall_forall _ _) Hempty X HXin) as [E1 E2].
  destruct (node h1 X). cbn in *. by subst.
Qed.

Lemma copy_isolated_inv_init (d : nat) (c : FFormatterGraph) (h2 : Heap) :
  IsolatedGraphs c = [] -> copy_isolated_inv d c h2 h2 c.
Proof.
  intros Hc. split; [done|]. split; [apply frame_refl|]. split.
  - destruct c. cbn in *. by subst.
  - intros a Ha. rewrite Hc in Ha. by apply elem_of_nil in Ha.
Qed.

(** The copy constructor of [FFormatterGraph] returns on a well-formed graph
    nested less than [d] deep, with a copy of it. *)
Lemma FFormatterGraph_copy_copied (d : nat) :
  ∀ (Nb : nat) (h : Heap) (g : FFormatterGraph),
  Nb <= next h -> wf_graph d Nb h g ->
  ∃ h' c, FFormatterGraph_copy d h g = Some (h', c) ∧ copied d h g h' c.
Proof.
  induction d as [|f IH]; intros Nb h g HNb Hwf; [done|].
  assert (Hcg : copies f (FFormatterGraph_copy f)).
  { intros N h0 g0 HN Hwf0. destruct (IH N h0 g0 HN Hwf0) as (h' & c & Hc & Hle & Hfr & Hin & _).
    by exists h', c. }
  destruct Hwf as (Hok & Hsub & Hiso).
  destruct (copy_nodes_loop f (FFormatterGraph_copy f) Nb h g Hcg HNb Hok Hsub
              (Nodes g) [] h null_graph eq_refl (copy_nodes_inv_init f h))
    as (h1 & c1 & Hloop1 & Hinv1).
  cbn [app] in Hinv1.
  destruct (copy_edges_loop f Nb h g c1 h1 HNb Hok Hinv1 (Nodes g) 0 h1 eq_refl
              (copy_edges_inv_init f h g c1 h1 Hinv1))
    as (h2 & Hloop2 & Hinv2).
  pose proof Hinv1 as (Hle1 & _ & Hiso1 & _).
  pose proof Hinv2 as (Hle2 & Hfr2 & _).
  destruct (copy_isolated_loop f (FFormatterGraph_copy f) Nb h g c1 h2 Hcg)
    with (Is := IsolatedGraphs g) (h3 := h2) (c3 := c1)
    as (h' & c' & Hloop3 & Hinv3).
  - lia.
  - by apply (frame_weaken (next h)).
  - done.
  - done.
  - by apply copy_isolated_inv_init.
  - exists h', c'. split.
    + cbn [FFormatterGraph_copy]. rewrite Hloop1. cbn [mbind option_bind].
      rewrite Hloop2. cbn [mbind option_bind]. exact Hloop3.
    + by apply (copied_assemble f Nb h g c1 h1 h2 h' c').
Qed.

(** ** Destructors *)

Lemma shrinks_refl (P : addr -> Prop) (h : Heap) : shrinks P h h.
Proof. split; [done|]. intros a. repeat split; by left. Qed.

Lemma shrinks_trans (P : addr -> Prop) (h1 h2 h3 : Heap) :
  shrinks P h1 h2 -> shrinks P h2 h3 -> shrinks P h1 h3.
Proof.
  intros [Hn12 H12] [Hn23 H23]. split; [congruence|]. intros a.
  destruct (H12 a) as (A1 & A2 & A3 & A4). destruct (H23 a) as (B1 & B2 & B3 & B4).
  repeat split.
  - destruct B1 as [->|[? ->]]; [done|by right].
  - destruct B2 as [->|[? ->]]; [done|by right].
  - destruct B3 as [->|[? ->]]; [done|by right].
  - destruct B4 as [->|[? ->]]; [done|by right].
Qed.

Lemma shrinks_impl (P Q : addr -> Prop) (h h' : Heap) :
  (∀ a, P a -> Q a) -> shrinks P h h' -> shrinks Q h h'.
Proof.
  intros HPQ [Hn H]. split; [done|]. intros a. destruct (H a) as (A1 & A2 & A3 & A4).
  repeat split.
  - destruct A1 as [?|[? ?]]; [by left|right; auto].
  - destruct A2 as [?|[? ?]]; [by left|right; auto].
  - destruct A3 as [?|[? ?]]; [by left|right; auto].
  - destruct A4 as [?|[? ?]]; [by left|right; auto].
Qed.

Lemma shrinks_frame (P : addr -> Prop) (N : nat) (h h' : Heap) :
  shrinks P h h' -> (∀ a, P a -> N <= a) -> frame N h h'.
Proof.
  intros [_ H] HP a Ha. destruct (H a) as (A1 & A2 & A3 & A4).
  repeat split.
  - destruct A1 as [?|[HPa _]]; [done|]. specialize (HP a HPa). lia.
  - destruct A2 as [?|[HPa _]]; [done|]. specialize (HP a HPa). lia.
  - destruct A3 as [?|[HPa _]]; [done|]. specialize (HP a HPa). lia.
  - destruct A4 as [?|[HPa _]]; [done|]. specialize (HP a HPa). lia.
Qed.

Lemma shrinks_free_edges (P : addr -> Prop) (l : list addr) :
  ∀ h, Forall P l ->
       shrinks P h (fold_left free_edge l h) ∧
       ∀ a, node (fold_left free_edge l h) a = node h a.
Proof.
  induction l as [|e l IH]; intros h Hl; [split; [apply shrinks_refl|done]|].
  apply Forall_cons in Hl as [He Hl]. cbn [fold_left].
  destruct (IH (free_edge h e) Hl) as [Hs Hn]. split; [|by intros a; rewrite Hn].
  apply (shrinks_trans P h (free_edge h e)); [|done].
  split; [done|]. intros a. split; [by left|]. split; [by left|]. split; [|by left].
  rewrite edge_free_edge. destruct (decide (a = e)) as [->|]; [by right|by left].
Qed.

Lemma shrinks_free_pins (P : addr -> Prop) (l : list addr) :
  ∀ h, Forall P l ->
       shrinks P h (fold_left free_pin l h) ∧
       ∀ a, node (fold_left free_pin l h) a = node h a.
Proof.
  induction l as [|e l IH]; intros h Hl; [split; [apply shrinks_refl|done]|].
  apply Forall_cons in Hl as [He Hl]. cbn [fold_left].
  destruct (IH (free_pin h e) Hl) as [Hs Hn]. split; [|by intros a; rewrite Hn].
  apply (shrinks_trans P h (free_pin h e)); [|done].
  split; [done|]. intros a. split; [by left|]. split; [|split; by left].
  rewrite pin_free_pin. destruct (decide (a = e)) as [->|]; [by right|by left].
Qed.

Lemma graph_in_null (d lo hi : nat) (h h' : Heap) (g : FFormatterGraph) :
  graph_in d lo hi h g -> graph_in d lo hi h' null_graph.
Proof.
  destruct d as [|d]; [done|]. intros _. split; intros x Hx; by apply elem_of_nil in Hx.
Qed.

Lemma graph_in_shrinks (d : nat) :
  ∀ (lo hi : nat) (P : addr -> Prop) (h h' : Heap) (g : FFormatterGraph),
  shrinks P h h' -> graph_in d lo hi h g -> graph_in d lo hi h' g.
Proof.
  induction d as [|d IH]; intros lo hi P h h' g Hs Hin; [done|].
  destruct Hin as [Hnodes Hiso]. pose proof Hs as [_ Hs']. split.
  - intros n Hn. destruct (Hnodes n Hn) as [Hni Hsub].
    destruct (Hs' n) as ([En|[_ En]] & _).
    + unfold node_in. rewrite En. split; [done|]. intros s Hsg.
      destruct (Hsub s Hsg) as [Hsr Hg]. split; [done|].
      destruct (Hs' s) as (_ & _ & _ & [->|[_ ->]]).
      * by apply (IH lo hi P h).
      * by apply (graph_in_null d lo hi h h' (graph h s)).
    + unfold node_in. rewrite En. cbn. split; [|done].
      destruct Hni as (? & _). split; [done|]. split; [constructor|].
      split; [constructor|]. split; constructor.
  - intros i Hi. destruct (Hiso i Hi) as [Hir Hg]. split; [done|].
    destruct (Hs' i) as (_ & _ & _ & [->|[_ ->]]).
    + by apply (IH lo hi P h).
    + by apply (graph_in_null d lo hi h h' (graph h i)).
Qed.

Lemma FFormatterNode_delete_stages (dg : Heap -> addr -> option Heap) (h : Heap) (n : addr)
    (h1 h2 h3 h4 : Heap) :
  h1 = fold_left free_edge (InEdges (node h n)) h ->
  h2 = fold_left free_edge (OutEdges (node h1 n)) h1 ->
  h3 = fold_left free_pin (InPins (node h2 n)) h2 ->
  h4 = fold_left free_pin (OutPins (node h3 n)) h3 ->
  FFormatterNode_delete dg h n =
  (h5 ← match SubGraph (node h4 n) with
        | Some s => dg h4 s
        | None => Some h4
        end;
   Some (free_node h5 n)).
Proof. intros -> -> -> ->. reflexivity. Qed.

Lemma shrinks_free_node (P : addr -> Prop) (h : Heap) (n : addr) :
  P n -> shrinks P h (free_node h n).
Proof.
  intros HP. split; [done|]. intros a. split; [|repeat split; by left].
  rewrite node_free_node. destruct (decide (a = n)) as [->|]; [by right|by left].
Qed.

Lemma FFormatterNode_delete_staged (dg : Heap -> addr -> option Heap) (f : nat)
    (P : addr -> Prop) (lo hi : nat) (h : Heap) (n : addr) (h1 h2 h3 h4 : Heap) :
  h1 = fold_left free_edge (InEdges (node h n)) h ->
  h2 = fold_left free_edge (OutEdges (node h1 n)) h1 ->
  h3 = fold_left free_pin (InPins (node h2 n)) h2 ->
  h4 = fold_left free_pin (OutPins (node h3 n)) h3 ->
  (∀ h a, in_range lo hi a -> graph_in f lo hi h (graph h a) ->
          ∃ h', dg h a = Some h' ∧ shrinks (in_range lo hi) h h') ->
  P n -> Forall P (InEdges (node h n)) -> Forall P (OutEdges (node h n)) ->
  Forall P (InPins (node h n)) -> Forall P (OutPins (node h n)) ->
  (∀ a, in_range lo hi a -> P a) ->
  (∀ s, SubGraph (node h n) = Some s ->
        in_range lo hi s ∧ graph_in f lo hi h (graph h s)) ->
  ∃ h', FFormatterNode_delete dg h n = Some h' ∧ shrinks P h h' ∧ node h' n = null_node.
Proof.
  intros E1 E2 E3 E4 Hdg HPn HIe HOe HIp HOp HPr Hsub.
  rewrite (FFormatterNode_delete_stages dg h n h1 h2 h3 h4 E1 E2 E3 E4).
  destruct (shrinks_free_edges P _ h HIe) as [S1 N1]. rewrite <- E1 in S1, N1.
  assert (HOe1 : Forall P (OutEdges (node h1 n))) by (by rewrite N1).
  destruct (shrinks_free_edges P _ h1 HOe1) as [S2 N2]. rewrite <- E2 in S2, N2.
  assert (HIp2 : Forall P (InPins (node h2 n))) by (by rewrite N2, N1).
  destruct (shrinks_free_pins P _ h2 HIp2) as [S3 N3]. rewrite <- E3 in S3, N3.
  assert (HOp3 : Forall P (OutPins (node h3 n))) by (by rewrite N3, N2, N1).
  destruct (shrinks_free_pins P _ h3 HOp3) as [S4 N4]. rewrite <- E4 in S4, N4.
  assert (S04 : shrinks P h h4).
  { apply (shrinks_trans P h h1); [done|]. apply (shrinks_trans P h1 h2); [done|].
    by apply (shrinks_trans P h2 h3). }
  rewrite N4, N3, N2, N1.
  destruct (SubGraph (node h n)) as [s|] eqn:Es.
  - destruct (Hsub s eq_refl) as [Hsr Hsg].
    assert (Hg4 : graph_in f lo hi h4 (graph h4 s)).
    { destruct S04 as [_ S04']. destruct (S04' s) as (_ & _ & _ & [->|[_ ->]]).
      - apply (graph_in_shrinks f lo hi P h); [|done]. split; [|done].
        by destruct S1, S2, S3, S4; congruence.
      - by apply (graph_in_null f lo hi h h4 (graph h s)). }
    destruct (Hdg h4 s Hsr Hg4) as (h5 & Hd & S5). rewrite Hd. cbn [mbind option_bind].
    exists (free_node h5 n). split; [done|]. split.
    + apply (shrinks_trans P h h4); [done|]. apply (shrinks_trans P h4 h5).
      * by apply (shrinks_impl (in_range lo hi)).
      * by apply shrinks_free_node.
    + rewrite node_free_node. by destruct (decide (n = n)).
  - cbn [mbind option_bind]. exists (free_node h4 n). split; [done|]. split.
    + apply (shrinks_trans P h h4); [done|]. by apply shrinks_free_node.
    + rewrite node_free_node. by destruct (decide (n = n)).
Qed.

Lemma FFormatterNode_delete_in (dg : Heap -> addr -> option Heap) (f lo hi : nat)
    (h : Heap) (n : addr) :
  (∀ h a, in_range lo hi a -> graph_in f lo hi h (graph h a) ->
          ∃ h', dg h a = Some h' ∧ shrinks (in_range lo hi) h h') ->
  node_in lo hi h n ->
  (∀ s, SubGraph (node h n) = Some s ->
        in_range lo hi s ∧ graph_in f lo hi h (graph h s)) ->
  ∃ h', FFormatterNode_delete dg h n = Some h' ∧ shrinks (in_range lo hi) h h'.
Proof.
  intros Hdg (Hn & Hie & Hoe & Hip & Hop) Hsub.
  destruct (FFormatterNode_delete_staged dg f (in_range lo hi) lo hi h n _ _ _ _
              eq_refl eq_refl eq_refl eq_refl Hdg Hn Hie Hoe Hip Hop (λ a H, H) Hsub)
    as (h' & Hd & Hs & _).
  by exists h'.
Qed.

Lemma shrinks_free_graph (P : addr -> Prop) (h : Heap) (a : addr) :
  P a -> shrinks P h (free_graph h a).
Proof.
  intros HP. split; [done|]. intros b. do 3 (split; [by left|]).
  rewrite graph_free_graph. destruct (decide (b = a)) as [->|]; [by right|by left].
Qed.

(** The destructor of an owned graph returns when the graph lies, with
    what it owns, in a range of addresses, and releases objects of that
    range only. *)
Lemma FFormatterGraph_delete_spec (d : nat) :
  ∀ (lo hi : nat) (h : Heap) (a : addr),
  in_range lo hi a -> graph_in d lo hi h (graph h a) ->
  ∃ h', FFormatterGraph_delete d h a = Some h' ∧ shrinks (in_range lo hi) h h'.
Proof.
  induction d as [|f IH]; intros lo hi h a Ha Hin; [done|].
  assert (Hnodes : ∀ ns h1, shrinks (in_range lo hi) h h1 ->
            (∀ n, n ∈ ns -> n ∈ Nodes (graph h a)) ->
            ∃ h2, fold_leftM (FFormatterNode_delete (FFormatterGraph_delete f)) ns h1
                  = Some h2 ∧ shrinks (in_range lo hi) h h2).
  { induction ns as [|n ns IHns]; intros h1 Hs Hns; [by exists h1|].
    pose proof (graph_in_shrinks (S f) lo hi _ h h1 _ Hs Hin) as [Hn1 _].
    destruct (Hn1 n (Hns n (list_elem_of_here _ _))) as [Hni Hsub].
    destruct (FFormatterNode_delete_in (FFormatterGraph_delete f) f lo hi h1 n
                (IH lo hi) Hni Hsub) as (h2 & Hd & Hs2).
    destruct (IHns h2) as (h3 & Hfold & Hs3).
    - by apply (shrinks_trans _ h h1).
    - intros m Hm. by apply Hns, list_elem_of_further.
    - exists h3. cbn [fold_leftM]. rewrite Hd. by cbn [mbind option_bind]. }
  assert (Hisos : ∀ gs h1, shrinks (in_range lo hi) h h1 ->
            (∀ i, i ∈ gs -> i ∈ IsolatedGraphs (graph h a)) ->
            ∃ h2, fold_leftM (FFormatterGraph_delete f) gs h1 = Some h2 ∧
                  shrinks (in_range lo hi) h h2).
  { induction gs as [|i gs IHis]; intros h1 Hs His; [by exists h1|].
    pose proof (graph_in_shrinks (S f) lo hi _ h h1 _ Hs Hin) as [_ Hi1].
    destruct (Hi1 i (His i (list_elem_of_here _ _))) as [Hir Hig].
    destruct (IH lo hi h1 i Hir Hig) as (h2 & Hd & Hs2).
    destruct (IHis h2) as (h3 & Hfold & Hs3).
    - by apply (shrinks_trans _ h h1).
    - intros m Hm. by apply His, list_elem_of_further.
    - exists h3. cbn [fold_leftM]. rewrite Hd. by cbn [mbind option_bind]. }
  destruct (Hnodes (Nodes (graph h a)) h (shrinks_refl _ h) (λ n H, H))
    as (h1 & Hf1 & Hs1).
  destruct (Hisos (IsolatedGraphs (graph h1 a)) h1 Hs1) as (h2 & Hf2 & Hs2).
  { intros i Hi. destruct Hs1 as [_ Hs1]. destruct (Hs1 a) as (_ & _ & _ & [E|[_ E]]).
    - by rewrite E in Hi.
    - rewrite E in Hi. by apply elem_of_nil in Hi. }
  exists (free_graph h2 a). split.
  - cbn [FFormatterGraph_delete]. rewrite Hf1. cbn [mbind option_bind].
    rewrite Hf2. by cbn [mbind option_bind].
  - apply (shrinks_trans _ h h2); [done|]. by apply shrinks_free_graph.
Qed.

(** ** RemoveNode *)

Lemma graph_Disconnect (h : Heap) (this p q a : addr) :
  graph (Disconnect h this p q) a = graph h a.
Proof. unfold Disconnect. by destruct (decide (Direction (pin h p) = EGPD_Output)). Qed.

Lemma RemoveFirst_sub {A} (Q : A -> bool) (l : list A) : RemoveFirst Q l ⊆ l.
Proof. intros x. apply RemoveFirst_subset. Qed.

Lemma RemoveNode_disconnect_cons (h : Heap) (e : addr) (es : list addr) :
  RemoveNode_disconnect h (e :: es) =
  RemoveNode_disconnect
    (Disconnect h (OwningNode (pin h (To (edge h e)))) (To (edge h e)) (From (edge h e)))
    es.
Proof. reflexivity. Qed.

(** The disconnection loops of [RemoveNode] only shorten the edge arrays of
    the nodes at the other ends of the edges. *)
Lemma RemoveNode_disconnect_sub (S : addr -> Prop) (es : list addr) :
  ∀ h, (∀ e, e ∈ es -> S (OwningNode (pin h (To (edge h e))))) ->
  next (RemoveNode_disconnect h es) = next h ∧
  (∀ a, pin (RemoveNode_disconnect h es) a = pin h a) ∧
  (∀ a, edge (RemoveNode_disconnect h es) a = edge h a) ∧
  (∀ a, graph (RemoveNode_disconnect h es) a = graph h a) ∧
  (∀ a, ¬ S a -> node (RemoveNode_disconnect h es) a = node h a) ∧
  ∀ a, ∃ ie oe,
    node (RemoveNode_disconnect h es) a = with_InEdges ie (with_OutEdges oe (node h a)) ∧
    ie ⊆ InEdges (node h a) ∧ oe ⊆ OutEdges (node h a).
Proof.
  induction es as [|e es IH]; intros h Hown.
  { change (RemoveNode_disconnect h []) with h. do 5 (split; [done|]). intros a.
    exists (InEdges (node h a)), (OutEdges (node h a)).
    split; [by destruct (node h a)|done]. }
  rewrite RemoveNode_disconnect_cons.
  destruct (IH (Disconnect h (OwningNode (pin h (To (edge h e)))) (To (edge h e))
                          (From (edge h e))))
    as (Hn & Hp & He & Hg & Hns & Hsub).
  { intros e' He'. rewrite pin_Disconnect, edge_Disconnect.
    by apply Hown, list_elem_of_further. }
  rewrite Hn, next_Disconnect. split; [done|].
  split; [by intros a; rewrite Hp, pin_Disconnect|].
  split; [by intros a; rewrite He, edge_Disconnect|].
  split; [by intros a; rewrite Hg, graph_Disconnect|].
  split.
  - intros a Ha. rewrite Hns by done. rewrite node_Disconnect.
    destruct (decide (a = _)) as [->|]; [|done].
    exfalso. apply Ha, Hown, list_elem_of_here.
  - intros a. destruct (Hsub a) as (ie & oe & Hrec & Hie & Hoe).
    exists ie, oe. rewrite Hrec, node_Disconnect.
    rewrite node_Disconnect in Hie, Hoe.
    destruct (decide (a = _)) as [->|]; [|done].
    destruct (decide (Direction (pin h (To (edge h e))) = EGPD_Output)).
    + cbn [InEdges OutEdges with_OutEdges] in Hie, Hoe. split; [done|]. split; [done|].
      etrans; [exact Hoe|apply RemoveFirst_sub].
    + cbn [InEdges OutEdges with_InEdges] in Hie, Hoe. split; [done|]. split; [|done].
      etrans; [exact Hie|apply RemoveFirst_sub].
Qed.

Lemma RemoveNode_stages (fuel : nat) (h : Heap) (g : FFormatterGraph) (X : addr)
    (h1 h2 : Heap) :
  h1 = RemoveNode_disconnect h (InEdges (node h X)) ->
  h2 = RemoveNode_disconnect h1 (OutEdges (node h1 X)) ->
  ∃ g', Nodes g' = RemoveAll X (Nodes g) ∧ IsolatedGraphs g' = IsolatedGraphs g ∧
        RemoveNode fuel h g X =
        (h3 ← FFormatterNode_delete (FFormatterGraph_delete fuel) h2 X; Some (h3, g')).
Proof.
  intros -> ->. unfold RemoveNode. cbv zeta.
  eexists. split; [|split]; [| |reflexivity]; reflexivity.
Qed.

Lemma with_edges_fields (ie oe : list addr) (n : FFormatterNode) :
  InEdges (with_InEdges ie (with_OutEdges oe n)) = ie ∧
  OutEdges (with_InEdges ie (with_OutEdges oe n)) = oe ∧
  InPins (with_InEdges ie (with_OutEdges oe n)) = InPins n ∧
  OutPins (with_InEdges ie (with_OutEdges oe n)) = OutPins n ∧
  SubGraph (with_InEdges ie (with_OutEdges oe n)) = SubGraph n ∧
  Guid (with_InEdges ie (with_OutEdges oe n)) = Guid n.
Proof. done. Qed.

Lemma RemoveNode_frame_staged (fuel d N0 E : nat) (h : Heap) (c : FFormatterGraph)
    (X : addr) (h1 h2 : Heap) :
  h1 = RemoveNode_disconnect h (InEdges (node h X)) ->
  h2 = RemoveNode_disconnect h1 (OutEdges (node h1 X)) ->
  graph_ok (next h) h c -> (∀ Y, Y ∈ Nodes c -> node_in N0 (next h) h Y) ->
  blocks d h (Nodes c) E -> d <= fuel -> X ∈ Nodes c ->
  ∃ h' c', RemoveNode fuel h c X = Some (h', c') ∧ frame N0 h h' ∧
           Nodes c' = RemoveAll X (Nodes c).
Proof.
  intros E1 E2 (_ & _ & Hnodes) Hin Hbl Hd HX.
  destruct (RemoveNode_stages fuel h c X h1 h2 E1 E2) as (c' & HN' & _ & ->).
  destruct (Hnodes X HX) as (_ & HXip & HXop & HXie & HXoe).
  assert (Hown : ∀ m p, m ∈ Nodes c ->
            p ∈ InPins (node h m) ∨ p ∈ OutPins (node h m) -> OwningNode (pin h p) = m).
  { intros m p Hm Hp. destruct (Hnodes m Hm) as (_ & Hi & Ho & _).
    destruct Hp as [Hp|Hp]; [by destruct (Hi p Hp) as (_ & _ & ?)|
                              by destruct (Ho p Hp) as (_ & _ & ?)]. }
  pose proof (RemoveNode_disconnect_sub (λ a, a ∈ Nodes c) (InEdges (node h X)) h) as P1.
  rewrite <- E1 in P1. destruct P1 as (Hn1 & Hp1 & He1 & Hg1 & Hns1 & Hsub1).
  { intros e He. destruct (HXie e He) as (_ & _ & m & Hm & HTo).
    rewrite (Hown m _ Hm); [done|by right]. }
  destruct (Hsub1 X) as (ie1 & oe1 & Hrec1 & Hie1 & Hoe1).
  pose proof (RemoveNode_disconnect_sub (λ a, a ∈ Nodes c) (OutEdges (node h1 X)) h1) as P2.
  rewrite <- E2 in P2. destruct P2 as (Hn2 & Hp2 & He2 & Hg2 & Hns2 & Hsub2).
  { intros e He. rewrite Hp1, He1. rewrite Hrec1 in He. cbn in He. apply Hoe1 in He.
    destruct (HXoe e He) as (_ & _ & m & Hm & HTo).
    rewrite (Hown m _ Hm); [done|by left]. }
  destruct (Hsub2 X) as (ie2 & oe2 & Hrec2 & Hie2 & Hoe2).
  rewrite Hrec1 in Hrec2, Hie2, Hoe2. cbn in Hie2, Hoe2.
  destruct (with_edges_fields ie2 oe2 (with_InEdges ie1 (with_OutEdges oe1 (node h X))))
    as (F1 & F2 & F3 & F4 & F5 & _).
  rewrite <- Hrec2 in F1, F2, F3, F4, F5. cbn in F3, F4, F5.
  destruct (Hin X HX) as ([HXlo HXhi] & Hier & Hoer & Hipr & Hopr).
  apply list_elem_of_lookup in HX as [i HXi].
  destruct (Hbl i X HXi) as (Hlt & HhiE & _ & Hsubg).
  assert (Hge : ∀ l l', l ⊆ l' -> Forall (in_range N0 (next h)) l' ->
                        Forall (λ a, N0 <= a) l).
  { intros l l' Hl Hr. apply Forall_forall. intros a Ha. apply Hl in Ha.
    apply (proj1 (Forall_forall _ _) Hr) in Ha. by destruct Ha. }
  destruct (FFormatterNode_delete_staged (FFormatterGraph_delete fuel) fuel
              (λ a, N0 <= a) (S X) (default E (Nodes c !! S i)) h2 X _ _ _ _
              eq_refl eq_refl eq_refl eq_refl) as (h' & Hdel & Hs & _).
  - intros h0 a. apply FFormatterGraph_delete_spec.
  - done.
  - rewrite F1. apply (Hge _ (InEdges (node h X))); [by etrans|done].
  - rewrite F2. apply (Hge _ (OutEdges (node h X))); [by etrans|done].
  - rewrite F3. by apply (Hge _ (InPins (node h X))).
  - rewrite F4. by apply (Hge _ (OutPins (node h X))).
  - intros a [Ha _]. lia.
  - intros s Hs. rewrite F5 in Hs. destruct (Hsubg s Hs) as [Hsr Hsg].
    split; [done|]. rewrite Hg2, Hg1.
    apply (graph_in_mono d fuel (S X) (default E (Nodes c !! S i))); [done|lia|lia|].
    apply (graph_in_same_on d _ _ h); [|done].
    intros a Ha. rewrite Hg2, Hg1. split; [|done].
    assert (Hna : a ∉ Nodes c).
    { intros Hain. by apply (blocks_avoid d h (Nodes c) E i X a Hbl HXi Hain). }
    by rewrite Hns2, Hns1.
  - exists h', c'. rewrite Hdel. split; [done|]. split; [|done].
    apply (frame_trans N0 N0 h h2 h'); [| |done].
    + intros a Ha.
      assert (Hna : a ∉ Nodes c).
      { intros Hain. destruct (Hin a Hain) as ([? _] & _). lia. }
      by rewrite Hns2, Hns1, Hp2, Hp1, He2, He1, Hg2, Hg1.
    + by apply (shrinks_frame (λ a, N0 <= a)).
Qed.

Lemma RemoveNode_frame (fuel d N0 E : nat) (h : Heap) (c : FFormatterGraph) (X : addr) :
  graph_ok (next h) h c -> (∀ Y, Y ∈ Nodes c -> node_in N0 (next h) h Y) ->
  blocks d h (Nodes c) E -> d <= fuel -> X ∈ Nodes c ->
  ∃ h' c', RemoveNode fuel h c X = Some (h', c') ∧ frame N0 h h' ∧
           Nodes c' = RemoveAll X (Nodes c).
Proof. by apply (RemoveNode_frame_staged fuel d N0 E h c X _ _ eq_refl eq_refl). Qed.

(** ** The copy and the original *)

(** C9.  The copy constructor of [FFormatterGraph], on a well-formed graph
    [g] whose objects are below [next h], returns a graph whose nodes have,
    position by position, the [Guid] of the nodes of [g] and pins with the
    [Guid]s of their pins; every node, pin, edge and owned graph of the
    store below [next h], so everything of [g], is left as it was by the
    copy, and still is after [RemoveNode] on any node of the copy, which
    returns. *)
Theorem FFormatterGraph_copy_independent (fuel Nb : nat) (h : Heap) (g : FFormatterGraph) :
  Nb <= next h -> wf_graph fuel Nb h g ->
  ∃ h' c, FFormatterGraph_copy fuel h g = Some (h', c) ∧
    Forall2 (λ N X,
        Guid (node h' X) = Guid (node h N) ∧
        map (λ p, PinGuid (pin h' p)) (InPins (node h' X))
          = map (λ p, PinGuid (pin h p)) (InPins (node h N)) ∧
        map (λ p, PinGuid (pin h' p)) (OutPins (node h' X))
          = map (λ p, PinGuid (pin h p)) (OutPins (node h N)))
      (Nodes g) (Nodes c) ∧
    frame (next h) h h' ∧
    ∀ X, X ∈ Nodes c ->
         ∃ h'' c', RemoveNode fuel h' c X = Some (h'', c') ∧
                   Nodes c' = RemoveAll X (Nodes c) ∧ frame (next h) h h''.
Proof.
  intros HNb Hwf.
  destruct (FFormatterGraph_copy_copied fuel Nb h g HNb Hwf)
    as (h' & c & Hcopy & Hle & Hfr & Hin & Hok & HF & E & HE & Hbl & Hedges).
  exists h', c. split; [done|]. split; [|split; [done|]].
  - eapply Forall2_impl; [exact HF|]. intros N X (Hg & Hi & Ho & _).
    split; [done|]. split; by eapply pin_image_guids.
  - intros X HX. destruct fuel as [|f]; [done|]. destruct Hin as [Hnodes _].
    destruct (RemoveNode_frame (S f) f (next h) E h' c X) as (h'' & c' & Hrm & Hfr' & HN');
      [done| |done|lia|done|].
    + intros Y HY. by destruct (Hnodes Y HY).
    + exists h'', c'. split; [done|]. split; [done|].
      by apply (frame_trans (next h) (next h) h h' h'').
Qed.

Lemma graph_okd_ok (N : nat) (h : Heap) (g : FFormatterGraph) :
  graph_okd N h g -> graph_ok N h g.
Proof.
  intros (H1 & H2 & H3). split; [done|]. split; [done|].
  intros n Hn. apply (proj1 (Forall_forall _ _) H3) in Hn as (Hr & Hip & Hop & Hie & Hoe).
  split; [done|]. split; [|split; [|split]].
  - intros p Hp. by apply (proj1 (Forall_forall _ _) Hip) in Hp.
  - intros p Hp. by apply (proj1 (Forall_forall _ _) Hop) in Hp.
  - intros e He. apply (proj1 (Forall_forall _ _) Hie) in He as (? & ? & Hex).
    split; [done|]. split; [done|]. apply Exists_exists in Hex as (m & ? & ?). eauto.
  - intros e He. apply (proj1 (Forall_forall _ _) Hoe) in He as (? & ? & Hex).
    split; [done|]. split; [done|]. apply Exists_exists in Hex as (m & ? & ?). eauto.
Qed.

Lemma wf_graphd_ok (d : nat) :
  ∀ (N : nat) (h : Heap) (g : FFormatterGraph), wf_graphd d N h g -> wf_graph d N h g.
Proof.
  induction d as [|d IH]; intros N h g Hwf; [done|].
  destruct Hwf as (Hok & Hsub & Hiso). split; [by apply graph_okd_ok|]. split.
  - intros n s Hn Hs. apply (proj1 (Forall_forall _ _) Hsub) in Hn. rewrite Hs in Hn.
    destruct Hn as [? ?]. split; [done|]. by apply IH.
  - intros i Hi. apply (proj1 (Forall_forall _ _) Hiso) in Hi as [? ?].
    split; [done|]. by apply IH.
Qed.

Lemma FFormatterGraph_copy_independent_witness :
  ∃ h' c, FFormatterGraph_copy 1 cycle3.1 cycle3.2 = Some (h', c) ∧
    Forall2 (λ N X,
        Guid (node h' X) = Guid (node cycle3.1 N) ∧
        map (λ p, PinGuid (pin h' p)) (InPins (node h' X))
          = map (λ p, PinGuid (pin cycle3.1 p)) (InPins (node cycle3.1 N)) ∧
        map (λ p, PinGuid (pin h' p)) (OutPins (node h' X))
          = map (λ p, PinGuid (pin cycle3.1 p)) (OutPins (node cycle3.1 N)))
      (Nodes cycle3.2) (Nodes c) ∧
    frame (next cycle3.1) cycle3.1 h' ∧
    ∀ X, X ∈ Nodes c ->
         ∃ h'' c', RemoveNode 1 h' c X = Some (h'', c') ∧
                   Nodes c' = RemoveAll X (Nodes c) ∧ frame (next cycle3.1) cycle3.1 h''.
Proof.
  apply (FFormatterGraph_copy_independent 1 (next cycle3.1) cycle3.1 cycle3.2).
  - lia.
  - apply wf_graphd_ok.
    apply (bool_decide_unpack (wf_graphd 1 (next cycle3.1) cycle3.1 cycle3.2)).
    vm_compute. exact I.
Defined.

(** ** Removal of the first element with a key, key after key *)

Lemma RemoveFirst_filter_other {A K} `{EqDecision K} (κ : A -> K) (k : K)
    (Q : A -> Prop) `{!∀ x, Decision (Q x)} (L : list A) :
  (∀ x, Q x -> κ x ≠ k) ->
  filter Q (RemoveFirst (λ x, bool_decide (κ x = k)) L) = filter Q L.
Proof.
  intros HQ. induction L as [|x L IH]; [done|]. cbn [RemoveFirst].
  case_bool_decide as Hk.
  - rewrite filter_cons. destruct (decide (Q x)) as [Hq|]; [by destruct (HQ x Hq)|done].
  - by rewrite !filter_cons, IH.
Qed.

Lemma RemoveFirst_filter_key {A K} `{EqDecision K} (κ : A -> K) (k : K) (L : list A) :
  length (filter (λ x, κ x = k) (RemoveFirst (λ x, bool_decide (κ x = k)) L))
  = pred (length (filter (λ x, κ x = k) L)).
Proof.
  induction L as [|x L IH]; [done|]. cbn [RemoveFirst]. case_bool_decide as Hk.
  - by rewrite filter_cons_True.
  - by rewrite !filter_cons_False.
Qed.

Lemma filter_length_0 {A} (Q : A -> Prop) `{!∀ x, Decision (Q x)} (L : list A) (x : A) :
  length (filter Q L) = 0 -> x ∈ L -> ¬ Q x.
Proof.
  intros Hlen Hx HQ. assert (Hin : x ∈ filter Q L) by (by apply list_elem_of_filter).
  destruct (filter Q L); [by apply elem_of_nil in Hin|done].
Qed.

(** When no key is asked for less often than it occurs, what is left are
    the elements with none of the keys. *)
Lemma remove_keys_filter {A K} `{EqDecision K} (κ : A -> K) (ks : list K) :
  ∀ L,
  (∀ k, k ∈ ks -> length (filter (λ x, κ x = k) L) <= length (filter (λ k', k' = k) ks)) ->
  remove_keys κ ks L = filter (λ x, κ x ∉ ks) L.
Proof.
  induction ks as [|k ks IH]; intros L Hcount.
  { clear Hcount. cbn. induction L as [|x L IHL]; [done|].
    rewrite filter_cons_True by apply not_elem_of_nil. by f_equal. }
  change (remove_keys κ (k :: ks) L)
    with (remove_keys κ ks (RemoveFirst (λ x, bool_decide (κ x = k)) L)).
  pose proof (Hcount k (list_elem_of_here _ _)) as Hk.
  rewrite filter_cons_True in Hk by done. cbn [length] in Hk.
  pose proof (RemoveFirst_filter_key κ k L) as Hkey.
  rewrite IH.
  - rewrite <- (RemoveFirst_filter_other κ k (λ x, κ x ∉ k :: ks) L)
      by (intros x Hx Hxk; apply Hx; rewrite Hxk; apply list_elem_of_here).
    apply filter_ext_elem. intros x Hx. rewrite not_elem_of_cons. split; [|tauto].
    intros Hnot. split; [|done]. intros Hxk.
    destruct (decide (k ∈ ks)) as [Hin|Hnin]; [by rewrite Hxk in Hnot|].
    assert (Hz : length (filter (λ k', k' = k) ks) = 0).
    { destruct (filter (λ k', k' = k) ks) as [|k' r] eqn:Ef; [done|].
      assert (Hk' : k' ∈ filter (λ k', k' = k) ks) by (rewrite Ef; apply list_elem_of_here).
      apply list_elem_of_filter in Hk' as [-> ?]. done. }
    apply (filter_length_0 (λ x, κ x = k)
             (RemoveFirst (λ x, bool_decide (κ x = k)) L) x); [lia|done|done].
  - intros k' Hk'. destruct (decide (k' = k)) as [->|Hne].
    + lia.
    + rewrite (RemoveFirst_filter_other κ k (λ x, κ x = k') L) by (intros x Hx1 Hx2; congruence).
      specialize (Hcount k' (list_elem_of_further _ _ _ Hk')).
      by rewrite filter_cons_False in Hcount by done.
Qed.

Lemma filter_fmap_length {A K} `{EqDecision K} (κ : A -> K) (k : K) (L : list A) :
  length (filter (λ k', k' = k) (map κ L)) = length (filter (λ x, κ x = k) L).
Proof.
  induction L as [|x L IH]; [done|]. cbn [map]. rewrite !filter_cons.
  destruct (decide (κ x = k)); cbn [length]; by rewrite IH.
Qed.

Lemma filter_bind_le {A B} (Q : B -> Prop) `{!∀ x, Decision (Q x)} (f : A -> list B)
    (Ns : list A) (M : A) :
  M ∈ Ns -> length (filter Q (f M)) <= length (filter Q (Ns ≫= f)).
Proof.
  induction Ns as [|N Ns IH]; intros HM; [by apply elem_of_nil in HM|].
  rewrite bind_cons, filter_app, length_app.
  apply elem_of_cons in HM as [->|HM]; [lia|]. specialize (IH HM). lia.
Qed.

Lemma filter_bind_only {A B} `{EqDecision A} (Q : B -> Prop) `{!∀ x, Decision (Q x)}
    (f : A -> list B) (Ns : list A) (X : A) :
  NoDup Ns -> X ∈ Ns -> (∀ Y y, Y ∈ Ns -> Y ≠ X -> y ∈ f Y -> ¬ Q y) ->
  filter Q (Ns ≫= f) = filter Q (f X).
Proof.
  assert (Hnone : ∀ Ns, (∀ Y y, Y ∈ Ns -> y ∈ f Y -> ¬ Q y) -> filter Q (Ns ≫= f) = []).
  { clear. intros Ns. induction Ns as [|N Ns IH]; intros Hno; [done|].
    rewrite bind_cons, filter_app, IH, app_nil_r.
    - destruct (filter Q (f N)) as [|y r] eqn:Ef; [done|].
      assert (Hy : y ∈ filter Q (f N)) by (rewrite Ef; apply list_elem_of_here).
      apply list_elem_of_filter in Hy as [HQ Hy].
      destruct (Hno N y (list_elem_of_here _ _) Hy HQ).
    - intros Y y HY. apply Hno. by apply list_elem_of_further. }
  induction Ns as [|N Ns IH]; intros Hnd HX Hno; [by apply elem_of_nil in HX|].
  apply NoDup_cons in Hnd as [HN Hnd]. rewrite bind_cons, filter_app.
  destruct (decide (N = X)) as [->|Hne].
  - rewrite Hnone, app_nil_r; [done|]. intros Y y HY. apply Hno.
    + by apply list_elem_of_further.
    + intros ->. done.
  - apply elem_of_cons in HX as [->|HX]; [done|]. rewrite IH; [|done|done|].
    + destruct (filter Q (f N)) as [|y r] eqn:Ef; [done|].
      assert (Hy : y ∈ filter Q (f N)) by (rewrite Ef; apply list_elem_of_here).
      apply list_elem_of_filter in Hy as [HQ Hy].
      destruct (Hno N y (list_elem_of_here _ _) Hne Hy HQ).
    + intros Y y HY. apply Hno. by apply list_elem_of_further.
Qed.

Lemma filter_bind {A B} (Q : B -> Prop) `{!∀ x, Decision (Q x)} (f : A -> list B)
    (Ns : list A) :
  filter Q (Ns ≫= f) = Ns ≫= (λ n, filter Q (f n)).
Proof.
  induction Ns as [|N Ns IH]; [done|]. by rewrite !bind_cons, filter_app, IH.
Qed.

Lemma bind_filter_nil {A B} (P : A -> Prop) `{!∀ x, Decision (P x)} (f : A -> list B)
    (Ns : list A) :
  (∀ n, n ∈ Ns -> ¬ P n -> f n = []) -> filter P Ns ≫= f = Ns ≫= f.
Proof.
  induction Ns as [|N Ns IH]; intros Hnil; [done|]. rewrite filter_cons, bind_cons.
  destruct (decide (P N)) as [HP|HP].
  - rewrite bind_cons, IH; [done|]. intros n Hn. apply Hnil. by apply list_elem_of_further.
  - rewrite IH, (Hnil N (list_elem_of_here _ _) HP); [done|].
    intros n Hn. apply Hnil. by apply list_elem_of_further.
Qed.

Lemma bind_ext_elem {A B} (f f' : A -> list B) (Ns : list A) :
  (∀ n, n ∈ Ns -> f n = f' n) -> Ns ≫= f = Ns ≫= f'.
Proof.
  induction Ns as [|N Ns IH]; intros Hext; [done|]. rewrite !bind_cons.
  rewrite (Hext N (list_elem_of_here _ _)), IH; [done|].
  intros n Hn. apply Hext. by apply list_elem_of_further.
Qed.

Lemma remove_one_Permutation {A} `{EqDecision A} (x : A) (l l' : list A) :
  remove_one x l = Some l' -> l ≡ₚ x :: l'.
Proof.
  revert l'. induction l as [|y l IH]; intros l' Hl; [done|]. cbn in Hl.
  destruct (decide (x = y)) as [->|Hne]; [by injection Hl as ->|].
  destruct (remove_one x l) as [r|]; [|done]. injection Hl as <-.
  rewrite (IH r eq_refl). apply Permutation_swap.
Qed.

Lemma permb_sound {A} `{EqDecision A} (l1 l2 : list A) : permb l1 l2 = true -> l1 ≡ₚ l2.
Proof.
  revert l2. induction l1 as [|x l1 IH]; intros l2 Hp; cbn in Hp.
  - apply bool_decide_eq_true in Hp. by subst.
  - destruct (remove_one x l2) as [l2'|] eqn:Er; [|done].
    rewrite (remove_one_Permutation x l2 l2' Er). by rewrite (IH l2' Hp).
Qed.

(** ** The disconnection loops of RemoveNode, exactly *)

Lemma RemoveFirst_ext {A} (P Q : A -> bool) (l : list A) :
  (∀ x, P x = Q x) -> RemoveFirst P l = RemoveFirst Q l.
Proof.
  intros Hext. induction l as [|x l IH]; [done|]. cbn [RemoveFirst].
  by rewrite Hext, IH.
Qed.

Lemma Disconnect_stores (h : Heap) (this p q : addr) :
  pins (Disconnect h this p q) = pins h ∧ edges (Disconnect h this p q) = edges h ∧
  graphs (Disconnect h this p q) = graphs h.
Proof. unfold Disconnect. by destruct (decide (Direction (pin h p) = EGPD_Output)). Qed.

Lemma Disconnect_funs (h : Heap) (this p q : addr) :
  pin (Disconnect h this p q) = pin h ∧ edge (Disconnect h this p q) = edge h ∧
  graph (Disconnect h this p q) = graph h.
Proof.
  destruct (Disconnect_stores h this p q) as (Ep & Ee & Eg).
  unfold pin, edge, graph. by rewrite Ep, Ee, Eg.
Qed.

Lemma with_edges_same (n : FFormatterNode) :
  with_InEdges (InEdges n) (with_OutEdges (OutEdges n) n) = n.
Proof. by destruct n. Qed.

(** After the loop over the edges [es], each node has lost, for every edge
    of [es] that leads to one of its pins, the first of its edges between
    the same two pins, from the array on the side of that pin. *)
Lemma RemoveNode_disconnect_exact (es : list addr) :
  ∀ h,
  next (RemoveNode_disconnect h es) = next h ∧
  pin (RemoveNode_disconnect h es) = pin h ∧
  edge (RemoveNode_disconnect h es) = edge h ∧
  graph (RemoveNode_disconnect h es) = graph h ∧
  ∀ a, node (RemoveNode_disconnect h es) a =
    with_InEdges
      (remove_keys (edge_key h)
         (map (rev_key h)
            (filter (λ e, target h e = a ∧ Direction (pin h (To (edge h e))) ≠ EGPD_Output) es))
         (InEdges (node h a)))
      (with_OutEdges
         (remove_keys (edge_key h)
            (map (rev_key h)
               (filter (λ e, target h e = a ∧ Direction (pin h (To (edge h e))) = EGPD_Output) es))
            (OutEdges (node h a)))
         (node h a)).
Proof.
  induction es as [|e es IH]; intros h.
  { change (RemoveNode_disconnect h []) with h. do 4 (split; [done|]). intros a.
    cbn. by rewrite with_edges_same. }
  rewrite RemoveNode_disconnect_cons.
  destruct (IH (Disconnect h (OwningNode (pin h (To (edge h e)))) (To (edge h e))
                          (From (edge h e))))
    as (Hn & Hp & He & Hg & Hnode).
  destruct (Disconnect_funs h (OwningNode (pin h (To (edge h e)))) (To (edge h e))
              (From (edge h e))) as (Fp & Fe & Fg).
  rewrite Hn, Hp, He, Hg, next_Disconnect, Fp, Fe, Fg. do 4 (split; [done|]).
  intros a. rewrite Hnode. unfold target, edge_key, rev_key. rewrite Fp, Fe.
  rewrite node_Disconnect. rewrite !filter_cons.
  assert (Hpred : ∀ l, RemoveFirst (λ Edge, bool_decide (From (edge h Edge) = To (edge h e) ∧
                               To (edge h Edge) = From (edge h e))) l
                 = RemoveFirst (λ x, bool_decide ((From (edge h x), To (edge h x))
                                                  = (To (edge h e), From (edge h e)))) l).
  { intros l. apply RemoveFirst_ext. intros x. apply bool_decide_ext.
    split; [intros [H1 H2]; by rewrite H1, H2|intros [= H1 H2]; done]. }
  destruct (decide (a = OwningNode (pin h (To (edge h e))))) as [->|Hne].
  - destruct (decide (Direction (pin h (To (edge h e))) = EGPD_Output)) as [Hd|Hd].
    + destruct (decide (_ ∧ _ ≠ EGPD_Output)) as [[_ ?]|_]; [done|].
      destruct (decide (_ ∧ _ = EGPD_Output)) as [_|Hn']; [|by destruct Hn'].
      cbn [map]. rewrite Hpred. reflexivity.
    + destruct (decide (_ ∧ _ ≠ EGPD_Output)) as [_|Hn']; [|by destruct Hn'].
      destruct (decide (_ ∧ _ = EGPD_Output)) as [[_ ?]|_]; [done|].
      cbn [map]. rewrite Hpred. reflexivity.
  - destruct (decide (_ ∧ _ ≠ EGPD_Output)) as [[? _]|_]; [done|].
    destruct (decide (_ ∧ _ = EGPD_Output)) as [[? _]|_]; [done|]. reflexivity.
Qed.

(** ** Facts of a well-formed node array *)

Lemma graph_ok_NoDup (N : nat) (h : Heap) (c : FFormatterGraph) :
  graph_ok N h c -> NoDup (Nodes c).
Proof. intros (Hnd & _). by apply (NoDup_fmap_1 (λ n, Guid (node h n))). Qed.

Lemma graph_ok_own (N : nat) (h : Heap) (c : FFormatterGraph) (m p : addr) :
  graph_ok N h c -> m ∈ Nodes c -> p ∈ pins_of h m -> OwningNode (pin h p) = m.
Proof.
  intros (_ & _ & Hnodes) Hm Hp. destruct (Hnodes m Hm) as (_ & Hi & Ho & _).
  apply elem_of_app in Hp as [Hp|Hp];
    [by destruct (Hi p Hp) as (_ & _ & ?)|by destruct (Ho p Hp) as (_ & _ & ?)].
Qed.

Lemma graph_ok_pin_unique (N : nat) (h : Heap) (c : FFormatterGraph) (m m' p : addr) :
  graph_ok N h c -> m ∈ Nodes c -> m' ∈ Nodes c ->
  p ∈ pins_of h m -> p ∈ pins_of h m' -> m = m'.
Proof.
  intros Hok Hm Hm' Hp Hp'.
  rewrite <- (graph_ok_own N h c m p Hok Hm Hp). by apply (graph_ok_own N h c).
Qed.

Lemma graph_ok_in_out (N : nat) (h : Heap) (c : FFormatterGraph) (m m' p : addr) :
  graph_ok N h c -> m ∈ Nodes c -> m' ∈ Nodes c ->
  p ∈ InPins (node h m) -> p ∈ OutPins (node h m') -> False.
Proof.
  intros (_ & _ & Hnodes) Hm Hm' Hp Hp'.
  destruct (Hnodes m Hm) as (_ & Hi & _). destruct (Hnodes m' Hm') as (_ & _ & Ho & _).
  destruct (Hi p Hp) as (_ & Hd & _). destruct (Ho p Hp') as (_ & Hd' & _). congruence.
Qed.

Lemma elem_of_out_pairs (h : Heap) (Ns : list addr) (k : addr * addr) :
  k ∈ out_pairs h Ns <-> ∃ n e, n ∈ Ns ∧ e ∈ OutEdges (node h n) ∧ k = edge_key h e.
Proof.
  unfold out_pairs. rewrite list_elem_of_bind. split.
  - intros (n & Hk & Hn). apply list_elem_of_fmap in Hk as (e & -> & He). eauto.
  - intros (n & e & Hn & He & ->). exists n. split; [|done].
    apply list_elem_of_fmap. eauto.
Qed.

Lemma elem_of_in_pairs (h : Heap) (Ns : list addr) (k : addr * addr) :
  k ∈ in_pairs h Ns <-> ∃ n e, n ∈ Ns ∧ e ∈ InEdges (node h n) ∧ k = rev_key h e.
Proof.
  unfold in_pairs. rewrite list_elem_of_bind. split.
  - intros (n & Hk & Hn). apply list_elem_of_fmap in Hk as (e & -> & He). eauto.
  - intros (n & e & Hn & He & ->). exists n. split; [|done].
    apply list_elem_of_fmap. eauto.
Qed.

Lemma remove_keys_sub {A K} `{EqDecision K} (κ : A -> K) (ks : list K) :
  ∀ L, remove_keys κ ks L ⊆ L.
Proof.
  induction ks as [|k ks IH]; intros L; [done|].
  change (remove_keys κ (k :: ks) L)
    with (remove_keys κ ks (RemoveFirst (λ x, bool_decide (κ x = k)) L)).
  etrans; [apply IH|apply RemoveFirst_sub].
Qed.

Lemma map_filter_comm {A B} (f : A -> B) (Q : B -> Prop) `{!∀ y, Decision (Q y)}
    (l : list A) :
  map f (filter (λ x, Q (f x)) l) = filter Q (map f l).
Proof.
  induction l as [|x l IH]; [done|]. cbn [map]. rewrite !filter_cons.
  destruct (decide (Q (f x))); cbn [map]; by rewrite IH.
Qed.

(** ** The two disconnection loops on a graph with paired edges *)

Lemma filter_count_bind_only (Q : addr * addr -> Prop) `{!∀ x, Decision (Q x)}
    (f : addr -> list (addr * addr)) (Ns : list addr) (X : addr) :
  NoDup Ns -> X ∈ Ns -> (∀ Y y, Y ∈ Ns -> Y ≠ X -> y ∈ f Y -> ¬ Q y) ->
  length (filter Q (Ns ≫= f)) = length (filter Q (f X)).
Proof. intros Hnd HX Hno. by rewrite (filter_bind_only Q f Ns X). Qed.

(** The first loop, over the in-edges of [X]: a node of the graph loses
    its out-edges towards [X]. *)
Lemma disconnect_in_edges (N : nat) (h : Heap) (c : FFormatterGraph) (X a : addr) :
  graph_ok N h c -> edges_paired h (Nodes c) -> X ∈ Nodes c -> a ∈ Nodes c ->
  remove_keys (edge_key h)
    (map (rev_key h) (filter (λ e, target h e = a) (InEdges (node h X))))
    (OutEdges (node h a))
  = filter (λ e, To (edge h e) ∉ InPins (node h X)) (OutEdges (node h a)).
Proof.
  intros Hok Hpair HX Ha. pose proof Hok as (_ & _ & Hnodes).
  pose proof (graph_ok_NoDup N h c Hok) as Hnd.
  destruct (Hnodes X HX) as (_ & _ & _ & HXie & _).
  destruct (Hnodes a Ha) as (_ & _ & _ & _ & Haoe).
  rewrite remove_keys_filter.
  - apply filter_ext_elem. intros x Hx. destruct (Haoe x Hx) as (_ & HFx & _).
    split; intros Hn Hc; apply Hn.
    + assert (Hk : edge_key h x ∈ out_pairs h (Nodes c)).
      { apply elem_of_out_pairs. eauto. }
      unfold edges_paired in Hpair. rewrite Hpair in Hk.
      apply elem_of_in_pairs in Hk as (Y & e & HY & He & Hk).
      injection Hk as Hk1 Hk2.
      destruct (Hnodes Y HY) as (_ & _ & _ & HYie & _).
      destruct (HYie e He) as (_ & HFe & _).
      assert (Y = X) as ->.
      { apply (graph_ok_pin_unique N h c Y X (From (edge h e))); [done..| |].
        - apply elem_of_app. by left.
        - apply elem_of_app. left. by rewrite <- Hk2. }
      apply list_elem_of_fmap. exists e. split; [unfold edge_key, rev_key; congruence|].
      apply list_elem_of_filter. split; [|done]. unfold target. rewrite <- Hk1.
      apply (graph_ok_own N h c); [done|done|]. apply elem_of_app. by right.
    + apply list_elem_of_fmap in Hc as (e & Hk & He).
      apply list_elem_of_filter in He as [_ He].
      injection Hk as _ ->. by destruct (HXie e He) as (_ & ? & _).
  - intros k Hk. apply list_elem_of_fmap in Hk as (e0 & -> & He0).
    apply list_elem_of_filter in He0 as [Ht He0].
    destruct (HXie e0 He0) as (_ & HFe0 & _).
    rewrite filter_fmap_length, list_filter_filter.
    rewrite <- (filter_fmap_length (edge_key h)).
    etrans; [apply (filter_bind_le (λ k', k' = rev_key h e0)
                     (λ n, map (edge_key h) (OutEdges (node h n))) (Nodes c) a Ha)|].
    fold (out_pairs h (Nodes c)).
    rewrite (Permutation_length (filter_Permutation (λ k', k' = rev_key h e0) _ _ Hpair)).
    unfold in_pairs. rewrite (filter_count_bind_only _ _ (Nodes c) X Hnd HX).
    + rewrite filter_fmap_length.
      rewrite (filter_ext_elem (λ e, rev_key h e = rev_key h e0)
                 (λ e, rev_key h e = rev_key h e0 ∧ target h e = a)); [done|].
      intros e He. split; [|by intros [? _]]. intros Hk. split; [done|].
      injection Hk as Hk1 Hk2. unfold target in *. by rewrite Hk1.
    + intros Y y HY Hne Hy Heq. apply list_elem_of_fmap in Hy as (e & -> & He).
      injection Heq as Hk1 Hk2.
      destruct (Hnodes Y HY) as (_ & _ & _ & HYie & _).
      destruct (HYie e He) as (_ & HFe & _). apply Hne.
      apply (graph_ok_pin_unique N h c Y X (From (edge h e))); [done..| |].
      * apply elem_of_app. by left.
      * apply elem_of_app. left. by rewrite Hk2.
Qed.

Lemma key_swap (h : Heap) (x y : addr) :
  edge_key h x = rev_key h y <-> rev_key h x = edge_key h y.
Proof. unfold edge_key, rev_key. split; intros [= H1 H2]; by rewrite H1, H2. Qed.

(** The second loop, over the out-edges of [X] that are left: another
    node of the graph loses its in-edges from [X]. *)
Lemma disconnect_out_edges (N : nat) (h : Heap) (c : FFormatterGraph) (X a : addr) :
  graph_ok N h c -> edges_paired h (Nodes c) -> X ∈ Nodes c -> a ∈ Nodes c -> a ≠ X ->
  remove_keys (edge_key h)
    (map (rev_key h)
       (filter (λ e, target h e = a)
          (filter (λ e, To (edge h e) ∉ InPins (node h X)) (OutEdges (node h X)))))
    (InEdges (node h a))
  = filter (λ e, To (edge h e) ∉ OutPins (node h X)) (InEdges (node h a)).
Proof.
  intros Hok Hpair HX Ha HaX. pose proof Hok as (_ & _ & Hnodes).
  pose proof (graph_ok_NoDup N h c Hok) as Hnd.
  destruct (Hnodes X HX) as (_ & _ & _ & _ & HXoe).
  destruct (Hnodes a Ha) as (_ & _ & _ & Haie & _).
  rewrite remove_keys_filter.
  - apply filter_ext_elem. intros x Hx. destruct (Haie x Hx) as (_ & HFx & _).
    split; intros Hn Hc; apply Hn.
    + assert (Hk : rev_key h x ∈ in_pairs h (Nodes c)).
      { apply elem_of_in_pairs. eauto. }
      unfold edges_paired in Hpair. rewrite <- Hpair in Hk.
      apply elem_of_out_pairs in Hk as (Y & e & HY & He & Hk).
      pose proof Hk as Hk'. injection Hk as Hk1 Hk2.
      destruct (Hnodes Y HY) as (_ & _ & _ & _ & HYoe).
      destruct (HYoe e He) as (_ & HFe & _).
      assert (Y = X) as ->.
      { apply (graph_ok_pin_unique N h c Y X (From (edge h e))); [done..| |].
        - apply elem_of_app. by right.
        - apply elem_of_app. right. by rewrite <- Hk1. }
      apply list_elem_of_fmap. exists e. split; [by apply key_swap|].
      apply list_elem_of_filter. split.
      * unfold target. rewrite <- Hk2.
        apply (graph_ok_own N h c); [done|done|]. apply elem_of_app. by left.
      * apply list_elem_of_filter. split; [|done]. intros HToX. apply HaX.
        apply (graph_ok_pin_unique N h c a X (From (edge h x))); [done..| |].
        -- apply elem_of_app. by left.
        -- apply elem_of_app. left. by rewrite Hk2.
    + apply list_elem_of_fmap in Hc as (e & Hk & He).
      apply list_elem_of_filter in He as [_ He]. apply list_elem_of_filter in He as [_ He].
      injection Hk as _ ->. by destruct (HXoe e He) as (_ & ? & _).
  - intros k Hk. apply list_elem_of_fmap in Hk as (e0 & -> & He0).
    apply list_elem_of_filter in He0 as [Ht He0].
    apply list_elem_of_filter in He0 as [HQ0 He0].
    destruct (HXoe e0 He0) as (_ & HFe0 & _).
    rewrite filter_fmap_length, !list_filter_filter.
    rewrite (filter_ext_elem (λ x, edge_key h x = rev_key h e0)
               (λ x, rev_key h x = edge_key h e0))
      by (intros x _; apply key_swap).
    rewrite <- (filter_fmap_length (rev_key h)).
    etrans; [apply (filter_bind_le (λ k', k' = edge_key h e0)
                     (λ n, map (rev_key h) (InEdges (node h n))) (Nodes c) a Ha)|].
    fold (in_pairs h (Nodes c)).
    rewrite <- (Permutation_length (filter_Permutation (λ k', k' = edge_key h e0) _ _ Hpair)).
    unfold out_pairs. rewrite (filter_count_bind_only _ _ (Nodes c) X Hnd HX).
    + rewrite filter_fmap_length.
      rewrite (filter_ext_elem (λ e, edge_key h e = edge_key h e0)
                 (λ e, (rev_key h e = rev_key h e0 ∧ target h e = a) ∧
                       To (edge h e) ∉ InPins (node h X))); [done|].
      intros e He. split.
      * intros Hk. injection Hk as Hk1 Hk2. unfold rev_key, target in *.
        rewrite Hk1, Hk2. done.
      * intros [[Hk _] _]. injection Hk as Hk1 Hk2. unfold edge_key. by rewrite Hk1, Hk2.
    + intros Y y HY Hne Hy Heq. apply list_elem_of_fmap in Hy as (e & -> & He).
      injection Heq as Hk1 Hk2.
      destruct (Hnodes Y HY) as (_ & _ & _ & _ & HYoe).
      destruct (HYoe e He) as (_ & HFe & _). apply Hne.
      apply (graph_ok_pin_unique N h c Y X (From (edge h e))); [done..| |].
      * apply elem_of_app. by right.
      * apply elem_of_app. right. by rewrite Hk1.
Qed.

Lemma filter_and_True {A} (P Q : A -> Prop) `{!∀ x, Decision (P x)} `{!∀ x, Decision (Q x)}
    (l : list A) :
  (∀ x, x ∈ l -> Q x) -> filter (λ x, P x ∧ Q x) l = filter P l.
Proof. intros HQ. apply filter_ext_elem. intros x Hx. specialize (HQ x Hx). tauto. Qed.

Lemma filter_and_False {A} (P Q : A -> Prop) `{!∀ x, Decision (P x)} `{!∀ x, Decision (Q x)}
    (l : list A) :
  (∀ x, x ∈ l -> ¬ Q x) -> filter (λ x, P x ∧ Q x) l = [].
Proof.
  intros HQ. induction l as [|x l IH]; [done|].
  rewrite filter_cons_False by (intros [_ ?]; by apply (HQ x (list_elem_of_here _ _))).
  apply IH. intros y Hy. apply HQ. by apply list_elem_of_further.
Qed.

Lemma filter_none {A} (P : A -> Prop) `{!∀ x, Decision (P x)} (l : list A) :
  (∀ x, x ∈ l -> ¬ P x) -> filter P l = [].
Proof.
  intros HP. induction l as [|x l IH]; [done|].
  rewrite filter_cons_False by (by apply (HP x (list_elem_of_here _ _))).
  apply IH. intros y Hy. apply HP. by apply list_elem_of_further.
Qed.

(** The two disconnection loops of [RemoveNode] for the node [X] of a
    well-formed graph with paired edges: the other nodes of the graph lose
    their edges from and to [X], and nothing else changes but the edge
    arrays of [X]. *)
Lemma RemoveNode_phases (N : nat) (h : Heap) (c : FFormatterGraph) (X : addr)
    (h1 h2 : Heap) :
  h1 = RemoveNode_disconnect h (InEdges (node h X)) ->
  h2 = RemoveNode_disconnect h1 (OutEdges (node h1 X)) ->
  graph_ok N h c -> edges_paired h (Nodes c) -> X ∈ Nodes c ->
  next h2 = next h ∧ pin h2 = pin h ∧ edge h2 = edge h ∧ graph h2 = graph h ∧
  (∀ a, a ∉ Nodes c -> node h2 a = node h a) ∧
  (∀ a, a ∈ Nodes c -> a ≠ X ->
     node h2 a =
     with_InEdges (filter (λ e, To (edge h e) ∉ OutPins (node h X)) (InEdges (node h a)))
       (with_OutEdges (filter (λ e, To (edge h e) ∉ InPins (node h X))
                              (OutEdges (node h a)))
          (node h a))) ∧
  ∃ ie oe, node h2 X = with_InEdges ie (with_OutEdges oe (node h X)) ∧
           ie ⊆ InEdges (node h X) ∧ oe ⊆ OutEdges (node h X).
Proof.
  intros E1 E2 Hok Hpair HX. pose proof Hok as (_ & _ & Hnodes).
  destruct (Hnodes X HX) as (_ & _ & _ & HXie & HXoe).
  assert (Hdir : ∀ m p, m ∈ Nodes c ->
            (p ∈ InPins (node h m) -> Direction (pin h p) = EGPD_Input) ∧
            (p ∈ OutPins (node h m) -> Direction (pin h p) = EGPD_Output)).
  { intros m p Hm. destruct (Hnodes m Hm) as (_ & Hi & Ho & _).
    split; intros Hp; [by destruct (Hi p Hp) as (_ & ? & _)|by destruct (Ho p Hp) as (_ & ? & _)]. }
  (* the first loop *)
  pose proof (RemoveNode_disconnect_exact (InEdges (node h X)) h) as P1.
  rewrite <- E1 in P1. destruct P1 as (Hn1 & Hp1 & He1 & Hg1 & Hnode1).
  assert (Hout1 : ∀ e, e ∈ InEdges (node h X) ->
            Direction (pin h (To (edge h e))) = EGPD_Output ∧ target h e ∈ Nodes c).
  { intros e He. destruct (HXie e He) as (_ & _ & m & Hm & HTo).
    split; [by apply (Hdir m)|]. unfold target.
    rewrite (graph_ok_own N h c m _ Hok Hm); [done|]. apply elem_of_app. by right. }
  assert (A1 : ∀ a, node h1 a =
            with_InEdges (InEdges (node h a))
              (with_OutEdges
                 (remove_keys (edge_key h)
                    (map (rev_key h) (filter (λ e, target h e = a) (InEdges (node h X))))
                    (OutEdges (node h a)))
                 (node h a))).
  { intros a. rewrite Hnode1.
    rewrite (filter_and_False (λ e, target h e = a)
               (λ e, Direction (pin h (To (edge h e))) ≠ EGPD_Output))
      by (intros e He Hd; by destruct (Hout1 e He)).
    rewrite (filter_and_True (λ e, target h e = a)
               (λ e, Direction (pin h (To (edge h e))) = EGPD_Output))
      by (intros e He; by destruct (Hout1 e He)).
    reflexivity. }
  assert (B1 : ∀ a, a ∈ Nodes c ->
            node h1 a = with_InEdges (InEdges (node h a))
              (with_OutEdges (filter (λ e, To (edge h e) ∉ InPins (node h X))
                                     (OutEdges (node h a))) (node h a))).
  { intros a Ha. by rewrite A1, (disconnect_in_edges N h c X a). }
  assert (C1 : ∀ a, a ∉ Nodes c -> node h1 a = node h a).
  { intros a Ha. rewrite A1.
    rewrite (filter_none (λ e, target h e = a))
      by (intros e He Ht; apply Ha; rewrite <- Ht; by destruct (Hout1 e He)).
    cbn [map remove_keys fold_left]. apply with_edges_same. }
  (* the second loop *)
  pose proof (RemoveNode_disconnect_exact (OutEdges (node h1 X)) h1) as P2.
  rewrite <- E2 in P2. destruct P2 as (Hn2 & Hp2 & He2 & Hg2 & Hnode2).
  unfold target in Hnode2. rewrite Hp1, He1 in Hnode2. fold (target h) in Hnode2.
  assert (EX1 : OutEdges (node h1 X)
                = filter (λ e, To (edge h e) ∉ InPins (node h X)) (OutEdges (node h X))).
  { by rewrite (B1 X HX). }
  rewrite EX1 in Hnode2.
  assert (Hin2 : ∀ e, e ∈ filter (λ e, To (edge h e) ∉ InPins (node h X))
                                  (OutEdges (node h X)) ->
            Direction (pin h (To (edge h e))) ≠ EGPD_Output ∧ target h e ∈ Nodes c).
  { intros e He. apply list_elem_of_filter in He as [_ He].
    destruct (HXoe e He) as (_ & _ & m & Hm & HTo).
    split; [by rewrite (proj1 (Hdir m _ Hm) HTo)|]. unfold target.
    rewrite (graph_ok_own N h c m _ Hok Hm); [done|]. apply elem_of_app. by left. }
  assert (A2 : ∀ a, node h2 a =
            with_InEdges
              (remove_keys (edge_key h)
                 (map (rev_key h)
                    (filter (λ e, target h e = a)
                       (filter (λ e, To (edge h e) ∉ InPins (node h X))
                               (OutEdges (node h X)))))
                 (InEdges (node h1 a)))
              (with_OutEdges (OutEdges (node h1 a)) (node h1 a))).
  { intros a. rewrite Hnode2. unfold edge_key, rev_key. rewrite He1.
    fold (edge_key h). fold (rev_key h).
    rewrite (filter_and_True (λ e, target h e = a)
               (λ e, Direction (pin h (To (edge h e))) ≠ EGPD_Output))
      by (intros e He; by destruct (Hin2 e He)).
    rewrite (filter_and_False (λ e, target h e = a)
               (λ e, Direction (pin h (To (edge h e))) = EGPD_Output))
      by (intros e He Hd; by destruct (Hin2 e He)).
    reflexivity. }
  rewrite Hn2, Hn1, Hp2, Hp1, He2, He1, Hg2, Hg1. do 4 (split; [done|]).
  split; [|split].
  - intros a Ha. rewrite A2.
    rewrite (filter_none (λ e, target h e = a))
      by (intros e He Ht; apply Ha; rewrite <- Ht; by destruct (Hin2 e He)).
    cbn [map remove_keys fold_left]. by rewrite with_edges_same, C1.
  - intros a Ha HaX. rewrite A2, (B1 a Ha). cbn [InEdges OutEdges with_InEdges with_OutEdges].
    by rewrite (disconnect_out_edges N h c X a).
  - eexists _, _. split; [|split].
    + rewrite A2, (B1 X HX). cbn [InEdges OutEdges with_InEdges with_OutEdges]. reflexivity.
    + apply remove_keys_sub.
    + intros e He. by apply list_elem_of_filter in He as [_ He].
Qed.

(** Removing a node from a graph with paired edges, together with the
    edges from and to it at the other nodes, leaves the edges paired. *)
Lemma paired_remove (N : nat) (h : Heap) (c : FFormatterGraph) (X : addr) (h' : Heap) :
  graph_ok N h c -> edges_paired h (Nodes c) -> X ∈ Nodes c ->
  (∀ a, a ∈ Nodes c -> a ≠ X ->
     InEdges (node h' a)
       = filter (λ e, To (edge h e) ∉ OutPins (node h X)) (InEdges (node h a)) ∧
     OutEdges (node h' a)
       = filter (λ e, To (edge h e) ∉ InPins (node h X)) (OutEdges (node h a)) ∧
     ∀ e, e ∈ InEdges (node h a) ++ OutEdges (node h a) -> edge h' e = edge h e) ->
  edges_paired h' (RemoveAll X (Nodes c)).
Proof.
  intros Hok Hpair HX Hrest. pose proof Hok as (_ & _ & Hnodes).
  set (QA := λ k : addr * addr, k.2 ∉ InPins (node h X)).
  set (QB := λ k : addr * addr, k.1 ∉ OutPins (node h X)).
  assert (Hmem : ∀ n, n ∈ RemoveAll X (Nodes c) -> n ∈ Nodes c ∧ n ≠ X).
  { intros n Hn. apply list_elem_of_filter in Hn. tauto. }
  assert (Hout : out_pairs h' (RemoveAll X (Nodes c))
                 = filter QA (filter QB (out_pairs h (Nodes c)))).
  { unfold out_pairs. rewrite !filter_bind.
    transitivity (RemoveAll X (Nodes c) ≫=
                    λ n, filter QA (filter QB (map (edge_key h) (OutEdges (node h n)))));
      [|apply (bind_filter_nil (λ y, y ≠ X))].
    - apply bind_ext_elem. intros n Hn. destruct (Hmem n Hn) as [HnN HnX].
      destruct (Hrest n HnN HnX) as (_ & -> & Hedge).
      destruct (Hnodes n HnN) as (_ & _ & _ & _ & Hnoe).
      rewrite (filter_ext_elem QB (λ _, True)
                 (map (edge_key h) (OutEdges (node h n)))).
      + assert (Hall : ∀ l : list (addr * addr), filter (λ _, True) l = l).
        { induction l as [|x l IH]; [done|]. by rewrite filter_cons_True, IH. }
        rewrite Hall, <- (map_filter_comm (edge_key h) QA). apply map_ext_in. intros e He. apply list_elem_of_In in He.
        apply list_elem_of_filter in He as [_ He]. unfold edge_key.
        rewrite Hedge; [done|]. apply elem_of_app. by right.
      + intros k Hk. split; [done|]. intros _.
        apply list_elem_of_fmap in Hk as (e & -> & He). unfold QB, edge_key. cbn [fst].
        destruct (Hnoe e He) as (_ & HF & _). intros HFX. apply HnX.
        apply (graph_ok_pin_unique N h c n X (From (edge h e))); [done..| |];
          apply elem_of_app; by right.
    - intros n Hn HnX. assert (n = X) as -> by (destruct (decide (n = X)); [done|tauto]).
      destruct (Hnodes X HX) as (_ & _ & _ & _ & HXoe).
      apply filter_none. intros k Hk HQ. apply list_elem_of_filter in Hk as [HQB Hk].
      apply list_elem_of_fmap in Hk as (e & -> & He). apply HQB. unfold edge_key. cbn [fst].
      by destruct (HXoe e He) as (_ & ? & _). }
  assert (Hin : in_pairs h' (RemoveAll X (Nodes c))
                = filter QB (filter QA (in_pairs h (Nodes c)))).
  { unfold in_pairs. rewrite !filter_bind.
    transitivity (RemoveAll X (Nodes c) ≫=
                    λ n, filter QB (filter QA (map (rev_key h) (InEdges (node h n)))));
      [|apply (bind_filter_nil (λ y, y ≠ X))].
    - apply bind_ext_elem. intros n Hn. destruct (Hmem n Hn) as [HnN HnX].
      destruct (Hrest n HnN HnX) as (-> & _ & Hedge).
      destruct (Hnodes n HnN) as (_ & _ & _ & Hnie & _).
      rewrite (filter_ext_elem QA (λ _, True)
                 (map (rev_key h) (InEdges (node h n)))).
      + assert (Hall : ∀ l : list (addr * addr), filter (λ _, True) l = l).
        { induction l as [|x l IH]; [done|]. by rewrite filter_cons_True, IH. }
        rewrite Hall, <- (map_filter_comm (rev_key h) QB). apply map_ext_in. intros e He. apply list_elem_of_In in He.
        apply list_elem_of_filter in He as [_ He]. unfold rev_key.
        rewrite Hedge; [done|]. apply elem_of_app. by left.
      + intros k Hk. split; [done|]. intros _.
        apply list_elem_of_fmap in Hk as (e & -> & He). unfold QA, rev_key. cbn [snd].
        destruct (Hnie e He) as (_ & HF & _). intros HFX. apply HnX.
        apply (graph_ok_pin_unique N h c n X (From (edge h e))); [done..| |];
          apply elem_of_app; by left.
    - intros n Hn HnX. assert (n = X) as -> by (destruct (decide (n = X)); [done|tauto]).
      destruct (Hnodes X HX) as (_ & _ & _ & HXie & _).
      apply filter_none. intros k Hk HQ. apply list_elem_of_filter in Hk as [HQA Hk].
      apply list_elem_of_fmap in Hk as (e & -> & He). apply HQA. unfold rev_key. cbn [snd].
      by destruct (HXie e He) as (_ & ? & _). }
  unfold edges_paired. rewrite Hout, Hin, !list_filter_filter.
  rewrite (list_filter_iff (λ a, QB a ∧ QA a) (λ a, QA a ∧ QB a)) by (intros a; tauto).
  by apply filter_Permutation.
Qed.

Lemma node_kept_fields (h h' : Heap) (X a : addr) :
  node_kept h h' X a ->
  InEdges (node h' a)
    = filter (λ e, To (edge h e) ∉ OutPins (node h X)) (InEdges (node h a)) ∧
  OutEdges (node h' a)
    = filter (λ e, To (edge h e) ∉ InPins (node h X)) (OutEdges (node h a)) ∧
  InPins (node h' a) = InPins (node h a) ∧ OutPins (node h' a) = OutPins (node h a) ∧
  SubGraph (node h' a) = SubGraph (node h a) ∧ Guid (node h' a) = Guid (node h a).
Proof. intros (-> & _). apply with_edges_fields. Qed.

(** The graph without the node [X] is well formed when the nodes it keeps
    are as [node_kept] says. *)
Lemma graph_ok_remove (N : nat) (h : Heap) (c : FFormatterGraph) (X : addr) (h' : Heap)
    (c' : FFormatterGraph) :
  graph_ok N h c -> Nodes c' = RemoveAll X (Nodes c) ->
  (∀ a, a ∈ Nodes c -> a ≠ X -> node_kept h h' X a) ->
  graph_ok N h' c'.
Proof.
  intros Hok HN' Hkept. pose proof Hok as (Hnd1 & Hnd2 & Hnodes).
  assert (Hmem : ∀ n, n ∈ Nodes c' -> n ∈ Nodes c ∧ n ≠ X).
  { intros n Hn. rewrite HN' in Hn. apply list_elem_of_filter in Hn. tauto. }
  assert (Hpins : ∀ n, n ∈ Nodes c' -> pins_of h' n = pins_of h n).
  { intros n Hn. destruct (Hmem n Hn) as [HnN HnX].
    destruct (node_kept_fields h h' X n (Hkept n HnN HnX)) as (_ & _ & Ei & Eo & _).
    unfold pins_of. by rewrite Ei, Eo. }
  split; [|split].
  - rewrite (map_ext_in _ (λ n, Guid (node h n))).
    + rewrite HN'. apply (sublist_NoDup _ (map (λ n, Guid (node h n)) (Nodes c))); [done|].
      apply (fmap_sublist (λ n, Guid (node h n))), sublist_filter.
    + intros n Hn. apply list_elem_of_In in Hn. destruct (Hmem n Hn) as [HnN HnX].
      by destruct (node_kept_fields h h' X n (Hkept n HnN HnX)) as (_ & _ & _ & _ & _ & ?).
  - assert (Hall : all_pins h' (Nodes c') = all_pins h (Nodes c')).
    { unfold all_pins. by apply bind_ext_elem. }
    rewrite Hall. rewrite (map_ext_in _ (λ p, PinGuid (pin h p))).
    + apply (sublist_NoDup _ (map (λ p, PinGuid (pin h p)) (all_pins h (Nodes c)))); [done|].
      apply (fmap_sublist (λ p, PinGuid (pin h p))). unfold all_pins. rewrite HN'.
      apply bind_sublist, sublist_filter.
    + intros p Hp. apply list_elem_of_In, list_elem_of_bind in Hp as (n & Hp & Hn).
      destruct (Hmem n Hn) as [HnN HnX].
      destruct (Hkept n HnN HnX) as (_ & Hpin & _). by rewrite Hpin.
  - intros n Hn. destruct (Hmem n Hn) as [HnN HnX].
    destruct (Hkept n HnN HnX) as (Hnode & Hpin & Hedge).
    destruct (node_kept_fields h h' X n (Hkept n HnN HnX)) as (Eie & Eoe & Eip & Eop & _).
    destruct (Hnodes n HnN) as (Hr & Hip & Hop & Hie & Hoe).
    rewrite Eie, Eoe, Eip, Eop. split; [done|]. split; [|split; [|split]].
    + intros p Hp. rewrite Hpin by (apply elem_of_app; by left). by apply Hip.
    + intros p Hp. rewrite Hpin by (apply elem_of_app; by right). by apply Hop.
    + intros e He. apply list_elem_of_filter in He as [HQ He].
      rewrite Hedge by (apply elem_of_app; by left).
      destruct (Hie e He) as (? & ? & m & Hm & HTo). split; [done|]. split; [done|].
      assert (HmX : m ≠ X) by (intros ->; done).
      exists m. split; [rewrite HN'; by apply list_elem_of_filter|].
      by destruct (node_kept_fields h h' X m (Hkept m Hm HmX)) as (_ & _ & _ & -> & _).
    + intros e He. apply list_elem_of_filter in He as [HQ He].
      rewrite Hedge by (apply elem_of_app; by right).
      destruct (Hoe e He) as (? & ? & m & Hm & HTo). split; [done|]. split; [done|].
      assert (HmX : m ≠ X) by (intros ->; done).
      exists m. split; [rewrite HN'; by apply list_elem_of_filter|].
      by destruct (node_kept_fields h h' X m (Hkept m Hm HmX)) as (_ & _ & -> & _).
Qed.

(** ** RemoveNode: what is released and what is kept *)

Lemma fold_free_edge (l : list addr) :
  ∀ h, next (fold_left free_edge l h) = next h ∧
       node (fold_left free_edge l h) = node h ∧
       pin (fold_left free_edge l h) = pin h ∧
       graph (fold_left free_edge l h) = graph h ∧
       ∀ a, edge (fold_left free_edge l h) a
            = if decide (a ∈ l) then null_edge else edge h a.
Proof.
  induction l as [|x l IH]; intros h; cbn [fold_left].
  { do 4 (split; [done|]). intros a. by rewrite decide_False by apply not_elem_of_nil. }
  destruct (IH (free_edge h x)) as (-> & -> & -> & -> & Hedge). do 4 (split; [done|]).
  intros a. rewrite Hedge, edge_free_edge. destruct (decide (a ∈ l)) as [Hin|Hin].
  - by rewrite decide_True by (by apply list_elem_of_further).
  - destruct (decide (a = x)) as [->|Hne].
    + by rewrite decide_True by apply list_elem_of_here.
    + rewrite decide_False; [done|]. intros Hc. apply elem_of_cons in Hc as [?|?]; done.
Qed.

Lemma fold_free_pin (l : list addr) :
  ∀ h, next (fold_left free_pin l h) = next h ∧
       node (fold_left free_pin l h) = node h ∧
       edge (fold_left free_pin l h) = edge h ∧
       graph (fold_left free_pin l h) = graph h ∧
       ∀ a, pin (fold_left free_pin l h) a
            = if decide (a ∈ l) then null_pin else pin h a.
Proof.
  induction l as [|x l IH]; intros h; cbn [fold_left].
  { do 4 (split; [done|]). intros a. by rewrite decide_False by apply not_elem_of_nil. }
  destruct (IH (free_pin h x)) as (-> & -> & -> & -> & Hpin). do 4 (split; [done|]).
  intros a. rewrite Hpin, pin_free_pin. destruct (decide (a ∈ l)) as [Hin|Hin].
  - by rewrite decide_True by (by apply list_elem_of_further).
  - destruct (decide (a = x)) as [->|Hne].
    + by rewrite decide_True by apply list_elem_of_here.
    + rewrite decide_False; [done|]. intros Hc. apply elem_of_cons in Hc as [?|?]; done.
Qed.

(** The destructor of the node [X] whose edge arrays are [ie] and [oe],
    when its sub-graph, if it has one, lies in the addresses from [lo] to
    [hi]: the node, its edges and its pins are released, and besides them
    objects of that range only. *)
Lemma FFormatterNode_delete_effect (f lo hi : nat) (h : Heap) (X : addr) :
  (∀ s, SubGraph (node h X) = Some s ->
        in_range lo hi s ∧ graph_in f lo hi h (graph h s)) ->
  ∃ h', FFormatterNode_delete (FFormatterGraph_delete f) h X = Some h' ∧
    next h' = next h ∧ node h' X = null_node ∧
    (∀ a, a ≠ X -> ¬ in_range lo hi a -> node h' a = node h a) ∧
    (∀ p, p ∉ pins_of h X -> ¬ in_range lo hi p -> pin h' p = pin h p) ∧
    (∀ e, e ∉ InEdges (node h X) ++ OutEdges (node h X) -> ¬ in_range lo hi e ->
          edge h' e = edge h e) ∧
    (∀ s, ¬ in_range lo hi s -> graph h' s = graph h s).
Proof.
  intros Hsub. unfold FFormatterNode_delete.
  destruct (fold_free_edge (InEdges (node h X)) h) as (N1 & D1 & P1 & G1 & E1).
  set (h1 := fold_left free_edge (InEdges (node h X)) h) in *.
  destruct (fold_free_edge (OutEdges (node h1 X)) h1) as (N2 & D2 & P2 & G2 & E2).
  set (h2 := fold_left free_edge (OutEdges (node h1 X)) h1) in *.
  destruct (fold_free_pin (InPins (node h2 X)) h2) as (N3 & D3 & E3 & G3 & P3).
  set (h3 := fold_left free_pin (InPins (node h2 X)) h2) in *.
  destruct (fold_free_pin (OutPins (node h3 X)) h3) as (N4 & D4 & E4 & G4 & P4).
  set (h4 := fold_left free_pin (OutPins (node h3 X)) h3) in *.
  assert (Hnode4 : node h4 = node h) by (by rewrite D4, D3, D2, D1).
  assert (Hgraph4 : graph h4 = graph h) by (by rewrite G4, G3, G2, G1).
  assert (Hpin4 : ∀ p, p ∉ pins_of h X -> pin h4 p = pin h p).
  { intros p Hp. rewrite P4, D3, D2, D1.
    rewrite decide_False by (intros Hc; apply Hp, elem_of_app; by right).
    rewrite P3, D2, D1.
    rewrite decide_False by (intros Hc; apply Hp, elem_of_app; by left).
    by rewrite P2, P1. }
  assert (Hedge4 : ∀ e, e ∉ InEdges (node h X) ++ OutEdges (node h X) ->
                        edge h4 e = edge h e).
  { intros e He. rewrite E4, E3, E2, D1.
    rewrite decide_False by (intros Hc; apply He, elem_of_app; by right).
    rewrite E1. by rewrite decide_False by (intros Hc; apply He, elem_of_app; by left). }
  rewrite Hnode4.
  destruct (SubGraph (node h X)) as [s|] eqn:Es.
  - destruct (Hsub s eq_refl) as [Hsr Hsg].
    assert (Hg4 : graph_in f lo hi h4 (graph h4 s)).
    { rewrite Hgraph4. apply (graph_in_same_on f lo hi h); [|done].
      intros a _. by rewrite Hnode4, Hgraph4. }
    destruct (FFormatterGraph_delete_spec f lo hi h4 s Hsr Hg4) as (h5 & Hd & [N5 S5]).
    rewrite Hd. cbn [mbind option_bind]. exists (free_node h5 X).
    split; [done|]. split; [cbn; congruence|].
    split; [by rewrite node_free_node, decide_True|].
    split; [|split; [|split]].
    + intros a Ha Hr. rewrite node_free_node, decide_False by done.
      destruct (S5 a) as ([->|[? _]] & _); [by rewrite Hnode4|done].
    + intros p Hp Hr. change (pin (free_node h5 X) p) with (pin h5 p).
      destruct (S5 p) as (_ & [->|[? _]] & _); [by apply Hpin4|done].
    + intros e He Hr. change (edge (free_node h5 X) e) with (edge h5 e).
      destruct (S5 e) as (_ & _ & [->|[? _]] & _); [by apply Hedge4|done].
    + intros a Hr. change (graph (free_node h5 X) a) with (graph h5 a).
      destruct (S5 a) as (_ & _ & _ & [->|[? _]]); [by rewrite Hgraph4|done].
  - cbn [mbind option_bind]. exists (free_node h4 X).
    split; [done|]. split; [cbn; congruence|].
    split; [by rewrite node_free_node, decide_True|].
    split; [|split; [|split]].
    + intros a Ha Hr. by rewrite node_free_node, decide_False, Hnode4.
    + intros p Hp Hr. change (pin (free_node h4 X) p) with (pin h4 p). by apply Hpin4.
    + intros e He Hr. change (edge (free_node h4 X) e) with (edge h4 e). by apply Hedge4.
    + intros a Hr. change (graph (free_node h4 X) a) with (graph h4 a). by rewrite Hgraph4.
Qed.

Lemma RemoveNode_kept_staged (fuel lo hi N : nat) (h : Heap) (c : FFormatterGraph)
    (X : addr) (h1 h2 : Heap) :
  h1 = RemoveNode_disconnect h (InEdges (node h X)) ->
  h2 = RemoveNode_disconnect h1 (OutEdges (node h1 X)) ->
  graph_ok N h c -> edges_paired h (Nodes c) -> X ∈ Nodes c ->
  (∀ s, SubGraph (node h X) = Some s ->
        in_range lo hi s ∧ graph_in fuel lo hi h (graph h s)) ->
  (∀ a, in_range lo hi a -> a ∉ Nodes c) ->
  ∃ h' c', RemoveNode fuel h c X = Some (h', c') ∧
    Nodes c' = RemoveAll X (Nodes c) ∧ IsolatedGraphs c' = IsolatedGraphs c ∧
    next h' = next h ∧ node h' X = null_node ∧
    (∀ a, a ∈ Nodes c -> a ≠ X ->
       node h' a =
       with_InEdges (filter (λ e, To (edge h e) ∉ OutPins (node h X)) (InEdges (node h a)))
         (with_OutEdges (filter (λ e, To (edge h e) ∉ InPins (node h X))
                                (OutEdges (node h a)))
            (node h a))) ∧
    (∀ a, a ∉ Nodes c -> ¬ in_range lo hi a -> node h' a = node h a) ∧
    (∀ p, p ∉ pins_of h X -> ¬ in_range lo hi p -> pin h' p = pin h p) ∧
    (∀ e, e ∉ InEdges (node h X) ++ OutEdges (node h X) -> ¬ in_range lo hi e ->
          edge h' e = edge h e) ∧
    (∀ s, ¬ in_range lo hi s -> graph h' s = graph h s).
Proof.
  intros E1 E2 Hok Hpair HX Hsub Havoid.
  destruct (RemoveNode_stages fuel h c X h1 h2 E1 E2) as (c' & HN' & HI' & ->).
  destruct (RemoveNode_phases N h c X h1 h2 E1 E2 Hok Hpair HX)
    as (Hn2 & Hp2 & He2 & Hg2 & Hout & Hkept & ie & oe & HX2 & Hie & Hoe).
  destruct (with_edges_fields ie oe (node h X)) as (F1 & F2 & F3 & F4 & F5 & _).
  rewrite <- HX2 in F1, F2, F3, F4, F5.
  destruct (FFormatterNode_delete_effect fuel lo hi h2 X)
    as (h' & Hdel & Hn' & HnullX & Hnode' & Hpin' & Hedge' & Hgraph').
  { intros s Hs. rewrite F5 in Hs. destruct (Hsub s Hs) as [Hsr Hsg]. split; [done|].
    rewrite Hg2. apply (graph_in_same_on fuel lo hi h); [|done].
    intros a Ha. rewrite Hg2. split; [|done]. apply Hout. by apply Havoid. }
  assert (HXr : ¬ in_range lo hi X) by (intros Hr; by apply (Havoid X Hr)).
  exists h', c'. rewrite Hdel. cbn [mbind option_bind].
  split; [done|]. split; [done|]. split; [done|]. split; [congruence|]. split; [done|].
  split; [|split; [|split; [|split]]].
  - intros a Ha HaX. rewrite Hnode'; [by apply Hkept|done|].
    intros Hr. by apply (Havoid a Hr).
  - intros a Ha Hr. rewrite Hnode'; [by apply Hout|by intros ->|done].
  - intros p Hp Hr. rewrite Hpin', Hp2; [done| |done].
    unfold pins_of. by rewrite F3, F4.
  - intros e He Hr. rewrite Hedge', He2; [done| |done].
    rewrite F1, F2. intros Hc. apply He. apply elem_of_app in Hc as [Hc|Hc];
      apply elem_of_app; [left; by apply Hie|right; by apply Hoe].
  - intros s Hr. by rewrite Hgraph', Hg2.
Qed.

Lemma graph_ok_edges_disjoint (N : nat) (h : Heap) (c : FFormatterGraph) (a X e : addr) :
  graph_ok N h c -> a ∈ Nodes c -> X ∈ Nodes c -> a ≠ X ->
  e ∈ InEdges (node h a) ++ OutEdges (node h a) ->
  e ∉ InEdges (node h X) ++ OutEdges (node h X).
Proof.
  intros Hok Ha HX Hne He Hc. pose proof Hok as (_ & _ & Hnodes).
  destruct (Hnodes a Ha) as (_ & _ & _ & Haie & Haoe).
  destruct (Hnodes X HX) as (_ & _ & _ & HXie & HXoe).
  apply elem_of_app in He as [He|He]; apply elem_of_app in Hc as [Hc|Hc].
  - destruct (Haie e He) as (_ & H1 & _). destruct (HXie e Hc) as (_ & H2 & _).
    apply Hne. apply (graph_ok_pin_unique N h c a X (From (edge h e))); [done..| |];
      apply elem_of_app; by left.
  - destruct (Haie e He) as (_ & H1 & _). destruct (HXoe e Hc) as (_ & H2 & _).
    by apply (graph_ok_in_out N h c a X (From (edge h e))).
  - destruct (Haoe e He) as (_ & H1 & _). destruct (HXie e Hc) as (_ & H2 & _).
    by apply (graph_ok_in_out N h c X a (From (edge h e))).
  - destruct (Haoe e He) as (_ & H1 & _). destruct (HXoe e Hc) as (_ & H2 & _).
    apply Hne. apply (graph_ok_pin_unique N h c a X (From (edge h e))); [done..| |];
      apply elem_of_app; by right.
Qed.

Lemma graph_ok_pins_disjoint (N : nat) (h : Heap) (c : FFormatterGraph) (a X p : addr) :
  graph_ok N h c -> a ∈ Nodes c -> X ∈ Nodes c -> a ≠ X ->
  p ∈ pins_of h a -> p ∉ pins_of h X.
Proof.
  intros Hok Ha HX Hne Hp Hc. apply Hne. by apply (graph_ok_pin_unique N h c a X p).
Qed.

(** X10.  [RemoveNode] on a node without sub-graph of a well-formed graph
    whose edges are recorded at both ends returns; the node is released
    and leaves the node array; every other node keeps its pins and loses
    exactly its edges from and to the removed node; the graph that is left
    is well formed and its edges are again recorded at both ends.  The
    edge objects taken out of the arrays of the other nodes are not
    released: they stay in the store as they were. *)
Theorem RemoveNode_paired (fuel N : nat) (h : Heap) (c : FFormatterGraph) (X : addr) :
  graph_ok N h c -> edges_paired h (Nodes c) -> X ∈ Nodes c ->
  SubGraph (node h X) = None ->
  ∃ h' c', RemoveNode fuel h c X = Some (h', c') ∧
    Nodes c' = RemoveAll X (Nodes c) ∧ node h' X = null_node ∧
    graph_ok N h' c' ∧ edges_paired h' (Nodes c') ∧
    ∀ a, a ∈ Nodes c' -> node_kept h h' X a.
Proof.
  intros Hok Hpair HX Hsub.
  destruct (RemoveNode_kept_staged fuel 0 0 N h c X _ _ eq_refl eq_refl Hok Hpair HX)
    as (h' & c' & Hrm & HN' & _ & _ & HnullX & Hnode & _ & Hpin & Hedge & _).
  { intros s Hs. by rewrite Hsub in Hs. }
  { intros a [? ?]. lia. }
  assert (Hno : ∀ a, ¬ in_range 0 0 a) by (intros a [? ?]; lia).
  assert (Hkept : ∀ a, a ∈ Nodes c -> a ≠ X -> node_kept h h' X a).
  { intros a Ha HaX. split; [by apply Hnode|]. split.
    - intros p Hp. apply Hpin; [|done]. by apply (graph_ok_pins_disjoint N h c a X).
    - intros e He. apply Hedge; [|done]. by apply (graph_ok_edges_disjoint N h c a X). }
  exists h', c'. split; [done|]. split; [done|]. split; [done|].
  split; [by apply (graph_ok_remove N h c X h' c')|]. split.
  - rewrite HN'. apply (paired_remove N h c X h'); [done..|].
    intros a Ha HaX. destruct (Hkept a Ha HaX) as (_ & _ & Hed).
    destruct (node_kept_fields h h' X a (Hkept a Ha HaX)) as (Ei & Eo & _). done.
  - intros a Ha. rewrite HN' in Ha. apply list_elem_of_filter in Ha as [HaX Ha].
    by apply Hkept.
Qed.

Lemma RemoveNode_paired_witness :
  ∃ h' c', RemoveNode 1 diamond4.1 diamond4.2 4 = Some (h', c') ∧
    Nodes c' = RemoveAll 4 (Nodes diamond4.2) ∧ node h' 4 = null_node ∧
    graph_ok (next diamond4.1) h' c' ∧ edges_paired h' (Nodes c') ∧
    ∀ a, a ∈ Nodes c' -> node_kept diamond4.1 h' 4 a.
Proof.
  apply (RemoveNode_paired 1 (next diamond4.1) diamond4.1 diamond4.2 4).
  - apply graph_okd_ok.
    apply (bool_decide_unpack (graph_okd (next diamond4.1) diamond4.1 diamond4.2)).
    vm_compute. exact I.
  - apply permb_sound. vm_compute. reflexivity.
  - assert (E : Nodes diamond4.2 = [1; 4; 7; 10]) by (vm_compute; reflexivity).
    rewrite E. apply list_elem_of_further, list_elem_of_here.
  - by vm_compute.
Defined.

(** ** FindMedianNode on a graph with paired edges *)

Lemma out_pairs_length_lt (h : Heap) (Ns : list addr) :
  Ns ≠ [] -> (∀ n, n ∈ Ns -> (degree_diff h n < 0)%Z) ->
  length (out_pairs h Ns) < length (in_pairs h Ns).
Proof.
  unfold out_pairs, in_pairs, degree_diff, Num.
  induction Ns as [|n Ns IH]; intros Hne Hneg; [done|].
  rewrite !bind_cons, !length_app, !length_map.
  pose proof (Hneg n (list_elem_of_here _ _)) as Hn.
  destruct Ns as [|m Ns']; [cbn; lia|].
  assert (Hrest : length ((m :: Ns') ≫= λ n, map (edge_key h) (OutEdges (node h n)))
                  < length ((m :: Ns') ≫= λ n, map (rev_key h) (InEdges (node h n)))).
  { apply IH; [done|]. intros k Hk. apply Hneg. by apply list_elem_of_further. }
  lia.
Qed.

(** X1.  In a non-empty graph whose edges are recorded at both ends, each
    link once in the out-edges of its tail and once in the in-edges of its
    head, [FindMedianNode] does not return null: the degree differences sum
    to 0, so some node has as many out-edges as in-edges or more, and the
    node returned is a node of the graph with such a difference. *)
Theorem FindMedianNode_paired (h : Heap) (g : FFormatterGraph) :
  edges_paired h (Nodes g) ->
  (∀ n, n ∈ Nodes g -> array_ok (OutEdges (node h n)) ∧ array_ok (InEdges (node h n))) ->
  Nodes g ≠ [] ->
  ∃ m, FindMedianNode h g = Some m ∧ m ∈ Nodes g ∧ (0 <= degree_diff h m)%Z.
Proof.
  intros Hpair Hok Hne.
  assert (Hex : ∀ n, n ∈ Nodes g -> DegreeDiff h n = degree_diff h n).
  { intros n Hn. destruct (Hok n Hn). by apply DegreeDiff_exact. }
  pose proof (FindMedianNode_scan h g) as Hinv. unfold FindMedianNode.
  destruct (fold_left _ (Nodes g) (None, 0%Z)) as [r M].
  destruct Hinv as (HM & Hle & Hr). cbn [fst snd] in *.
  destruct r as [m|].
  - destruct Hr as (i & Hi & Hdm & _).
    assert (Hm : m ∈ Nodes g) by (by eapply list_elem_of_lookup_2).
    exists m. split; [done|]. split; [done|]. rewrite <- (Hex m Hm). lia.
  - destruct Hr as (_ & Hneg). exfalso.
    pose proof (out_pairs_length_lt h (Nodes g) Hne) as Hlt.
    unfold edges_paired in Hpair. rewrite (Permutation_length Hpair) in Hlt.
    apply (Nat.lt_irrefl (length (in_pairs h (Nodes g)))), Hlt.
    intros n Hn. rewrite <- (Hex n Hn). by apply Hneg.
Qed.

Lemma FindMedianNode_paired_witness :
  ∃ m, FindMedianNode cycle3.1 cycle3.2 = Some m ∧ m ∈ Nodes cycle3.2 ∧
       (0 <= degree_diff cycle3.1 m)%Z.
Proof.
  apply (FindMedianNode_paired cycle3.1 cycle3.2).
  - apply permb_sound. vm_compute. reflexivity.
  - intros n Hn.
    assert (E : Nodes cycle3.2 = [1; 4; 7]) by (vm_compute; reflexivity).
    rewrite E in Hn. list_cases Hn; split; by vm_compute.
  - by vm_compute.
Defined.

(** ** CalculateLongestPath and DoLayering on any graph *)

(** The loop of [CalculateLongestPath] returns on every graph: each round
    but the last gives a depth to a node that had none.  The nodes of a
    set [Cy] in which every node has a successor never become leaves. *)
Lemma CalculateLongestPath_loop_returns (h0 : Heap) (g : FFormatterGraph) (Cy : list addr) :
  (Num (Nodes g) < INT32_MAX)%Z ->
  (∀ x, x ∈ Cy -> ∃ v, v ∈ Cy ∧ v ∈ GetSuccessors h0 x) ->
  ∀ (fuel : nat) (h : Heap) (k : Z),
    same_graph h0 h -> (1 <= k)%Z ->
    (k - 1 + Z.of_nat (depth0_count h g) <= Num (Nodes g))%Z ->
    depth0_count h g < fuel ->
    (∀ x, x ∈ Cy -> PathDepth (node h x) = 0%Z) ->
    ∃ h' L, CalculateLongestPath_loop fuel h g k = Some (h', L) ∧
      same_graph h0 h' ∧ (k <= L <= Num (Nodes g) + 1)%Z ∧
      (∀ x, x ∈ Cy -> PathDepth (node h' x) = 0%Z) ∧
      (∀ n, PathDepth (node h n) ≠ 0%Z -> PathDepth (node h' n) = PathDepth (node h n)) ∧
      (∀ n, n ∈ Nodes g -> PathDepth (node h n) = 0%Z ->
            (PathDepth (node h' n) = 0 ∨ k <= PathDepth (node h' n) < L)%Z).
Proof.
  intros Hnum HS.
  induction fuel as [|fuel IH]; intros h k Hsg Hk Hbound Hfuel Hzero; [lia|].
  cbn [CalculateLongestPath_loop].
  destruct (decide (Num (GetLeavesWidthPathDepthEqu0 h g) = 0%Z)) as [Hnone|Hsome].
  { exists h, k. split; [done|]. split; [done|]. split; [unfold Num in *; lia|].
    split; [done|]. split; [done|]. intros n _ Hn. by left. }
  set (Leaves := GetLeavesWidthPathDepthEqu0 h g) in *.
  set (h1 := fold_left (λ h leaf, set_node h leaf (with_PathDepth k (node h leaf))) Leaves h).
  assert (Hd1 : ∀ n, PathDepth (node h1 n)
                     = if decide (n ∈ Leaves) then k else PathDepth (node h n)).
  { intros n. unfold h1. rewrite assign_depth_node. by destruct (decide (n ∈ Leaves)). }
  assert (Hsg1 : same_graph h h1) by apply assign_depth_same_graph.
  destruct Leaves as [|l0 Leaves'] eqn:HL; [done|].
  assert (Hl0 : l0 ∈ Nodes g ∧ PathDepth (node h l0) = 0%Z ∧
                AnySuccessorPathDepthEqu0 h l0 = false).
  { apply GetLeaves_spec. fold Leaves. rewrite HL. apply list_elem_of_here. }
  rewrite <- HL in *.
  assert (Hlt : depth0_count h1 g < depth0_count h g).
  { unfold depth0_count. apply (filter_length_lt _ _ _ l0); try tauto.
    - intros y. rewrite Hd1. destruct (decide (y ∈ Leaves)) as [Hy|Hy]; [lia|done].
    - rewrite Hd1, decide_True; [lia|]. rewrite HL. apply list_elem_of_here. }
  assert (Hk1 : int32 (k + 1) = (k + 1)%Z).
  { apply int32_small. unfold INT32_MAX in Hnum. lia. }
  assert (HSleaf : ∀ x, x ∈ Cy -> x ∉ Leaves).
  { intros x Hx Hleaf. apply GetLeaves_spec in Hleaf as (_ & _ & Hany).
    destruct (HS x Hx) as (v & Hv & Hsucc).
    assert (AnySuccessorPathDepthEqu0 h x = true); [|congruence].
    apply AnySuccessorPathDepthEqu0_spec. exists v. split; [|by apply Hzero].
    by rewrite <- (proj1 (same_graph_neighbours h0 h x Hsg)). }
  rewrite Hk1.
  destruct (IH h1 (k + 1)%Z) as (h' & L & Hloop & Hsg' & HL' & HS' & Hkeep & Hnew).
  - by eapply same_graph_trans.
  - lia.
  - lia.
  - lia.
  - intros x Hx. rewrite Hd1, decide_False by (by apply HSleaf). by apply Hzero.
  - exists h', L. split; [done|]. split; [done|]. split; [lia|]. split; [done|]. split.
    + intros n Hn. rewrite Hkeep; rewrite Hd1, decide_False; try done.
      * intros Hleaf. apply GetLeaves_spec in Hleaf as (_ & ? & _). done.
      * intros Hleaf. apply GetLeaves_spec in Hleaf as (_ & ? & _). done.
    + intros n Hn Hd. destruct (decide (n ∈ Leaves)) as [Hleaf|Hleaf].
      * right. rewrite Hkeep; rewrite Hd1, decide_True by done; lia.
      * destruct (Hnew n Hn) as [?|?]; [by rewrite Hd1, decide_False|by left|right; lia].
Qed.

(** X2.  [CalculateLongestPath] returns on every graph, with or without
    directed cycles and whatever the path depths are at the start: it
    makes at most one round per node and one more, changes nothing but
    path depths, leaves the depths that were not 0 as they are, and its
    result lies between 0 and the number of nodes. *)
Theorem CalculateLongestPath_returns (fuel : nat) (h : Heap) (g : FFormatterGraph) :
  (Num (Nodes g) < INT32_MAX)%Z -> length (Nodes g) < fuel ->
  ∃ h' L, CalculateLongestPath fuel h g = Some (h', L) ∧
    same_graph h h' ∧ (0 <= L <= Num (Nodes g))%Z ∧
    (∀ n, PathDepth (node h n) ≠ 0%Z -> PathDepth (node h' n) = PathDepth (node h n)) ∧
    (∀ n, n ∈ Nodes g -> PathDepth (node h n) = 0%Z ->
          (0 <= PathDepth (node h' n) <= L)%Z).
Proof.
  intros Hnum Hfuel. pose proof (depth0_count_le h g) as Hcnt.
  assert (Hno : ∀ x : addr, x ∈ [] -> ∃ v, v ∈ [] ∧ v ∈ GetSuccessors h x).
  { intros x Hx. by apply elem_of_nil in Hx. }
  assert (Hb : (1 - 1 + Z.of_nat (depth0_count h g) <= Num (Nodes g))%Z).
  { unfold Num. lia. }
  assert (Hf : depth0_count h g < fuel) by lia.
  assert (Hz : ∀ x : addr, x ∈ [] -> PathDepth (node h x) = 0%Z).
  { intros x Hx. by apply elem_of_nil in Hx. }
  destruct (CalculateLongestPath_loop_returns h g [] Hnum Hno fuel h 1%Z
              (same_graph_refl h) (Z.le_refl 1) Hb Hf Hz)
    as (h' & L & Hloop & Hsg & HL & _ & Hkeep & Hnew).
  exists h', (L - 1)%Z. unfold CalculateLongestPath. rewrite Hloop. cbn [mbind option_bind].
  rewrite int32_small by (unfold INT32_MAX in Hnum; lia).
  split; [done|]. split; [done|]. split; [lia|]. split; [done|].
  intros n Hn Hd. destruct (Hnew n Hn Hd); lia.
Qed.

Lemma CalculateLongestPath_returns_witness :
  ∃ h' L, CalculateLongestPath 4 cycle3.1 cycle3.2 = Some (h', L) ∧
    same_graph cycle3.1 h' ∧ (0 <= L <= Num (Nodes cycle3.2))%Z ∧
    (∀ n, PathDepth (node cycle3.1 n) ≠ 0%Z ->
          PathDepth (node h' n) = PathDepth (node cycle3.1 n)) ∧
    (∀ n, n ∈ Nodes cycle3.2 -> PathDepth (node cycle3.1 n) = 0%Z ->
          (0 <= PathDepth (node h' n) <= L)%Z).
Proof.
  apply (CalculateLongestPath_returns 4 cycle3.1 cycle3.2).
  - by vm_compute.
  - vm_compute. lia.
Defined.

Lemma DoLayering_loop_skips (h : Heap) (g : FFormatterGraph) (Cy : list addr) :
  (∀ x, x ∈ Cy -> ∃ u, u ∈ Cy ∧ u ∈ GetPredecessors h x) ->
  ∀ (n : nat) (Set_ : list addr) (LL : list (list addr)),
    (∀ x, x ∈ Cy -> (x ∉ Set_) ∧ ∀ j, ¬ layer_of LL x j) ->
    ∀ x j, x ∈ Cy -> ¬ layer_of (DoLayering_loop n h g Set_ LL) x j.
Proof.
  intros HS. induction n as [|n IH]; intros Set_ LL Hinv x j Hx.
  { by apply Hinv. }
  cbn [DoLayering_loop].
  pose proof (DoLayering_body_spec h g (Z.of_nat (S n)) Set_) as Hbody.
  destruct (DoLayering_body h g (Z.of_nat (S n)) Set_) as [Set' Layer].
  cbn [fst snd] in Hbody. apply IH; [|done].
  intros y Hy. destruct (Hinv y Hy) as [HySet HyLL].
  assert (HyLayer : y ∉ Layer).
  { intros Hin. apply (proj1 (Hbody y)) in Hin as [_ Hpred].
    destruct (HS y Hy) as (u & Hu & Hup). destruct (Hinv u Hu) as [HuSet _].
    apply HuSet. by apply Hpred. }
  split.
  - intros Hin. apply (proj2 (Hbody y)) in Hin as [?|?]; done.
  - intros j' Hl. apply layer_of_snoc in Hl as [Hl|[_ Hl]]; [by apply (HyLL j')|done].
Qed.

(** X3.  [DoLayering] returns on every graph, but it puts in no layer a
    node of a set in which every node has a predecessor, as the nodes of
    a directed cycle are: such a node waits for a predecessor that itself
    waits.  A cycle left in the graph is therefore left out of the layered
    list. *)
Theorem DoLayering_skips_cycles (fuel : nat) (h : Heap) (g : FFormatterGraph)
    (Cy : list addr) :
  (Num (Nodes g) < INT32_MAX)%Z -> length (Nodes g) < fuel ->
  (∀ x, x ∈ Cy -> ∃ u, u ∈ Cy ∧ u ∈ GetPredecessors h x) ->
  ∃ h' g', DoLayering fuel h g = Some (h', g') ∧
    ∀ x j, x ∈ Cy -> ¬ layer_of (LayeredList g') x j.
Proof.
  intros Hnum Hfuel HS. pose proof (depth0_count_le h g) as Hcnt.
  assert (Hno : ∀ x : addr, x ∈ [] -> ∃ v, v ∈ [] ∧ v ∈ GetSuccessors h x).
  { intros x Hx. by apply elem_of_nil in Hx. }
  assert (Hb : (1 - 1 + Z.of_nat (depth0_count h g) <= Num (Nodes g))%Z).
  { unfold Num. lia. }
  assert (Hf : depth0_count h g < fuel) by lia.
  assert (Hz : ∀ x : addr, x ∈ [] -> PathDepth (node h x) = 0%Z).
  { intros x Hx. by apply elem_of_nil in Hx. }
  destruct (CalculateLongestPath_loop_returns h g [] Hnum Hno fuel h 1%Z
              (same_graph_refl h) (Z.le_refl 1) Hb Hf Hz)
    as (h' & L & Hloop & Hsg & HL & _).
  unfold DoLayering, CalculateLongestPath. rewrite Hloop. cbn [mbind option_bind].
  rewrite int32_small by (unfold INT32_MAX in Hnum; lia).
  destruct (Z.ltb_spec (L - 1) 0) as [Hneg|_]; [lia|].
  eexists _, _. split; [reflexivity|]. cbn [LayeredList with_LayeredList].
  apply DoLayering_loop_skips.
  - intros x Hx. destruct (HS x Hx) as (u & Hu & Hup). exists u. split; [done|].
    by rewrite <- (proj2 (same_graph_neighbours h h' x Hsg)).
  - intros x Hx. split; [apply not_elem_of_nil|].
    intros j (Layer & HLy & _). by rewrite lookup_nil in HLy.
Qed.

Lemma DoLayering_skips_cycles_witness :
  ∃ h' g', DoLayering 4 cycle3.1 cycle3.2 = Some (h', g') ∧
    ∀ x j, x ∈ [1; 4; 7] -> ¬ layer_of (LayeredList g') x j.
Proof.
  apply (DoLayering_skips_cycles 4 cycle3.1 cycle3.2 [1; 4; 7]).
  - by vm_compute.
  - vm_compute. lia.
  - assert (E1 : GetPredecessors cycle3.1 1 = [7]) by (vm_compute; reflexivity).
    assert (E4 : GetPredecessors cycle3.1 4 = [1]) by (vm_compute; reflexivity).
    assert (E7 : GetPredecessors cycle3.1 7 = [4]) by (vm_compute; reflexivity).
    intros x Hx. list_cases Hx.
    + exists 7. rewrite E1.
      split; repeat (first [apply list_elem_of_here | apply list_elem_of_further]).
    + exists 1. rewrite E4.
      split; repeat (first [apply list_elem_of_here | apply list_elem_of_further]).
    + exists 4. rewrite E7.
      split; repeat (first [apply list_elem_of_here | apply list_elem_of_further]).
Defined.

(** ** Connect and Disconnect *)

Lemma RemoveFirst_snoc_new {A} (P : A -> bool) (l : list A) (x : A) :
  (∀ e, e ∈ l -> P e = false) -> P x = true -> RemoveFirst P (l ++ [x]) = l.
Proof.
  intros Hl Hx. induction l as [|y l IH]; cbn [app RemoveFirst].
  - by rewrite Hx.
  - rewrite (Hl y (list_elem_of_here _ _)). f_equal. apply IH.
    intros e He. apply Hl. by apply list_elem_of_further.
Qed.

(** X4.  [Disconnect] undoes [Connect] on the node: when no edge of the
    node joined the two pins before, the node has, after [Connect] and
    then [Disconnect] with the same pins, the edge arrays it had; no other
    node and no pin has changed.  The edge object that [Connect] has
    allocated is not released: it stays in the store, with its two pins. *)
Theorem Connect_Disconnect_restores (h : Heap) (this p q : addr) :
  (∀ e, e ∈ InEdges (node h this) ++ OutEdges (node h this) ->
        e < next h ∧ ¬ (From (edge h e) = p ∧ To (edge h e) = q)) ->
  (∀ a, node (Disconnect (Connect h this p q) this p q) a = node h a) ∧
  (∀ a, pin (Disconnect (Connect h this p q) this p q) a = pin h a) ∧
  (∀ a, a ≠ next h -> edge (Disconnect (Connect h this p q) this p q) a = edge h a) ∧
  edge (Disconnect (Connect h this p q) this p q) (next h) = mkEdge p 0 q 0 ∧
  next (Disconnect (Connect h this p q) this p q) = S (next h).
Proof.
  intros Hl.
  assert (Hold : ∀ l, l ⊆ InEdges (node h this) ++ OutEdges (node h this) ->
            RemoveFirst (λ Edge, bool_decide (From (edge (Connect h this p q) Edge) = p ∧
                                              To (edge (Connect h this p q) Edge) = q))
                        (l ++ [next h]) = l).
  { intros l Hsub. apply RemoveFirst_snoc_new.
    - intros e He. destruct (Hl e (Hsub e He)) as [Hlt Hno].
      rewrite edge_Connect, decide_False by lia. by apply bool_decide_eq_false.
    - rewrite edge_Connect, decide_True by done. by apply bool_decide_eq_true. }
  split; [|split; [|split; [|split]]].
  - intros a. rewrite node_Disconnect, pin_Connect, !node_Connect.
    destruct (decide (a = this)) as [->|Hne]; [|done].
    destruct (decide (this = this)) as [_|?]; [|done].
    destruct (decide (Direction (pin h p) = EGPD_Output)) as [Hd|Hd].
    + cbn [OutEdges with_OutEdges].
      rewrite Hold by (intros x Hx; apply elem_of_app; by right).
      by destruct (node h this).
    + cbn [InEdges with_InEdges].
      rewrite Hold by (intros x Hx; apply elem_of_app; by left).
      by destruct (node h this).
  - intros a. by rewrite pin_Disconnect, pin_Connect.
  - intros a Ha. by rewrite edge_Disconnect, edge_Connect, decide_False.
  - by rewrite edge_Disconnect, edge_Connect, decide_True.
  - by rewrite next_Disconnect, next_Connect.
Qed.

Lemma Connect_Disconnect_restores_witness :
  (∀ a, node (Disconnect (Connect cycle3.1 1 3 8) 1 3 8) a = node cycle3.1 a) ∧
  (∀ a, pin (Disconnect (Connect cycle3.1 1 3 8) 1 3 8) a = pin cycle3.1 a) ∧
  (∀ a, a ≠ next cycle3.1 ->
        edge (Disconnect (Connect cycle3.1 1 3 8) 1 3 8) a = edge cycle3.1 a) ∧
  edge (Disconnect (Connect cycle3.1 1 3 8) 1 3 8) (next cycle3.1) = mkEdge 3 0 8 0 ∧
  next (Disconnect (Connect cycle3.1 1 3 8) 1 3 8) = S (next cycle3.1).
Proof.
  apply (Connect_Disconnect_restores cycle3.1 1 3 8).
  assert (E : InEdges (node cycle3.1 1) ++ OutEdges (node cycle3.1 1) = [15; 10])
    by (vm_compute; reflexivity).
  intros e He. rewrite E in He.
  list_cases He; (split; [vm_compute; lia|vm_compute; intros [? ?]; discriminate]).
Defined.

(** ** AddNode and RemoveNode *)

Lemma fold_pair_proj {A B V} (f : A -> V -> A) (g : B -> V -> B) (l : list V) :
  ∀ m : A * B,
  fold_left (λ '(a, b) v, (f a v, g b v)) l m = (fold_left f l m.1, fold_left g l m.2).
Proof. induction l as [|v l IH]; intros [a b]; [done|]. cbn [fold_left]. by rewrite IH. Qed.

Lemma fold_insert_opt_notin {K V} `{Countable K} (key : V -> option K) (l : list V) :
  ∀ (m : gmap K V) (k : K),
  Some k ∉ map key l ->
  fold_left (λ m v, match key v with Some o => <[o := v]> m | None => m end) l m !! k
  = m !! k.
Proof.
  induction l as [|v l IH]; intros m k Hk; [done|]. cbn [fold_left].
  rewrite IH by (intros Hin; apply Hk; cbn; by apply list_elem_of_further).
  destruct (key v) as [o|] eqn:Ev; [|done].
  apply lookup_insert_ne. intros ->. apply Hk. cbn. rewrite Ev. apply list_elem_of_here.
Qed.

Lemma fold_delete_opt_lookup {K V} `{Countable K} (key : V -> option K) (l : list V) :
  ∀ (m : gmap K V) (k : K),
  fold_left (λ m v, match key v with Some o => delete o m | None => m end) l m !! k
  = if decide (Some k ∈ map key l) then None else m !! k.
Proof.
  induction l as [|v l IH]; intros m k; cbn [fold_left map].
  { by rewrite decide_False by apply not_elem_of_nil. }
  rewrite IH. destruct (decide (Some k ∈ map key l)) as [Hin|Hin].
  - by rewrite decide_True by (by apply list_elem_of_further).
  - destruct (key v) as [o|] eqn:Ev.
    + destruct (decide (o = k)) as [->|Hne].
      * rewrite decide_True by apply list_elem_of_here. apply lookup_delete_eq.
      * rewrite decide_False.
        -- by apply lookup_delete_ne.
        -- intros Hc. apply elem_of_cons in Hc as [Hc|Hc]; [congruence|done].
    + rewrite decide_False; [done|].
      intros Hc. apply elem_of_cons in Hc as [Hc|Hc]; [congruence|done].
Qed.

(** The maps of pins after the pins [Ps] have been added and then removed,
    when none of their keys was in the map. *)
Lemma fold_insert_delete_opt {K V} `{Countable K} (key : V -> option K)
    (Ps1 Ps2 : list V) (m : gmap K V) :
  (∀ v k, v ∈ Ps1 ++ Ps2 -> key v = Some k -> m !! k = None) ->
  fold_left (λ m v, match key v with Some o => delete o m | None => m end) Ps2
    (fold_left (λ m v, match key v with Some o => delete o m | None => m end) Ps1
       (fold_left (λ m v, match key v with Some o => <[o := v]> m | None => m end) Ps2
          (fold_left (λ m v, match key v with Some o => <[o := v]> m | None => m end) Ps1 m)))
  = m.
Proof.
  intros Hnone. apply map_eq. intros k. rewrite !fold_delete_opt_lookup.
  assert (Hin : ∀ Ps, Ps ⊆ Ps1 ++ Ps2 -> Some k ∈ map key Ps -> m !! k = None).
  { intros Ps Hsub Hk. apply list_elem_of_fmap in Hk as (v & Hv & Hvin).
    apply (Hnone v k); [by apply Hsub|done]. }
  destruct (decide (Some k ∈ map key Ps2)) as [H2|H2].
  { symmetry. apply (Hin Ps2); [|done]. intros x Hx. apply elem_of_app. by right. }
  destruct (decide (Some k ∈ map key Ps1)) as [H1|H1].
  { symmetry. apply (Hin Ps1); [|done]. intros x Hx. apply elem_of_app. by left. }
  by rewrite !fold_insert_opt_notin.
Qed.

(** X5.  [RemoveNode] undoes [AddNode]: for a node that has no edge and no
    sub-graph yet, that is not in the node array, and whose identifier and
    pins are not keys of the maps of the graph, [RemoveNode] after
    [AddNode] returns the graph as it was, array and maps, and releases
    the node with its pins; the other nodes are not touched. *)
Theorem AddNode_RemoveNode (fuel : nat) (h : Heap) (g : FFormatterGraph) (n : addr) :
  n ∉ Nodes g ->
  InEdges (node h n) = [] -> OutEdges (node h n) = [] -> SubGraph (node h n) = None ->
  NodesMap g !! Guid (node h n) = None -> SubGraphs g !! Guid (node h n) = None ->
  (∀ P, P ∈ pins_of h n ->
        PinsMap g !! PinGuid (pin h P) = None ∧
        ∀ o, OriginalPin (pin h P) = Some o -> OriginalPinsMap g !! o = None) ->
  ∃ h', RemoveNode fuel h (AddNode h g n) n = Some (h', g) ∧
        node h' n = null_node ∧
        (∀ P, P ∈ pins_of h n -> pin h' P = null_pin) ∧
        (∀ a, a ≠ n -> node h' a = node h a) ∧
        (∀ P, P ∉ pins_of h n -> pin h' P = pin h P).
Proof.
  intros Hn Hie Hoe Hsub HNM HSG Hpins.
  unfold RemoveNode. rewrite Hie. change (RemoveNode_disconnect h []) with h.
  rewrite Hoe. change (RemoveNode_disconnect h []) with h. cbv zeta.
  unfold FFormatterNode_delete. rewrite Hie. cbn [fold_left]. rewrite Hoe. cbn [fold_left].
  assert (Hnode : ∀ l h0 a, node (fold_left free_pin l h0) a = node h0 a).
  { intros l h0 a.
    by destruct (shrinks_free_pins (λ _, True) l h0 (Forall_true _ _ (λ _, I))) as [_ ->]. }
  assert (Hpin : ∀ l h0 a, pin (fold_left free_pin l h0) a
                           = if decide (a ∈ l) then null_pin else pin h0 a).
  { induction l as [|x l IH]; intros h0 a; cbn [fold_left].
    - by rewrite decide_False by apply not_elem_of_nil.
    - rewrite IH, pin_free_pin. destruct (decide (a ∈ l)) as [Hin|Hin].
      + by rewrite decide_True by (by apply list_elem_of_further).
      + destruct (decide (a = x)) as [->|Hne].
        * by rewrite decide_True by apply list_elem_of_here.
        * rewrite decide_False; [done|].
          intros Hc. apply elem_of_cons in Hc as [?|?]; done. }
  rewrite !Hnode, Hsub. cbn [mbind option_bind].
  eexists. split; [|split; [|split; [|split]]].
  - f_equal. f_equal. unfold AddNode. cbn [Nodes NodesMap SubGraphs OriginalPinsMap PinsMap
      LayeredList IsolatedGraphs]. rewrite Hsub.
    rewrite !(fold_pair_proj
      (λ om Pin, match OriginalPin (pin h Pin) with Some o => <[o := Pin]> om | None => om end)
      (λ pm Pin, <[PinGuid (pin h Pin) := Pin]> pm)).
    rewrite !(fold_pair_proj
      (λ om Pin, match OriginalPin (pin h Pin) with Some o => delete o om | None => om end)
      (λ pm Pin, delete (PinGuid (pin h Pin)) pm)).
    cbn [fst snd].
    rewrite (fold_insert_delete_opt (λ P, OriginalPin (pin h P))
               (InPins (node h n)) (OutPins (node h n)) (OriginalPinsMap g))
      by (intros v k Hv Hk; by apply (proj2 (Hpins v Hv))).
    pose proof (fold_insert_delete_opt (λ P, Some (PinGuid (pin h P)))
               (InPins (node h n)) (OutPins (node h n)) (PinsMap g)) as Hpm.
    cbn beta iota in Hpm. rewrite Hpm
      by (intros v k Hv [= <-]; by apply (proj1 (Hpins v Hv))).
    unfold RemoveAll. rewrite filter_app, filter_cons_False, filter_nil, app_nil_r by tauto.
    rewrite (filter_ext_elem (λ y, y ≠ n) (λ _, True)) by (intros x Hx; split; [done|];
      intros _ ->; done).
    rewrite delete_insert_id by done.
    assert (Hall : ∀ l : list addr, filter (λ _ : addr, True) l = l).
    { induction l as [|x l IH]; [done|]. by rewrite filter_cons_True, IH. }
    rewrite Hall, (delete_id (SubGraphs g)) by done. by destruct g.
  - rewrite node_free_node. by rewrite decide_True.
  - intros P HP. change (pin (free_node ?x _) P) with (pin x P).
    rewrite Hpin. apply elem_of_app in HP as [HP|HP].
    + destruct (decide (P ∈ OutPins (node h n))); [done|]. rewrite Hpin.
      by rewrite decide_True.
    + by rewrite decide_True.
  - intros a Ha. rewrite node_free_node, decide_False by done. by rewrite !Hnode.
  - intros P HP. change (pin (free_node ?x _) P) with (pin x P).
    rewrite !Hpin. rewrite !decide_False; [done| |].
    + intros Hc. apply HP, elem_of_app. by left.
    + intros Hc. apply HP, elem_of_app. by right.
Qed.

Lemma AddNode_RemoveNode_witness :
  ∃ h', RemoveNode 1 diamond4_fresh.2 (AddNode diamond4_fresh.2 diamond4.2 diamond4_fresh.1)
          diamond4_fresh.1 = Some (h', diamond4.2) ∧
        node h' diamond4_fresh.1 = null_node ∧
        (∀ P, P ∈ pins_of diamond4_fresh.2 diamond4_fresh.1 -> pin h' P = null_pin) ∧
        (∀ a, a ≠ diamond4_fresh.1 -> node h' a = node diamond4_fresh.2 a) ∧
        (∀ P, P ∉ pins_of diamond4_fresh.2 diamond4_fresh.1 ->
              pin h' P = pin diamond4_fresh.2 P).
Proof.
  apply (AddNode_RemoveNode 1 diamond4_fresh.2 diamond4.2 diamond4_fresh.1).
  - assert (E : Nodes diamond4.2 = [1; 4; 7; 10]) by (vm_compute; reflexivity).
    assert (En : diamond4_fresh.1 = 21) by (vm_compute; reflexivity).
    rewrite E, En. intros Hin. list_cases Hin.
  - by vm_compute.
  - by vm_compute.
  - by vm_compute.
  - by vm_compute.
  - by vm_compute.
  - assert (E : pins_of diamond4_fresh.2 diamond4_fresh.1 = [22; 23])
      by (vm_compute; reflexivity).
    intros P HP. rewrite E in HP. list_cases HP.
    + split; [by vm_compute|]. intros o Ho. vm_compute in Ho. injection Ho as <-.
      by vm_compute.
    + split; [by vm_compute|]. intros o Ho. vm_compute in Ho. injection Ho as <-.
      by vm_compute.
Defined.

(** ** The ordering sweep keeps the layers *)

Lemma insert_Permutation {A} (O : list (list A)) (i : nat) (l : list A) :
  l ≡ₚ O !!! i -> Forall2 (≡ₚ) O (<[i := l]> O).
Proof.
  intros Hl. apply Forall2_same_length_lookup_2; [by rewrite length_insert|].
  intros j x y Hx Hy. destruct (decide (i = j)) as [->|Hne].
  - rewrite list_lookup_insert_eq in Hy by (by eapply lookup_lt_Some).
    injection Hy as <-. by rewrite Hl, (list_lookup_total_correct _ _ _ Hx).
  - rewrite list_lookup_insert_ne in Hy by done. by assert (x = y) as -> by congruence.
Qed.

Lemma Forall2_Permutation_trans {A} (O1 O2 O3 : list (list A)) :
  Forall2 (≡ₚ) O1 O2 -> Forall2 (≡ₚ) O2 O3 -> Forall2 (≡ₚ) O1 O3.
Proof.
  intros H12. revert O3. induction H12 as [|x y l k Hxy H12 IH]; intros O3 H23.
  - by apply Forall2_nil_inv_l in H23 as ->.
  - apply Forall2_cons_inv_l in H23 as (z & m & Hyz & H23 & ->).
    constructor; [by rewrite Hxy|by apply IH].
Qed.

Lemma SortInLayer_loop_Permutation (Sort : SortFn) (O0 : list (list addr)) (k : nat) :
  (∀ cmp l, Sort cmp l ≡ₚ l) ->
  ∀ (h : Heap) (Order : list (list addr)) (Dir : EEdGraphPinDirection) (i Step : Z),
    Forall2 (≡ₚ) O0 Order ->
    Forall2 (≡ₚ) O0 (SortInLayer_loop Sort k h Order Dir i Step).2.
Proof.
  intros HSort. induction k as [|k IH]; intros h Order Dir i Step HO; [done|].
  cbn [SortInLayer_loop]. apply IH.
  apply (Forall2_Permutation_trans O0 Order); [done|].
  apply insert_Permutation, HSort.
Qed.

Lemma DoOrderingSweep_loop_Permutation (Sort : SortFn) (O0 : list (list addr)) (k : nat) :
  (∀ cmp l, Sort cmp l ≡ₚ l) ->
  ∀ (i : Z) (h : Heap) (Best Order : list (list addr)),
    Forall2 (≡ₚ) O0 Best -> Forall2 (≡ₚ) O0 Order ->
    Forall2 (≡ₚ) O0 (DoOrderingSweep_loop Sort k i h Best Order).2.
Proof.
  intros HSort. induction k as [|k IH]; intros i h Best Order HB HO; [done|].
  cbn [DoOrderingSweep_loop].
  assert (HO1 : Forall2 (≡ₚ) O0
            (SortInLayer Sort h Order (if (i mod 2 =? 0)%Z then EGPD_Input else EGPD_Output)).2).
  { unfold SortInLayer. destruct (Num Order <? 2)%Z; [done|].
    by apply SortInLayer_loop_Permutation. }
  destruct (SortInLayer Sort h Order _) as [h1 Order1]. cbn [snd] in HO1.
  destruct (CalculateCrossing h1 Order1) as [h2 cOrder].
  destruct (CalculateCrossing h2 Best) as [h3 cBest].
  apply IH; [|done]. by destruct (cOrder <? cBest)%Z.
Qed.

Lemma insert_sorted_Permutation {A} (lt : A -> A -> bool) (x : A) (l : list A) :
  insert_sorted lt x l ≡ₚ x :: l.
Proof.
  induction l as [|y r IH]; [done|]. cbn [insert_sorted].
  destruct (lt y x); [|done]. rewrite IH. apply Permutation_swap.
Qed.

Lemma insertion_sort_Permutation {A} (lt : A -> A -> bool) (l : list A) :
  insertion_sort lt l ≡ₚ l.
Proof.
  induction l as [|x l IH]; [done|]. unfold insertion_sort in *. cbn [foldr].
  by rewrite insert_sorted_Permutation, IH.
Qed.

(** X6.  When the engine's sort returns a permutation of the array it is
    given, [DoOrderingSweep] only reorders nodes within their layer: the
    layered list it stores has as many layers, and each layer holds the
    nodes it held, each as many times.  Of the store it changes nothing
    but the order values of nodes and the two index fields of edges, and
    the node array of the graph is as it was. *)
Theorem DoOrderingSweep_permutes_layers (Sort : SortFn) (MaxOrderingIterations : Z)
    (h : Heap) (g : FFormatterGraph) :
  (∀ cmp l, Sort cmp l ≡ₚ l) ->
  Forall2 (≡ₚ) (LayeredList g)
          (LayeredList (DoOrderingSweep Sort MaxOrderingIterations h g).2) ∧
  same_structure h (DoOrderingSweep Sort MaxOrderingIterations h g).1 ∧
  Nodes (DoOrderingSweep Sort MaxOrderingIterations h g).2 = Nodes g.
Proof.
  intros HSort. unfold DoOrderingSweep.
  assert (Hrefl : Forall2 (≡ₚ) (LayeredList g) (LayeredList g)).
  { apply Forall2_same_length_lookup_2; [done|]. intros j x y Hx Hy.
    by assert (x = y) as -> by congruence. }
  pose proof (DoOrderingSweep_loop_Permutation Sort (LayeredList g)
                (Z.to_nat MaxOrderingIterations) HSort 0%Z h (LayeredList g) (LayeredList g)
                Hrefl Hrefl) as HP.
  pose proof (DoOrderingSweep_loop_best Sort h (Z.to_nat MaxOrderingIterations) 0%Z h
                (LayeredList g) (LayeredList g) [LayeredList g] (same_structure_refl h)
                (list_elem_of_here _ _)) as HS.
  destruct (DoOrderingSweep_loop Sort _ 0%Z h (LayeredList g) (LayeredList g)) as [h' Best].
  cbn [fst snd LayeredList with_LayeredList Nodes] in *. split; [done|]. split; [|done].
  apply HS. intros O HO. apply list_elem_of_singleton in HO as ->. lia.
Qed.

Lemma DoOrderingSweep_permutes_layers_witness :
  (Forall2 (≡ₚ) (LayeredList (with_LayeredList crossed4.2 null_graph))
           (LayeredList (DoOrderingSweep insertion_sort 2 crossed4.1
                           (with_LayeredList crossed4.2 null_graph)).2) ∧
   same_structure crossed4.1
     (DoOrderingSweep insertion_sort 2 crossed4.1
        (with_LayeredList crossed4.2 null_graph)).1 ∧
   Nodes (DoOrderingSweep insertion_sort 2 crossed4.1
            (with_LayeredList crossed4.2 null_graph)).2
   = Nodes (with_LayeredList crossed4.2 null_graph)) ∧
  LayeredList (with_LayeredList crossed4.2 null_graph) = [[1; 4]; [7; 10]] ∧
  LayeredList (DoOrderingSweep insertion_sort 2 crossed4.1
                 (with_LayeredList crossed4.2 null_graph)).2 = [[1; 4]; [10; 7]].
Proof.
  split; [|split; vm_compute; reflexivity].
  apply (DoOrderingSweep_permutes_layers insertion_sort 2 crossed4.1
           (with_LayeredList crossed4.2 null_graph)).
  intros cmp l. apply insertion_sort_Permutation.
Defined.

(** ** Initialize *)

Lemma Initialize_node_other (Layer : list addr) (m : FPositionMaps) (i : nat) (n : addr) :
  n ≠ Layer !!! i ->
  PosMap (Initialize_node Layer m i) !! n = PosMap m !! n ∧
  PredecessorMap (Initialize_node Layer m i) !! n = PredecessorMap m !! n ∧
  SuccessorMap (Initialize_node Layer m i) !! n = SuccessorMap m !! n.
Proof.
  intros Hne. unfold Initialize_node. cbn [PosMap PredecessorMap SuccessorMap].
  by rewrite !lookup_insert_ne.
Qed.

Lemma Initialize_node_here (Layer : list addr) (m : FPositionMaps) (i : nat) (n : addr) :
  Layer !! i = Some n -> positioned (Initialize_node Layer m i) Layer i n.
Proof.
  intros Hi. pose proof (lookup_lt_Some _ _ _ Hi) as Hlt.
  unfold positioned, Initialize_node. cbn [PosMap PredecessorMap SuccessorMap].
  rewrite (list_lookup_total_correct _ _ _ Hi), !lookup_insert_eq.
  split; [done|]. split; f_equal.
  - destruct i as [|i']; [done|]. rewrite decide_True by done.
    replace (S i' - 0) with (S i') by lia. cbn [Nat.sub].
    destruct (lookup_lt_is_Some_2 Layer i') as [x Hx]; [lia|].
    replace (i' - 0) with i' by lia.
    by rewrite Hx, (list_lookup_total_correct _ _ _ Hx).
  - destruct (decide (i ≠ length Layer - 1)) as [Hne|Heq].
    + destruct (lookup_lt_is_Some_2 Layer (S i)) as [x Hx]; [lia|].
      replace (i + 1) with (S i) by lia.
      by rewrite Hx, (list_lookup_total_correct _ _ _ Hx).
    + symmetry. apply lookup_ge_None. lia.
Qed.

(** The inner loop, after the indices below [k]. *)
Lemma Initialize_layer_prefix (Layer : list addr) (m : FPositionMaps) :
  NoDup Layer ->
  ∀ k, k <= length Layer ->
  ∀ n,
    (∀ i, i < k -> Layer !! i = Some n ->
          positioned (fold_left (Initialize_node Layer) (seq 0 k) m) Layer i n) ∧
    (n ∉ take k Layer ->
     PosMap (fold_left (Initialize_node Layer) (seq 0 k) m) !! n = PosMap m !! n ∧
     PredecessorMap (fold_left (Initialize_node Layer) (seq 0 k) m) !! n
       = PredecessorMap m !! n ∧
     SuccessorMap (fold_left (Initialize_node Layer) (seq 0 k) m) !! n
       = SuccessorMap m !! n).
Proof.
  intros Hnd. induction k as [|k IH]; intros Hk n.
  { split; [intros i Hi; lia|done]. }
  rewrite seq_S, fold_left_app. cbn [fold_left Nat.add].
  destruct (IH ltac:(lia) n) as [IH1 IH2].
  destruct (lookup_lt_is_Some_2 Layer k) as [x Hx]; [lia|].
  rewrite (take_S_r _ _ _ Hx).
  destruct (decide (n = x)) as [->|Hne].
  - split.
    + intros i Hi Hin. assert (i = k) as -> by (by eapply NoDup_lookup).
      by apply Initialize_node_here.
    + intros Hnot. exfalso. apply Hnot, elem_of_app. right. apply list_elem_of_here.
  - assert (Hne' : n ≠ Layer !!! k) by (by rewrite (list_lookup_total_correct _ _ _ Hx)).
    destruct (Initialize_node_other Layer (fold_left (Initialize_node Layer) (seq 0 k) m)
                k n Hne') as (E1 & E2 & E3).
    split.
    + intros i Hi Hin. assert (i < k).
      { destruct (decide (i = k)) as [->|]; [congruence|lia]. }
      unfold positioned. rewrite E1, E2, E3. by apply IH1.
    + intros Hnot. rewrite E1, E2, E3. apply IH2. intros Hin. apply Hnot, elem_of_app.
      by left.
Qed.

Lemma Initialize_layers (Ls : list (list addr)) :
  NoDup (concat Ls) ->
  ∀ (m : FPositionMaps) (n : addr),
    (∀ j Layer i, Ls !! j = Some Layer -> Layer !! i = Some n ->
       positioned (fold_left (λ m Layer, fold_left (Initialize_node Layer)
                                            (seq 0 (length Layer)) m) Ls m) Layer i n) ∧
    (n ∉ concat Ls ->
     PosMap (fold_left (λ m Layer, fold_left (Initialize_node Layer)
                                      (seq 0 (length Layer)) m) Ls m) !! n = PosMap m !! n ∧
     PredecessorMap (fold_left (λ m Layer, fold_left (Initialize_node Layer)
                                      (seq 0 (length Layer)) m) Ls m) !! n
       = PredecessorMap m !! n ∧
     SuccessorMap (fold_left (λ m Layer, fold_left (Initialize_node Layer)
                                      (seq 0 (length Layer)) m) Ls m) !! n
       = SuccessorMap m !! n).
Proof.
  induction Ls as [|L Ls IH]; intros Hnd m n.
  { split; [intros j Layer i Hj; by rewrite lookup_nil in Hj|done]. }
  cbn [concat] in Hnd. apply NoDup_app in Hnd as (HndL & Hdisj & HndLs).
  cbn [fold_left].
  destruct (IH HndLs (fold_left (Initialize_node L) (seq 0 (length L)) m) n) as [IH1 IH2].
  destruct (Initialize_layer_prefix L m HndL (length L) (Nat.le_refl _) n) as [P1 P2].
  rewrite firstn_all in P2.
  split.
  - intros j Layer i Hj Hi. destruct j as [|j]; cbn in Hj.
    + injection Hj as <-.
      assert (Hn : n ∉ concat Ls).
      { apply Hdisj. by eapply list_elem_of_lookup_2. }
      destruct (IH2 Hn) as (E1 & E2 & E3). unfold positioned. rewrite E1, E2, E3.
      apply P1; [by eapply lookup_lt_Some|done].
    + by apply (IH1 j).
  - intros Hn. cbn [concat] in Hn. rewrite not_elem_of_app in Hn. destruct Hn as [HnL HnLs].
    destruct (IH2 HnLs) as (E1 & E2 & E3). rewrite E1, E2, E3. by apply P2.
Qed.

(** X7.  When no node is listed twice in the layered list, the maps that
    [Initialize] builds agree with it: a node at index [i] of a layer has
    position [i], the node at index [i - 1] as predecessor and the node at
    index [i + 1] as successor, the null pointer at the two ends of the
    layer; a node that is in no layer is in none of the maps.  So the
    successor of the predecessor of a node is the node itself. *)
Theorem Initialize_positions (LayeredNodes : list (list addr)) :
  NoDup (concat LayeredNodes) ->
  (∀ j Layer i n, LayeredNodes !! j = Some Layer -> Layer !! i = Some n ->
     positioned (Initialize LayeredNodes) Layer i n) ∧
  (∀ n, n ∉ concat LayeredNodes ->
     PosMap (Initialize LayeredNodes) !! n = None ∧
     PredecessorMap (Initialize LayeredNodes) !! n = None ∧
     SuccessorMap (Initialize LayeredNodes) !! n = None) ∧
  (∀ n p, PredecessorMap (Initialize LayeredNodes) !! n = Some (Some p) ->
          SuccessorMap (Initialize LayeredNodes) !! p = Some (Some n)).
Proof.
  intros Hnd. unfold Initialize.
  assert (Hin : ∀ j Layer i n, LayeredNodes !! j = Some Layer -> Layer !! i = Some n ->
     positioned (fold_left (λ m Layer, fold_left (Initialize_node Layer)
                                          (seq 0 (length Layer)) m)
                   LayeredNodes (mkPositionMaps ∅ ∅ ∅)) Layer i n).
  { intros j Layer i n. by apply (Initialize_layers LayeredNodes Hnd). }
  assert (Hout : ∀ n, n ∉ concat LayeredNodes ->
     PosMap (fold_left (λ m Layer, fold_left (Initialize_node Layer)
                                      (seq 0 (length Layer)) m)
               LayeredNodes (mkPositionMaps ∅ ∅ ∅)) !! n = None ∧
     PredecessorMap (fold_left (λ m Layer, fold_left (Initialize_node Layer)
                                      (seq 0 (length Layer)) m)
               LayeredNodes (mkPositionMaps ∅ ∅ ∅)) !! n = None ∧
     SuccessorMap (fold_left (λ m Layer, fold_left (Initialize_node Layer)
                                      (seq 0 (length Layer)) m)
               LayeredNodes (mkPositionMaps ∅ ∅ ∅)) !! n = None).
  { intros n Hn.
    destruct (proj2 (Initialize_layers LayeredNodes Hnd (mkPositionMaps ∅ ∅ ∅) n) Hn)
      as (E1 & E2 & E3).
    rewrite E1, E2, E3. cbn [PosMap PredecessorMap SuccessorMap]. by rewrite !lookup_empty. }
  split; [done|]. split; [done|].
  intros n p Hp.
  destruct (decide (n ∈ concat LayeredNodes)) as [Hn|Hn].
  - apply list_elem_of_In, in_concat in Hn as (Layer & HL & HnL).
    apply list_elem_of_In, list_elem_of_lookup in HL as [j HL].
    apply list_elem_of_In, list_elem_of_lookup in HnL as [i HnL].
    destruct (Hin j Layer i n HL HnL) as (_ & Hpred & _).
    rewrite Hpred in Hp. destruct i as [|i']; [done|]. injection Hp as Hp.
    destruct (Hin j Layer i' p HL Hp) as (_ & _ & Hsucc). by rewrite Hsucc, HnL.
  - destruct (Hout n Hn) as (_ & E & _). by rewrite E in Hp.
Qed.

Lemma Initialize_positions_witness :
  (∀ j Layer i n, crossed4.2 !! j = Some Layer -> Layer !! i = Some n ->
     positioned (Initialize crossed4.2) Layer i n) ∧
  (∀ n, n ∉ concat crossed4.2 ->
     PosMap (Initialize crossed4.2) !! n = None ∧
     PredecessorMap (Initialize crossed4.2) !! n = None ∧
     SuccessorMap (Initialize crossed4.2) !! n = None) ∧
  (∀ n p, PredecessorMap (Initialize crossed4.2) !! n = Some (Some p) ->
          SuccessorMap (Initialize crossed4.2) !! p = Some (Some n)).
Proof.
  apply (Initialize_positions crossed4.2).
  apply (bool_decide_unpack (NoDup (concat crossed4.2))). by vm_compute.
Defined.

(** ** The copy has the edges of the original, and can be destroyed *)

Lemma full_image_target (Nb : nat) (h : Heap) (g : FFormatterGraph) (h' : Heap)
    (c : FFormatterGraph) (P P' : addr) :
  graph_ok Nb h g -> Forall2 (full_image h h' c) (Nodes g) (Nodes c) ->
  (∃ m, m ∈ Nodes g ∧ P ∈ pins_of h m) ->
  PinsMap c !! PinGuid (pin h P) = Some P' ->
  ∃ j, Nodes g !! j = Some (OwningNode (pin h P)) ∧
       Nodes c !! j = Some (OwningNode (pin h' P')).
Proof.
  intros Hok HF (m & Hm & HP) Hlook.
  rewrite (graph_ok_own Nb h g m P Hok Hm HP).
  apply list_elem_of_lookup in Hm as [j Hj]. exists j. split; [done|].
  destruct (Forall2_lookup_l _ _ _ j m HF Hj) as (X & HX & Himg).
  destruct Himg as (_ & HFi & HFo & _).
  assert (Hpin : ∀ l l', Forall2 (pin_image h h' c X) l l' -> P ∈ l ->
            OwningNode (pin h' P') = X).
  { intros l l' HFl Hin. apply list_elem_of_lookup in Hin as [t Ht].
    destruct (Forall2_lookup_l _ _ _ t P HFl Ht) as (P'' & _ & Hmir & Hl'').
    assert (P'' = P') as -> by congruence. unfold mirror_pin in Hmir. by rewrite Hmir. }
  apply elem_of_app in HP as [HP|HP].
  - by rewrite (Hpin _ _ HFi HP).
  - by rewrite (Hpin _ _ HFo HP).
Qed.

(** X8.  The copy constructor of [FFormatterGraph] copies the edges: on a
    well-formed graph it returns a graph in which the node at each
    position of the node array has as many out-edges and in-edges as the
    node of the original at that position, and its successors and
    predecessors are, in the same order, the copies of the successors and
    predecessors of that node. *)
Theorem FFormatterGraph_copy_edges (fuel Nb : nat) (h : Heap) (g : FFormatterGraph) :
  Nb <= next h -> wf_graph fuel Nb h g ->
  ∃ h' c, FFormatterGraph_copy fuel h g = Some (h', c) ∧
    Forall2 (λ N X,
        Forall2 (λ v v', ∃ j, Nodes g !! j = Some v ∧ Nodes c !! j = Some v')
                (GetSuccessors h N) (GetSuccessors h' X) ∧
        Forall2 (λ v v', ∃ j, Nodes g !! j = Some v ∧ Nodes c !! j = Some v')
                (GetPredecessors h N) (GetPredecessors h' X))
      (Nodes g) (Nodes c).
Proof.
  intros HNb Hwf.
  destruct (FFormatterGraph_copy_copied fuel Nb h g HNb Hwf)
    as (h' & c & Hcopy & _ & _ & _ & _ & HF & _).
  assert (Hok : graph_ok Nb h g) by (destruct fuel; [done|by destruct Hwf]).
  exists h', c. split; [done|].
  apply Forall2_same_length_lookup_2; [by eapply Forall2_length|].
  intros i N X HN HX. pose proof Hok as (_ & _ & Hnodes).
  assert (HNin : N ∈ Nodes g) by (by eapply list_elem_of_lookup_2).
  destruct (Hnodes N HNin) as (_ & _ & _ & HNie & HNoe).
  destruct (Forall2_lookup_lr _ _ _ i N X HF HN HX) as (_ & _ & _ & HFie & HFoe).
  assert (Hmap : ∀ es es', Forall2 (edge_image h h' c) es es' ->
            (∀ e, e ∈ es -> ∃ m, m ∈ Nodes g ∧ To (edge h e) ∈ pins_of h m) ->
            Forall2 (λ v v', ∃ j, Nodes g !! j = Some v ∧ Nodes c !! j = Some v')
              (map (λ Edge, OwningNode (pin h (To (edge h Edge)))) es)
              (map (λ Edge, OwningNode (pin h' (To (edge h' Edge)))) es')).
  { intros es es' HFe. induction HFe as [|e e' es es' [_ Hto] HFe IH]; intros Hes.
    { constructor. }
    cbn [map]. constructor.
    - apply (full_image_target Nb h g h' c); [done|done| |done].
      apply Hes, list_elem_of_here.
    - apply IH. intros x Hx. apply Hes. by apply list_elem_of_further. }
  split.
  - apply (Hmap _ _ HFoe). intros e He. destruct (HNoe e He) as (_ & _ & m & Hm & HTo).
    exists m. split; [done|]. apply elem_of_app. by left.
  - apply (Hmap _ _ HFie). intros e He. destruct (HNie e He) as (_ & _ & m & Hm & HTo).
    exists m. split; [done|]. apply elem_of_app. by right.
Qed.

Lemma FFormatterGraph_copy_edges_witness :
  ∃ h' c, FFormatterGraph_copy 1 diamond4.1 diamond4.2 = Some (h', c) ∧
    Forall2 (λ N X,
        Forall2 (λ v v', ∃ j, Nodes diamond4.2 !! j = Some v ∧ Nodes c !! j = Some v')
                (GetSuccessors diamond4.1 N) (GetSuccessors h' X) ∧
        Forall2 (λ v v', ∃ j, Nodes diamond4.2 !! j = Some v ∧ Nodes c !! j = Some v')
                (GetPredecessors diamond4.1 N) (GetPredecessors h' X))
      (Nodes diamond4.2) (Nodes c).
Proof.
  apply (FFormatterGraph_copy_edges 1 (next diamond4.1) diamond4.1 diamond4.2).
  - lia.
  - apply wf_graphd_ok.
    apply (bool_decide_unpack (wf_graphd 1 (next diamond4.1) diamond4.1 diamond4.2)).
    vm_compute. exact I.
Defined.

(** The destructor of a graph held by value returns when the graph lies,
    with what it owns, in a range of addresses; it releases objects of that
    range only, and all the nodes of the graph. *)
Lemma FFormatterGraph_dtor_spec (d f lo hi : nat) (h : Heap) (c : FFormatterGraph) :
  graph_in (S d) lo hi h c -> d <= f ->
  ∃ h', FFormatterGraph_dtor f h c = Some h' ∧ shrinks (in_range lo hi) h h' ∧
        ∀ X, X ∈ Nodes c -> node h' X = null_node.
Proof.
  intros Hin Hdf.
  assert (Hin' : graph_in (S f) lo hi h c).
  { apply (graph_in_mono (S d) (S f) lo hi); [lia|lia|lia|done]. }
  assert (Hnull : ∀ h1 h2 X, shrinks (in_range lo hi) h1 h2 -> node h1 X = null_node ->
                             node h2 X = null_node).
  { intros h1 h2 X [_ Hs] HX. destruct (Hs X) as ([E|[_ E]] & _); [by rewrite E|done]. }
  assert (Hnodes : ∀ ns h1, shrinks (in_range lo hi) h h1 ->
            (∀ n, n ∈ ns -> n ∈ Nodes c) ->
            ∃ h2, fold_leftM (FFormatterNode_delete (FFormatterGraph_delete f)) ns h1
                  = Some h2 ∧ shrinks (in_range lo hi) h h2 ∧
                  shrinks (in_range lo hi) h1 h2 ∧
                  ∀ X, X ∈ ns -> node h2 X = null_node).
  { induction ns as [|n ns IHns]; intros h1 Hs Hns.
    { exists h1. split; [done|]. split; [done|]. split; [apply shrinks_refl|].
      intros X HX. by apply elem_of_nil in HX. }
    pose proof (graph_in_shrinks (S f) lo hi _ h h1 _ Hs Hin') as [Hn1 _].
    destruct (Hn1 n (Hns n (list_elem_of_here _ _))) as [(Hn & Hie & Hoe & Hip & Hop) Hsub].
    destruct (FFormatterNode_delete_staged (FFormatterGraph_delete f) f (in_range lo hi)
                lo hi h1 n _ _ _ _ eq_refl eq_refl eq_refl eq_refl
                (FFormatterGraph_delete_spec f lo hi) Hn Hie Hoe Hip Hop (λ a H, H) Hsub)
      as (h2 & Hd & Hs2 & Hnl).
    destruct (IHns h2) as (h3 & Hfold & Hs3 & Hs23 & Hnl3).
    - by apply (shrinks_trans _ h h1).
    - intros m Hm. by apply Hns, list_elem_of_further.
    - exists h3. cbn [fold_leftM]. rewrite Hd. cbn [mbind option_bind].
      split; [done|]. split; [done|]. split; [by apply (shrinks_trans _ h1 h2)|].
      intros X HX. apply elem_of_cons in HX as [->|HX]; [|by apply Hnl3].
      by apply (Hnull h2 h3). }
  assert (Hisos : ∀ gs h1, shrinks (in_range lo hi) h h1 ->
            (∀ i, i ∈ gs -> i ∈ IsolatedGraphs c) ->
            ∃ h2, fold_leftM (FFormatterGraph_delete f) gs h1 = Some h2 ∧
                  shrinks (in_range lo hi) h h2 ∧ shrinks (in_range lo hi) h1 h2).
  { induction gs as [|i gs IHis]; intros h1 Hs His.
    { exists h1. split; [done|]. split; [done|apply shrinks_refl]. }
    pose proof (graph_in_shrinks (S f) lo hi _ h h1 _ Hs Hin') as [_ Hi1].
    destruct (Hi1 i (His i (list_elem_of_here _ _))) as [Hir Hig].
    destruct (FFormatterGraph_delete_spec f lo hi h1 i Hir Hig) as (h2 & Hd & Hs2).
    destruct (IHis h2) as (h3 & Hfold & Hs3 & Hs23).
    - by apply (shrinks_trans _ h h1).
    - intros m Hm. by apply His, list_elem_of_further.
    - exists h3. cbn [fold_leftM]. rewrite Hd. cbn [mbind option_bind].
      split; [done|]. split; [done|]. by apply (shrinks_trans _ h1 h2). }
  destruct (Hnodes (Nodes c) h (shrinks_refl _ h) (λ n H, H)) as (h1 & Hf1 & Hs1 & _ & Hnl1).
  destruct (Hisos (IsolatedGraphs c) h1 Hs1 (λ n H, H)) as (h2 & Hf2 & Hs2 & Hs12).
  exists h2. unfold FFormatterGraph_dtor. rewrite Hf1. cbn [mbind option_bind].
  split; [done|]. split; [done|]. intros X HX. apply (Hnull h1 h2); [done|by apply Hnl1].
Qed.

(** X9.  A copy can be destroyed without harm to the original: on a
    well-formed graph, the copy constructor followed by the destructor of
    the copy returns, every node of the copy is released, and every node,
    pin, edge and owned graph that was in the store before the copy is as
    it was. *)
Theorem FFormatterGraph_copy_then_destroy (fuel Nb : nat) (h : Heap) (g : FFormatterGraph) :
  Nb <= next h -> wf_graph fuel Nb h g ->
  ∃ h' c h'', FFormatterGraph_copy fuel h g = Some (h', c) ∧
    FFormatterGraph_dtor fuel h' c = Some h'' ∧
    length (Nodes c) = length (Nodes g) ∧
    (∀ X, X ∈ Nodes c -> next h <= X ∧ node h'' X = null_node) ∧
    frame (next h) h h''.
Proof.
  intros HNb Hwf.
  destruct (FFormatterGraph_copy_copied fuel Nb h g HNb Hwf)
    as (h' & c & Hcopy & Hle & Hfr & Hin & _ & HF & _).
  destruct fuel as [|f]; [done|].
  destruct (FFormatterGraph_dtor_spec f (S f) (next h) (next h') h' c Hin)
    as (h'' & Hd & Hs & Hnull); [lia|].
  exists h', c, h''. split; [done|]. split; [done|].
  split; [symmetry; by eapply Forall2_length|]. split.
  - intros X HX. split; [|by apply Hnull].
    destruct Hin as [Hnodes _]. by destruct (Hnodes X HX) as (([? _] & _) & _).
  - apply (frame_trans (next h) (next h) h h' h''); [done| |done].
    apply (shrinks_frame (in_range (next h) (next h'))); [done|]. by intros a [? _].
Qed.

Lemma FFormatterGraph_copy_then_destroy_witness :
  ∃ h' c h'', FFormatterGraph_copy 1 diamond4.1 diamond4.2 = Some (h', c) ∧
    FFormatterGraph_dtor 1 h' c = Some h'' ∧
    length (Nodes c) = length (Nodes diamond4.2) ∧
    (∀ X, X ∈ Nodes c -> next diamond4.1 <= X ∧ node h'' X = null_node) ∧
    frame (next diamond4.1) diamond4.1 h''.
Proof.
  apply (FFormatterGraph_copy_then_destroy 1 (next diamond4.1) diamond4.1 diamond4.2).
  - lia.
  - apply wf_graphd_ok.
    apply (bool_decide_unpack (wf_graphd 1 (next diamond4.1) diamond4.1 diamond4.2)).
    vm_compute. exact I.
Defined.

(** ** RemoveCycle: the working copy *)

Lemma copy_regions_assemble (f Nb : nat) (h : Heap) (g c1 : FFormatterGraph)
    (h1 h2 h' : Heap) (c' : FFormatterGraph) :
  copy_nodes_inv f h (Nodes g) h1 c1 ->
  copy_edges_inv h g c1 h1 (length (Nodes g)) h2 -> copy_isolated_inv f c1 h2 h' c' ->
  copy_regions f h h' c' (next h1) (next h2).
Proof.
  intros Hinv1 Hinv2 (Hle3 & Hfr3 & Hc' & Hiso3).
  pose proof Hinv1 as (Hle1 & Hfr1 & Hiso1 & Hxnd & Hbl & HF & Hempty & _ & _).
  pose proof Hinv2 as (Hle2 & Hfr2 & Hpin2 & Hgraph2 & Hedge2 & Hnode2 & Hper).
  assert (HNodes : Nodes c' = Nodes c1) by (by rewrite Hc').
  assert (Hidx : ∀ X, X ∈ Nodes c1 ->
                      ∃ i N, Nodes g !! i = Some N ∧ Nodes c1 !! i = Some X).
  { intros X HX. apply list_elem_of_lookup in HX as [i HX].
    destruct (Forall2_lookup_r _ _ _ i X HF HX) as (N & HN & _). eauto. }
  assert (Hfacts : ∀ i N X, Nodes g !! i = Some N -> Nodes c1 !! i = Some X ->
    pins_of h' X = pins_of h1 X ∧ SubGraph (node h' X) = SubGraph (node h1 X) ∧
    Forall (in_range (next h1) (next h2)) (InEdges (node h' X)) ∧
    Forall (in_range (next h1) (next h2)) (OutEdges (node h' X))).
  { intros i N X HN HX.
    destruct (copy_edges_done_node f h g c1 h1 h2 i N X Hinv1 Hinv2 HN HX)
      as (_ & Hni & Eip & Eop & Esub & Hier & Hoer).
    assert (HXlt : X < next h2) by (destruct Hni as ([_ ?] & _); done).
    destruct (Hfr3 X HXlt) as (EX & _).
    unfold pins_of. rewrite EX, Eip, Eop, Esub. done. }
  split; [done|]. split; [done|]. split; [done|]. rewrite HNodes. split; [|split].
  - apply (blocks_frame f h1 h'); [done| | |].
    + intros X HX. destruct (Hidx X HX) as (i & N & HN & HXi).
      by destruct (Hfacts i N X HN HXi) as (? & ? & _).
    + intros a Ha Hnot. destruct (Hfr3 a) as (-> & _); [lia|]. by apply Hnode2.
    + intros a Ha. destruct (Hfr3 a) as (_ & _ & _ & ->); [lia|]. apply Hgraph2.
  - intros X e HX He. destruct (Hidx X HX) as (i & N & HN & HXi).
    destruct (Hfacts i N X HN HXi) as (_ & _ & Hier & Hoer).
    apply elem_of_app in He as [He|He].
    + by apply (proj1 (Forall_forall _ _) Hier) in He.
    + by apply (proj1 (Forall_forall _ _) Hoer) in He.
  - intros a Ha. by apply Hiso3.
Qed.

(** The copy constructor, with the places of the parts of the copy. *)
Lemma FFormatterGraph_copy_regions (f Nb : nat) (h : Heap) (g : FFormatterGraph) :
  Nb <= next h -> wf_graph (S f) Nb h g ->
  ∃ h' c E E2, FFormatterGraph_copy (S f) h g = Some (h', c) ∧
    copied (S f) h g h' c ∧ copy_regions f h h' c E E2.
Proof.
  intros HNb Hwf.
  assert (Hcg : copies f (FFormatterGraph_copy f)).
  { intros N h0 g0 HN Hwf0.
    destruct (FFormatterGraph_copy_copied f N h0 g0 HN Hwf0)
      as (h' & c & Hc & Hle & Hfr & Hin & _).
    by exists h', c. }
  destruct Hwf as (Hok & Hsub & Hiso).
  destruct (copy_nodes_loop f (FFormatterGraph_copy f) Nb h g Hcg HNb Hok Hsub
              (Nodes g) [] h null_graph eq_refl (copy_nodes_inv_init f h))
    as (h1 & c1 & Hloop1 & Hinv1).
  cbn [app] in Hinv1.
  destruct (copy_edges_loop f Nb h g c1 h1 HNb Hok Hinv1 (Nodes g) 0 h1 eq_refl
              (copy_edges_inv_init f h g c1 h1 Hinv1))
    as (h2 & Hloop2 & Hinv2).
  pose proof Hinv1 as (Hle1 & _ & Hiso1 & _).
  pose proof Hinv2 as (Hle2 & Hfr2 & _).
  destruct (copy_isolated_loop f (FFormatterGraph_copy f) Nb h g c1 h2 Hcg)
    with (Is := IsolatedGraphs g) (h3 := h2) (c3 := c1)
    as (h' & c' & Hloop3 & Hinv3).
  - lia.
  - by apply (frame_weaken (next h)).
  - done.
  - done.
  - by apply copy_isolated_inv_init.
  - exists h', c', (next h1), (next h2). split; [|split].
    + cbn [FFormatterGraph_copy]. rewrite Hloop1. cbn [mbind option_bind].
      rewrite Hloop2. cbn [mbind option_bind]. exact Hloop3.
    + by apply (copied_assemble f Nb h g c1 h1 h2 h' c').
    + by apply (copy_regions_assemble f Nb h g c1 h1 h2 h' c').
Qed.

(** ** Blocks of a copy *)

Lemma blocks_disjoint (d : nat) (h : Heap) (Xs : list addr) (E i j : nat) (X Y a : addr) :
  blocks d h Xs E -> Xs !! i = Some X -> Xs !! j = Some Y -> i ≠ j ->
  in_range (S X) (default E (Xs !! S i)) a -> ¬ in_range (S Y) (default E (Xs !! S j)) a.
Proof.
  intros Hbl HX HY Hij [Ha1 Ha2] [Hb1 Hb2].
  destruct (lt_eq_lt_dec i j) as [[Hlt|Heq]|Hlt]; [|done|].
  - pose proof (blocks_sorted d h Xs E i X Hbl HX j Y HY Hlt). lia.
  - pose proof (blocks_sorted d h Xs E j Y Hbl HY i X HX Hlt). lia.
Qed.

Lemma blocks_below (d : nat) (h : Heap) (Xs : list addr) (E : nat) (X : addr) :
  blocks d h Xs E -> X ∈ Xs -> X < E.
Proof.
  intros Hbl HX. apply list_elem_of_lookup in HX as [i HX].
  destruct (Hbl i X HX) as (? & ? & _). lia.
Qed.

Lemma blocks_cons_inv (d : nat) (h : Heap) (X : addr) (r : list addr) (E : nat) :
  blocks d h (X :: r) E ->
  (X < default E (head r) ∧ default E (head r) <= E ∧
   Forall (in_range (S X) (default E (head r))) (pins_of h X) ∧
   ∀ s, SubGraph (node h X) = Some s ->
        in_range (S X) (default E (head r)) s ∧
        graph_in d (S X) (default E (head r)) h (graph h s)) ∧
  blocks d h r E.
Proof.
  intros Hbl. split.
  - rewrite head_lookup. exact (Hbl 0 X eq_refl).
  - intros i Y HY. apply (Hbl (S i) Y HY).
Qed.

Lemma blocks_cons (d : nat) (h : Heap) (X : addr) (r : list addr) (E : nat) :
  (X < default E (head r) ∧ default E (head r) <= E ∧
   Forall (in_range (S X) (default E (head r))) (pins_of h X) ∧
   ∀ s, SubGraph (node h X) = Some s ->
        in_range (S X) (default E (head r)) s ∧
        graph_in d (S X) (default E (head r)) h (graph h s)) ->
  blocks d h r E -> blocks d h (X :: r) E.
Proof.
  intros Hhd Htl i Y HY. destruct i as [|i].
  - injection HY as <-. rewrite head_lookup in Hhd. exact Hhd.
  - apply (Htl i Y HY).
Qed.

(** Taking nodes out of the array leaves blocks: the block of a node grows
    over the nodes taken out after it. *)
Lemma blocks_filter (d : nat) (h : Heap) (P : addr -> Prop) `{!∀ x, Decision (P x)}
    (Xs : list addr) (E : nat) :
  blocks d h Xs E -> blocks d h (filter P Xs) E.
Proof.
  induction Xs as [|X r IH]; intros Hbl; [done|].
  apply blocks_cons_inv in Hbl as [(Hlt & HE & Hpins & Hsub) Htl].
  specialize (IH Htl). rewrite filter_cons. destruct (decide (P X)) as [HP|HP]; [|done].
  assert (Hge : default E (head r) <= default E (head (filter P r)) ∧
                default E (head (filter P r)) <= E).
  { destruct (filter P r) as [|Z r'] eqn:Ef; [cbn; lia|]. change (default E (head (Z :: r'))) with Z.
    assert (HZ : Z ∈ r).
    { assert (HZf : Z ∈ filter P r) by (rewrite Ef; apply list_elem_of_here).
      by apply list_elem_of_filter in HZf as [_ ?]. }
    split; [|pose proof (blocks_below d h r E Z Htl HZ); lia].
    apply list_elem_of_lookup in HZ as [j HZ]. destruct j as [|j].
    - rewrite head_lookup, HZ. done.
    - destruct r as [|Y r0]; [done|]. change (default E (head (Y :: r0))) with Y.
      pose proof (blocks_sorted d h (Y :: r0) E 0 Y Htl eq_refl (S j) Z HZ ltac:(lia)) as Hs.
      destruct (Htl 0 Y eq_refl) as (HYlt & _). lia. }
  apply blocks_cons; [|done]. split; [lia|]. split; [lia|]. split.
  - eapply Forall_impl; [exact Hpins|]. intros a [? ?]. split; lia.
  - intros s Hs. destruct (Hsub s Hs) as [[? ?] Hg]. split; [split; lia|].
    apply (graph_in_mono d d (S X) (default E (head r))); [lia|lia|lia|done].
Qed.

(** Blocks in a store that agrees with [h] on them; a node may have lost
    its pins and its sub-graph. *)
Lemma blocks_same (d : nat) (h h' : Heap) (Xs : list addr) (E : nat) :
  blocks d h Xs E ->
  (∀ i Y, Xs !! i = Some Y ->
     pins_of h' Y ⊆ pins_of h Y ∧
     ∀ s, SubGraph (node h' Y) = Some s ->
          SubGraph (node h Y) = Some s ∧
          ∀ a, in_range (S Y) (default E (Xs !! S i)) a ->
               node h' a = node h a ∧ graph h' a = graph h a) ->
  blocks d h' Xs E.
Proof.
  intros Hbl Hsame i Y HY. destruct (Hbl i Y HY) as (Hlt & HE & Hpins & Hsub).
  destruct (Hsame i Y HY) as [Hp Hs]. split; [done|]. split; [done|]. split.
  - apply Forall_forall. intros p Hp'. apply (proj1 (Forall_forall _ _) Hpins). by apply Hp.
  - intros s Hs'. destruct (Hs s Hs') as [Hs0 Hagree]. destruct (Hsub s Hs0) as [Hsr Hsg].
    split; [done|]. destruct (Hagree s Hsr) as [_ ->].
    by apply (graph_in_same_on d _ _ h).
Qed.

(** ** RemoveCycle: one node taken out of the working copy *)

Lemma edges_removed_refl (N0 : nat) (h : Heap) : edges_removed N0 h h.
Proof.
  intros a _. do 3 (split; [done|]).
  exists (InEdges (node h a)), (OutEdges (node h a)). by rewrite with_edges_same.
Qed.

Lemma edges_removed_trans (N0 : nat) (h1 h2 h3 : Heap) :
  edges_removed N0 h1 h2 -> edges_removed N0 h2 h3 -> edges_removed N0 h1 h3.
Proof.
  intros H12 H23 a Ha.
  destruct (H12 a Ha) as (P1 & E1 & G1 & ie1 & oe1 & N1 & Si1 & So1).
  destruct (H23 a Ha) as (P2 & E2 & G2 & ie2 & oe2 & N2 & Si2 & So2).
  split; [congruence|]. split; [congruence|]. split; [congruence|].
  destruct (with_edges_fields ie1 oe1 (node h1 a)) as (F1 & F2 & _).
  rewrite <- N1 in F1, F2. rewrite F1 in Si2. rewrite F2 in So2.
  exists ie2, oe2. split; [|split; by etrans].
  rewrite N2, N1. by destruct (node h1 a).
Qed.

Lemma frame_edges_removed (N0 : nat) (h h' : Heap) : frame N0 h h' -> edges_removed N0 h h'.
Proof.
  intros Hfr a Ha. destruct (Hfr a Ha) as (Hn & Hp & He & Hg). do 3 (split; [done|]).
  exists (InEdges (node h a)), (OutEdges (node h a)). by rewrite Hn, with_edges_same.
Qed.

Lemma array_ok_filter {A} (P : A -> Prop) `{!∀ x, Decision (P x)} (l : list A) :
  array_ok l -> array_ok (filter P l).
Proof. unfold array_ok, Num. pose proof (length_filter P l). lia. Qed.

(** [RemoveNode] on a node of the working copy returns and keeps the state
    of the loops; nothing below [N0] is changed. *)
Lemma clone_inv_RemoveNode (fuel d N0 E E2 : nat) (g : FFormatterGraph) (h : Heap)
    (c : FFormatterGraph) (X : addr) :
  d <= fuel -> clone_inv d N0 E E2 g h c -> X ∈ Nodes c ->
  ∃ h' c', RemoveNode fuel h c X = Some (h', c') ∧
    Nodes c' = RemoveAll X (Nodes c) ∧
    clone_inv d N0 E E2 g h' c' ∧ frame N0 h h' ∧
    ∀ a, a ∈ Nodes c -> a ≠ X -> node_kept h h' X a.
Proof.
  intros Hd [Hb Hok Hpair Hbl Habove Hedges Harr Hlinks Hmaps Hiso] HX.
  pose proof HX as HXi. apply list_elem_of_lookup in HXi as [i HXi].
  destruct (Hbl i X HXi) as (HXlt & HXE & HXpins & HXsub).
  set (lo := S X) in *. set (hi := default E (Nodes c !! S i)) in *.
  destruct (RemoveNode_kept_staged fuel lo hi (next h) h c X _ _ eq_refl eq_refl Hok Hpair HX)
    as (h' & c' & Hrm & HN' & HI' & Hnext & HnullX & Hnode & Hout & Hpin & Hedge & Hgraph).
  { intros s Hs. destruct (HXsub s Hs) as [Hsr Hsg]. split; [done|].
    apply (graph_in_mono d fuel lo hi lo hi); [lia|lia|lia|done]. }
  { intros a Ha Hin. by apply (blocks_avoid d h (Nodes c) E i X a Hbl HXi Hin). }
  assert (HXN : N0 <= X) by (by apply Habove).
  assert (HpinsX : ∀ p, p ∈ pins_of h X -> in_range lo hi p).
  { intros p Hp. by apply (proj1 (Forall_forall _ _) HXpins). }
  assert (Hbelow : ∀ a, a < N0 -> (a ∉ Nodes c) ∧ ¬ in_range lo hi a ∧ (a ∉ pins_of h X) ∧
                        (a ∉ InEdges (node h X) ++ OutEdges (node h X))).
  { intros a Ha. split; [intros Hin; pose proof (Habove a Hin); lia|].
    split; [intros [? ?]; unfold lo in *; lia|].
    split; [intros Hin; destruct (HpinsX a Hin); unfold lo in *; lia|].
    intros Hin. destruct (Hedges X a HX Hin). lia. }
  assert (Hhigh : ∀ a, E <= a -> (a ∉ Nodes c) ∧ ¬ in_range lo hi a ∧ (a ∉ pins_of h X)).
  { intros a Ha. split; [intros Hin; pose proof (blocks_below d h (Nodes c) E a Hbl Hin); lia|].
    split; [intros [? ?]; lia|].
    intros Hin. destruct (HpinsX a Hin). lia. }
  assert (Hkept : ∀ a, a ∈ Nodes c -> a ≠ X -> node_kept h h' X a).
  { intros a Ha HaX. pose proof Ha as Hai. apply list_elem_of_lookup in Hai as [j Hai].
    assert (Hij : j ≠ i) by (intros ->; congruence).
    destruct (Hbl j a Hai) as (_ & _ & Hapins & _).
    split; [by apply Hnode|]. split.
    - intros p Hp. apply Hpin; [by apply (graph_ok_pins_disjoint (next h) h c a X)|].
      apply (blocks_disjoint d h (Nodes c) E j i a X p Hbl Hai HXi Hij).
      by apply (proj1 (Forall_forall _ _) Hapins).
    - intros e He. apply Hedge; [by apply (graph_ok_edges_disjoint (next h) h c a X)|].
      intros [? ?]. destruct (Hedges a e Ha He). lia. }
  assert (Hin' : ∀ a, a ∈ Nodes c' -> a ∈ Nodes c ∧ a ≠ X).
  { intros a Ha. rewrite HN' in Ha. apply list_elem_of_filter in Ha as [? ?]. done. }
  exists h', c'. split; [done|]. split; [done|]. split; [split|split; [|done]].
  - by rewrite Hnext.
  - rewrite Hnext. by apply (graph_ok_remove (next h) h c X h' c').
  - rewrite HN'. apply (paired_remove (next h) h c X h'); [done..|].
    intros a Ha HaX. destruct (Hkept a Ha HaX) as (_ & _ & Hed).
    destruct (node_kept_fields h h' X a (Hkept a Ha HaX)) as (Ei & Eo & _). done.
  - rewrite HN'. apply blocks_filter. apply (blocks_same d h h' (Nodes c) E Hbl).
    intros j Y HY. destruct (decide (Y = X)) as [->|HYX].
    + unfold pins_of. rewrite HnullX. split; [cbn; apply list_subseteq_nil|].
      intros s Hs. by cbn in Hs.
    + assert (HYin : Y ∈ Nodes c) by (by eapply list_elem_of_lookup_2).
      destruct (node_kept_fields h h' X Y (Hkept Y HYin HYX))
        as (_ & _ & Eip & Eop & Esub & _).
      split; [unfold pins_of; by rewrite Eip, Eop|].
      intros s Hs. rewrite Esub in Hs. split; [done|]. intros a Ha.
      assert (Hij : j ≠ i) by (intros ->; congruence).
      pose proof (blocks_disjoint d h (Nodes c) E j i Y X a Hbl HY HXi Hij Ha) as Hna.
      assert (Haout : a ∉ Nodes c).
      { intros Hin. by apply (blocks_avoid d h (Nodes c) E j Y a Hbl HY Hin). }
      split; [by apply Hout|by apply Hgraph].
  - intros Y HY. apply Habove. by apply Hin'.
  - intros Y e HY He. destruct (Hin' Y HY) as [HYc HYX].
    destruct (node_kept_fields h h' X Y (Hkept Y HYc HYX)) as (Ei & Eo & _).
    rewrite Ei, Eo in He. apply (Hedges Y e HYc).
    apply elem_of_app in He as [He|He]; apply list_elem_of_filter in He as [_ He];
      apply elem_of_app; [by left|by right].
  - intros Y HY. destruct (Hin' Y HY) as [HYc HYX].
    destruct (node_kept_fields h h' X Y (Hkept Y HYc HYX)) as (Ei & Eo & _).
    destruct (Harr Y HYc). rewrite Ei, Eo. split; by apply array_ok_filter.
  - intros Y HY. destruct (Hin' Y HY) as [HYc HYX].
    destruct (node_kept_fields h h' X Y (Hkept Y HYc HYX))
      as (_ & _ & Eip & Eop & _ & Eg).
    destruct (Hkept Y HYc HYX) as (_ & Hpk & _).
    destruct (Hlinks Y HYc) as [Hl1 Hl2]. rewrite Eg. split; [done|].
    intros P HP. unfold pins_of in HP. rewrite Eip, Eop in HP.
    rewrite (Hpk P HP). by apply Hl2.
  - destruct Hmaps as [Hm1 Hm2]. split; [done|].
    intros k p Hk. destruct (Hm2 k p Hk) as [Hp1 Hp2]. split; [done|].
    destruct (Hbelow p Hp1) as (_ & ? & ? & _). by rewrite Hpin.
  - intros a Ha. rewrite HI' in Ha. destruct (Hiso a Ha) as [Har Hag].
    rewrite Hnext. split; [done|].
    assert (Hsame : ∀ b, in_range E2 (next h) b ->
                         node h' b = node h b ∧ graph h' b = graph h b).
    { intros b [Hb1 Hb2]. destruct (Hhigh b ltac:(lia)) as (? & ? & _).
      split; [by apply Hout|by apply Hgraph]. }
    destruct (Hsame a Har) as [_ ->].
    by apply (graph_in_same_on d E2 (next h) h h').
  - intros a Ha. destruct (Hbelow a Ha) as (? & ? & ? & ?).
    split; [by apply Hout|]. split; [by apply Hpin|]. split; [by apply Hedge|].
    by apply Hgraph.
Qed.

(** ** RemoveCycle: the edges cut in the graph being formatted *)

Lemma RemoveFirst_sublist {A} (Q : A -> bool) (l : list A) : sublist (RemoveFirst Q l) l.
Proof.
  induction l as [|x l IH]; [done|]. cbn [RemoveFirst].
  destruct (Q x); [by apply sublist_cons|by apply sublist_skip].
Qed.

Lemma with_OutEdges_as (oe : list addr) (n : FFormatterNode) :
  with_OutEdges oe n = with_InEdges (InEdges n) (with_OutEdges oe n).
Proof. by destruct n. Qed.

Lemma with_InEdges_as (ie : list addr) (n : FFormatterNode) :
  with_InEdges ie n = with_InEdges ie (with_OutEdges (OutEdges n) n).
Proof. by destruct n. Qed.

Lemma Disconnect_edges_removed (N0 : nat) (h : Heap) (this p q : addr) :
  edges_removed N0 h (Disconnect h this p q).
Proof.
  intros a _. destruct (Disconnect_funs h this p q) as (-> & -> & ->).
  do 3 (split; [done|]). rewrite node_Disconnect.
  destruct (decide (a = this)) as [->|_].
  - destruct (decide (Direction (pin h p) = EGPD_Output)).
    + eexists _, _. split; [apply with_OutEdges_as|].
      split; [done|apply RemoveFirst_sublist].
    + eexists _, _. split; [apply with_InEdges_as|].
      split; [apply RemoveFirst_sublist|done].
  - exists (InEdges (node h a)), (OutEdges (node h a)). by rewrite with_edges_same.
Qed.

Lemma graph_ok_same (N : nat) (h h' : Heap) (c : FFormatterGraph) :
  pin h' = pin h -> edge h' = edge h -> (∀ n, n ∈ Nodes c -> node h' n = node h n) ->
  graph_ok N h c -> graph_ok N h' c.
Proof.
  intros Hp He Hn (Hnd1 & Hnd2 & Hnodes). unfold graph_ok. rewrite Hp, He.
  assert (Eg : map (λ n, Guid (node h' n)) (Nodes c) = map (λ n, Guid (node h n)) (Nodes c)).
  { apply map_ext_in. intros n Hin. apply list_elem_of_In in Hin. by rewrite Hn. }
  assert (Ea : all_pins h' (Nodes c) = all_pins h (Nodes c)).
  { unfold all_pins. apply bind_ext_elem. intros n Hin. unfold pins_of. by rewrite Hn. }
  rewrite Eg, Ea. split; [done|]. split; [done|].
  intros n Hin. rewrite (Hn n Hin).
  destruct (Hnodes n Hin) as (H1 & H2 & H3 & H4 & H5).
  split; [done|]. split; [done|]. split; [done|]. split.
  - intros e Hin'. destruct (H4 e Hin') as (? & ? & m & Hm & Hto).
    split; [done|]. split; [done|]. exists m. by rewrite (Hn m Hm).
  - intros e Hin'. destruct (H5 e Hin') as (? & ? & m & Hm & Hto).
    split; [done|]. split; [done|]. exists m. by rewrite (Hn m Hm).
Qed.

Lemma edges_paired_same (h h' : Heap) (Ns : list addr) :
  edge h' = edge h -> (∀ n, n ∈ Ns -> node h' n = node h n) ->
  edges_paired h Ns -> edges_paired h' Ns.
Proof.
  intros He Hn Hpair. unfold edges_paired, out_pairs, in_pairs in *.
  rewrite (bind_ext_elem (λ n, map (edge_key h') (OutEdges (node h' n)))
                         (λ n, map (edge_key h) (OutEdges (node h n))) Ns),
          (bind_ext_elem (λ n, map (rev_key h') (InEdges (node h' n)))
                         (λ n, map (rev_key h) (InEdges (node h n))) Ns); [done| |].
  - intros n Hin. unfold rev_key. by rewrite He, Hn.
  - intros n Hin. unfold edge_key. by rewrite He, Hn.
Qed.

(** The state of the loops in a store that differs below [N0] only, and
    there in nodes only. *)
Lemma clone_inv_same (d N0 E E2 : nat) (g : FFormatterGraph) (h h' : Heap)
    (c : FFormatterGraph) :
  next h' = next h -> pin h' = pin h -> edge h' = edge h -> graph h' = graph h ->
  (∀ a, N0 <= a -> node h' a = node h a) ->
  clone_inv d N0 E E2 g h c -> clone_inv d N0 E E2 g h' c.
Proof.
  intros Hnx Hp He Hg Hn [Hb Hok Hpair Hbl Habove Hedges Harr Hlinks Hmaps Hiso].
  assert (Hnc : ∀ n, n ∈ Nodes c -> node h' n = node h n).
  { intros n Hin. apply Hn. by apply Habove. }
  split.
  - by rewrite Hnx.
  - rewrite Hnx. by apply (graph_ok_same (next h) h h' c).
  - by apply (edges_paired_same h h').
  - apply (blocks_same d h h' (Nodes c) E Hbl). intros j Y HY.
    assert (HYin : Y ∈ Nodes c) by (by eapply list_elem_of_lookup_2).
    unfold pins_of. rewrite (Hnc Y HYin). split; [done|].
    intros s Hs. split; [done|]. intros a [Ha _]. rewrite Hg. split; [|done].
    apply Hn. pose proof (Habove Y HYin). lia.
  - done.
  - intros Y e HY. rewrite (Hnc Y HY). by apply Hedges.
  - intros Y HY. rewrite (Hnc Y HY). by apply Harr.
  - intros Y HY. unfold pins_of. rewrite (Hnc Y HY), Hp. by apply Hlinks.
  - by rewrite Hp.
  - intros i Hi. rewrite Hnx, Hg. destruct (Hiso i Hi) as [Hir Hig]. split; [done|].
    apply (graph_in_same_on d E2 (next h) h h'); [|done].
    intros a [Ha _]. rewrite Hg. split; [|done]. apply Hn. lia.
Qed.

(** The [for] loop over the in-edges of the median node finds every pin
    and node it looks up, and it changes nodes below [N0] only, taking
    edges out of their arrays. *)
Lemma RemoveCycle_cut_loop (d N0 E E2 : nat) (g : FFormatterGraph) (h : Heap)
    (c : FFormatterGraph) (M : addr) :
  clone_inv d N0 E E2 g h c -> M ∈ Nodes c ->
  ∀ es h1, es ⊆ InEdges (node h M) ->
    next h1 = next h -> pin h1 = pin h -> edge h1 = edge h -> graph h1 = graph h ->
    (∀ a, N0 <= a -> node h1 a = node h a) ->
    ∃ hc, fold_leftM (RemoveCycle_cut g M) es h1 = Some hc ∧
      next hc = next h ∧ pin hc = pin h ∧ edge hc = edge h ∧ graph hc = graph h ∧
      (∀ a, N0 <= a -> node hc a = node h a) ∧ edges_removed N0 h1 hc.
Proof.
  intros [Hb Hok Hpair Hbl Habove Hedges Harr Hlinks Hmaps Hiso] HM.
  pose proof Hok as (_ & _ & Hnodes).
  destruct (Hnodes M HM) as (_ & _ & _ & HMie & _).
  destruct (Hlinks M HM) as [HlM HlMp]. destruct Hmaps as [Hm1 Hm2].
  induction es as [|e es IH]; intros h1 Hsub Hnx Hp He Hg Hn.
  { exists h1. cbn [fold_leftM]. do 6 (split; [done|]). apply edges_removed_refl. }
  assert (Hin : e ∈ InEdges (node h M)) by (apply Hsub, list_elem_of_here).
  destruct (HMie e Hin) as (_ & HF & m & Hm & HT).
  destruct (HlMp (From (edge h e))) as [F EF]; [apply elem_of_app; by left|].
  destruct (Hlinks m Hm) as [_ Hlm].
  destruct (Hlm (To (edge h e))) as [T ET]; [apply elem_of_app; by right|].
  destruct HlM as [n En].
  pose proof (Hm1 _ _ En) as Hnlt. cbn beta in Hnlt. destruct (Hm2 _ _ ET) as [_ Holt].
  set (h2 := Disconnect (Disconnect h1 n F T) (OwningNode (pin h T)) T F).
  destruct (Disconnect_funs h1 n F T) as (Fp & Fe & Fg).
  destruct (Disconnect_funs (Disconnect h1 n F T) (OwningNode (pin h T)) T F)
    as (Gp & Ge & Gg).
  assert (Hstep : RemoveCycle_cut g M h1 e = Some h2).
  { unfold RemoveCycle_cut.
    rewrite Hp, He, (Hn M (Habove M HM)), EF, ET, En. cbn [mbind option_bind].
    by rewrite Fp, Hp. }
  cbn [fold_leftM]. rewrite Hstep. cbn [mbind option_bind].
  destruct (IH h2) as (hc & Hfold & Hnx' & Hp' & He' & Hg' & Hn' & Hrem).
  - intros x Hx. apply Hsub. by apply list_elem_of_further.
  - unfold h2. by rewrite !next_Disconnect.
  - unfold h2. by rewrite Gp, Fp.
  - unfold h2. by rewrite Ge, Fe.
  - unfold h2. by rewrite Gg, Fg.
  - intros a Ha. unfold h2. rewrite !node_Disconnect.
    destruct (decide (a = OwningNode (pin h T))); [lia|].
    destruct (decide (a = n)); [lia|]. by apply Hn.
  - exists hc. split; [done|]. do 5 (split; [done|]).
    apply (edges_removed_trans N0 h1 h2 hc); [|done].
    apply (edges_removed_trans N0 h1 (Disconnect h1 n F T) h2);
      apply Disconnect_edges_removed.
Qed.

(** ** RemoveCycle: the working copy at the start of the loops *)

Lemma edge_image_keys (h h' : Heap) (c : FFormatterGraph) (es es' : list addr) :
  Forall2 (edge_image h h' c) es es' ->
  let φ p := default 0 (PinsMap c !! PinGuid (pin h p)) in
  map (edge_key h') es' = map (prod_map φ φ) (map (edge_key h) es) ∧
  map (rev_key h') es' = map (prod_map φ φ) (map (rev_key h) es).
Proof.
  intros HF φ. induction HF as [|e e' es es' [HFr HTo] _ [IH1 IH2]]; [done|].
  cbn [map]. rewrite IH1, IH2. unfold edge_key, rev_key, prod_map, φ. cbn [fst snd].
  by rewrite HFr, HTo.
Qed.

Lemma full_image_pairs (h h' : Heap) (c : FFormatterGraph) (Ns Xs : list addr) :
  Forall2 (full_image h h' c) Ns Xs ->
  let φ p := default 0 (PinsMap c !! PinGuid (pin h p)) in
  out_pairs h' Xs = map (prod_map φ φ) (out_pairs h Ns) ∧
  in_pairs h' Xs = map (prod_map φ φ) (in_pairs h Ns).
Proof.
  intros HF φ. unfold out_pairs, in_pairs.
  induction HF as [|N X Ns Xs (_ & _ & _ & Hie & Hoe) _ [IH1 IH2]]; [done|].
  rewrite !bind_cons, !map_app, IH1, IH2.
  destruct (edge_image_keys h h' c _ _ Hoe) as [-> _].
  destruct (edge_image_keys h h' c _ _ Hie) as [_ ->]. done.
Qed.

(** The copy of a graph whose edges are recorded at both ends, and whose
    maps know its nodes and pins, is in the state of the loops. *)
Lemma clone_inv_initial (f Nb : nat) (h : Heap) (g : FFormatterGraph) :
  Nb <= next h -> wf_graph (S f) Nb h g -> maps_ok Nb h g ->
  edges_paired h (Nodes g) ->
  (∀ n, n ∈ Nodes g -> array_ok (OutEdges (node h n)) ∧ array_ok (InEdges (node h n))) ->
  ∃ h' c E E2, FFormatterGraph_copy (S f) h g = Some (h', c) ∧
    clone_inv f (next h) E E2 g h' c ∧ frame (next h) h h' ∧
    length (Nodes c) = length (Nodes g) ∧
    Forall2 (full_image h h' c) (Nodes g) (Nodes c).
Proof.
  intros HNb Hwf (Hmn & Hmp & Hvn & Hvp) Hpair Harr.
  destruct (FFormatterGraph_copy_regions f Nb h g HNb Hwf)
    as (h' & c & E & E2 & Hcopy & Hcopied & Hreg).
  destruct Hcopied as (Hnx & Hfr & Hgin & Hok & HF & _).
  destruct Hreg as (HE & HE2 & HE3 & Hbl & Hedges & Hiso).
  exists h', c, E, E2. split; [done|]. split; [|split; [done|split; [|done]]].
  2: { symmetry. by apply (Forall2_length _ _ _ HF). }
  assert (Himg : ∀ Y, Y ∈ Nodes c -> ∃ N, N ∈ Nodes g ∧ full_image h h' c N Y).
  { intros Y HY. apply list_elem_of_lookup in HY as [i HY].
    destruct (Forall2_lookup_r _ _ _ _ _ HF HY) as (N & HN & Him).
    exists N. split; [by eapply list_elem_of_lookup_2|done]. }
  assert (Hpimg : ∀ Y Ps Ps' P', Forall2 (pin_image h h' c Y) Ps Ps' -> P' ∈ Ps' ->
                    ∃ P, P ∈ Ps ∧ PinGuid (pin h' P') = PinGuid (pin h P)).
  { intros Y Ps Ps' P' HFp HP'. apply list_elem_of_lookup in HP' as [i HP'].
    destruct (Forall2_lookup_r _ _ _ _ _ HFp HP') as (P & HP & [Hmir _]).
    exists P. split; [by eapply list_elem_of_lookup_2|].
    unfold mirror_pin in Hmir. by rewrite Hmir. }
  split.
  - done.
  - done.
  - unfold edges_paired. destruct (full_image_pairs h h' c _ _ HF) as [-> ->].
    by apply Permutation_map.
  - done.
  - intros Y HY. cbn [graph_in] in Hgin. destruct Hgin as [Hnodes _].
    destruct (Hnodes Y HY) as [([? _] & _) _]. done.
  - done.
  - intros Y HY. destruct (Himg Y HY) as (N & HN & (_ & _ & _ & Hie & Hoe)).
    destruct (Harr N HN) as [Ho Hi]. unfold array_ok, Num in *.
    rewrite <- (Forall2_length _ _ _ Hie), <- (Forall2_length _ _ _ Hoe). done.
  - intros Y HY. destruct (Himg Y HY) as (N & HN & (Hg & Hip & Hop & _)).
    rewrite Hg. split; [by apply (proj1 (Forall_forall _ _) Hmn)|].
    intros P' HP'.
    assert (HP : ∃ P, P ∈ pins_of h N ∧ PinGuid (pin h' P') = PinGuid (pin h P)).
    { apply elem_of_app in HP' as [HP'|HP'].
      - destruct (Hpimg Y _ _ P' Hip HP') as (P & HP & HPg).
        exists P. split; [apply elem_of_app; by left|done].
      - destruct (Hpimg Y _ _ P' Hop HP') as (P & HP & HPg).
        exists P. split; [apply elem_of_app; by right|done]. }
    destruct HP as (P & HP & ->). apply (proj1 (Forall_forall _ _) Hmp).
    unfold all_pins. apply list_elem_of_bind. by exists N.
  - split.
    + intros k n Hk. pose proof (Hvn k n Hk) as Hlt. cbn beta in Hlt. lia.
    + intros k p Hk. destruct (Hvp k p Hk) as [Hlt Ho].
      destruct (Hfr p ltac:(lia)) as (_ & -> & _). split; lia.
  - done.
Qed.

(** ** RemoveCycle returns *)

Lemma FindSourceNode_member (h : Heap) (g : FFormatterGraph) (X : addr) :
  FindSourceNode h g = Some X -> X ∈ Nodes g.
Proof.
  unfold FindSourceNode. intros Hf. apply find_some in Hf as [Hin _].
  by apply list_elem_of_In.
Qed.

Lemma FindSinkNode_member (h : Heap) (g : FFormatterGraph) (X : addr) :
  FindSinkNode h g = Some X -> X ∈ Nodes g.
Proof.
  unfold FindSinkNode. intros Hf. apply find_some in Hf as [Hin _].
  by apply list_elem_of_In.
Qed.

(** [FindMedianNode] returns a node of the graph, and it returns null on
    the empty graph only, when the edges are recorded at both ends. *)
Lemma FindMedianNode_cases (h : Heap) (g : FFormatterGraph) :
  edges_paired h (Nodes g) ->
  (∀ n, n ∈ Nodes g -> array_ok (OutEdges (node h n)) ∧ array_ok (InEdges (node h n))) ->
  match FindMedianNode h g with
  | Some m => m ∈ Nodes g
  | None => Nodes g = []
  end.
Proof.
  intros Hpair Hok.
  pose proof (FindMedianNode_scan h g) as Hinv. unfold FindMedianNode.
  destruct (fold_left _ (Nodes g) (None, 0%Z)) as [r M].
  destruct Hinv as (_ & _ & Hr). cbn [fst snd] in *. destruct r as [m|].
  - destruct Hr as (i & Hi & _). by eapply list_elem_of_lookup_2.
  - destruct Hr as (_ & Hneg). destruct (decide (Nodes g = [])) as [|Hne]; [done|].
    exfalso. pose proof (out_pairs_length_lt h (Nodes g) Hne) as Hlt.
    unfold edges_paired in Hpair. rewrite (Permutation_length Hpair) in Hlt.
    apply (Nat.lt_irrefl (length (in_pairs h (Nodes g)))), Hlt.
    intros n Hn. destruct (Hok n Hn). rewrite <- DegreeDiff_exact; [|done..].
    by apply Hneg.
Qed.

Lemma RemoveAll_length_lt `{EqDecision A} (x : A) (l : list A) :
  x ∈ l -> length (RemoveAll x l) < length l.
Proof.
  unfold RemoveAll. induction l as [|y l IH]; intros Hin; [by apply elem_of_nil in Hin|].
  rewrite filter_cons. destruct (decide (y ≠ x)) as [Hne|Heq].
  - cbn [length]. apply elem_of_cons in Hin as [->|Hin]; [done|].
    specialize (IH Hin). lia.
  - cbn [length]. pose proof (length_filter (λ y, y ≠ x) l). lia.
Qed.

(** The first two loops: each round takes a node out of the working copy,
    so the loop ends within as many rounds as the copy has nodes, plus the
    round that finds none. *)
Lemma RemoveCycle_peel_returns (Find_ : Heap -> FFormatterGraph -> option addr)
    (fuel d N0 E E2 : nat) (g : FFormatterGraph) :
  d <= fuel -> (∀ h c X, Find_ h c = Some X -> X ∈ Nodes c) ->
  ∀ k h c, length (Nodes c) < k -> clone_inv d N0 E E2 g h c ->
    ∃ h' c', RemoveCycle_peel Find_ fuel k h c = Some (h', c') ∧
      clone_inv d N0 E E2 g h' c' ∧ length (Nodes c') <= length (Nodes c) ∧
      frame N0 h h'.
Proof.
  intros Hd Hfind. induction k as [|k IH]; intros h c Hk Hinv; [lia|].
  cbn [RemoveCycle_peel]. destruct (Find_ h c) as [X|] eqn:EX.
  - destruct (clone_inv_RemoveNode fuel d N0 E E2 g h c X Hd Hinv (Hfind h c X EX))
      as (h1 & c1 & -> & HN1 & Hinv1 & Hfr1 & _).
    cbn [mbind option_bind].
    pose proof (RemoveAll_length_lt X (Nodes c) (Hfind h c X EX)) as Hlt.
    rewrite <- HN1 in Hlt.
    destruct (IH h1 c1 ltac:(lia) Hinv1) as (h' & c' & Hrun & Hinv' & Hlen & Hfr').
    exists h', c'. split; [done|]. split; [done|]. split; [lia|].
    by apply (frame_trans N0 N0 h h1 h').
  - exists h, c. split; [done|]. split; [done|]. split; [done|]. apply frame_refl.
Qed.

(** The third loop: on a working copy that is not empty [FindMedianNode]
    finds a node, the edges cut are found in the graph being formatted,
    and the node leaves the working copy; the loop ends with an empty
    working copy. *)
Lemma RemoveCycle_medians_returns (fuel d N0 E E2 : nat) (g : FFormatterGraph) :
  d <= fuel ->
  ∀ k h c, length (Nodes c) < k -> clone_inv d N0 E E2 g h c ->
    ∃ h' c', RemoveCycle_medians fuel k h g c = Some (h', c') ∧
      clone_inv d N0 E E2 g h' c' ∧ Nodes c' = [] ∧ edges_removed N0 h h'.
Proof.
  intros Hd. induction k as [|k IH]; intros h c Hk Hinv; [lia|].
  cbn [RemoveCycle_medians].
  pose proof (FindMedianNode_cases h c (ci_paired _ _ _ _ _ _ _ Hinv)
                (ci_arrays _ _ _ _ _ _ _ Hinv)) as Hcases.
  destruct (FindMedianNode h c) as [M|].
  - destruct (RemoveCycle_cut_loop d N0 E E2 g h c M Hinv Hcases (InEdges (node h M)) h)
      as (hc & -> & Hnx & Hp & He & Hg & Hn & Hrem); [done..|].
    cbn [mbind option_bind].
    pose proof (clone_inv_same d N0 E E2 g h hc c Hnx Hp He Hg Hn Hinv) as Hinvc.
    destruct (clone_inv_RemoveNode fuel d N0 E E2 g hc c M Hd Hinvc Hcases)
      as (h1 & c1 & -> & HN1 & Hinv1 & Hfr1 & _).
    cbn [mbind option_bind].
    pose proof (RemoveAll_length_lt M (Nodes c) Hcases) as Hlt. rewrite <- HN1 in Hlt.
    destruct (IH h1 c1 ltac:(lia) Hinv1) as (h' & c' & Hrun & Hinv' & Hnil & Hrem').
    exists h', c'. split; [done|]. split; [done|]. split; [done|].
    apply (edges_removed_trans N0 h hc h'); [done|].
    apply (edges_removed_trans N0 hc h1 h'); [by apply frame_edges_removed|done].
  - exists h, c. split; [done|]. split; [done|]. split; [done|]. apply edges_removed_refl.
Qed.

(** X11.  [RemoveCycle] returns on every well-formed graph whose edges are
    recorded at both ends and whose maps know its nodes and pins, cyclic or
    not: each round of its three loops takes a node out of the working
    copy, the last loop ends when the copy has no node left, and the copy
    is then released.  In the store it was given, [RemoveCycle] only takes
    edges out of the edge arrays of nodes: it adds no edge, reorders none,
    and changes no pin, edge or owned graph. *)
Theorem RemoveCycle_returns (f Nb : nat) (h : Heap) (g : FFormatterGraph) :
  Nb <= next h -> wf_graph (S f) Nb h g -> maps_ok Nb h g ->
  edges_paired h (Nodes g) ->
  (∀ n, n ∈ Nodes g -> array_ok (OutEdges (node h n)) ∧ array_ok (InEdges (node h n))) ->
  length (Nodes g) <= f ->
  ∃ h1 c h2, RemoveCycle_run (S f) h g = Some (h1, c) ∧ Nodes c = [] ∧
    RemoveCycle (S f) h g = Some h2 ∧ edges_removed (next h) h h2.
Proof.
  intros HNb Hwf Hmaps Hpair Harr Hlen.
  destruct (clone_inv_initial f Nb h g HNb Hwf Hmaps Hpair Harr)
    as (h0 & c0 & E & E2 & Hcopy & Hinv0 & Hfr0 & Hlen0 & _).
  destruct (RemoveCycle_peel_returns FindSourceNode (S f) f (next h) E E2 g
              ltac:(lia) FindSourceNode_member (S f) h0 c0 ltac:(lia) Hinv0)
    as (ha & ca & Hpa & Hinva & Hlena & Hfra).
  destruct (RemoveCycle_peel_returns FindSinkNode (S f) f (next h) E E2 g
              ltac:(lia) FindSinkNode_member (S f) ha ca ltac:(lia) Hinva)
    as (hb & cb & Hpb & Hinvb & Hlenb & Hfrb).
  destruct (RemoveCycle_medians_returns (S f) f (next h) E E2 g ltac:(lia)
              (S f) hb cb ltac:(lia) Hinvb)
    as (h1 & c & Hmed & Hinv1 & Hnil & Hrem).
  assert (Hrun : RemoveCycle_run (S f) h g = Some (h1, c)).
  { unfold RemoveCycle_run. rewrite Hcopy. cbn [mbind option_bind].
    rewrite Hpa. cbn [mbind option_bind]. rewrite Hpb. cbn [mbind option_bind]. done. }
  destruct Hinv1 as [Hb _ _ _ _ _ _ _ _ Hiso].
  destruct (FFormatterGraph_dtor_spec f (S f) E2 (next h1) h1 c) as (h2 & Hdtor & Hsh & _).
  { cbn [graph_in]. rewrite Hnil. split; [|done]. intros n Hn. by apply elem_of_nil in Hn. }
  { lia. }
  exists h1, c, h2. split; [done|]. split; [done|]. split.
  { unfold RemoveCycle. rewrite Hrun. cbn [mbind option_bind]. done. }
  apply (edges_removed_trans (next h) h h0 h2); [by apply frame_edges_removed|].
  apply (edges_removed_trans (next h) h0 ha h2); [by apply frame_edges_removed|].
  apply (edges_removed_trans (next h) ha hb h2); [by apply frame_edges_removed|].
  apply (edges_removed_trans (next h) hb h1 h2); [done|].
  apply frame_edges_removed. apply (shrinks_frame (in_range E2 (next h1)) (next h) h1 h2 Hsh).
  intros a [Ha _]. lia.
Qed.

Lemma RemoveCycle_returns_witness :
  ∃ h1 c h2, RemoveCycle_run 4 cycle3.1 cycle3.2 = Some (h1, c) ∧ Nodes c = [] ∧
    RemoveCycle 4 cycle3.1 cycle3.2 = Some h2 ∧
    edges_removed (next cycle3.1) cycle3.1 h2.
Proof.
  apply (RemoveCycle_returns 3 (next cycle3.1) cycle3.1 cycle3.2).
  - reflexivity.
  - apply wf_graphd_ok.
    apply (bool_decide_unpack (wf_graphd 4 (next cycle3.1) cycle3.1 cycle3.2)).
    vm_compute. exact I.
  - apply (bool_decide_unpack (maps_ok (next cycle3.1) cycle3.1 cycle3.2)).
    vm_compute. exact I.
  - apply permb_sound. vm_compute. reflexivity.
  - intros n Hn.
    assert (E : Nodes cycle3.2 = [1; 4; 7]) by (vm_compute; reflexivity).
    rewrite E in Hn. list_cases Hn; split; by vm_compute.
  - vm_compute. lia.
Defined.

(** ** Lists read through two key functions *)

Lemma NoDup_fmap_inj {A B} (f : A -> B) (l : list A) (x y : A) :
  NoDup (map f l) -> x ∈ l -> y ∈ l -> f x = f y -> x = y.
Proof.
  induction l as [|z l IH]; intros Hnd Hx Hy Hxy; [by apply elem_of_nil in Hx|].
  cbn [map] in Hnd. apply NoDup_cons in Hnd as [Hz Hnd].
  apply elem_of_cons in Hx as [->|Hx]; apply elem_of_cons in Hy as [->|Hy].
  - done.
  - destruct Hz. rewrite Hxy. apply list_elem_of_fmap. by exists y.
  - destruct Hz. rewrite <- Hxy. apply list_elem_of_fmap. by exists x.
  - by apply IH.
Qed.

Lemma map_filter_rel {A A' K} (κ' : A' -> K) (κ : A -> K)
    (P' : A' -> Prop) `{!∀ x, Decision (P' x)} (P : A -> Prop) `{!∀ x, Decision (P x)}
    (L' : list A') :
  ∀ L, map κ' L' = map κ L ->
    (∀ e' e, e' ∈ L' -> e ∈ L -> κ' e' = κ e -> (P' e' <-> P e)) ->
    map κ' (filter P' L') = map κ (filter P L).
Proof.
  induction L' as [|e' L' IH]; intros [|e L] Hmap Hrel; try done.
  cbn [map] in Hmap. injection Hmap as Hk Hmap.
  pose proof (Hrel e' e (list_elem_of_here _ _) (list_elem_of_here _ _) Hk) as Hiff.
  assert (Hrest : map κ' (filter P' L') = map κ (filter P L)).
  { apply IH; [done|]. intros x' x Hx' Hx. apply Hrel; by apply list_elem_of_further. }
  rewrite !filter_cons.
  destruct (decide (P' e')) as [HP'|HP']; destruct (decide (P e)) as [HP|HP];
    [cbn [map]; by rewrite Hk, Hrest|tauto|tauto|done].
Qed.

Lemma RemoveFirst_ext_elem {A} (P Q : A -> bool) (l : list A) :
  (∀ x, x ∈ l -> P x = Q x) -> RemoveFirst P l = RemoveFirst Q l.
Proof.
  induction l as [|x l IH]; intros Hext; [done|]. cbn [RemoveFirst].
  rewrite (Hext x (list_elem_of_here _ _)), IH; [done|].
  intros y Hy. apply Hext. by apply list_elem_of_further.
Qed.

Lemma remove_keys_ext_elem {A K} `{EqDecision K} (κ κ2 : A -> K) (ks : list K) :
  ∀ L, (∀ x, x ∈ L -> κ x = κ2 x) -> remove_keys κ ks L = remove_keys κ2 ks L.
Proof.
  induction ks as [|k ks IH]; intros L Hext; [done|].
  change (remove_keys κ (k :: ks) L)
    with (remove_keys κ ks (RemoveFirst (λ x, bool_decide (κ x = k)) L)).
  change (remove_keys κ2 (k :: ks) L)
    with (remove_keys κ2 ks (RemoveFirst (λ x, bool_decide (κ2 x = k)) L)).
  rewrite (RemoveFirst_ext_elem (λ x, bool_decide (κ x = k)) (λ x, bool_decide (κ2 x = k)) L).
  - apply IH. intros x Hx. apply Hext.
    by apply (RemoveFirst_sub (λ x, bool_decide (κ2 x = k)) L).
  - intros x Hx. by rewrite (Hext x Hx).
Qed.

Lemma filter_all {A} (P : A -> Prop) `{!∀ x, Decision (P x)} (l : list A) :
  (∀ x, x ∈ l -> P x) -> filter P l = l.
Proof.
  induction l as [|x l IH]; intros Hall; [done|].
  rewrite filter_cons_True by (apply Hall, list_elem_of_here).
  rewrite IH; [done|]. intros y Hy. apply Hall. by apply list_elem_of_further.
Qed.

Lemma Forall2_impl_elem {A B} (R R' : A -> B -> Prop) (l1 : list A) (l2 : list B) :
  Forall2 R l1 l2 -> (∀ x y, x ∈ l1 -> y ∈ l2 -> R x y -> R' x y) -> Forall2 R' l1 l2.
Proof.
  induction 1 as [|a b l1 l2 Hab HF IH]; intros Himp; constructor.
  - apply Himp; [apply list_elem_of_here..|done].
  - apply IH. intros x y Hx Hy. apply Himp; by apply list_elem_of_further.
Qed.

(** Two lists related position by position, each without its element at
    one position. *)
Lemma Forall2_RemoveAll {A B} `{EqDecision A} `{EqDecision B} (R R' : A -> B -> Prop)
    (l1 : list A) (l2 : list B) :
  Forall2 R l1 l2 -> NoDup l1 -> NoDup l2 ->
  ∀ i N X, l1 !! i = Some N -> l2 !! i = Some X ->
    (∀ a b, a ∈ l1 -> b ∈ l2 -> a ≠ N -> b ≠ X -> R a b -> R' a b) ->
    Forall2 R' (RemoveAll N l1) (RemoveAll X l2).
Proof.
  unfold RemoveAll. induction 1 as [|a b l1 l2 Hab HF IH]; intros Hnd1 Hnd2 i N X HN HX Himp.
  { constructor. }
  apply NoDup_cons in Hnd1 as [Ha Hnd1]. apply NoDup_cons in Hnd2 as [Hb Hnd2].
  destruct i as [|i].
  - injection HN as <-. injection HX as <-.
    rewrite !filter_cons_False by (intros Hne; by apply Hne).
    rewrite !filter_all; [|intros x Hx ->; done|intros x Hx ->; done].
    apply (Forall2_impl_elem R R' l1 l2 HF).
    intros x y Hx Hy Hxy. apply Himp; [by apply list_elem_of_further..| | |done].
    + intros ->. done.
    + intros ->. done.
  - cbn in HN, HX.
    assert (HaN : a ≠ N) by (intros ->; apply Ha; by eapply list_elem_of_lookup_2).
    assert (HbX : b ≠ X) by (intros ->; apply Hb; by eapply list_elem_of_lookup_2).
    rewrite !filter_cons_True by done. constructor.
    + apply Himp; [apply list_elem_of_here..|done|done|done].
    + apply (IH Hnd1 Hnd2 i N X HN HX). intros x y Hx Hy. apply Himp; by apply list_elem_of_further.
Qed.

Lemma RemoveFirst_none {A} (P : A -> bool) (l : list A) :
  (∀ x, x ∈ l -> P x = false) -> RemoveFirst P l = l.
Proof.
  induction l as [|x l IH]; intros Hno; [done|]. cbn [RemoveFirst].
  rewrite (Hno x (list_elem_of_here _ _)), IH; [done|].
  intros y Hy. apply Hno. by apply list_elem_of_further.
Qed.

Lemma RemoveFirst_key_Permutation {A K} `{EqDecision K} (κ : A -> K) (k : K) (L : list A) :
  k ∈ map κ L -> map κ L ≡ₚ k :: map κ (RemoveFirst (λ x, bool_decide (κ x = k)) L).
Proof.
  induction L as [|x L IH]; intros Hk; [by apply elem_of_nil in Hk|].
  cbn [map RemoveFirst]. case_bool_decide as Hx.
  - by rewrite Hx.
  - cbn [map] in Hk. apply elem_of_cons in Hk as [Hk|Hk]; [by destruct Hx|].
    cbn [map]. rewrite (IH Hk) at 1. apply Permutation_swap.
Qed.

Lemma RemoveFirst_key_none {A K} `{EqDecision K} (κ : A -> K) (k : K) (L : list A) :
  k ∉ map κ L -> RemoveFirst (λ x, bool_decide (κ x = k)) L = L.
Proof.
  intros Hk. apply RemoveFirst_none. intros x Hx. apply bool_decide_eq_false.
  intros Hxk. apply Hk. apply list_elem_of_fmap. by exists x.
Qed.

(** One element less in the list of one node is one element less in the
    list of all nodes. *)
Lemma bind_update_Permutation {A B} `{EqDecision A} (f f' : A -> list B) (k : B)
    (Ns : list A) (X : A) :
  NoDup Ns -> X ∈ Ns -> (∀ n, n ∈ Ns -> n ≠ X -> f' n = f n) -> f X ≡ₚ k :: f' X ->
  Ns ≫= f ≡ₚ k :: (Ns ≫= f').
Proof.
  induction Ns as [|n Ns IH]; intros Hnd HX Hsame HfX; [by apply elem_of_nil in HX|].
  apply NoDup_cons in Hnd as [Hn Hnd]. rewrite !bind_cons.
  destruct (decide (n = X)) as [->|Hne].
  - rewrite HfX. cbn [app].
    rewrite (bind_ext_elem f f' Ns); [done|].
    intros m Hm. symmetry. apply Hsame; [by apply list_elem_of_further|].
    intros ->. done.
  - apply elem_of_cons in HX as [->|HX]; [done|].
    rewrite (Hsame n (list_elem_of_here _ _) Hne).
    rewrite (IH Hnd HX); [|intros m Hm; apply Hsame; by apply list_elem_of_further|done].
    by rewrite Permutation_middle.
Qed.

(** ** Pairs of edges taken out at both ends *)

Lemma edges_paired_same_on (h h' : Heap) (Ns : list addr) :
  (∀ n, n ∈ Ns -> node h' n = node h n) ->
  (∀ n e, n ∈ Ns -> e ∈ InEdges (node h n) ++ OutEdges (node h n) -> edge h' e = edge h e) ->
  edges_paired h Ns -> edges_paired h' Ns.
Proof.
  intros Hn He Hpair. unfold edges_paired, out_pairs, in_pairs in *.
  rewrite (bind_ext_elem (λ n, map (edge_key h') (OutEdges (node h' n)))
                         (λ n, map (edge_key h) (OutEdges (node h n))) Ns),
          (bind_ext_elem (λ n, map (rev_key h') (InEdges (node h' n)))
                         (λ n, map (rev_key h) (InEdges (node h n))) Ns); [done| |].
  - intros n Hin. rewrite (Hn n Hin). apply map_ext_in. intros e Hine.
    apply list_elem_of_In in Hine. unfold rev_key. rewrite (He n e Hin); [done|].
    apply elem_of_app. by left.
  - intros n Hin. rewrite (Hn n Hin). apply map_ext_in. intros e Hine.
    apply list_elem_of_In in Hine. unfold edge_key. rewrite (He n e Hin); [done|].
    apply elem_of_app. by right.
Qed.

(** The two [Disconnect] of one round of the cut, for an input pin [F] of
    the node [Nm] and an output pin [T]: the edge between the two pins
    leaves the in-edges of [Nm] and the out-edges of the owner of [T], or
    it is in neither; the edges stay recorded at both ends. *)
Lemma cut_step_paired (Nb : nat) (h : Heap) (g : FFormatterGraph) (Nm Nt F T : addr) :
  graph_ok Nb h g -> edges_paired h (Nodes g) -> Nm ∈ Nodes g -> Nt ∈ Nodes g ->
  F ∈ InPins (node h Nm) -> T ∈ OutPins (node h Nt) ->
  edges_paired (Disconnect (Disconnect h Nm F T) (OwningNode (pin h T)) T F) (Nodes g).
Proof.
  intros Hok Hpair HNm HNt HF HT. pose proof Hok as (_ & _ & Hnodes).
  pose proof (graph_ok_NoDup Nb h g Hok) as Hnd.
  destruct (Hnodes Nm HNm) as (_ & Hip & _ & _ & _). destruct (Hip F HF) as (_ & HdF & _).
  destruct (Hnodes Nt HNt) as (_ & _ & Hop & _ & _).
  destruct (Hop T HT) as (_ & HdT & HoT). rewrite HoT.
  set (h1 := Disconnect h Nm F T). set (h2 := Disconnect h1 Nt T F).
  destruct (Disconnect_funs h Nm F T) as (Fp & Fe & _). fold h1 in Fp, Fe.
  destruct (Disconnect_funs h1 Nt T F) as (Gp & Ge & _). fold h2 in Gp, Ge.
  assert (Hpred : ∀ (p q : addr) l,
            RemoveFirst (λ Edge, bool_decide (From (edge h Edge) = p ∧ To (edge h Edge) = q)) l
            = RemoveFirst (λ x, bool_decide (edge_key h x = (p, q))) l).
  { intros p q l. apply RemoveFirst_ext. intros x. apply bool_decide_ext. unfold edge_key.
    split; [intros [-> ->]; done|intros [= -> ->]; done]. }
  assert (Hpred' : ∀ (p q : addr) l,
            RemoveFirst (λ Edge, bool_decide (From (edge h Edge) = p ∧ To (edge h Edge) = q)) l
            = RemoveFirst (λ x, bool_decide (rev_key h x = (q, p))) l).
  { intros p q l. apply RemoveFirst_ext. intros x. apply bool_decide_ext. unfold rev_key.
    split; [intros [-> ->]; done|intros [= -> ->]; done]. }
  assert (Hn1 : ∀ n, OutEdges (node h1 n) = OutEdges (node h n) ∧
                     InEdges (node h1 n) =
                       if decide (n = Nm)
                       then RemoveFirst (λ x, bool_decide (rev_key h x = (T, F)))
                                        (InEdges (node h n))
                       else InEdges (node h n)).
  { intros n. unfold h1. rewrite node_Disconnect.
    destruct (decide (n = Nm)) as [->|]; [|done].
    destruct (decide (Direction (pin h F) = EGPD_Output)) as [Hd|_]; [congruence|].
    rewrite <- Hpred'. by destruct (node h Nm). }
  assert (Hn2 : ∀ n, InEdges (node h2 n) = InEdges (node h1 n) ∧
                     OutEdges (node h2 n) =
                       if decide (n = Nt)
                       then RemoveFirst (λ x, bool_decide (edge_key h x = (T, F)))
                                        (OutEdges (node h n))
                       else OutEdges (node h n)).
  { intros n. unfold h2. rewrite node_Disconnect, Fp, Fe.
    destruct (decide (n = Nt)) as [->|]; [|by destruct (Hn1 n) as [-> _]].
    destruct (decide (Direction (pin h T) = EGPD_Output)) as [_|Hd]; [|congruence].
    rewrite <- Hpred. destruct (Hn1 Nt) as [<- _]. by destruct (node h1 Nt). }
  unfold edges_paired, out_pairs, in_pairs in *.
  assert (Eo : Nodes g ≫= (λ n, map (edge_key h2) (OutEdges (node h2 n)))
             = Nodes g ≫= (λ n, map (edge_key h) (OutEdges (node h2 n)))).
  { apply bind_ext_elem. intros n _. unfold edge_key. by rewrite Ge, Fe. }
  assert (Ei : Nodes g ≫= (λ n, map (rev_key h2) (InEdges (node h2 n)))
             = Nodes g ≫= (λ n, map (rev_key h) (InEdges (node h2 n)))).
  { apply bind_ext_elem. intros n _. unfold rev_key. by rewrite Ge, Fe. }
  rewrite Eo, Ei.
  destruct (decide ((T, F) ∈ map (edge_key h) (OutEdges (node h Nt)))) as [Hin|Hnin].
  - assert (Hin' : (T, F) ∈ map (rev_key h) (InEdges (node h Nm))).
    { assert (Hk : (T, F) ∈ out_pairs h (Nodes g)).
      { unfold out_pairs. apply list_elem_of_bind. by exists Nt. }
      unfold out_pairs in Hk. rewrite Hpair in Hk. apply list_elem_of_bind in Hk as (n & Hk & Hn).
      apply list_elem_of_fmap in Hk as (e & Hk & He). injection Hk as Hk1 Hk2.
      destruct (Hnodes n Hn) as (_ & _ & _ & Hie & _). destruct (Hie e He) as (_ & HFe & _).
      assert (n = Nm) as ->.
      { apply (graph_ok_pin_unique Nb h g n Nm F Hok Hn HNm); apply elem_of_app; left;
          [by rewrite Hk2|done]. }
      apply list_elem_of_fmap. exists e. split; [|done]. unfold rev_key. congruence. }
    apply (Permutation_cons_inv (a := (T, F))).
    rewrite <- (bind_update_Permutation (λ n, map (edge_key h) (OutEdges (node h n))) _
                  (T, F) (Nodes g) Nt Hnd HNt).
    + rewrite <- (bind_update_Permutation (λ n, map (rev_key h) (InEdges (node h n))) _
                    (T, F) (Nodes g) Nm Hnd HNm); [done| |].
      * intros n _ Hne. destruct (Hn2 n) as [-> _]. destruct (Hn1 n) as [_ ->].
        by rewrite decide_False.
      * destruct (Hn2 Nm) as [-> _]. destruct (Hn1 Nm) as [_ ->]. rewrite decide_True by done.
        by apply RemoveFirst_key_Permutation.
    + intros n _ Hne. destruct (Hn2 n) as [_ ->]. by rewrite decide_False.
    + destruct (Hn2 Nt) as [_ ->]. rewrite decide_True by done.
      by apply RemoveFirst_key_Permutation.
  - assert (Hnin' : (T, F) ∉ map (rev_key h) (InEdges (node h Nm))).
    { intros Hin'. apply Hnin.
      assert (Hk : (T, F) ∈ in_pairs h (Nodes g)).
      { unfold in_pairs. apply list_elem_of_bind. by exists Nm. }
      unfold in_pairs in Hk. rewrite <- Hpair in Hk.
      apply list_elem_of_bind in Hk as (n & Hk & Hn).
      pose proof Hk as Hk'. apply list_elem_of_fmap in Hk' as (e & Hke & He).
      injection Hke as Hk1 Hk2.
      destruct (Hnodes n Hn) as (_ & _ & _ & _ & Hoe). destruct (Hoe e He) as (_ & HFe & _).
      assert (n = Nt) as ->; [|done].
      apply (graph_ok_pin_unique Nb h g n Nt T Hok Hn HNt); apply elem_of_app; right;
        [by rewrite Hk1|done]. }
    rewrite (bind_ext_elem (λ n, map (edge_key h) (OutEdges (node h2 n)))
                           (λ n, map (edge_key h) (OutEdges (node h n))) (Nodes g)),
            (bind_ext_elem (λ n, map (rev_key h) (InEdges (node h2 n)))
                           (λ n, map (rev_key h) (InEdges (node h n))) (Nodes g)); [done| |].
    + intros n _. destruct (Hn2 n) as [-> _]. destruct (Hn1 n) as [_ ->].
      destruct (decide (n = Nm)) as [->|]; [|done]. by rewrite RemoveFirst_key_none.
    + intros n _. destruct (Hn2 n) as [_ ->].
      destruct (decide (n = Nt)) as [->|]; [|done]. by rewrite RemoveFirst_key_none.
Qed.

(** A well-formed graph stays well formed when edges leave the arrays of
    its nodes. *)
Lemma graph_ok_edges_removed (Nb N0 : nat) (h h' : Heap) (g : FFormatterGraph) :
  Nb <= N0 -> graph_ok Nb h g -> edges_removed N0 h h' -> graph_ok Nb h' g.
Proof.
  intros Hle (Hnd1 & Hnd2 & Hnodes) Hrem.
  assert (Hnode : ∀ n, n ∈ Nodes g ->
            Guid (node h' n) = Guid (node h n) ∧
            InPins (node h' n) = InPins (node h n) ∧
            OutPins (node h' n) = OutPins (node h n) ∧
            InEdges (node h' n) ⊆ InEdges (node h n) ∧
            OutEdges (node h' n) ⊆ OutEdges (node h n)).
  { intros n Hn. destruct (Hnodes n Hn) as (? & _).
    destruct (Hrem n ltac:(lia)) as (_ & _ & _ & ie & oe & -> & Si & So).
    destruct (with_edges_fields ie oe (node h n)) as (-> & -> & -> & -> & _ & ->).
    do 3 (split; [done|]). split; by apply sublist_subseteq. }
  assert (Hpin : ∀ n p, n ∈ Nodes g -> p ∈ pins_of h n -> pin h' p = pin h p).
  { intros n p Hn Hp. destruct (Hnodes n Hn) as (_ & Hip & Hop & _).
    assert (p < Nb).
    { apply elem_of_app in Hp as [Hp|Hp];
        [destruct (Hip p Hp) as (? & _)|destruct (Hop p Hp) as (? & _)]; lia. }
    by destruct (Hrem p ltac:(lia)) as (-> & _). }
  assert (Ea : all_pins h' (Nodes g) = all_pins h (Nodes g)).
  { unfold all_pins. apply bind_ext_elem. intros n Hn. unfold pins_of.
    destruct (Hnode n Hn) as (_ & -> & -> & _). done. }
  split; [|split].
  - rewrite (map_ext_in (λ n, Guid (node h' n)) (λ n, Guid (node h n))); [done|].
    intros n Hn. apply list_elem_of_In in Hn. by destruct (Hnode n Hn) as (-> & _).
  - rewrite Ea. rewrite (map_ext_in (λ p, PinGuid (pin h' p)) (λ p, PinGuid (pin h p))); [done|].
    intros p Hp. apply list_elem_of_In in Hp. unfold all_pins in Hp.
    apply list_elem_of_bind in Hp as (n & Hp & Hn). by rewrite (Hpin n p Hn Hp).
  - intros n Hn. destruct (Hnodes n Hn) as (H1 & H2 & H3 & H4 & H5).
    destruct (Hnode n Hn) as (_ & Eip & Eop & Sie & Soe). rewrite Eip, Eop.
    split; [done|]. split; [|split; [|split]].
    + intros p Hp. rewrite (Hpin n p Hn); [by apply H2|apply elem_of_app; by left].
    + intros p Hp. rewrite (Hpin n p Hn); [by apply H3|apply elem_of_app; by right].
    + intros e He. destruct (H4 e (Sie e He)) as (He' & HF & m & Hm & HT).
      destruct (Hrem e ltac:(lia)) as (_ & -> & _).
      split; [done|]. split; [done|]. exists m. split; [done|].
      by destruct (Hnode m Hm) as (_ & _ & -> & _).
    + intros e He. destruct (H5 e (Soe e He)) as (He' & HF & m & Hm & HT).
      destruct (Hrem e ltac:(lia)) as (_ & -> & _).
      split; [done|]. split; [done|]. exists m. split; [done|].
      by destruct (Hnode m Hm) as (_ & -> & _).
Qed.

(** ** RemoveCycle: the working copy read as the graph being formatted *)

Section sim_facts.
Context (d N0 E E2 Nb : nat) (g : FFormatterGraph) (h0 h : Heap) (c : FFormatterGraph)
  (L Rem R : list addr).
Context (Hci : clone_inv d N0 E E2 g h c) (Hsi : sim_inv Nb N0 g h0 h c L Rem R).

Lemma sim_NoDup : NoDup (L ++ Rem ++ R).
Proof.
  rewrite <- (si_perm _ _ _ _ _ _ _ _ _ Hsi).
  apply (graph_ok_NoDup Nb h0 g), (si_ok _ _ _ _ _ _ _ _ _ Hsi).
Qed.

Lemma sim_Rem_nodes (a : addr) : a ∈ Rem -> a ∈ Nodes g.
Proof.
  intros Ha. rewrite (si_perm _ _ _ _ _ _ _ _ _ Hsi). rewrite !elem_of_app. auto.
Qed.

Lemma sim_nodes_cases (a : addr) : a ∈ Nodes g -> a ∈ L ∨ a ∈ Rem ∨ a ∈ R.
Proof.
  intros Ha. rewrite (si_perm _ _ _ _ _ _ _ _ _ Hsi) in Ha.
  by rewrite !elem_of_app in Ha.
Qed.

Lemma sim_Rem_not_L (a : addr) : a ∈ Rem -> a ∉ L.
Proof.
  intros Ha HL. pose proof sim_NoDup as Hnd. apply NoDup_app in Hnd as (_ & Hd & _).
  apply (Hd a HL). apply elem_of_app. by left.
Qed.

Lemma sim_Rem_not_R (a : addr) : a ∈ Rem -> a ∉ R.
Proof.
  intros Ha HR. pose proof sim_NoDup as Hnd. apply NoDup_app in Hnd as (_ & _ & Hnd).
  apply NoDup_app in Hnd as (_ & Hd & _). by apply (Hd a Ha).
Qed.

Lemma sim_NoDup_Rem : NoDup Rem.
Proof.
  pose proof sim_NoDup as Hnd. apply NoDup_app in Hnd as (_ & _ & Hnd).
  by apply NoDup_app in Hnd as (? & _).
Qed.

(** An out-edge of a node of the graph, now, was one in [h0], where it
    leads to an input pin of a node of the graph. *)
Lemma sim_out_edge (a e : addr) :
  a ∈ Nodes g -> e ∈ OutEdges (node h a) ->
  e ∈ OutEdges (node h0 a) ∧ edge h e = edge h0 e ∧
  From (edge h0 e) ∈ OutPins (node h0 a) ∧
  target h0 e ∈ Nodes g ∧ To (edge h0 e) ∈ InPins (node h0 (target h0 e)) ∧
  pin h (To (edge h0 e)) = pin h0 (To (edge h0 e)).
Proof.
  intros Ha He. destruct Hsi as [Hok Hle Hrem _ _ _ _ _ _ _].
  pose proof Hok as (_ & _ & Hnodes). destruct (Hnodes a Ha) as (Ha' & _ & _ & _ & Hoe).
  destruct (Hrem a ltac:(lia)) as (_ & _ & _ & ie & oe & Hn & _ & Hsub).
  destruct (with_edges_fields ie oe (node h0 a)) as (_ & F2 & _). rewrite <- Hn in F2.
  rewrite F2 in He. assert (He0 : e ∈ OutEdges (node h0 a)) by (by apply (elem_of_sublist oe (OutEdges (node h0 a)))).
  destruct (Hoe e He0) as (He' & HF & m & Hm & HT).
  destruct (Hnodes m Hm) as (_ & Hip & _). destruct (Hip _ HT) as (HT' & _ & Hown).
  destruct (Hrem e ltac:(lia)) as (_ & Hee & _).
  destruct (Hrem (To (edge h0 e)) ltac:(lia)) as (Hpp & _).
  unfold target. rewrite Hown. done.
Qed.

(** The pins and the edges of a node of the working copy are as in [h0]. *)
Lemma sim_clone_edge (X e : addr) :
  X ∈ Nodes c -> e ∈ InEdges (node h X) ++ OutEdges (node h X) ->
  edge h e = edge h0 e ∧ cut_key h g e = cut_key h0 g e ∧
  edge_key h e = edge_key h0 e ∧ rev_key h e = rev_key h0 e ∧
  (∃ m, m ∈ Nodes c ∧ From (edge h e) ∈ pins_of h m) ∧
  (∃ m, m ∈ Nodes c ∧ To (edge h e) ∈ pins_of h m).
Proof.
  intros HX He. destruct Hsi as [_ _ _ Hcl _ _ _ _ _ _].
  destruct (Hcl X HX) as (_ & _ & _ & Hed). specialize (Hed e He).
  pose proof (ci_ok _ _ _ _ _ _ _ Hci) as (_ & _ & Hnodes).
  destruct (Hnodes X HX) as (_ & _ & _ & Hie & Hoe).
  assert (Hends : (∃ m, m ∈ Nodes c ∧ From (edge h e) ∈ pins_of h m) ∧
                  (∃ m, m ∈ Nodes c ∧ To (edge h e) ∈ pins_of h m)).
  { apply elem_of_app in He as [He|He].
    - destruct (Hie e He) as (_ & HF & m & Hm & HT). split.
      + exists X. split; [done|]. apply elem_of_app. by left.
      + exists m. split; [done|]. apply elem_of_app. by right.
    - destruct (Hoe e He) as (_ & HF & m & Hm & HT). split.
      + exists X. split; [done|]. apply elem_of_app. by right.
      + exists m. split; [done|]. apply elem_of_app. by left. }
  destruct Hends as [(m1 & Hm1 & HF) (m2 & Hm2 & HT)].
  assert (Hpin : ∀ m p, m ∈ Nodes c -> p ∈ pins_of h m -> pin h p = pin h0 p).
  { intros m p Hm Hp. destruct (Hcl m Hm) as (Ei & Eo & Hpp & _). apply Hpp.
    unfold pins_of in *. by rewrite <- Ei, <- Eo. }
  split; [done|]. unfold cut_key, edge_key, rev_key, pin_of_guid.
  rewrite <- Hed, (Hpin m1 _ Hm1 HF), (Hpin m2 _ Hm2 HT). eauto 10.
Qed.

Lemma sim_clone_pins (X : addr) :
  X ∈ Nodes c -> pins_of h X = pins_of h0 X ∧ ∀ p, p ∈ pins_of h X -> pin h p = pin h0 p.
Proof.
  intros HX. destruct Hsi as [_ _ _ Hcl _ _ _ _ _ _].
  destruct (Hcl X HX) as (Ei & Eo & Hpp & _). unfold pins_of. rewrite Ei, Eo.
  split; [done|]. intros p Hp. by apply Hpp.
Qed.

(** Two pins of the working copy are not found as the same pin of the
    graph. *)
Lemma pin_of_guid_inj (X1 X2 p1 p2 : addr) :
  X1 ∈ Nodes c -> X2 ∈ Nodes c -> p1 ∈ pins_of h X1 -> p2 ∈ pins_of h X2 ->
  pin_of_guid h0 g p1 = pin_of_guid h0 g p2 -> p1 = p2.
Proof.
  intros H1 H2 Hp1 Hp2 Heq.
  destruct (sim_clone_pins X1 H1) as [E1 Hq1]. destruct (sim_clone_pins X2 H2) as [E2' Hq2].
  pose proof (si_guid _ _ _ _ _ _ _ _ _ Hsi X1 p1 H1 ltac:(by rewrite <- E1)) as G1.
  pose proof (si_guid _ _ _ _ _ _ _ _ _ Hsi X2 p2 H2 ltac:(by rewrite <- E2')) as G2.
  pose proof (ci_ok _ _ _ _ _ _ _ Hci) as (_ & Hnd & _).
  apply (NoDup_fmap_inj (λ p, PinGuid (pin h p)) (all_pins h (Nodes c)) p1 p2 Hnd).
  - unfold all_pins. apply list_elem_of_bind. by exists X1.
  - unfold all_pins. apply list_elem_of_bind. by exists X2.
  - cbn beta. rewrite (Hq1 p1 Hp1), (Hq2 p2 Hp2), <- G1, <- G2. by rewrite Heq.
Qed.

Lemma sim_pair (i : nat) (N X : addr) :
  Rem !! i = Some N -> Nodes c !! i = Some X ->
  N ∈ Nodes g ∧ X ∈ Nodes c ∧ sim_node g h0 h Rem N X.
Proof.
  intros HN HX. split; [apply sim_Rem_nodes; by eapply list_elem_of_lookup_2|].
  split; [by eapply list_elem_of_lookup_2|].
  by apply (Forall2_lookup_lr _ _ _ _ _ _ (si_nodes _ _ _ _ _ _ _ _ _ Hsi) HN HX).
Qed.

Lemma sim_pair_of_Rem (N : addr) :
  N ∈ Rem -> ∃ i X, Rem !! i = Some N ∧ Nodes c !! i = Some X.
Proof.
  intros HN. apply list_elem_of_lookup in HN as [i HN].
  destruct (Forall2_lookup_l _ _ _ _ _ (si_nodes _ _ _ _ _ _ _ _ _ Hsi) HN) as (X & HX & _).
  eauto.
Qed.

Lemma sim_pair_of_clone (X : addr) :
  X ∈ Nodes c -> ∃ i N, Rem !! i = Some N ∧ Nodes c !! i = Some X.
Proof.
  intros HX. apply list_elem_of_lookup in HX as [i HX].
  destruct (Forall2_lookup_r _ _ _ _ _ (si_nodes _ _ _ _ _ _ _ _ _ Hsi) HX) as (N & HN & _).
  eauto.
Qed.

(** An edge of the working copy that is found as an edge towards [N]
    leads to the copy of [N], and the other way round. *)
Lemma sim_target (k : nat) (N X Xa a e e' : addr) :
  Rem !! k = Some N -> Nodes c !! k = Some X ->
  Xa ∈ Nodes c -> e' ∈ OutEdges (node h Xa) ->
  a ∈ Nodes g -> e ∈ OutEdges (node h a) ->
  cut_key h0 g e' = edge_key h0 e ->
  (To (edge h e') ∈ InPins (node h X) <-> target h0 e = N).
Proof.
  intros HN HX HXa He' Ha He Hk.
  destruct (sim_pair k N X HN HX) as (HNg & HXc & Hin & _ & _).
  destruct (sim_out_edge a e Ha He) as (_ & _ & _ & Hm & HT & _).
  destruct (sim_clone_edge Xa e') as (Ee' & _ & _ & _ & _ & (m' & Hm' & HT'));
    [done|apply elem_of_app; by right|].
  destruct (sim_clone_pins X HXc) as [EX _].
  destruct (si_clone _ _ _ _ _ _ _ _ _ Hsi X HXc) as (EXi & _).
  pose proof (si_ok _ _ _ _ _ _ _ _ _ Hsi) as Hok. pose proof Hok as (_ & _ & Hnodes).
  injection Hk as _ HkT. rewrite <- Ee' in HkT. split.
  - intros Hto. rewrite EXi in Hto.
    assert (HTN : To (edge h0 e) ∈ InPins (node h0 N)).
    { rewrite <- Hin, <- HkT. apply list_elem_of_fmap. eauto. }
    apply (graph_ok_pin_unique Nb h0 g (target h0 e) N (To (edge h0 e)) Hok Hm HNg);
      apply elem_of_app; by left.
  - intros <-. rewrite <- Hin in HT. apply list_elem_of_fmap in HT as (p' & Hp' & Hp'in).
    rewrite <- EXi in Hp'in. rewrite <- HkT in Hp'.
    rewrite (pin_of_guid_inj m' X (To (edge h e')) p' Hm' HXc HT'); [done| |done].
    apply elem_of_app. by left.
Qed.

(** An out-edge of a node of [Rem] towards a node of [Rem] has its copy. *)
Lemma sim_edge_copy (i : nat) (a Xa e : addr) :
  Rem !! i = Some a -> Nodes c !! i = Some Xa ->
  e ∈ OutEdges (node h a) -> target h0 e ∈ Rem ->
  ∃ e', e' ∈ OutEdges (node h Xa) ∧ cut_key h0 g e' = edge_key h0 e.
Proof.
  intros Ha HXa He Ht. destruct (sim_pair i a Xa Ha HXa) as (_ & _ & _ & _ & Hout & _).
  assert (Hk : edge_key h0 e ∈ map (edge_key h0)
                 (filter (λ e, target h0 e ∈ Rem) (OutEdges (node h a)))).
  { apply list_elem_of_fmap. exists e. split; [done|]. by apply list_elem_of_filter. }
  rewrite <- Hout in Hk. apply list_elem_of_fmap in Hk as (e' & Hk & He'). eauto.
Qed.

(** In the working copy an out-edge towards the node [X] is recorded among
    the in-edges of [X]. *)
Lemma clone_in_edge (Xa X e' : addr) :
  Xa ∈ Nodes c -> X ∈ Nodes c -> e' ∈ OutEdges (node h Xa) ->
  To (edge h e') ∈ InPins (node h X) ->
  ∃ e2, e2 ∈ InEdges (node h X) ∧ rev_key h e2 = edge_key h e'.
Proof.
  intros HXa HX He' Hto.
  pose proof (ci_ok _ _ _ _ _ _ _ Hci) as Hok. pose proof Hok as (_ & _ & Hnodes).
  assert (Hk : edge_key h e' ∈ out_pairs h (Nodes c)) by (apply elem_of_out_pairs; eauto).
  pose proof (ci_paired _ _ _ _ _ _ _ Hci) as Hpair. unfold edges_paired in Hpair.
  rewrite Hpair in Hk. apply elem_of_in_pairs in Hk as (Y & e2 & HY & He2 & Hk).
  destruct (Hnodes Y HY) as (_ & _ & _ & HYie & _). destruct (HYie e2 He2) as (_ & HF & _).
  injection Hk as Hk1 Hk2.
  assert (Y = X) as ->.
  { apply (graph_ok_pin_unique (next h) h c Y X (From (edge h e2))); [done..| |].
    - apply elem_of_app. by left.
    - apply elem_of_app. left. by rewrite <- Hk2. }
  exists e2. split; [done|]. unfold rev_key, edge_key in *. congruence.
Qed.

End sim_facts.

(** ** RemoveCycle: a node leaves the working copy *)

Lemma RemoveAll_Permutation `{EqDecision A} (x : A) (l : list A) :
  NoDup l -> x ∈ l -> l ≡ₚ x :: RemoveAll x l.
Proof.
  unfold RemoveAll. induction l as [|y l IH]; intros Hnd Hx; [by apply elem_of_nil in Hx|].
  apply NoDup_cons in Hnd as [Hy Hnd]. rewrite filter_cons.
  destruct (decide (y ≠ x)) as [Hne|Heq].
  - apply elem_of_cons in Hx as [->|Hx]; [done|].
    rewrite (IH Hnd Hx) at 1. apply Permutation_swap.
  - assert (y = x) as -> by (by destruct (decide (y = x))).
    rewrite filter_all; [done|]. intros z Hz ->. done.
Qed.

Lemma elem_of_RemoveAll `{EqDecision A} (x y : A) (l : list A) :
  y ∈ RemoveAll x l <-> y ≠ x ∧ y ∈ l.
Proof. unfold RemoveAll. by rewrite list_elem_of_filter. Qed.

Section sim_step.
Context (d N0 E E2 Nb : nat) (g : FFormatterGraph) (h0 h : Heap) (c : FFormatterGraph)
  (L Rem R : list addr).
Context (Hci : clone_inv d N0 E E2 g h c) (Hsi : sim_inv Nb N0 g h0 h c L Rem R).
Context (k : nat) (N X : addr) (HN : Rem !! k = Some N) (HX : Nodes c !! k = Some X).
(** [hm] is the store after the cut, [h'] the store after [RemoveNode]. *)
Context (hm h' : Heap).
Context (Hpin : pin hm = pin h) (Hedge : edge hm = edge h)
  (Hnode : ∀ a, N0 <= a -> node hm a = node h a)
  (Hrem : edges_removed N0 h hm)
  (Hout : ∀ a, a ∈ Rem ->
     filter (λ e, target h0 e ∈ RemoveAll N Rem) (OutEdges (node hm a))
     = filter (λ e, target h0 e ∈ RemoveAll N Rem) (OutEdges (node h a)))
  (Hpairm : edges_paired hm (Nodes g))
  (Hfr : frame N0 hm h')
  (Hkept : ∀ Y, Y ∈ Nodes c -> Y ≠ X -> node_kept hm h' X Y).

Lemma sim_step_removed : edges_removed N0 h0 h'.
Proof.
  apply (edges_removed_trans N0 h0 h h'); [apply (si_removed _ _ _ _ _ _ _ _ _ Hsi)|].
  apply (edges_removed_trans N0 h hm h'); [done|by apply frame_edges_removed].
Qed.

Lemma sim_step_kept (Y : addr) :
  Y ∈ Nodes c -> Y ≠ X ->
  InEdges (node h' Y)
    = filter (λ e, To (edge h e) ∉ OutPins (node h X)) (InEdges (node h Y)) ∧
  OutEdges (node h' Y)
    = filter (λ e, To (edge h e) ∉ InPins (node h X)) (OutEdges (node h Y)) ∧
  InPins (node h' Y) = InPins (node h Y) ∧ OutPins (node h' Y) = OutPins (node h Y) ∧
  (∀ p, p ∈ pins_of h Y -> pin h' p = pin h p) ∧
  (∀ e, e ∈ InEdges (node h Y) ++ OutEdges (node h Y) -> edge h' e = edge h e) ∧
  Guid (node h' Y) = Guid (node h Y).
Proof.
  intros HY HYX. destruct (Hkept Y HY HYX) as (_ & Hp & He).
  destruct (node_kept_fields hm h' X Y (Hkept Y HY HYX))
    as (Ei & Eo & Eip & Eop & _ & Eg).
  assert (HXc : X ∈ Nodes c) by (by eapply list_elem_of_lookup_2).
  unfold pins_of in Hp.
  rewrite Hedge, (Hnode X (ci_above _ _ _ _ _ _ _ Hci X HXc)),
    (Hnode Y (ci_above _ _ _ _ _ _ _ Hci Y HY)) in *.
  rewrite Hpin in Hp. done.
Qed.

Lemma sim_step_clone (Y : addr) :
  Y ∈ RemoveAll X (Nodes c) ->
  InPins (node h' Y) = InPins (node h0 Y) ∧ OutPins (node h' Y) = OutPins (node h0 Y) ∧
  (∀ p, p ∈ pins_of h0 Y -> pin h' p = pin h0 p) ∧
  (∀ e, e ∈ InEdges (node h' Y) ++ OutEdges (node h' Y) -> edge h' e = edge h0 e).
Proof.
  intros HY. apply elem_of_RemoveAll in HY as [HYX HY].
  destruct (sim_step_kept Y HY HYX) as (Ei & Eo & Eip & Eop & Hp & He & _).
  destruct (si_clone _ _ _ _ _ _ _ _ _ Hsi Y HY) as (Fi & Fo & Fp & Fe).
  split; [congruence|]. split; [congruence|]. split.
  - intros p Hp'. rewrite Hp; [by apply Fp|]. unfold pins_of in *. by rewrite Fi, Fo.
  - intros e He'. rewrite Ei, Eo in He'.
    assert (Hin : e ∈ InEdges (node h Y) ++ OutEdges (node h Y)).
    { apply elem_of_app in He' as [He'|He']; apply list_elem_of_filter in He' as [_ He'];
        apply elem_of_app; [by left|by right]. }
    rewrite (He e Hin). by apply Fe.
Qed.

Lemma sim_step_out (a : addr) : a ∈ Nodes g -> OutEdges (node h' a) = OutEdges (node hm a).
Proof.
  intros Ha. pose proof (si_ok _ _ _ _ _ _ _ _ _ Hsi) as (_ & _ & Hnodes).
  destruct (Hnodes a Ha) as (Ha' & _). pose proof (si_le _ _ _ _ _ _ _ _ _ Hsi).
  by destruct (Hfr a ltac:(lia)) as (-> & _).
Qed.

Lemma sim_step_sub (a e : addr) :
  a ∈ Nodes g -> e ∈ OutEdges (node h' a) -> e ∈ OutEdges (node h a).
Proof.
  intros Ha He. rewrite (sim_step_out a Ha) in He.
  pose proof (si_ok _ _ _ _ _ _ _ _ _ Hsi) as (_ & _ & Hnodes).
  destruct (Hnodes a Ha) as (Ha' & _). pose proof (si_le _ _ _ _ _ _ _ _ _ Hsi).
  destruct (Hrem a ltac:(lia)) as (_ & _ & _ & ie & oe & Hn & _ & Hsub).
  destruct (with_edges_fields ie oe (node h a)) as (_ & F2 & _). rewrite <- Hn in F2.
  rewrite F2 in He. by apply (elem_of_sublist oe (OutEdges (node h a))).
Qed.

Lemma sim_step_nodes :
  Forall2 (sim_node g h0 h' (RemoveAll N Rem)) (RemoveAll N Rem) (RemoveAll X (Nodes c)).
Proof.
  apply (Forall2_RemoveAll (sim_node g h0 h Rem) _ Rem (Nodes c)
           (si_nodes _ _ _ _ _ _ _ _ _ Hsi)
           (sim_NoDup_Rem _ _ _ _ _ _ _ _ _ Hsi)
           (graph_ok_NoDup _ _ _ (ci_ok _ _ _ _ _ _ _ Hci)) k N X HN HX).
  intros a b Ha Hb HaN HbX (Hip & Hop & Hoe & Hnm). split; [done|]. split; [done|].
  pose proof (sim_Rem_nodes _ _ _ _ _ _ _ _ _ Hsi a Ha) as Hag.
  destruct (sim_step_kept b Hb HbX) as (_ & Eo & _ & _ & _ & _ & Eg).
  split; [|by rewrite Eg]. rewrite Eo.
  rewrite (sim_step_out a Hag), (Hout a Ha).
  rewrite (filter_ext_elem (λ e, target h0 e ∈ RemoveAll N Rem)
             (λ e, target h0 e ≠ N ∧ target h0 e ∈ Rem))
    by (intros e _; apply elem_of_RemoveAll).
  rewrite <- list_filter_filter.
  apply map_filter_rel; [done|].
  intros e' e He' He Hk. apply list_elem_of_filter in He as [_ He].
  pose proof (sim_target _ _ _ _ _ _ _ _ _ _ _ _ Hci Hsi k N X b a e e' HN HX Hb He' Hag He Hk)
    as Hiff.
  tauto.
Qed.

Lemma sim_step_paired : edges_paired h' (Nodes g).
Proof.
  pose proof (si_ok _ _ _ _ _ _ _ _ _ Hsi) as (_ & _ & Hnodes).
  pose proof (si_le _ _ _ _ _ _ _ _ _ Hsi) as Hle.
  apply (edges_paired_same_on hm h'); [| |done].
  - intros n Hn. destruct (Hnodes n Hn) as (? & _). by destruct (Hfr n ltac:(lia)) as (-> & _).
  - intros n e Hn He.
    assert (Hlt : e < Nb).
    { destruct (Hnodes n Hn) as (Hn' & _ & _ & Hie & Hoe).
      destruct (si_removed _ _ _ _ _ _ _ _ _ Hsi n ltac:(lia))
        as (_ & _ & _ & ie & oe & En & Si & So).
      destruct (Hrem n ltac:(lia)) as (_ & _ & _ & ie' & oe' & En' & Si' & So').
      destruct (with_edges_fields ie oe (node h0 n)) as (F1 & F2 & _). rewrite <- En in F1, F2.
      destruct (with_edges_fields ie' oe' (node h n)) as (G1 & G2 & _).
      rewrite <- En' in G1, G2. rewrite G1, G2 in He.
      rewrite F1 in Si'. rewrite F2 in So'.
      apply elem_of_app in He as [He|He].
      - destruct (Hie e) as (? & _); [|lia].
        exact (elem_of_sublist ie _ e (elem_of_sublist ie' ie e He Si') Si).
      - destruct (Hoe e) as (? & _); [|lia].
        exact (elem_of_sublist oe _ e (elem_of_sublist oe' oe e He So') So). }
    by destruct (Hfr e ltac:(lia)) as (_ & _ & -> & _).
Qed.

(** A node that no node of [Rem] leads to goes to the end of [L]. *)
Lemma sim_step_left (c' : FFormatterGraph) :
  Nodes c' = RemoveAll X (Nodes c) ->
  (∀ a e, a ∈ Rem -> e ∈ OutEdges (node hm a) -> target h0 e ≠ N) ->
  sim_inv Nb N0 g h0 h' c' (L ++ [N]) (RemoveAll N Rem) R.
Proof.
  intros HN' HS.
  assert (HNR : N ∈ Rem) by (by eapply list_elem_of_lookup_2).
  split.
  - apply (si_ok _ _ _ _ _ _ _ _ _ Hsi).
  - apply (si_le _ _ _ _ _ _ _ _ _ Hsi).
  - apply sim_step_removed.
  - intros Y HY. rewrite HN' in HY. by apply sim_step_clone.
  - intros Y p HY. rewrite HN' in HY. apply elem_of_RemoveAll in HY as [_ HY].
    by apply (si_guid _ _ _ _ _ _ _ _ _ Hsi).
  - rewrite (si_perm _ _ _ _ _ _ _ _ _ Hsi).
    rewrite (RemoveAll_Permutation N Rem (sim_NoDup_Rem _ _ _ _ _ _ _ _ _ Hsi) HNR) at 1.
    rewrite <- !app_assoc. done.
  - rewrite HN'. apply sim_step_nodes.
  - intros a e j Ha He Hj. pose proof (sim_step_sub a e Ha He) as He0.
    destruct (decide (j < length L)) as [Hlt|Hge].
    + rewrite lookup_app_l in Hj by done.
      destruct (si_left _ _ _ _ _ _ _ _ _ Hsi a e j Ha He0 Hj) as (i & Hi & HLi).
      exists i. split; [done|]. rewrite lookup_app_l by lia. done.
    + rewrite lookup_app_r in Hj by lia.
      destruct (j - length L) as [|j'] eqn:Ej; [|by destruct j'].
      injection Hj as Hj. assert (j = length L) as -> by lia.
      destruct (sim_nodes_cases _ _ _ _ _ _ _ _ _ Hsi a Ha) as [HaL|[HaR|HaR]].
      * apply list_elem_of_lookup in HaL as [i Hi].
        exists i. split; [by apply lookup_lt_Some in Hi|].
        rewrite lookup_app_l by (by apply lookup_lt_Some in Hi). done.
      * rewrite (sim_step_out a Ha) in He. by destruct (HS a e HaR He).
      * apply list_elem_of_lookup in HaR as [i Hi].
        destruct (si_right _ _ _ _ _ _ _ _ _ Hsi a e i Hi He0) as (j' & _ & Hj').
        rewrite <- Hj in Hj'.
        destruct (sim_Rem_not_R _ _ _ _ _ _ _ _ _ Hsi N HNR).
        by eapply list_elem_of_lookup_2.
  - intros a e i Hi He. apply (si_right _ _ _ _ _ _ _ _ _ Hsi a e i Hi).
    apply sim_step_sub; [|done].
    rewrite (si_perm _ _ _ _ _ _ _ _ _ Hsi). rewrite !elem_of_app. right. right.
    by eapply list_elem_of_lookup_2.
  - apply sim_step_paired.
Qed.

(** A node that leads to no node of [Rem] goes to the front of [R]. *)
Lemma sim_step_right (c' : FFormatterGraph) :
  Nodes c' = RemoveAll X (Nodes c) ->
  (∀ e, e ∈ OutEdges (node h N) -> target h0 e ∉ Rem) ->
  sim_inv Nb N0 g h0 h' c' L (RemoveAll N Rem) (N :: R).
Proof.
  intros HN' HK.
  assert (HNR : N ∈ Rem) by (by eapply list_elem_of_lookup_2).
  pose proof (sim_Rem_nodes _ _ _ _ _ _ _ _ _ Hsi N HNR) as HNg.
  split.
  - apply (si_ok _ _ _ _ _ _ _ _ _ Hsi).
  - apply (si_le _ _ _ _ _ _ _ _ _ Hsi).
  - apply sim_step_removed.
  - intros Y HY. rewrite HN' in HY. by apply sim_step_clone.
  - intros Y p HY. rewrite HN' in HY. apply elem_of_RemoveAll in HY as [_ HY].
    by apply (si_guid _ _ _ _ _ _ _ _ _ Hsi).
  - rewrite (si_perm _ _ _ _ _ _ _ _ _ Hsi).
    rewrite (RemoveAll_Permutation N Rem (sim_NoDup_Rem _ _ _ _ _ _ _ _ _ Hsi) HNR) at 1.
    apply Permutation_app_head. cbn [app]. apply Permutation_middle.
  - rewrite HN'. apply sim_step_nodes.
  - intros a e j Ha He Hj. apply (si_left _ _ _ _ _ _ _ _ _ Hsi a e j Ha); [|done].
    by apply sim_step_sub.
  - intros a e i Hi He. destruct i as [|i].
    + injection Hi as <-. pose proof (sim_step_sub N e HNg He) as He0.
      destruct (sim_out_edge _ _ _ _ _ _ _ _ _ Hsi N e HNg He0) as (_ & _ & _ & Hm & _).
      destruct (sim_nodes_cases _ _ _ _ _ _ _ _ _ Hsi _ Hm) as [HtL|[HtR|HtR]].
      * apply list_elem_of_lookup in HtL as [j Hj].
        destruct (si_left _ _ _ _ _ _ _ _ _ Hsi N e j HNg He0 Hj) as (i & _ & Hi).
        destruct (sim_Rem_not_L _ _ _ _ _ _ _ _ _ Hsi N HNR).
        by eapply list_elem_of_lookup_2.
      * by destruct (HK e He0).
      * apply list_elem_of_lookup in HtR as [j Hj]. exists (S j). split; [lia|done].
    + cbn in Hi.
      assert (Ha : a ∈ Nodes g).
      { rewrite (si_perm _ _ _ _ _ _ _ _ _ Hsi). rewrite !elem_of_app. right. right.
        by eapply list_elem_of_lookup_2. }
      destruct (si_right _ _ _ _ _ _ _ _ _ Hsi a e i Hi (sim_step_sub a e Ha He))
        as (j & Hj & HRj).
      exists (S j). split; [lia|done].
  - apply sim_step_paired.
Qed.

End sim_step.

(** ** RemoveCycle: what the cut takes out of the graph being formatted *)

Lemma filter_length_mono {A} (P Q : A -> Prop) `{!∀ x, Decision (P x)}
    `{!∀ x, Decision (Q x)} (l : list A) :
  (∀ x, x ∈ l -> P x -> Q x) -> length (filter P l) <= length (filter Q l).
Proof.
  induction l as [|x l IH]; intros Himp; [done|]. rewrite !filter_cons.
  assert (Hl : length (filter P l) <= length (filter Q l)).
  { apply IH. intros y Hy. apply Himp. by apply list_elem_of_further. }
  destruct (decide (P x)) as [HP|HP]; destruct (decide (Q x)) as [HQ|HQ]; cbn [length];
    [lia| |lia|lia].
  destruct HQ. by apply (Himp x (list_elem_of_here _ _)).
Qed.

(** The in-edges of a node are at least as many as the out-edges that the
    other nodes record for them, pair of pins by pair of pins. *)
Lemma paired_count (N : nat) (h : Heap) (c : FFormatterGraph) (X a e0 : addr) :
  graph_ok N h c -> edges_paired h (Nodes c) -> X ∈ Nodes c -> a ∈ Nodes c ->
  e0 ∈ InEdges (node h X) ->
  length (filter (λ e, edge_key h e = rev_key h e0) (OutEdges (node h a)))
  <= length (filter (λ e, rev_key h e = rev_key h e0) (InEdges (node h X))).
Proof.
  intros Hok Hpair HX Ha He0. pose proof Hok as (_ & _ & Hnodes).
  pose proof (graph_ok_NoDup N h c Hok) as Hnd.
  destruct (Hnodes X HX) as (_ & _ & _ & HXie & _).
  destruct (HXie e0 He0) as (_ & HFe0 & _).
  rewrite <- (filter_fmap_length (edge_key h)).
  etrans; [apply (filter_bind_le (λ k', k' = rev_key h e0)
                   (λ n, map (edge_key h) (OutEdges (node h n))) (Nodes c) a Ha)|].
  fold (out_pairs h (Nodes c)).
  rewrite (Permutation_length (filter_Permutation (λ k', k' = rev_key h e0) _ _ Hpair)).
  unfold in_pairs. rewrite (filter_count_bind_only _ _ (Nodes c) X Hnd HX).
  - by rewrite filter_fmap_length.
  - intros Y y HY Hne Hy Heq. apply list_elem_of_fmap in Hy as (e & -> & He).
    injection Heq as Hk1 Hk2.
    destruct (Hnodes Y HY) as (_ & _ & _ & HYie & _).
    destruct (HYie e He) as (_ & HFe & _). apply Hne.
    apply (graph_ok_pin_unique N h c Y X (From (edge h e))); [done..| |].
    + apply elem_of_app. by left.
    + apply elem_of_app. left. by rewrite Hk2.
Qed.

Lemma remove_keys_cons {A K} `{EqDecision K} (κ : A -> K) (k : K) (ks : list K)
    (L : list A) :
  remove_keys κ (k :: ks) L = remove_keys κ ks (RemoveFirst (λ x, bool_decide (κ x = k)) L).
Proof. reflexivity. Qed.

Lemma pin_of_guid_same (h h' : Heap) (g : FFormatterGraph) :
  pin h' = pin h -> pin_of_guid h' g = pin_of_guid h g.
Proof. intros Hp. unfold pin_of_guid. by rewrite Hp. Qed.

(** The out-edges in the graph after the [for] loop of the cut over the
    edges [es] of the working copy: each node has lost, for every edge of
    [es] found as an edge from one of its pins, the first of its out-edges
    between the two pins found. *)
Lemma RemoveCycle_cut_out (g : FFormatterGraph) (M : addr) (es : list addr) :
  ∀ h hc, fold_leftM (RemoveCycle_cut g M) es h = Some hc ->
    (∀ e, e ∈ es ->
       Direction (pin h (pin_of_guid h g (From (edge h e)))) ≠ EGPD_Output ∧
       Direction (pin h (pin_of_guid h g (To (edge h e)))) = EGPD_Output) ->
    ∀ a, OutEdges (node hc a) =
      remove_keys (edge_key h)
        (map (λ e, (pin_of_guid h g (To (edge h e)), pin_of_guid h g (From (edge h e))))
           (filter (λ e, OwningNode (pin h (pin_of_guid h g (To (edge h e)))) = a) es))
        (OutEdges (node h a)).
Proof.
  induction es as [|e es IH]; intros h hc Hfold Hdir a.
  { cbn in Hfold. by injection Hfold as <-. }
  cbn [fold_leftM] in Hfold.
  destruct (RemoveCycle_cut g M h e) as [h2|] eqn:Hstep; [|done].
  cbn [mbind option_bind] in Hfold.
  destruct (Hdir e (list_elem_of_here _ _)) as [HdF HdT].
  unfold RemoveCycle_cut in Hstep. unfold pin_of_guid in HdF, HdT.
  destruct (PinsMap g !! PinGuid (pin h (From (edge h e)))) as [F|] eqn:EF; [|done].
  destruct (PinsMap g !! PinGuid (pin h (To (edge h e)))) as [T|] eqn:ET; [|done].
  destruct (NodesMap g !! Guid (node h M)) as [n|]; [|done].
  cbn [mbind option_bind default from_option id] in Hstep, HdF, HdT.
  injection Hstep as Hh2.
  destruct (Disconnect_funs h n F T) as (Fp & Fe & Fg). rewrite Fp in Hh2.
  destruct (Disconnect_funs (Disconnect h n F T) (OwningNode (pin h T)) T F)
    as (Gp & Ge & Gg).
  rewrite Hh2 in Gp, Ge, Gg. rewrite Fp in Gp. rewrite Fe in Ge.
  assert (Hout2 : OutEdges (node h2 a) =
            if decide (a = OwningNode (pin h T))
            then RemoveFirst (λ x, bool_decide (edge_key h x = (T, F))) (OutEdges (node h a))
            else OutEdges (node h a)).
  { rewrite <- Hh2, node_Disconnect, Fp, Fe.
    assert (HA : ∀ x, OutEdges (node (Disconnect h n F T) x) = OutEdges (node h x)).
    { intros x. rewrite node_Disconnect. destruct (decide (x = n)) as [->|]; [|done].
      destruct (decide (Direction (pin h F) = EGPD_Output)); [done|].
      by destruct (node h n). }
    destruct (decide (a = OwningNode (pin h T))) as [->|]; [|apply HA].
    destruct (decide (Direction (pin h T) = EGPD_Output)); [|done].
    rewrite <- (HA (OwningNode (pin h T))).
    destruct (node (Disconnect h n F T) (OwningNode (pin h T))). cbn.
    apply RemoveFirst_ext. intros x. apply bool_decide_ext. unfold edge_key.
    split; [intros [-> ->]; done|intros [= -> ->]; done]. }
  rewrite (IH h2 hc Hfold).
  2: { intros e' He'. rewrite (pin_of_guid_same h h2 g Gp), Gp, Ge.
       apply Hdir. by apply list_elem_of_further. }
  rewrite (pin_of_guid_same h h2 g Gp), Gp, Ge, Hout2.
  rewrite (remove_keys_ext_elem (edge_key h2) (edge_key h))
    by (intros x _; unfold edge_key; by rewrite Ge).
  assert (HψF : pin_of_guid h g (From (edge h e)) = F)
    by (unfold pin_of_guid; by rewrite EF).
  assert (HψT : pin_of_guid h g (To (edge h e)) = T)
    by (unfold pin_of_guid; by rewrite ET).
  rewrite filter_cons, HψT.
  destruct (decide (OwningNode (pin h T) = a)) as [<-|Hne].
  - rewrite decide_True by done. cbn [map]. rewrite remove_keys_cons, HψF, HψT. done.
  - rewrite decide_False by (intros ->; done). done.
Qed.

(** ** RemoveCycle: the cut takes out the edges towards the median node *)

Section cut_sim.
Context (d N0 E E2 Nb : nat) (g : FFormatterGraph) (h0 h : Heap) (c : FFormatterGraph)
  (L Rem R : list addr).
Context (Hci : clone_inv d N0 E E2 g h c) (Hsi : sim_inv Nb N0 g h0 h c L Rem R).
Context (k : nat) (N M : addr) (HN : Rem !! k = Some N) (HM : Nodes c !! k = Some M).

Lemma pin_of_guid_clone (m p : addr) :
  m ∈ Nodes c -> p ∈ pins_of h m -> pin_of_guid h g p = pin_of_guid h0 g p.
Proof.
  intros Hm Hp. destruct (sim_clone_pins _ _ _ _ _ _ _ _ _ Hsi m Hm) as [_ Hpp].
  unfold pin_of_guid. by rewrite (Hpp p Hp).
Qed.

(** A pin of a node of the graph is as in [h0]. *)
Lemma sim_orig_pin (a p : addr) :
  a ∈ Nodes g -> p ∈ pins_of h0 a ->
  pin h p = pin h0 p ∧ OwningNode (pin h0 p) = a ∧
  (p ∈ InPins (node h0 a) -> Direction (pin h0 p) = EGPD_Input) ∧
  (p ∈ OutPins (node h0 a) -> Direction (pin h0 p) = EGPD_Output).
Proof.
  intros Ha Hp. destruct Hsi as [Hok Hle Hrem _ _ _ _ _ _ _].
  pose proof Hok as (_ & _ & Hnodes). destruct (Hnodes a Ha) as (_ & Hip & Hop & _).
  assert (Hlt : p < Nb).
  { apply elem_of_app in Hp as [Hp|Hp];
      [destruct (Hip p Hp) as (? & _)|destruct (Hop p Hp) as (? & _)]; lia. }
  destruct (Hrem p ltac:(lia)) as (Hpp & _). split; [done|].
  split; [by apply (graph_ok_own Nb h0 g)|]. split.
  - intros Hin. by destruct (Hip p Hin) as (_ & ? & _).
  - intros Hin. by destruct (Hop p Hin) as (_ & ? & _).
Qed.

(** What the cut looks up for an in-edge of the median node. *)
Lemma cut_edge_facts (e' : addr) :
  e' ∈ InEdges (node h M) ->
  cut_key h g e' = cut_key h0 g e' ∧
  pin_of_guid h g (From (edge h e')) ∈ InPins (node h0 N) ∧
  ∃ Nm, Nm ∈ Rem ∧ pin_of_guid h g (To (edge h e')) ∈ OutPins (node h0 Nm).
Proof.
  intros He'. destruct (sim_pair _ _ _ _ _ _ _ _ _ Hsi k N M HN HM) as (HNg & HMc & Hin & _).
  destruct (sim_clone_edge _ _ _ _ _ _ _ _ _ _ _ _ Hci Hsi M e') as (_ & Hck & _);
    [done|apply elem_of_app; by left|].
  pose proof (ci_ok _ _ _ _ _ _ _ Hci) as (_ & _ & Hnodes).
  destruct (Hnodes M HMc) as (_ & _ & _ & Hie & _).
  destruct (Hie e' He') as (_ & HF & m & Hm & HT).
  destruct (si_clone _ _ _ _ _ _ _ _ _ Hsi M HMc) as (EMi & _).
  split; [done|]. split.
  - rewrite (pin_of_guid_clone M) by (done || apply elem_of_app; by left).
    rewrite <- Hin. apply list_elem_of_fmap. exists (From (edge h e')).
    split; [done|]. by rewrite <- EMi.
  - destruct (sim_pair_of_clone _ _ _ _ _ _ _ _ _ Hsi m Hm) as (j & Nm & HNm & Hmj).
    destruct (sim_pair _ _ _ _ _ _ _ _ _ Hsi j Nm m HNm Hmj) as (_ & _ & _ & Hout & _).
    destruct (si_clone _ _ _ _ _ _ _ _ _ Hsi m Hm) as (_ & Emo & _).
    exists Nm. split; [by eapply list_elem_of_lookup_2|].
    rewrite (pin_of_guid_clone m) by (done || apply elem_of_app; by right).
    rewrite <- Hout. apply list_elem_of_fmap. exists (To (edge h e')).
    split; [done|]. by rewrite <- Emo.
Qed.

Lemma cut_dirs (e' : addr) :
  e' ∈ InEdges (node h M) ->
  Direction (pin h (pin_of_guid h g (From (edge h e')))) ≠ EGPD_Output ∧
  Direction (pin h (pin_of_guid h g (To (edge h e')))) = EGPD_Output ∧
  OwningNode (pin h (pin_of_guid h g (To (edge h e')))) ∈ Rem.
Proof.
  intros He'. destruct (cut_edge_facts e' He') as (_ & HF & Nm & HNm & HT).
  pose proof (sim_Rem_nodes _ _ _ _ _ _ _ _ _ Hsi N ltac:(by eapply list_elem_of_lookup_2))
    as HNg.
  pose proof (sim_Rem_nodes _ _ _ _ _ _ _ _ _ Hsi Nm HNm) as HNmg.
  destruct (sim_orig_pin N _ HNg ltac:(apply elem_of_app; by left)) as (-> & _ & Hd & _).
  destruct (sim_orig_pin Nm _ HNmg ltac:(apply elem_of_app; by right))
    as (-> & -> & _ & Hd').
  rewrite (Hd HF), (Hd' HT). done.
Qed.

(** A node outside [Rem] loses no out-edge in the cut. *)
Lemma cut_out_other (a : addr) :
  a ∉ Rem ->
  filter (λ e, OwningNode (pin h (pin_of_guid h g (To (edge h e)))) = a)
    (InEdges (node h M)) = [].
Proof.
  intros Ha. destruct (filter _ (InEdges (node h M))) as [|e r] eqn:Ef; [done|].
  assert (He : e ∈ filter (λ e, OwningNode (pin h (pin_of_guid h g (To (edge h e)))) = a)
                 (InEdges (node h M))) by (rewrite Ef; apply list_elem_of_here).
  apply list_elem_of_filter in He as [Hown He].
  destruct (cut_dirs e He) as (_ & _ & Hr). rewrite Hown in Hr. done.
Qed.

(** A node of [Rem] loses in the cut its out-edges towards the node that
    the median node stands for, and no other. *)
Lemma cut_out_Rem (a : addr) :
  a ∈ Rem ->
  remove_keys (edge_key h)
    (map (λ e, (pin_of_guid h g (To (edge h e)), pin_of_guid h g (From (edge h e))))
       (filter (λ e, OwningNode (pin h (pin_of_guid h g (To (edge h e)))) = a)
          (InEdges (node h M))))
    (OutEdges (node h a))
  = filter (λ e, target h0 e ≠ N) (OutEdges (node h a)).
Proof.
  intros Ha. pose proof (sim_Rem_nodes _ _ _ _ _ _ _ _ _ Hsi a Ha) as Hag.
  assert (HNR : N ∈ Rem) by (by eapply list_elem_of_lookup_2).
  pose proof (sim_Rem_nodes _ _ _ _ _ _ _ _ _ Hsi N HNR) as HNg.
  destruct (sim_pair _ _ _ _ _ _ _ _ _ Hsi k N M HN HM) as (_ & HMc & _).
  destruct (sim_pair_of_Rem _ _ _ _ _ _ _ _ _ Hsi a Ha) as (i & Xa & Hai & HXa).
  destruct (sim_pair _ _ _ _ _ _ _ _ _ Hsi i a Xa Hai HXa) as (_ & HXac & _ & _ & Hsim & _).
  pose proof (si_ok _ _ _ _ _ _ _ _ _ Hsi) as Hok.
  set (kf := λ e, (pin_of_guid h g (To (edge h e)), pin_of_guid h g (From (edge h e)))).
  set (own := λ e, OwningNode (pin h (pin_of_guid h g (To (edge h e))))).
  (* an edge with one of the keys leads to [N] *)
  assert (Hkey_target : ∀ e e2, e ∈ OutEdges (node h a) -> e2 ∈ InEdges (node h M) ->
            edge_key h0 e = kf e2 -> target h0 e = N).
  { intros e e2 He He2 Hk. destruct (cut_edge_facts e2 He2) as (_ & HF & _).
    destruct (sim_out_edge _ _ _ _ _ _ _ _ _ Hsi a e Hag He) as (_ & _ & _ & Hm & HT & _).
    injection Hk as _ Hk. rewrite <- Hk in HF.
    apply (graph_ok_pin_unique Nb h0 g (target h0 e) N (To (edge h0 e)) Hok Hm HNg);
      apply elem_of_app; by left. }
  rewrite (remove_keys_ext_elem (edge_key h) (edge_key h0)).
  2: { intros x Hx. destruct (sim_out_edge _ _ _ _ _ _ _ _ _ Hsi a x Hag Hx) as (_ & Ee & _).
       unfold edge_key. by rewrite Ee. }
  rewrite remove_keys_filter.
  - apply filter_ext_elem. intros e He. split.
    + intros Hn Ht. apply Hn.
      destruct (sim_edge_copy _ _ _ _ _ _ _ _ _ Hsi i a Xa e Hai HXa He) as (e' & He' & Hk);
        [by rewrite Ht|].
      pose proof (proj2 (sim_target _ _ _ _ _ _ _ _ _ _ _ _ Hci Hsi k N M Xa a e e'
                           HN HM HXac He' Hag He Hk) Ht) as Hto.
      destruct (clone_in_edge _ _ _ _ _ _ _ Hci Xa M e' HXac HMc He' Hto) as (e2 & He2 & Hrev).
      destruct (sim_clone_edge _ _ _ _ _ _ _ _ _ _ _ _ Hci Hsi Xa e') as (_ & Hck & _);
        [done|apply elem_of_app; by right|].
      injection Hrev as Hr1 Hr2.
      assert (Hkf : kf e2 = edge_key h0 e).
      { unfold kf. rewrite Hr1, Hr2. rewrite <- Hk, <- Hck. done. }
      apply list_elem_of_fmap. exists e2. split; [done|].
      apply list_elem_of_filter. split; [|done].
      destruct (sim_out_edge _ _ _ _ _ _ _ _ _ Hsi a e Hag He) as (_ & _ & HF & _).
      destruct (sim_orig_pin a (From (edge h0 e)) Hag ltac:(apply elem_of_app; by right))
        as (Ep & Eo & _).
      injection Hkf as Hkf1 _. rewrite Hkf1, Ep. done.
    + intros Ht Hin. apply Ht. apply list_elem_of_fmap in Hin as (e2 & Hk & He2).
      apply list_elem_of_filter in He2 as [_ He2]. by apply (Hkey_target e e2).
  - intros k0 Hk0. apply list_elem_of_fmap in Hk0 as (e0 & -> & He0).
    apply list_elem_of_filter in He0 as [Hown He0].
    rewrite filter_fmap_length, list_filter_filter.
    (* the edges of [a] with the key, counted in the working copy *)
    assert (Hleft : length (filter (λ x, edge_key h0 x = kf e0) (OutEdges (node h a)))
                    = length (filter (λ x, cut_key h0 g x = kf e0) (OutEdges (node h Xa)))).
    { rewrite <- (filter_fmap_length (cut_key h0 g)), Hsim, filter_fmap_length.
      rewrite list_filter_filter. f_equal. apply filter_ext_elem. intros x Hx.
      split; [|by intros [? _]]. intros Hk. split; [done|].
      by rewrite (Hkey_target x e0 Hx He0 Hk). }
    rewrite Hleft.
    etrans; [|etrans; [apply (paired_count (next h) h c M Xa e0
                                (ci_ok _ _ _ _ _ _ _ Hci) (ci_paired _ _ _ _ _ _ _ Hci)
                                HMc HXac He0)|]].
    + apply filter_length_mono. intros x Hx Hk.
      destruct (sim_clone_edge _ _ _ _ _ _ _ _ _ _ _ _ Hci Hsi Xa x)
        as (_ & Hck & _ & _ & (m1 & Hm1 & HF1) & (m2 & Hm2 & HT1));
        [done|apply elem_of_app; by right|].
      destruct (sim_clone_edge _ _ _ _ _ _ _ _ _ _ _ _ Hci Hsi M e0)
        as (_ & _ & _ & _ & (m3 & Hm3 & HF0) & (m4 & Hm4 & HT0));
        [done|apply elem_of_app; by left|].
      rewrite <- Hck in Hk. injection Hk as Hk1 Hk2.
      rewrite (pin_of_guid_clone m1 _ Hm1 HF1), (pin_of_guid_clone m4 _ Hm4 HT0) in Hk1.
      rewrite (pin_of_guid_clone m2 _ Hm2 HT1), (pin_of_guid_clone m3 _ Hm3 HF0) in Hk2.
      unfold edge_key, rev_key.
      rewrite (pin_of_guid_inj _ _ _ _ _ _ _ _ _ _ _ _ Hci Hsi m1 m4 _ _ Hm1 Hm4 HF1 HT0 Hk1).
      rewrite (pin_of_guid_inj _ _ _ _ _ _ _ _ _ _ _ _ Hci Hsi m2 m3 _ _ Hm2 Hm3 HT1 HF0 Hk2).
      done.
    + apply filter_length_mono. intros x Hx Hk. injection Hk as Hk1 Hk2.
      unfold kf, own in *. rewrite Hk1, Hk2. done.
Qed.

(** The edges of the graph are recorded at both ends after the cut. *)
Lemma cut_paired :
  ∀ es h1 hc, es ⊆ InEdges (node h M) ->
    pin h1 = pin h -> edge h1 = edge h -> (∀ a, N0 <= a -> node h1 a = node h a) ->
    edges_removed N0 h h1 -> edges_paired h1 (Nodes g) ->
    fold_leftM (RemoveCycle_cut g M) es h1 = Some hc ->
    edges_paired hc (Nodes g).
Proof.
  destruct (sim_pair _ _ _ _ _ _ _ _ _ Hsi k N M HN HM) as (HNg & HMc & _ & _ & _ & HnM).
  pose proof (si_ok _ _ _ _ _ _ _ _ _ Hsi) as Hok0.
  pose proof (si_le _ _ _ _ _ _ _ _ _ Hsi) as Hle.
  induction es as [|e es IH]; intros h1 hc Hsub Hp He Hn Hrem Hpair Hfold.
  { cbn in Hfold. by injection Hfold as <-. }
  cbn [fold_leftM] in Hfold.
  destruct (RemoveCycle_cut g M h1 e) as [h2|] eqn:Hstep; [|done].
  cbn [mbind option_bind] in Hfold.
  assert (Hin : e ∈ InEdges (node h M)) by (apply Hsub, list_elem_of_here).
  destruct (cut_edge_facts e Hin) as (_ & HF & Nt & HNt & HT).
  pose proof (sim_Rem_nodes _ _ _ _ _ _ _ _ _ Hsi Nt HNt) as HNtg.
  unfold RemoveCycle_cut in Hstep.
  rewrite Hp, He, (Hn M (ci_above _ _ _ _ _ _ _ Hci M HMc)), HnM in Hstep.
  unfold pin_of_guid in HF, HT.
  destruct (PinsMap g !! PinGuid (pin h (From (edge h e)))) as [F|]; [|done].
  destruct (PinsMap g !! PinGuid (pin h (To (edge h e)))) as [T|]; [|done].
  cbn [mbind option_bind default from_option id] in Hstep, HF, HT.
  injection Hstep as Hh2.
  destruct (Disconnect_funs h1 N F T) as (Fp & Fe & _). rewrite Fp in Hh2.
  assert (Hrem01 : edges_removed N0 h0 h1).
  { apply (edges_removed_trans N0 h0 h h1); [apply (si_removed _ _ _ _ _ _ _ _ _ Hsi)|done]. }
  assert (Hok1 : graph_ok Nb h1 g) by (by apply (graph_ok_edges_removed Nb N0 h0 h1 g)).
  assert (Hpins1 : ∀ a, a ∈ Nodes g ->
            InPins (node h1 a) = InPins (node h0 a) ∧ OutPins (node h1 a) = OutPins (node h0 a)).
  { intros a Ha. pose proof Hok0 as (_ & _ & Hnodes). destruct (Hnodes a Ha) as (? & _).
    destruct (Hrem01 a ltac:(lia)) as (_ & _ & _ & ie & oe & -> & _). done. }
  apply (IH h2 hc).
  - intros x Hx. apply Hsub. by apply list_elem_of_further.
  - rewrite <- Hh2. destruct (Disconnect_funs (Disconnect h1 N F T) (OwningNode (pin h1 T)) T F)
      as (-> & _). by rewrite Fp.
  - rewrite <- Hh2. destruct (Disconnect_funs (Disconnect h1 N F T) (OwningNode (pin h1 T)) T F)
      as (_ & -> & _). by rewrite Fe.
  - intros a Ha. rewrite <- Hh2, !node_Disconnect.
    pose proof Hok0 as (_ & _ & Hnodes). destruct (Hnodes N HNg) as (? & _).
    destruct (sim_orig_pin Nt T HNtg ltac:(apply elem_of_app; by right)) as (EpT & HoT & _).
    rewrite Hp, EpT, HoT. destruct (Hnodes Nt HNtg) as (? & _).
    destruct (decide (a = Nt)); [lia|]. destruct (decide (a = N)); [lia|]. by apply Hn.
  - rewrite <- Hh2. apply (edges_removed_trans N0 h h1 _); [done|].
    apply (edges_removed_trans N0 h1 (Disconnect h1 N F T) _); apply Disconnect_edges_removed.
  - rewrite <- Hh2.
    apply (cut_step_paired Nb h1 g N Nt F T Hok1 Hpair HNg HNtg).
    + by rewrite (proj1 (Hpins1 N HNg)).
    + by rewrite (proj2 (Hpins1 Nt HNtg)).
  - done.
Qed.

End cut_sim.

(** ** RemoveCycle: the working copy stands for the graph *)

Section sim_init.
Context (Nb : nat) (h : Heap) (g : FFormatterGraph) (h0 : Heap) (c : FFormatterGraph).
Context (HNb : Nb <= next h) (Hok : graph_ok Nb h g) (Hfr : frame (next h) h h0)
  (Hex : maps_exact h g) (Hpair : edges_paired h (Nodes g))
  (HF : Forall2 (full_image h h0 c) (Nodes g) (Nodes c)).

Lemma init_pin_lt (P : addr) : P ∈ all_pins h (Nodes g) -> P < Nb.
Proof.
  intros HP. unfold all_pins in HP. apply list_elem_of_bind in HP as (n & HP & Hn).
  destruct Hok as (_ & _ & Hnodes). destruct (Hnodes n Hn) as (_ & Hip & Hop & _).
  apply elem_of_app in HP as [HP|HP];
    [destruct (Hip P HP) as (? & _)|destruct (Hop P HP) as (? & _)]; lia.
Qed.

(** The copy of a pin is found as the pin. *)
Lemma init_pin_image (X P p : addr) :
  P ∈ all_pins h (Nodes g) -> pin_image h h0 c X P p ->
  pin_of_guid h0 g p = P ∧ PinGuid (pin h0 p) = PinGuid (pin h0 P).
Proof.
  intros HP [Hmir _]. unfold mirror_pin in Hmir.
  pose proof (proj1 (Forall_forall _ _) (proj2 Hex) P HP) as HexP. cbn beta in HexP.
  pose proof (init_pin_lt P HP) as Hlt.
  destruct (Hfr P ltac:(lia)) as (_ & EP & _).
  unfold pin_of_guid. rewrite Hmir. cbn [PinGuid]. rewrite HexP, EP. done.
Qed.

Lemma init_pins_map (X : addr) (Ps ps : list addr) :
  Forall2 (pin_image h h0 c X) Ps ps -> (∀ P, P ∈ Ps -> P ∈ all_pins h (Nodes g)) ->
  map (pin_of_guid h0 g) ps = Ps.
Proof.
  induction 1 as [|P p Ps ps HPp _ IH]; intros Hall; [done|]. cbn [map].
  destruct (init_pin_image X P p (Hall P (list_elem_of_here _ _)) HPp) as [-> _].
  rewrite IH; [done|]. intros Q HQ. apply Hall. by apply list_elem_of_further.
Qed.

(** What the pin map of the copy holds for a pin of the graph is found as
    that pin. *)
Lemma init_pin_lookup (P p : addr) :
  P ∈ all_pins h (Nodes g) -> PinsMap c !! PinGuid (pin h P) = Some p ->
  pin_of_guid h0 g p = P.
Proof.
  intros HP Hp. pose proof HP as HP'. unfold all_pins in HP'.
  apply list_elem_of_bind in HP' as (n & HPn & Hn).
  apply list_elem_of_lookup in Hn as [i Hn].
  destruct (Forall2_lookup_l _ _ _ _ _ HF Hn) as (X & HX & (_ & Hip & Hop & _)).
  assert (Him : ∃ p', pin_image h h0 c X P p').
  { apply elem_of_app in HPn as [HPn|HPn]; apply list_elem_of_lookup in HPn as [j HPn].
    - destruct (Forall2_lookup_l _ _ _ _ _ Hip HPn) as (p' & _ & Him). eauto.
    - destruct (Forall2_lookup_l _ _ _ _ _ Hop HPn) as (p' & _ & Him). eauto. }
  destruct Him as (p' & Him). pose proof Him as [_ Hp']. rewrite Hp in Hp'.
  injection Hp' as ->. by destruct (init_pin_image X P p' HP Him).
Qed.

Lemma init_edges_map (n : addr) (es es' : list addr) :
  n ∈ Nodes g -> es ⊆ OutEdges (node h n) ->
  Forall2 (edge_image h h0 c) es es' ->
  map (cut_key h0 g) es' = map (edge_key h) es.
Proof.
  intros Hn Hsub HFe. destruct Hok as (_ & _ & Hnodes).
  destruct (Hnodes n Hn) as (_ & _ & _ & _ & Hoe).
  induction HFe as [|e e' es es' [HFr HTo] _ IH]; [done|]. cbn [map].
  rewrite IH by (intros x Hx; apply Hsub; by apply list_elem_of_further). f_equal.
  destruct (Hoe e (Hsub e (list_elem_of_here _ _))) as (_ & HFp & m & Hm & HTp).
  unfold cut_key, edge_key.
  rewrite (init_pin_lookup (From (edge h e)) (From (edge h0 e'))), 
          (init_pin_lookup (To (edge h e)) (To (edge h0 e'))); [done| |done| |done].
  - unfold all_pins. apply list_elem_of_bind. exists m. split; [|done].
    apply elem_of_app. by left.
  - unfold all_pins. apply list_elem_of_bind. exists n. split; [|done].
    apply elem_of_app. by right.
Qed.

Lemma sim_inv_initial : sim_inv Nb (next h) g h0 h0 c [] (Nodes g) [].
Proof.
  assert (Hfr' : frame Nb h h0) by (by apply (frame_weaken (next h))).
  pose proof (graph_ok_frame Nb h h0 g Hfr' Hok) as Hok0.
  pose proof Hok as (_ & _ & Hnodes).
  assert (Hnode : ∀ n, n ∈ Nodes g -> node h0 n = node h n).
  { intros n Hn. destruct (Hnodes n Hn) as (? & _). by destruct (Hfr' n ltac:(lia)) as (-> & _). }
  assert (Hpins : ∀ n P, n ∈ Nodes g -> P ∈ pins_of h n -> P ∈ all_pins h (Nodes g)).
  { intros n P Hn HP. unfold all_pins. apply list_elem_of_bind. eauto. }
  split.
  - done.
  - done.
  - apply edges_removed_refl.
  - done.
  - intros X p HX Hp. apply list_elem_of_lookup in HX as [i HX].
    destruct (Forall2_lookup_r _ _ _ _ _ HF HX) as (n & Hn & (_ & Hip & Hop & _)).
    assert (Hng : n ∈ Nodes g) by (by eapply list_elem_of_lookup_2).
    apply elem_of_app in Hp as [Hp|Hp]; apply list_elem_of_lookup in Hp as [j Hp].
    + destruct (Forall2_lookup_r _ _ _ _ _ Hip Hp) as (P & HP & Him).
      destruct (init_pin_image X P p) as [-> ->]; [|done|done].
      apply (Hpins n P Hng), elem_of_app. left. by eapply list_elem_of_lookup_2.
    + destruct (Forall2_lookup_r _ _ _ _ _ Hop Hp) as (P & HP & Him).
      destruct (init_pin_image X P p) as [-> ->]; [|done|done].
      apply (Hpins n P Hng), elem_of_app. right. by eapply list_elem_of_lookup_2.
  - by rewrite app_nil_r.
  - apply (Forall2_impl_elem (full_image h h0 c) _ _ _ HF).
    intros n X Hn HX (Hg & Hip & Hop & _ & Hoe). unfold sim_node.
    rewrite (Hnode n Hn). split; [|split; [|split]].
    4: { rewrite Hg. apply (proj1 (Forall_forall _ _) (proj1 Hex) n Hn). }
    + apply (init_pins_map X _ _ Hip). intros P HP. apply (Hpins n P Hn), elem_of_app. by left.
    + apply (init_pins_map X _ _ Hop). intros P HP. apply (Hpins n P Hn), elem_of_app. by right.
    + rewrite (init_edges_map n _ _ Hn ltac:(done) Hoe).
      destruct (Hnodes n Hn) as (_ & _ & _ & _ & Hoe').
      assert (Hkeys : ∀ e, e ∈ OutEdges (node h n) ->
                edge_key h0 e = edge_key h e ∧ target h0 e ∈ Nodes g).
      { intros e He. destruct (Hoe' e He) as (He' & _ & m & Hm & HT).
        destruct (Hnodes m Hm) as (_ & Hmip & _). destruct (Hmip _ HT) as (HT' & _ & Hown).
        destruct (Hfr' e ltac:(lia)) as (_ & _ & Ee & _).
        unfold edge_key, target. rewrite Ee.
        destruct (Hfr' (To (edge h e)) ltac:(lia)) as (_ & -> & _). by rewrite Hown. }
      rewrite filter_all by (intros e He; by apply Hkeys).
      apply map_ext_in. intros e He. apply list_elem_of_In in He.
      by destruct (Hkeys e He) as [-> _].
  - intros a e j _ _ Hj. done.
  - intros a e i Hi. done.
  - apply (edges_paired_same_on h h0); [done| |done].
    intros n e Hn He. destruct (Hnodes n Hn) as (_ & _ & _ & Hie & Hoe).
    assert (Hlt : e < Nb).
    { apply elem_of_app in He as [He|He];
        [destruct (Hie e He) as (? & _)|destruct (Hoe e He) as (? & _)]; lia. }
    by destruct (Hfr' e ltac:(lia)) as (_ & _ & -> & _).
Qed.

End sim_init.

(** ** RemoveCycle leaves a graph with a topological order *)

Lemma Num_0_nil {A} (l : list A) : Num l = 0%Z -> l = [].
Proof. unfold Num. destruct l; [done|]. cbn [length]. lia. Qed.

Lemma FindSourceNode_source (h : Heap) (g : FFormatterGraph) (X : addr) :
  FindSourceNode h g = Some X -> InEdges (node h X) = [].
Proof.
  unfold FindSourceNode. intros Hf. apply find_some in Hf as [_ Hs].
  unfold IsSource in Hs. apply bool_decide_eq_true in Hs. by apply Num_0_nil.
Qed.

Lemma FindSinkNode_sink (h : Heap) (g : FFormatterGraph) (X : addr) :
  FindSinkNode h g = Some X -> OutEdges (node h X) = [].
Proof.
  unfold FindSinkNode. intros Hf. apply find_some in Hf as [_ Hs].
  unfold IsSink in Hs. apply bool_decide_eq_true in Hs. by apply Num_0_nil.
Qed.

Section order_facts.
Context (d N0 E E2 Nb : nat) (g : FFormatterGraph) (h0 h : Heap) (c : FFormatterGraph)
  (L Rem R : list addr).
Context (Hci : clone_inv d N0 E E2 g h c) (Hsi : sim_inv Nb N0 g h0 h c L Rem R).
Context (k : nat) (N X : addr) (HN : Rem !! k = Some N) (HX : Nodes c !! k = Some X).

(** No node still in the working copy leads to a node whose copy has no
    in-edge. *)
Lemma source_fact :
  InEdges (node h X) = [] ->
  ∀ a e, a ∈ Rem -> e ∈ OutEdges (node h a) -> target h0 e ≠ N.
Proof.
  intros Hnil a e Ha He Ht.
  assert (HNR : N ∈ Rem) by (by eapply list_elem_of_lookup_2).
  destruct (sim_pair _ _ _ _ _ _ _ _ _ Hsi k N X HN HX) as (_ & HXc & _).
  destruct (sim_pair_of_Rem _ _ _ _ _ _ _ _ _ Hsi a Ha) as (i & Xa & Hai & HXa).
  destruct (sim_pair _ _ _ _ _ _ _ _ _ Hsi i a Xa Hai HXa) as (Hag & HXac & _).
  destruct (sim_edge_copy _ _ _ _ _ _ _ _ _ Hsi i a Xa e Hai HXa He) as (e' & He' & Hk);
    [by rewrite Ht|].
  pose proof (proj2 (sim_target _ _ _ _ _ _ _ _ _ _ _ _ Hci Hsi k N X Xa a e e'
                       HN HX HXac He' Hag He Hk) Ht) as Hto.
  destruct (clone_in_edge _ _ _ _ _ _ _ Hci Xa X e' HXac HXc He' Hto) as (e2 & He2 & _).
  rewrite Hnil in He2. by apply elem_of_nil in He2.
Qed.

(** A node whose copy has no out-edge leads to no node still in the
    working copy. *)
Lemma sink_fact :
  OutEdges (node h X) = [] -> ∀ e, e ∈ OutEdges (node h N) -> target h0 e ∉ Rem.
Proof.
  intros Hnil e He Ht.
  destruct (sim_edge_copy _ _ _ _ _ _ _ _ _ Hsi k N X e HN HX He Ht) as (e' & He' & _).
  rewrite Hnil in He'. by apply elem_of_nil in He'.
Qed.

End order_facts.

(** The first loop: the sources go to the left list. *)
Lemma peel_sources_sim (fuel d N0 E E2 Nb : nat) (g : FFormatterGraph) (h0 : Heap)
    (R : list addr) :
  d <= fuel ->
  ∀ k h c L Rem, length (Nodes c) < k ->
    clone_inv d N0 E E2 g h c -> sim_inv Nb N0 g h0 h c L Rem R ->
    ∃ h' c' L' Rem', RemoveCycle_peel FindSourceNode fuel k h c = Some (h', c') ∧
      clone_inv d N0 E E2 g h' c' ∧ sim_inv Nb N0 g h0 h' c' L' Rem' R ∧
      length (Nodes c') <= length (Nodes c).
Proof.
  intros Hd. induction k as [|k IH]; intros h c L Rem Hk Hci Hsi; [lia|].
  cbn [RemoveCycle_peel]. destruct (FindSourceNode h c) as [X|] eqn:EX.
  - pose proof (FindSourceNode_member h c X EX) as HXc.
    pose proof (FindSourceNode_source h c X EX) as Hsrc.
    destruct (sim_pair_of_clone _ _ _ _ _ _ _ _ _ Hsi X HXc) as (i & N & HN & HX).
    destruct (clone_inv_RemoveNode fuel d N0 E E2 g h c X Hd Hci HXc)
      as (h1 & c1 & -> & HN1 & Hci1 & Hfr1 & Hkept).
    cbn [mbind option_bind].
    pose proof (sim_step_left d N0 E E2 Nb g h0 h c L Rem R Hci Hsi i N X HN HX h h1
                  eq_refl eq_refl (λ _ _, eq_refl) (edges_removed_refl N0 h)
                  (λ _ _, eq_refl) (si_paired _ _ _ _ _ _ _ _ _ Hsi) Hfr1 Hkept c1 HN1
                  (source_fact d N0 E E2 Nb g h0 h c L Rem R Hci Hsi i N X HN HX Hsrc))
      as Hsi1.
    pose proof (RemoveAll_length_lt X (Nodes c) HXc) as Hlt. rewrite <- HN1 in Hlt.
    destruct (IH h1 c1 _ _ ltac:(lia) Hci1 Hsi1) as (h' & c' & L' & Rem' & Hrun & ? & ? & ?).
    exists h', c', L', Rem'. split; [done|]. split; [done|]. split; [done|]. lia.
  - exists h, c, L, Rem. done.
Qed.

(** The second loop: the sinks go to the right list. *)
Lemma peel_sinks_sim (fuel d N0 E E2 Nb : nat) (g : FFormatterGraph) (h0 : Heap)
    (L : list addr) :
  d <= fuel ->
  ∀ k h c Rem R, length (Nodes c) < k ->
    clone_inv d N0 E E2 g h c -> sim_inv Nb N0 g h0 h c L Rem R ->
    ∃ h' c' Rem' R', RemoveCycle_peel FindSinkNode fuel k h c = Some (h', c') ∧
      clone_inv d N0 E E2 g h' c' ∧ sim_inv Nb N0 g h0 h' c' L Rem' R' ∧
      length (Nodes c') <= length (Nodes c).
Proof.
  intros Hd. induction k as [|k IH]; intros h c Rem R Hk Hci Hsi; [lia|].
  cbn [RemoveCycle_peel]. destruct (FindSinkNode h c) as [X|] eqn:EX.
  - pose proof (FindSinkNode_member h c X EX) as HXc.
    pose proof (FindSinkNode_sink h c X EX) as Hsnk.
    destruct (sim_pair_of_clone _ _ _ _ _ _ _ _ _ Hsi X HXc) as (i & N & HN & HX).
    destruct (clone_inv_RemoveNode fuel d N0 E E2 g h c X Hd Hci HXc)
      as (h1 & c1 & -> & HN1 & Hci1 & Hfr1 & Hkept).
    cbn [mbind option_bind].
    pose proof (sim_step_right d N0 E E2 Nb g h0 h c L Rem R Hci Hsi i N X HN HX h h1
                  eq_refl eq_refl (λ _ _, eq_refl) (edges_removed_refl N0 h)
                  (λ _ _, eq_refl) (si_paired _ _ _ _ _ _ _ _ _ Hsi) Hfr1 Hkept c1 HN1
                  (sink_fact N0 Nb g h0 h c L Rem R Hsi i N X HN HX Hsnk))
      as Hsi1.
    pose proof (RemoveAll_length_lt X (Nodes c) HXc) as Hlt. rewrite <- HN1 in Hlt.
    destruct (IH h1 c1 _ _ ltac:(lia) Hci1 Hsi1) as (h' & c' & Rem' & R' & Hrun & ? & ? & ?).
    exists h', c', Rem', R'. split; [done|]. split; [done|]. split; [done|]. lia.
  - exists h, c, Rem, R. done.
Qed.

(** The third loop: the median nodes go to the left list, after the cut of
    the edges that lead to them from the nodes still in the working copy. *)
Lemma medians_sim (fuel d N0 E E2 Nb : nat) (g : FFormatterGraph) (h0 : Heap)
    (R : list addr) :
  d <= fuel ->
  ∀ k h c L Rem, length (Nodes c) < k ->
    clone_inv d N0 E E2 g h c -> sim_inv Nb N0 g h0 h c L Rem R ->
    ∃ h' c' L' Rem', RemoveCycle_medians fuel k h g c = Some (h', c') ∧
      clone_inv d N0 E E2 g h' c' ∧ sim_inv Nb N0 g h0 h' c' L' Rem' R ∧
      Nodes c' = [].
Proof.
  intros Hd. induction k as [|k IH]; intros h c L Rem Hk Hci Hsi; [lia|].
  cbn [RemoveCycle_medians].
  pose proof (FindMedianNode_cases h c (ci_paired _ _ _ _ _ _ _ Hci)
                (ci_arrays _ _ _ _ _ _ _ Hci)) as Hcases.
  destruct (FindMedianNode h c) as [M|]; [|by exists h, c, L, Rem].
  destruct (sim_pair_of_clone _ _ _ _ _ _ _ _ _ Hsi M Hcases) as (i & N & HN & HM).
  destruct (RemoveCycle_cut_loop d N0 E E2 g h c M Hci Hcases (InEdges (node h M)) h)
    as (hc & Hcut & Hnx & Hp & He & Hg & Hn & Hrem); [done..|].
  rewrite Hcut. cbn [mbind option_bind].
  pose proof (RemoveCycle_cut_out g M (InEdges (node h M)) h hc Hcut) as Hout.
  assert (Hdirs : ∀ e, e ∈ InEdges (node h M) ->
            Direction (pin h (pin_of_guid h g (From (edge h e)))) ≠ EGPD_Output ∧
            Direction (pin h (pin_of_guid h g (To (edge h e)))) = EGPD_Output).
  { intros e He'.
    by destruct (cut_dirs d N0 E E2 Nb g h0 h c L Rem R Hci Hsi i N M HN HM e He')
      as (? & ? & _). }
  specialize (Hout Hdirs).
  assert (HoutR : ∀ a, a ∈ Rem ->
            OutEdges (node hc a) = filter (λ e, target h0 e ≠ N) (OutEdges (node h a))).
  { intros a Ha. rewrite Hout.
    apply (cut_out_Rem d N0 E E2 Nb g h0 h c L Rem R Hci Hsi i N M HN HM a Ha). }
  pose proof (clone_inv_same d N0 E E2 g h hc c Hnx Hp He Hg Hn Hci) as Hcic.
  destruct (clone_inv_RemoveNode fuel d N0 E E2 g hc c M Hd Hcic Hcases)
    as (h1 & c1 & -> & HN1 & Hci1 & Hfr1 & Hkept).
  cbn [mbind option_bind].
  assert (Hsi1 : sim_inv Nb N0 g h0 h1 c1 (L ++ [N]) (RemoveAll N Rem) R).
  { apply (sim_step_left d N0 E E2 Nb g h0 h c L Rem R Hci Hsi i N M HN HM hc h1
             Hp He Hn Hrem); [| |done|done|done|].
    2: { apply (cut_paired d N0 E E2 Nb g h0 h c L Rem R Hci Hsi i N M HN HM
                  (InEdges (node h M)) h hc); [done..|apply edges_removed_refl| |done].
         apply (si_paired _ _ _ _ _ _ _ _ _ Hsi). }
    - intros a Ha. rewrite (HoutR a Ha), list_filter_filter.
      apply filter_ext_elem. intros e _. rewrite elem_of_RemoveAll. tauto.
    - intros a e Ha He'. rewrite (HoutR a Ha) in He'.
      by apply list_elem_of_filter in He' as [? _]. }
  pose proof (RemoveAll_length_lt M (Nodes c) Hcases) as Hlt. rewrite <- HN1 in Hlt.
  destruct (IH h1 c1 _ _ ltac:(lia) Hci1 Hsi1) as (h' & c' & L' & Rem' & Hrun & ? & ? & ?).
  exists h', c', L', Rem'. done.
Qed.

(** With an empty working copy the two lists are a topological order. *)
Lemma sim_topological (Nb N0 : nat) (g : FFormatterGraph) (h0 h : Heap)
    (c : FFormatterGraph) (L R : list addr) :
  sim_inv Nb N0 g h0 h c L [] R -> topological h g (L ++ R).
Proof.
  intros Hsi. pose proof (sim_NoDup _ _ _ _ _ _ _ _ _ Hsi) as Hnd. cbn [app] in Hnd.
  pose proof (si_perm _ _ _ _ _ _ _ _ _ Hsi) as Hperm. cbn [app] in Hperm.
  split; [done|]. intros i j a b Hi Hj Hb.
  assert (Ha : a ∈ Nodes g) by (rewrite Hperm; by eapply list_elem_of_lookup_2).
  unfold GetSuccessors in Hb. apply list_elem_of_fmap in Hb as (e & -> & He).
  destruct (sim_out_edge _ _ _ _ _ _ _ _ _ Hsi a e Ha He) as (_ & Ee & _ & _ & _ & Ep).
  rewrite Ee, Ep in Hj. fold (target h0 e) in Hj.
  destruct (decide (j < length L)) as [HjL|HjL].
  - rewrite lookup_app_l in Hj by done.
    destruct (si_left _ _ _ _ _ _ _ _ _ Hsi a e j Ha He Hj) as (i' & Hi' & HLi).
    assert (i = i') as ->; [|done].
    apply (NoDup_lookup (L ++ R) i i' a Hnd Hi). rewrite lookup_app_l; [done|].
    by apply lookup_lt_Some in HLi.
  - rewrite lookup_app_r in Hj by lia.
    destruct (decide (i < length L)) as [HiL|HiL]; [lia|].
    rewrite lookup_app_r in Hi by lia.
    destruct (si_right _ _ _ _ _ _ _ _ _ Hsi a e _ Hi He) as (j' & Hj' & HRj).
    assert (HndR : NoDup R) by (by apply NoDup_app in Hnd as (_ & _ & ?)).
    pose proof (NoDup_lookup R _ _ _ HndR Hj HRj). lia.
Qed.

(** A graph with a topological order has no directed cycle. *)
Lemma sim_acyclic (Nb N0 : nat) (g : FFormatterGraph) (h0 h : Heap)
    (c : FFormatterGraph) (L R : list addr) :
  sim_inv Nb N0 g h0 h c L [] R -> acyclic h g.
Proof.
  intros Hsi. destruct (sim_topological Nb N0 g h0 h c L R Hsi) as [Hperm Hord].
  assert (Hnd : NoDup (L ++ R)).
  { rewrite Hperm. apply (graph_ok_NoDup Nb h0 g), (si_ok _ _ _ _ _ _ _ _ _ Hsi). }
  assert (Hpath : ∀ u v, tc (edge_to h) u v ->
            ∀ i, (L ++ R) !! i = Some u -> ∃ j, i < j ∧ (L ++ R) !! j = Some v).
  { intros u v Htc. induction Htc as [u v Huv|u w v Huw _ IH]; intros i Hi.
    - assert (Hu : u ∈ Nodes g) by (rewrite <- Hperm; by eapply list_elem_of_lookup_2).
      pose proof Huv as Huv'. unfold edge_to, GetSuccessors in Huv'.
      apply list_elem_of_fmap in Huv' as (e & Hv & He).
      destruct (sim_out_edge _ _ _ _ _ _ _ _ _ Hsi u e Hu He) as (_ & Ee & _ & Hm & _ & Ep).
      rewrite Ee, Ep in Hv. fold (target h0 e) in Hv. rewrite <- Hv, <- Hperm in Hm.
      apply list_elem_of_lookup in Hm as [j Hj]. exists j. split; [|done].
      by apply (Hord i j u v).
    - assert (Hu : u ∈ Nodes g) by (rewrite <- Hperm; by eapply list_elem_of_lookup_2).
      pose proof Huw as Huw'. unfold edge_to, GetSuccessors in Huw'.
      apply list_elem_of_fmap in Huw' as (e & Hw & He).
      destruct (sim_out_edge _ _ _ _ _ _ _ _ _ Hsi u e Hu He) as (_ & Ee & _ & Hm & _ & Ep).
      rewrite Ee, Ep in Hw. fold (target h0 e) in Hw. rewrite <- Hw, <- Hperm in Hm.
      apply list_elem_of_lookup in Hm as [j Hj].
      pose proof (Hord i j u w Hi Hj Huw) as Hij.
      destruct (IH j Hj) as (j' & Hjj' & Hj'). exists j'. split; [lia|done]. }
  intros n Hn Hcyc. rewrite <- Hperm in Hn. apply list_elem_of_lookup in Hn as [i Hi].
  destruct (Hpath n n Hcyc i Hi) as (j & Hij & Hj).
  pose proof (NoDup_lookup (L ++ R) i j n Hnd Hi Hj). lia.
Qed.

(** The state of the loops after the working copy, empty, is released. *)
Lemma sim_inv_released (Nb N0 : nat) (g : FFormatterGraph) (h0 h h2 : Heap)
    (c : FFormatterGraph) (L Rem R : list addr) :
  sim_inv Nb N0 g h0 h c L Rem R -> Nodes c = [] -> frame N0 h h2 ->
  sim_inv Nb N0 g h0 h2 c L [] R.
Proof.
  intros Hsi Hnil Hfr.
  pose proof Hsi as [Hok Hle Hrem Hcl Hguid Hperm Hnodes Hleft Hright Hpair].
  rewrite Hnil in Hnodes. apply Forall2_nil_inv_r in Hnodes as ->.
  pose proof Hok as (_ & _ & Hnd).
  assert (Hout : ∀ a, a ∈ Nodes g -> node h2 a = node h a).
  { intros a Ha. destruct (Hnd a Ha) as (? & _). by destruct (Hfr a ltac:(lia)) as (-> & _). }
  split.
  - done.
  - done.
  - apply (edges_removed_trans N0 h0 h h2); [done|by apply frame_edges_removed].
  - intros X HX. rewrite Hnil in HX. by apply elem_of_nil in HX.
  - intros X p HX. rewrite Hnil in HX. by apply elem_of_nil in HX.
  - done.
  - rewrite Hnil. constructor.
  - intros a e j Ha. rewrite (Hout a Ha). by apply Hleft.
  - intros a e i Hi. rewrite Hout; [by apply Hright|].
    rewrite Hperm, !elem_of_app. right. right. by eapply list_elem_of_lookup_2.
  - apply (edges_paired_same_on h h2); [done| |done].
    intros n e Hn He. pose proof (graph_ok_edges_removed Nb N0 h0 h g Hle Hok Hrem)
      as (_ & _ & Hnodes).
    destruct (Hnodes n Hn) as (_ & _ & _ & Hie & Hoe).
    assert (Hlt : e < Nb).
    { apply elem_of_app in He as [He|He];
        [destruct (Hie e He) as (? & _)|destruct (Hoe e He) as (? & _)]; lia. }
    by destruct (Hfr e ltac:(lia)) as (_ & _ & -> & _).
Qed.

(** A graph that is well formed with its edges recorded at both ends has
    its edges recorded at both ends in terms of successors and
    predecessors. *)
Lemma paired_edges_recorded (Nb : nat) (h : Heap) (g : FFormatterGraph) :
  graph_ok Nb h g -> edges_paired h (Nodes g) -> edges_recorded h g.
Proof.
  intros Hok Hpair. pose proof Hok as (_ & _ & Hnodes). unfold edges_paired in Hpair.
  split.
  - intros u v Hu Hv. unfold GetSuccessors in Hv.
    apply list_elem_of_fmap in Hv as (e & -> & He).
    destruct (Hnodes u Hu) as (_ & _ & _ & _ & Hoe).
    destruct (Hoe e He) as (_ & HF & m & Hm & HT).
    rewrite (graph_ok_own Nb h g m _ Hok Hm ltac:(apply elem_of_app; by left)).
    split; [done|].
    assert (Hk : edge_key h e ∈ out_pairs h (Nodes g)) by (apply elem_of_out_pairs; eauto).
    rewrite Hpair in Hk. apply elem_of_in_pairs in Hk as (n & e2 & Hn & He2 & Hk).
    injection Hk as Hk1 Hk2.
    destruct (Hnodes n Hn) as (_ & _ & _ & Hie & _). destruct (Hie e2 He2) as (_ & HF2 & _).
    assert (n = m) as ->.
    { apply (graph_ok_pin_unique Nb h g n m (To (edge h e)) Hok Hn Hm);
        apply elem_of_app; left; [by rewrite Hk2|done]. }
    unfold GetPredecessors. apply list_elem_of_fmap. exists e2. split; [|done].
    rewrite <- Hk1. symmetry.
    apply (graph_ok_own Nb h g u _ Hok Hu). apply elem_of_app. by right.
  - intros u v Hv Hu. unfold GetPredecessors in Hu.
    apply list_elem_of_fmap in Hu as (e & -> & He).
    destruct (Hnodes v Hv) as (_ & _ & _ & Hie & _).
    destruct (Hie e He) as (_ & HF & m & Hm & HT).
    rewrite (graph_ok_own Nb h g m _ Hok Hm ltac:(apply elem_of_app; by right)).
    split; [done|].
    assert (Hk : rev_key h e ∈ in_pairs h (Nodes g)) by (apply elem_of_in_pairs; eauto).
    rewrite <- Hpair in Hk. apply elem_of_out_pairs in Hk as (n & e2 & Hn & He2 & Hk).
    injection Hk as Hk1 Hk2.
    destruct (Hnodes n Hn) as (_ & _ & _ & _ & Hoe). destruct (Hoe e2 He2) as (_ & HF2 & _).
    assert (n = m) as ->.
    { apply (graph_ok_pin_unique Nb h g n m (To (edge h e)) Hok Hn Hm);
        apply elem_of_app; right; [by rewrite Hk1|done]. }
    unfold GetSuccessors. apply list_elem_of_fmap. exists e2. split; [|done].
    rewrite <- Hk2. symmetry.
    apply (graph_ok_own Nb h g v _ Hok Hv). apply elem_of_app. by left.
Qed.

(** [RemoveCycle] returns, and the state of its loops holds at its end
    with an empty working copy. *)
Lemma RemoveCycle_sim (f Nb : nat) (h : Heap) (g : FFormatterGraph) :
  Nb <= next h -> wf_graph (S f) Nb h g -> maps_ok Nb h g -> maps_exact h g ->
  edges_paired h (Nodes g) ->
  (∀ n, n ∈ Nodes g -> array_ok (OutEdges (node h n)) ∧ array_ok (InEdges (node h n))) ->
  length (Nodes g) <= f ->
  ∃ h0 h2 c L R, RemoveCycle (S f) h g = Some h2 ∧ frame (next h) h h0 ∧
    sim_inv Nb (next h) g h0 h2 c L [] R.
Proof.
  intros HNb Hwf Hmaps Hex Hpair Harr Hlen.
  pose proof Hwf as [Hok _].
  destruct (clone_inv_initial f Nb h g HNb Hwf Hmaps Hpair Harr)
    as (h0 & c0 & E & E2 & Hcopy & Hci0 & Hfr0 & Hlen0 & HF).
  pose proof (sim_inv_initial Nb h g h0 c0 HNb Hok Hfr0 Hex Hpair HF) as Hsi0.
  destruct (peel_sources_sim (S f) f (next h) E E2 Nb g h0 [] ltac:(lia)
              (S f) h0 c0 _ _ ltac:(lia) Hci0 Hsi0)
    as (ha & ca & La & Rema & Hpa & Hcia & Hsia & Hlena).
  destruct (peel_sinks_sim (S f) f (next h) E E2 Nb g h0 La ltac:(lia)
              (S f) ha ca _ _ ltac:(lia) Hcia Hsia)
    as (hb & cb & Remb & Rb & Hpb & Hcib & Hsib & Hlenb).
  destruct (medians_sim (S f) f (next h) E E2 Nb g h0 Rb ltac:(lia)
              (S f) hb cb _ _ ltac:(lia) Hcib Hsib)
    as (h1 & c & L1 & Rem1 & Hmed & Hci1 & Hsi1 & Hnil).
  pose proof Hci1 as [Hb _ _ _ _ _ _ _ _ Hiso].
  destruct (FFormatterGraph_dtor_spec f (S f) E2 (next h1) h1 c) as (h2 & Hdtor & Hsh & _).
  { cbn [graph_in]. rewrite Hnil. split; [|done]. intros n Hn. by apply elem_of_nil in Hn. }
  { lia. }
  exists h0, h2, c, L1, Rb. split; [|split; [done|]].
  { unfold RemoveCycle, RemoveCycle_run. rewrite Hcopy. cbn [mbind option_bind].
    rewrite Hpa. cbn [mbind option_bind]. rewrite Hpb. cbn [mbind option_bind].
    rewrite Hmed. cbn [mbind option_bind]. done. }
  apply (sim_inv_released Nb (next h) g h0 h1 h2 c L1 Rem1 Rb Hsi1 Hnil).
  apply (shrinks_frame (in_range E2 (next h1)) (next h) h1 h2 Hsh).
  intros a [Ha _]. lia.
Qed.

(** X12.  After [RemoveCycle] the graph has no directed cycle: on a
    well-formed graph whose edges are recorded at both ends and whose maps
    find its nodes and pins, [RemoveCycle] returns, no node of the graph
    lies on a directed cycle any more, and the nodes can be listed so that
    every edge that is left leads from a node to a node further on in the
    list. *)
Theorem RemoveCycle_topological (f Nb : nat) (h : Heap) (g : FFormatterGraph) :
  Nb <= next h -> wf_graph (S f) Nb h g -> maps_ok Nb h g -> maps_exact h g ->
  edges_paired h (Nodes g) ->
  (∀ n, n ∈ Nodes g -> array_ok (OutEdges (node h n)) ∧ array_ok (InEdges (node h n))) ->
  length (Nodes g) <= f ->
  ∃ h2 l, RemoveCycle (S f) h g = Some h2 ∧ topological h2 g l ∧ acyclic h2 g.
Proof.
  intros HNb Hwf Hmaps Hex Hpair Harr Hlen.
  destruct (RemoveCycle_sim f Nb h g HNb Hwf Hmaps Hex Hpair Harr Hlen)
    as (h0 & h2 & c & L & R & Hrun & _ & Hsi).
  exists h2, (L ++ R). split; [done|]. split.
  - apply (sim_topological Nb (next h) g h0 h2 c L R Hsi).
  - apply (sim_acyclic Nb (next h) g h0 h2 c L R Hsi).
Qed.

Lemma RemoveCycle_topological_witness :
  ∃ h2 l, RemoveCycle 4 cycle3.1 cycle3.2 = Some h2 ∧ topological h2 cycle3.2 l ∧
          acyclic h2 cycle3.2.
Proof.
  apply (RemoveCycle_topological 3 (next cycle3.1) cycle3.1 cycle3.2).
  - reflexivity.
  - apply wf_graphd_ok.
    apply (bool_decide_unpack (wf_graphd 4 (next cycle3.1) cycle3.1 cycle3.2)).
    vm_compute. exact I.
  - apply (bool_decide_unpack (maps_ok (next cycle3.1) cycle3.1 cycle3.2)).
    vm_compute. exact I.
  - apply (bool_decide_unpack (maps_exact cycle3.1 cycle3.2)).
    vm_compute. exact I.
  - apply permb_sound. vm_compute. reflexivity.
  - intros n Hn.
    assert (E : Nodes cycle3.2 = [1; 4; 7]) by (vm_compute; reflexivity).
    rewrite E in Hn. list_cases Hn; split; by vm_compute.
  - vm_compute. lia.
Defined.

(** X13.  [RemoveCycle] hands the layering phase a graph it can work on:
    on a well-formed graph whose edges are recorded at both ends and whose
    maps find its nodes and pins, the graph is still well formed after
    [RemoveCycle], every edge that is left is still recorded at both of its
    ends (the cut takes an edge out of the in-edges of its head and out of
    the out-edges of its tail together), no directed cycle is left, and
    the path depth of every node is as it was. *)
Theorem RemoveCycle_ready_for_layering (f Nb : nat) (h : Heap) (g : FFormatterGraph) :
  Nb <= next h -> wf_graph (S f) Nb h g -> maps_ok Nb h g -> maps_exact h g ->
  edges_paired h (Nodes g) ->
  (∀ n, n ∈ Nodes g -> array_ok (OutEdges (node h n)) ∧ array_ok (InEdges (node h n))) ->
  length (Nodes g) <= f ->
  ∃ h2, RemoveCycle (S f) h g = Some h2 ∧
    graph_ok Nb h2 g ∧ edges_paired h2 (Nodes g) ∧ edges_recorded h2 g ∧ acyclic h2 g ∧
    ∀ n, n ∈ Nodes g -> PathDepth (node h2 n) = PathDepth (node h n).
Proof.
  intros HNb Hwf Hmaps Hex Hpair Harr Hlen.
  destruct (RemoveCycle_sim f Nb h g HNb Hwf Hmaps Hex Hpair Harr Hlen)
    as (h0 & h2 & c & L & R & Hrun & Hfr & Hsi).
  pose proof (graph_ok_edges_removed Nb (next h) h0 h2 g (si_le _ _ _ _ _ _ _ _ _ Hsi)
                (si_ok _ _ _ _ _ _ _ _ _ Hsi) (si_removed _ _ _ _ _ _ _ _ _ Hsi)) as Hok2.
  pose proof (si_paired _ _ _ _ _ _ _ _ _ Hsi) as Hpair2.
  exists h2. split; [done|]. split; [done|]. split; [done|].
  split; [by apply (paired_edges_recorded Nb)|].
  split; [apply (sim_acyclic Nb (next h) g h0 h2 c L R Hsi)|].
  intros n Hn. pose proof Hwf as [(_ & _ & Hnodes) _]. destruct (Hnodes n Hn) as (? & _).
  destruct (si_removed _ _ _ _ _ _ _ _ _ Hsi n ltac:(lia)) as (_ & _ & _ & ie & oe & -> & _).
  destruct (Hfr n ltac:(lia)) as (-> & _). by destruct (node h n).
Qed.

Lemma RemoveCycle_ready_for_layering_witness :
  ∃ h2, RemoveCycle 4 cycle3.1 cycle3.2 = Some h2 ∧
    graph_ok (next cycle3.1) h2 cycle3.2 ∧ edges_paired h2 (Nodes cycle3.2) ∧
    edges_recorded h2 cycle3.2 ∧ acyclic h2 cycle3.2 ∧
    ∀ n, n ∈ Nodes cycle3.2 -> PathDepth (node h2 n) = PathDepth (node cycle3.1 n).
Proof.
  apply (RemoveCycle_ready_for_layering 3 (next cycle3.1) cycle3.1 cycle3.2).
  - reflexivity.
  - apply wf_graphd_ok.
    apply (bool_decide_unpack (wf_graphd 4 (next cycle3.1) cycle3.1 cycle3.2)).
    vm_compute. exact I.
  - apply (bool_decide_unpack (maps_ok (next cycle3.1) cycle3.1 cycle3.2)).
    vm_compute. exact I.
  - apply (bool_decide_unpack (maps_exact cycle3.1 cycle3.2)).
    vm_compute. exact I.
  - apply permb_sound. vm_compute. reflexivity.
  - intros n Hn.
    assert (E : Nodes cycle3.2 = [1; 4; 7]) by (vm_compute; reflexivity).
    rewrite E in Hn. list_cases Hn; split; by vm_compute.
  - vm_compute. lia.
Defined.

(** ** FindIsolated: the connected components *)

Lemma SetAdd_new `{EqDecision A} (x : A) (s : list A) : x ∉ s -> SetAdd x s = s ++ [x].
Proof. intros Hx. unfold SetAdd. by rewrite decide_False. Qed.

Lemma SetAdd_not_nil `{EqDecision A} (x : A) (s : list A) : SetAdd x s ≠ [].
Proof.
  unfold SetAdd. destruct (decide (x ∈ s)) as [Hin|_].
  - intros ->. by apply elem_of_nil in Hin.
  - by destruct s.
Qed.

Lemma SetAppend_not_nil `{EqDecision A} (t s : list A) : s ≠ [] -> SetAppend s t ≠ [].
Proof.
  unfold SetAppend. revert s. induction t as [|x t IH]; intros s Hs; [done|].
  cbn [fold_left]. apply IH, SetAdd_not_nil.
Qed.

Lemma elem_of_rev_list {A} (x : A) (l : list A) : x ∈ rev l <-> x ∈ l.
Proof. rewrite !list_elem_of_In. symmetry. apply in_rev. Qed.

Lemma elem_of_concat_list {A} (x : A) (ls : list (list A)) :
  x ∈ concat ls <-> ∃ l, x ∈ l ∧ l ∈ ls.
Proof.
  rewrite list_elem_of_In, in_concat. split.
  - intros (l & Hl & Hx). exists l. by rewrite !list_elem_of_In.
  - intros (l & Hx & Hl). exists l. by rewrite <- !list_elem_of_In.
Qed.

Lemma fold_leftM_snoc {A B} (f : B -> A -> option B) (l : list A) (x : A) (b : B) :
  fold_leftM f (l ++ [x]) b = fold_leftM f l b ≫= λ b', f b' x.
Proof.
  revert b. induction l as [|y l IH]; intros b; cbn [fold_leftM app].
  - cbn [mbind option_bind]. by destruct (f b x).
  - destruct (f b y) as [b'|]; [|done]. cbn [mbind option_bind]. apply IH.
Qed.

Lemma FindIsolated_add_not_nil (fuel : nat) (h : Heap) (Os Os' : list (option nat))
    (Top : addr) :
  FindIsolated_add fuel h Os Top = Some Os' -> Os' ≠ [].
Proof.
  unfold FindIsolated_add. destruct (SubGraph (node h Top)) as [s|].
  - destruct (GetOriginalNodes fuel h (graph h s)) as [r|]; [|done].
    cbn [mbind option_bind]. intros [= <-]. apply SetAppend_not_nil, SetAdd_not_nil.
  - intros [= <-]. apply SetAdd_not_nil.
Qed.

(** The nodes pushed for the neighbours [ms] of a node: those that were
    not checked, each once. *)
Lemma FindIsolated_push_fold (ms : list addr) :
  ∀ Stack Checked, NoDup Checked ->
    ∃ added, fold_left FindIsolated_push ms (Stack, Checked)
             = (rev added ++ Stack, Checked ++ added) ∧
      NoDup (Checked ++ added) ∧ added ⊆ ms ∧ ∀ m, m ∈ ms -> m ∈ Checked ++ added.
Proof.
  induction ms as [|m ms IH]; intros Stack Checked Hnd.
  { exists []. rewrite app_nil_r. split; [done|]. split; [done|]. split; [done|].
    intros m Hm. by apply elem_of_nil in Hm. }
  cbn [fold_left]. unfold FindIsolated_push at 2.
  destruct (decide (m ∈ Checked)) as [Hin|Hnin].
  - destruct (IH Stack Checked Hnd) as (added & -> & Hnd' & Hsub & Hall).
    exists added. split; [done|]. split; [done|]. split.
    + intros x Hx. apply list_elem_of_further. by apply Hsub.
    + intros x Hx. apply elem_of_cons in Hx as [->|Hx]; [|by apply Hall].
      apply elem_of_app. by left.
  - rewrite (SetAdd_new m Checked Hnin).
    destruct (IH (m :: Stack) (Checked ++ [m])) as (added & -> & Hnd' & Hsub & Hall).
    { apply NoDup_app. split; [done|]. split; [|apply NoDup_singleton].
      intros x Hx Hx'. apply list_elem_of_singleton in Hx' as ->. done. }
    exists (m :: added). rewrite <- !app_assoc in *. cbn [rev app] in *.
    rewrite <- app_assoc. cbn [app]. split; [done|]. split; [done|]. split.
    + intros x Hx. apply elem_of_cons in Hx as [->|Hx];
        [apply list_elem_of_here|apply list_elem_of_further; by apply Hsub].
    + intros x Hx. apply elem_of_cons in Hx as [->|Hx]; [|by apply Hall].
      apply elem_of_app. right. apply list_elem_of_here.
Qed.

Section isolated.
Context (fuel : nat) (h : Heap) (g : FFormatterGraph).
Context (Hrec : edges_recorded h g).
Context (Hsub : ∀ n s, n ∈ Nodes g -> SubGraph (node h n) = Some s ->
                       is_Some (GetOriginalNodes fuel h (graph h s))).

Lemma linked_node (n m : addr) : n ∈ Nodes g -> linked h n m -> m ∈ Nodes g.
Proof.
  intros Hn Hm. destruct Hrec as [H1 H2]. apply elem_of_app in Hm as [Hm|Hm].
  - by destruct (H1 n m Hn Hm).
  - by destruct (H2 m n Hn Hm).
Qed.

Lemma linked_sym (n m : addr) : n ∈ Nodes g -> linked h n m -> linked h m n.
Proof.
  intros Hn Hm. destruct Hrec as [H1 H2]. apply elem_of_app in Hm as [Hm|Hm].
  - destruct (H1 n m Hn Hm). apply elem_of_app. by right.
  - destruct (H2 m n Hn Hm). apply elem_of_app. by left.
Qed.

Lemma FindIsolated_add_returns (Os : list (option nat)) (Top : addr) :
  Top ∈ Nodes g -> is_Some (FindIsolated_add fuel h Os Top).
Proof.
  intros HT. unfold FindIsolated_add. destruct (SubGraph (node h Top)) as [s|] eqn:Es; [|done].
  destruct (Hsub Top s HT Es) as [r ->]. done.
Qed.

(** The [while] loop empties the stack: it pops every node it pushed, and
    with the nodes popped before they are the nodes that can be reached
    from [r]. *)
Lemma FindIsolated_while_returns (Checked0 : list addr) (r : addr) :
  ∀ k Stack Checked C Os,
    NoDup Checked -> Checked ≡ₚ Checked0 ++ C ++ Stack ->
    (∀ n m, n ∈ C -> linked h n m -> m ∈ Checked) ->
    (∀ n, n ∈ C ++ Stack -> n ∈ Nodes g ∧ rtc (linked h) r n) ->
    isolated_set fuel h C Os ->
    length (Nodes g) < k + length C ->
    ∃ Checked' C' Os',
      FindIsolated_while k fuel h Stack Checked Os = Some ([], Checked', Os') ∧
      NoDup Checked' ∧ Checked' ≡ₚ Checked0 ++ C' ∧ Checked ⊆ Checked' ∧
      (∀ n m, n ∈ C' -> linked h n m -> m ∈ Checked') ∧
      (∀ n, n ∈ C' -> n ∈ Nodes g ∧ rtc (linked h) r n) ∧
      isolated_set fuel h C' Os'.
Proof.
  induction k as [|k IH]; intros Stack Checked C Os HndC Hperm Hclosed Hnodes Hset Hk.
  - destruct Stack as [|Top Stack].
    + exists Checked, C, Os. rewrite app_nil_r in Hperm, Hnodes. done.
    + exfalso.
      assert (HndCS : NoDup (C ++ Top :: Stack)).
      { rewrite Hperm in HndC. by apply NoDup_app in HndC as (_ & _ & ?). }
      assert (Hle : length (C ++ Top :: Stack) <= length (Nodes g)).
      { apply submseteq_length, NoDup_submseteq; [done|]. intros x Hx. by apply Hnodes. }
      rewrite length_app in Hle. cbn [length] in Hle. lia.
  - destruct Stack as [|Top Stack].
    + exists Checked, C, Os. rewrite app_nil_r in Hperm, Hnodes. done.
    + cbn [FindIsolated_while].
      destruct (Hnodes Top) as [HTg HTr]; [apply elem_of_app; right; apply list_elem_of_here|].
      destruct (FindIsolated_add_returns Os Top HTg) as [Os1 HOs1]. rewrite HOs1.
      cbn [mbind option_bind].
      destruct (FindIsolated_push_fold (GetSuccessors h Top ++ GetPredecessors h Top)
                  Stack Checked HndC) as (added & -> & Hnd' & Hadd & Hall).
      destruct (IH (rev added ++ Stack) (Checked ++ added) (C ++ [Top]) Os1)
        as (Checked' & C' & Os' & Hrun & ? & ? & Hsubs & ? & ? & ?).
      * done.
      * rewrite Hperm, <- !app_assoc. cbn [app]. apply Permutation_app_head.
        apply Permutation_app_head. cbn [app]. apply Permutation_cons; [done|].
        rewrite (Permutation_app_comm Stack added). apply Permutation_app_tail.
        apply Permutation_rev.
      * intros n m Hn Hm. apply elem_of_app in Hn as [Hn|Hn].
        -- apply elem_of_app. left. by apply (Hclosed n m).
        -- apply list_elem_of_singleton in Hn as ->. by apply Hall.
      * intros n Hn. rewrite <- app_assoc in Hn. cbn [app] in Hn.
        apply elem_of_app in Hn as [Hn|Hn]; [apply Hnodes, elem_of_app; by left|].
        apply elem_of_cons in Hn as [->|Hn]; [done|].
        apply elem_of_app in Hn as [Hn|Hn].
        -- apply (proj1 (elem_of_rev_list n added)) in Hn. pose proof (Hadd n Hn) as Hl.
           split; [by apply (linked_node Top n)|]. by apply (rtc_r _ Top).
        -- apply Hnodes, elem_of_app. right. by apply list_elem_of_further.
      * unfold isolated_set in *. rewrite fold_leftM_snoc, Hset. done.
      * rewrite length_app. cbn [length]. lia.
      * exists Checked', C', Os'. split; [done|]. split; [done|]. split; [done|].
        split; [|done]. intros x Hx. apply Hsubs. apply elem_of_app. by left.
Qed.

(** The state of the [for] loop after the nodes [Ns]: the nodes checked are
    those of the components found, which are listed with their sets of
    editor nodes. *)
Lemma FindIsolated_for (k : nat) :
  length (Nodes g) < k ->
  ∀ Ns Result Checked comps,
    Ns ⊆ Nodes g -> NoDup Checked -> Checked ≡ₚ concat comps -> Checked ⊆ Nodes g ->
    Forall2 (isolated_set fuel h) comps Result ->
    Forall (component h) comps ->
    ∃ Result' Checked' comps',
      fold_leftM (FindIsolated_node k fuel h) Ns (Result, Checked, [])
        = Some (Result', Checked', []) ∧
      NoDup Checked' ∧ Checked' ≡ₚ concat comps' ∧ Checked' ⊆ Nodes g ∧
      Checked ⊆ Checked' ∧ Ns ⊆ Checked' ∧
      Forall2 (isolated_set fuel h) comps' Result' ∧ Forall (component h) comps'.
Proof.
  intros Hk. induction Ns as [|Node Ns IH];
    intros Result Checked comps HNs HndC Hperm HsubC Hsets Hcomps.
  { exists Result, Checked, comps. cbn [fold_leftM]. do 4 (split; [done|]).
    split; [done|]. split; [|done]. intros x Hx. by apply elem_of_nil in Hx. }
  assert (HNode : Node ∈ Nodes g) by (apply HNs, list_elem_of_here).
  assert (HNs' : Ns ⊆ Nodes g) by (intros x Hx; apply HNs; by apply list_elem_of_further).
  cbn [fold_leftM]. unfold FindIsolated_node at 2. unfold FindIsolated_push.
  destruct (decide (Node ∈ Checked)) as [Hin|Hnin].
  - destruct k as [|k]; [lia|]. cbn [FindIsolated_while mbind option_bind].
    rewrite decide_False by (intros Hn; by apply Hn). 
    destruct (IH Result Checked comps HNs' HndC Hperm HsubC Hsets Hcomps)
      as (Result' & Checked' & comps' & Hrun & ? & ? & ? & Hmono & HNsC & ? & ?).
    exists Result', Checked', comps'. split; [done|]. do 4 (split; [done|]).
    split; [|done]. intros x Hx. apply elem_of_cons in Hx as [->|Hx]; [by apply Hmono|].
    by apply HNsC.
  - rewrite (SetAdd_new Node Checked Hnin).
    destruct (FindIsolated_while_returns Checked Node k [Node] (Checked ++ [Node]) [] [])
      as (Checked1 & C & Os & Hrun & Hnd1 & Hperm1 & Hmono1 & Hclosed1 & Hnodes1 & Hset1).
    { apply NoDup_app. split; [done|]. split; [|apply NoDup_singleton].
      intros x Hx Hx'. apply list_elem_of_singleton in Hx' as ->. done. }
    { done. }
    { intros n m Hn. by apply elem_of_nil in Hn. }
    { intros n Hn. apply list_elem_of_singleton in Hn as ->. done. }
    { done. }
    { cbn [length]. lia. }
    rewrite Hrun. cbn [mbind option_bind].
    assert (HNodeC : Node ∈ C).
    { assert (HN1 : Node ∈ Checked1) by (apply Hmono1, elem_of_app; right; apply list_elem_of_here).
      rewrite Hperm1 in HN1. apply elem_of_app in HN1 as [HN1|HN1]; done. }
    assert (HOs : Os ≠ []).
    { unfold isolated_set in Hset1. destruct C as [|x C] using rev_ind;
        [by apply elem_of_nil in HNodeC|].
      rewrite fold_leftM_snoc in Hset1.
      destruct (fold_leftM (FindIsolated_add fuel h) C []) as [Os0|]; [|done].
      cbn [mbind option_bind] in Hset1. by apply (FindIsolated_add_not_nil fuel h Os0 Os x). }
    rewrite decide_True by (unfold Num; destruct Os; [done|cbn [length]; lia]).
    assert (Hcomp : component h C).
    { split; [|exists Node; split; [done|]; intros n Hn; by apply Hnodes1].
      intros n m Hn Hm. pose proof (Hclosed1 n m Hn Hm) as Hm1. rewrite Hperm1 in Hm1.
      apply elem_of_app in Hm1 as [Hm1|Hm1]; [|done]. exfalso.
      rewrite Hperm in Hm1. apply (proj1 (elem_of_concat_list _ _)) in Hm1 as (C' & Hm' & HC').
      pose proof (proj1 (Forall_forall _ _) Hcomps C' HC') as [Hcl _].
      assert (Hn' : n ∈ C').
      { apply (Hcl m n Hm'). apply linked_sym; [by apply Hnodes1|done]. }
      assert (HnC : n ∈ Checked) by (rewrite Hperm; apply elem_of_concat_list; eauto).
      rewrite Hperm1 in Hnd1. apply NoDup_app in Hnd1 as (_ & Hdis & _).
      by apply (Hdis n HnC). }
    destruct (IH (Result ++ [Os]) Checked1 (comps ++ [C]))
      as (Result' & Checked' & comps' & Hrun' & ? & ? & ? & Hmono & HNsC & ? & ?).
    + done.
    + done.
    + rewrite Hperm1, concat_app, Hperm. cbn [concat]. by rewrite app_nil_r.
    + intros x Hx. rewrite Hperm1 in Hx. apply elem_of_app in Hx as [Hx|Hx];
        [by apply HsubC|by apply Hnodes1].
    + apply Forall2_app; [done|]. by constructor.
    + apply Forall_app. split; [done|]. by constructor.
    + exists Result', Checked', comps'. split; [done|]. do 3 (split; [done|]).
      split; [intros x Hx; apply Hmono, Hmono1, elem_of_app; by left|].
      split; [|done]. intros x Hx. apply elem_of_cons in Hx as [->|Hx]; [|by apply HNsC].
      apply Hmono, Hmono1, elem_of_app. right. apply list_elem_of_here.
Qed.

End isolated.

(** X14.  The search of [FindIsolated] finds the connected components: on
    a graph whose edges are recorded at both ends it returns, and the sets
    it returns are, in order, the sets of editor nodes of groups of nodes
    such that every node of the graph is in exactly one group, a node is
    linked to nodes of its own group only, and all nodes of a group can be
    reached from one of them along edges taken in either direction. *)
Theorem FindIsolated_components (k fuel : nat) (h : Heap) (g : FFormatterGraph) :
  edges_recorded h g -> NoDup (Nodes g) ->
  (∀ n s, n ∈ Nodes g -> SubGraph (node h n) = Some s ->
          is_Some (GetOriginalNodes fuel h (graph h s))) ->
  length (Nodes g) < k ->
  ∃ Result comps, FindIsolated k fuel h g = Some Result ∧
    concat comps ≡ₚ Nodes g ∧ Forall (component h) comps ∧
    Forall2 (isolated_set fuel h) comps Result.
Proof.
  intros Hrec Hnd Hsub Hk.
  destruct (FindIsolated_for fuel h g Hrec Hsub k Hk (Nodes g) [] [] [])
    as (Result & Checked & comps & Hrun & HndC & Hperm & HsubC & _ & Hall & Hsets & Hcomps).
  - done.
  - constructor.
  - done.
  - intros x Hx. by apply elem_of_nil in Hx.
  - constructor.
  - constructor.
  - exists Result, comps. unfold FindIsolated. rewrite Hrun. cbn [mbind option_bind].
    split; [done|]. split; [|done]. rewrite <- Hperm.
    apply NoDup_Permutation; [done|done|]. intros x. split; [apply HsubC|apply Hall].
Qed.

Lemma FindIsolated_components_witness :
  ∃ Result comps, FindIsolated 5 1 diamond4.1 diamond4.2 = Some Result ∧
    concat comps ≡ₚ Nodes diamond4.2 ∧ Forall (component diamond4.1) comps ∧
    Forall2 (isolated_set 1 diamond4.1) comps Result.
Proof.
  assert (E : Nodes diamond4.2 = [1; 4; 7; 10]) by (vm_compute; reflexivity).
  apply (FindIsolated_components 5 1 diamond4.1 diamond4.2).
  - apply (paired_edges_recorded (next diamond4.1)).
    + apply graph_okd_ok.
      apply (bool_decide_unpack (graph_okd (next diamond4.1) diamond4.1 diamond4.2)).
      vm_compute. exact I.
    + apply permb_sound. vm_compute. reflexivity.
  - rewrite E. apply (bool_decide_unpack (NoDup [1; 4; 7; 10])). vm_compute. exact I.
  - intros n s Hn Hs. rewrite E in Hn. list_cases Hn; by vm_compute in Hs.
  - rewrite E. cbn [length]. lia.
Defined.

(** ** GetEdgeLinkedToLayer numbers the pins of the layer *)

Lemma Find_range `{EqDecision A} (x : A) (l : list A) : (-1 <= Find x l < Num l)%Z.
Proof.
  unfold Num. induction l as [|y l IH]; cbn [Find length]; [unfold INDEX_NONE; lia|].
  destruct (decide (y = x)); [lia|].
  destruct (Z.eqb_spec (Find x l) INDEX_NONE); unfold INDEX_NONE in *; lia.
Qed.

Lemma far_count (h : Heap) (Dir : EEdGraphPinDirection) (n : addr) :
  (if decide (Dir = EGPD_Output) then GetInputPinCount h n else GetOutputPinCount h n)
  = Num (far_pins h Dir n).
Proof. unfold far_pins, GetInputPinCount, GetOutputPinCount. by destruct (decide _). Qed.

Lemma far_index (h : Heap) (Dir : EEdGraphPinDirection) (n p : addr) :
  (if decide (Dir = EGPD_Output) then GetInputPinIndex h n p else GetOutputPinIndex h n p)
  = Find p (far_pins h Dir n).
Proof. unfold far_pins, GetInputPinIndex, GetOutputPinIndex. by destruct (decide _). Qed.

Lemma near_index (h : Heap) (Dir : EEdGraphPinDirection) (n p : addr) :
  (if decide (Dir = EGPD_Output) then GetOutputPinIndex h n p else GetInputPinIndex h n p)
  = Find p (near_pins h Dir n).
Proof. unfold near_pins, GetInputPinIndex, GetOutputPinIndex. by destruct (decide _). Qed.

Lemma Num_bind_cons {A B} (f : A -> list B) (x : A) (l : list A) :
  Num ((x :: l) ≫= f) = (Num (f x) + Num (l ≫= f))%Z.
Proof. unfold Num. rewrite bind_cons, length_app. lia. Qed.

(** The inner loop for an edge that leads to no node of the layer: nothing
    is written. *)
Lemma GetEdgeLinkedToLayer_miss (this : addr) (StartIndex : Z) (Dir : EEdGraphPinDirection)
    (e : addr) (Layer : list addr) :
  ∀ hc R Index, target hc e ∉ Layer ->
    ∃ Index', fold_left (GetEdgeLinkedToLayer_node this StartIndex Dir e) Layer (hc, R, Index)
              = (hc, R, Index').
Proof.
  induction Layer as [|n Layer IH]; intros hc R Index HT; [by exists Index|].
  cbn [fold_left]. unfold GetEdgeLinkedToLayer_node at 2. fold (target hc e).
  apply not_elem_of_cons in HT as [Hne HT]. rewrite decide_True by done.
  by apply IH.
Qed.

(** The inner loop for an edge that leads to a node of the layer: the
    edge gets the number of its far pin in the layer. *)
Lemma GetEdgeLinkedToLayer_hit (this : addr) (StartIndex : Z) (Dir : EEdGraphPinDirection)
    (e : addr) (Layer : list addr) :
  ∀ hc R Index, NoDup Layer -> target hc e ∈ Layer ->
    (0 <= Index)%Z -> (Index + Num (Layer ≫= far_pins hc Dir) <= INT32_MAX)%Z ->
    ∃ Index', fold_left (GetEdgeLinkedToLayer_node this StartIndex Dir e) Layer (hc, R, Index)
      = (set_edge hc e
           (mkEdge (From (edge hc e))
                   (int32 (StartIndex + Find (From (edge hc e)) (near_pins hc Dir this)))
                   (To (edge hc e))
                   (Index + pin_number hc Dir Layer (target hc e) (To (edge hc e)))),
         R ++ [e], Index').
Proof.
  induction Layer as [|n Layer IH]; intros hc R Index Hnd HT H0 Hmax;
    [by apply elem_of_nil in HT|].
  apply NoDup_cons in Hnd as [Hn Hnd]. rewrite Num_bind_cons in Hmax.
  pose proof (Num_nonneg (far_pins hc Dir n)) as Hc.
  pose proof (Num_nonneg (Layer ≫= far_pins hc Dir)) as Hr.
  cbn [fold_left pin_number]. unfold GetEdgeLinkedToLayer_node at 2. fold (target hc e).
  rewrite far_count, far_index, near_index.
  destruct (decide (n = target hc e)) as [Heq|Hne].
  - rewrite decide_False by (intros Hc'; by apply Hc').
    pose proof (Find_range (To (edge hc e)) (far_pins hc Dir n)) as Hf.
    rewrite (int32_small (Index + Find (To (edge hc e)) (far_pins hc Dir n)))
      by (unfold INT32_MAX in Hmax; lia).
    set (h1 := set_edge hc e _).
    destruct (GetEdgeLinkedToLayer_miss this StartIndex Dir e Layer h1 (R ++ [e])
                (Index + Find (To (edge hc e)) (far_pins hc Dir n))%Z) as (Index' & ->).
    { assert (Ht : target h1 e = target hc e).
      { unfold target, h1. rewrite edge_set_edge, decide_True by done. cbn [To].
        by rewrite pin_set_edge. }
      rewrite Ht, <- Heq. done. }
    by exists Index'.
  - rewrite decide_True by (intros Hc'; by apply Hne).
    apply elem_of_cons in HT as [HT|HT]; [by destruct Hne|].
    rewrite (int32_small (Index + Num (far_pins hc Dir n)))
      by (unfold INT32_MAX in Hmax; lia).
    destruct (IH hc R (Index + Num (far_pins hc Dir n))%Z Hnd HT ltac:(lia) ltac:(lia))
      as (Index' & ->).
    exists Index'. by rewrite Z.add_assoc.
Qed.

Lemma far_pins_same (h hc : Heap) (Dir : EEdGraphPinDirection) (n : addr) :
  (∀ a, node hc a = node h a) -> far_pins hc Dir n = far_pins h Dir n.
Proof. intros Hn. unfold far_pins. by rewrite Hn. Qed.

Lemma pin_number_same (h hc : Heap) (Dir : EEdGraphPinDirection) (Layer : list addr)
    (T p : addr) :
  (∀ a, node hc a = node h a) -> pin_number hc Dir Layer T p = pin_number h Dir Layer T p.
Proof.
  intros Hn. induction Layer as [|n Layer IH]; [done|]. cbn [pin_number].
  by rewrite IH, (far_pins_same h hc Dir n Hn).
Qed.

(** The outer loop: the edges towards the layer are returned in their
    order, each with its two indices, and nothing else is written. *)
Lemma GetEdgeLinkedToLayer_loop (h : Heap) (this : addr) (Layer : list addr)
    (StartIndex : Z) (Dir : EEdGraphPinDirection) :
  NoDup Layer -> (Num (Layer ≫= far_pins h Dir) <= INT32_MAX)%Z ->
  ∀ Edges hc R,
    (∀ a, node hc a = node h a) -> (∀ a, pin hc a = pin h a) ->
    (∀ e, edge hc e = if decide (e ∈ R) then numbered_edge h this Layer StartIndex Dir e
                      else edge h e) ->
    ∃ h' R',
      fold_left (GetEdgeLinkedToLayer_edge this Layer StartIndex Dir) Edges (hc, R)
        = (h', R') ∧
      R' = R ++ filter (λ e, target h e ∈ Layer) Edges ∧
      (∀ a, node h' a = node h a) ∧ (∀ a, pin h' a = pin h a) ∧
      ∀ e, edge h' e = if decide (e ∈ R') then numbered_edge h this Layer StartIndex Dir e
                       else edge h e.
Proof.
  intros Hnd Hmax. induction Edges as [|e Edges IH]; intros hc R Hnode Hpin Hedge.
  { exists hc, R. cbn [fold_left filter list_filter]. rewrite app_nil_r. done. }
  cbn [fold_left].
  assert (Hends : From (edge hc e) = From (edge h e) ∧ To (edge hc e) = To (edge h e)).
  { rewrite Hedge. by destruct (decide (e ∈ R)). }
  destruct Hends as [HF HT].
  assert (Htarget : target hc e = target h e) by (unfold target; by rewrite HT, Hpin).
  assert (Hbind : Layer ≫= far_pins hc Dir = Layer ≫= far_pins h Dir).
  { apply bind_ext_elem. intros n _. by apply far_pins_same. }
  assert (Hnear : near_pins hc Dir this = near_pins h Dir this)
    by (unfold near_pins; by rewrite Hnode).
  rewrite filter_cons.
  destruct (decide (target h e ∈ Layer)) as [Hin|Hnin].
  - assert (Hstep : GetEdgeLinkedToLayer_edge this Layer StartIndex Dir (hc, R) e
                    = (set_edge hc e (numbered_edge h this Layer StartIndex Dir e),
                       R ++ [e])).
    { unfold GetEdgeLinkedToLayer_edge. cbn [fst snd].
      destruct (GetEdgeLinkedToLayer_hit this StartIndex Dir e Layer hc R 0%Z Hnd)
        as (Index' & ->); [by rewrite Htarget|done|by rewrite Hbind|].
      rewrite Z.add_0_l, HF, HT, Htarget, (pin_number_same h hc Dir Layer _ _ Hnode), Hnear.
      done. }
    rewrite Hstep.
    destruct (IH (set_edge hc e (numbered_edge h this Layer StartIndex Dir e)) (R ++ [e]))
      as (h' & R' & Hfold & HR' & Hn' & Hp' & He'); [done|done| |].
    + intros e'. rewrite edge_set_edge.
      destruct (decide (e' = e)) as [->|Hne].
      * rewrite decide_True; [done|]. apply elem_of_app. right. apply list_elem_of_here.
      * rewrite Hedge. destruct (decide (e' ∈ R)) as [HR|HR].
        -- rewrite decide_True; [done|]. apply elem_of_app. by left.
        -- rewrite decide_False; [done|]. intros Hc. apply elem_of_app in Hc as [Hc|Hc];
             [done|]. by apply list_elem_of_singleton in Hc.
    + exists h', R'. split; [done|]. split; [|done]. rewrite HR', <- app_assoc. done.
  - assert (Hstep : GetEdgeLinkedToLayer_edge this Layer StartIndex Dir (hc, R) e = (hc, R)).
    { unfold GetEdgeLinkedToLayer_edge. cbn [fst snd].
      destruct (GetEdgeLinkedToLayer_miss this StartIndex Dir e Layer hc R 0%Z)
        as (Index' & ->); [by rewrite Htarget|done]. }
    rewrite Hstep. by apply IH.
Qed.

(** X15.  [GetEdgeLinkedToLayer] numbers the pins of the layer: for a layer
    without duplicates whose pins are at most [INT32_MAX], it returns, in
    their order, the edges of the node that lead to a node of the layer,
    and it writes into each of them, as [ToIndex], the number of its far
    pin when the pins of the layer are counted from 0, node after node,
    and as [FromIndex] the start index plus the index of its near pin.  It
    changes no node, no pin, and no other edge. *)
Theorem GetEdgeLinkedToLayer_numbers (h : Heap) (this : addr) (Layer : list addr)
    (StartIndex : Z) (Dir : EEdGraphPinDirection) :
  NoDup Layer -> (Num (Layer ≫= far_pins h Dir) <= INT32_MAX)%Z ->
  (GetEdgeLinkedToLayer h this Layer StartIndex Dir).2
    = filter (λ e, target h e ∈ Layer)
        (if decide (Dir = EGPD_Output) then OutEdges (node h this)
         else InEdges (node h this)) ∧
  (∀ a, node (GetEdgeLinkedToLayer h this Layer StartIndex Dir).1 a = node h a) ∧
  (∀ a, pin (GetEdgeLinkedToLayer h this Layer StartIndex Dir).1 a = pin h a) ∧
  ∀ e, edge (GetEdgeLinkedToLayer h this Layer StartIndex Dir).1 e =
    if decide (e ∈ (GetEdgeLinkedToLayer h this Layer StartIndex Dir).2)
    then numbered_edge h this Layer StartIndex Dir e
    else edge h e.
Proof.
  intros Hnd Hmax. unfold GetEdgeLinkedToLayer.
  destruct (GetEdgeLinkedToLayer_loop h this Layer StartIndex Dir Hnd Hmax
              (if decide (Dir = EGPD_Output) then OutEdges (node h this)
               else InEdges (node h this)) h [])
    as (h' & R' & -> & Hr & Hn & Hp & He); [done|done| |done].
  intros e. rewrite decide_False; [done|]. apply not_elem_of_nil.
Qed.

Lemma GetEdgeLinkedToLayer_numbers_witness :
  (GetEdgeLinkedToLayer diamond4.1 1 [4; 7] 0 EGPD_Output).2
    = filter (λ e, target diamond4.1 e ∈ [4; 7])
        (if decide (EGPD_Output = EGPD_Output) then OutEdges (node diamond4.1 1)
         else InEdges (node diamond4.1 1)) ∧
  (∀ a, node (GetEdgeLinkedToLayer diamond4.1 1 [4; 7] 0 EGPD_Output).1 a
        = node diamond4.1 a) ∧
  (∀ a, pin (GetEdgeLinkedToLayer diamond4.1 1 [4; 7] 0 EGPD_Output).1 a
        = pin diamond4.1 a) ∧
  ∀ e, edge (GetEdgeLinkedToLayer diamond4.1 1 [4; 7] 0 EGPD_Output).1 e =
    if decide (e ∈ (GetEdgeLinkedToLayer diamond4.1 1 [4; 7] 0 EGPD_Output).2)
    then numbered_edge diamond4.1 1 [4; 7] 0 EGPD_Output e
    else edge diamond4.1 e.
Proof.
  apply (GetEdgeLinkedToLayer_numbers diamond4.1 1 [4; 7] 0 EGPD_Output).
  - apply (bool_decide_unpack (NoDup [4; 7])). vm_compute. exact I.
  - by vm_compute.
Defined.

(** ** AddNode fills the maps *)

Lemma fold_insert_Forall {K V} `{Countable K} (key : V -> K) (P : K -> V -> Prop)
    (l : list V) :
  ∀ m : gmap K V,
  map_Forall P m -> (∀ v, v ∈ l -> P (key v) v) ->
  map_Forall P (fold_left (λ m v, <[key v := v]> m) l m).
Proof.
  induction l as [|v l IH]; intros m Hm Hl; [done|]. cbn [fold_left]. apply IH.
  - apply map_Forall_insert_2; [apply Hl, list_elem_of_here|done].
  - intros x Hx. apply Hl. by apply list_elem_of_further.
Qed.

(** X16.  [AddNode] keeps the maps of the graph in step with its node
    array: when the identifier of the node is new in the graph and the pin
    identifiers stay distinct, the maps of the graph with the node added
    find every node of the array, the new one included, by its identifier
    and every pin of these nodes by its identifier, and they hold only
    objects below [Nb] when the node and its pins are below [Nb]. *)
Theorem AddNode_maps_exact (Nb : nat) (h : Heap) (g : FFormatterGraph) (n : addr) :
  maps_exact h g -> maps_ok Nb h g ->
  Guid (node h n) ∉ map (λ m, Guid (node h m)) (Nodes g) ->
  NoDup (map (λ p, PinGuid (pin h p)) (all_pins h (Nodes g ++ [n]))) ->
  n < Nb -> (∀ p, p ∈ pins_of h n -> p < Nb ∧ OwningNode (pin h p) < Nb) ->
  Nodes (AddNode h g n) = Nodes g ++ [n] ∧
  maps_exact h (AddNode h g n) ∧ maps_ok Nb h (AddNode h g n).
Proof.
  intros [Hen Hep] (_ & _ & Hvn & Hvp) Hfresh Hnd Hn Hpins.
  rewrite all_pins_snoc, map_app in Hnd. apply NoDup_app in Hnd as (_ & Hdis & Hndn).
  assert (HNM : ∀ N, N ∈ Nodes g ++ [n] ->
            NodesMap (AddNode h g n) !! Guid (node h N) = Some N).
  { intros N HN. unfold AddNode. cbn [NodesMap].
    apply elem_of_app in HN as [HN|HN].
    - rewrite lookup_insert_ne.
      + apply (proj1 (Forall_forall _ _) Hen N HN).
      + intros Heq. apply Hfresh. rewrite Heq. apply list_elem_of_fmap. by exists N.
    - apply list_elem_of_singleton in HN as ->. apply lookup_insert_eq. }
  assert (HPM : ∀ P, P ∈ all_pins h (Nodes g ++ [n]) ->
            PinsMap (AddNode h g n) !! PinGuid (pin h P) = Some P).
  { intros P HP. rewrite PinsMap_AddNode. rewrite all_pins_snoc in HP.
    apply elem_of_app in HP as [HP|HP].
    - rewrite (fold_insert_notin (λ p, PinGuid (pin h p))).
      + apply (proj1 (Forall_forall _ _) Hep P HP).
      + apply (Hdis (PinGuid (pin h P))). apply list_elem_of_fmap. by exists P.
    - apply list_elem_of_lookup in HP as [i Hi].
      by apply (fold_insert_in (λ p, PinGuid (pin h p)) _ _ i). }
  split; [done|]. split; [|split; [|split; [|split]]].
  - split; apply Forall_forall; [apply HNM|apply HPM].
  - apply Forall_forall. intros N HN. by rewrite (HNM N HN).
  - apply Forall_forall. intros P HP. by rewrite (HPM P HP).
  - unfold AddNode. cbn [NodesMap]. by apply map_Forall_insert_2.
  - rewrite PinsMap_AddNode.
    by apply (fold_insert_Forall (λ p, PinGuid (pin h p))
                (λ _ p, p < Nb ∧ OwningNode (pin h p) < Nb)).
Qed.

Lemma AddNode_maps_exact_witness :
  Nodes (AddNode diamond4_fresh.2 diamond4.2 diamond4_fresh.1)
    = Nodes diamond4.2 ++ [diamond4_fresh.1] ∧
  maps_exact diamond4_fresh.2 (AddNode diamond4_fresh.2 diamond4.2 diamond4_fresh.1) ∧
  maps_ok 30 diamond4_fresh.2 (AddNode diamond4_fresh.2 diamond4.2 diamond4_fresh.1).
Proof.
  apply (AddNode_maps_exact 30 diamond4_fresh.2 diamond4.2 diamond4_fresh.1).
  - apply (bool_decide_unpack (maps_exact diamond4_fresh.2 diamond4.2)).
    vm_compute. exact I.
  - apply (bool_decide_unpack (maps_ok 30 diamond4_fresh.2 diamond4.2)).
    vm_compute. exact I.
  - apply (bool_decide_unpack (_ ∉ _)). vm_compute. exact I.
  - apply (bool_decide_unpack (NoDup _)). vm_compute. exact I.
  - vm_compute. lia.
  - intros p Hp.
    assert (E : pins_of diamond4_fresh.2 diamond4_fresh.1 = [22; 23])
      by (vm_compute; reflexivity).
    rewrite E in Hp. list_cases Hp; vm_compute; lia.
Defined.

(** ** binary32: the digits of a mantissa *)

Lemma digits2_pos_size (p : positive) : digits2_pos p = Pos.size p.
Proof. induction p as [p IH|p IH|]; cbn; congruence. Qed.

Lemma digits_bounds (p : positive) :
  (2 ^ (Z.pos (digits2_pos p) - 1) <= Z.pos p < 2 ^ Z.pos (digits2_pos p))%Z.
Proof.
  rewrite digits2_pos_size. split.
  - pose proof (Pos.size_le p) as H.
    assert (H' : (2 ^ Z.pos (Pos.size p) <= 2 * Z.pos p)%Z).
    { change (2 * Z.pos p)%Z with (Z.pos p~0). rewrite <- Pos2Z.inj_pow. exact H. }
    replace (Z.pos (Pos.size p)) with (Z.succ (Z.pos (Pos.size p) - 1)) in H' by lia.
    rewrite Z.pow_succ_r in H' by lia. lia.
  - pose proof (Pos.size_gt p) as H.
    change 2%Z with (Z.pos 2). rewrite <- Pos2Z.inj_pow. exact H.
Qed.

Lemma digits_unique (p : positive) (d : Z) :
  (2 ^ (d - 1) <= Z.pos p < 2 ^ d)%Z -> Z.pos (digits2_pos p) = d.
Proof.
  intros [Hlo Hhi]. destruct (digits_bounds p) as [Hlo' Hhi'].
  set (d' := Z.pos (digits2_pos p)) in *.
  assert (0 < d)%Z.
  { destruct (Z.ltb_spec 0 d); [done|]. rewrite Z.pow_neg_r in Hlo by lia.
    destruct (Z.eqb_spec d 0) as [->|]; [cbn in Hhi; lia|].
    rewrite Z.pow_neg_r in Hhi by lia. lia. }
  destruct (Z.lt_trichotomy d' d) as [Hlt|[Heq|Hgt]]; [|done|].
  - pose proof (Z.pow_le_mono_r 2 d' (d - 1)). lia.
  - pose proof (Z.pow_le_mono_r 2 d (d' - 1)). lia.
Qed.

Lemma iter_xO_pow (p d : positive) : Z.pos (Pos.iter xO p d) = (Z.pos p * 2 ^ Z.pos d)%Z.
Proof.
  induction d as [|d IH] using Pos.peano_ind.
  - cbn. lia.
  - rewrite Pos.iter_succ, Pos2Z.inj_succ, Z.pow_succ_r by lia.
    rewrite Pos2Z.inj_xO, IH. lia.
Qed.

Lemma iter_pos_iter {A} (f : A -> A) (n : positive) :
  ∀ x, SpecFloat.iter_pos f n x = Pos.iter f x n.
Proof.
  induction n as [n IH|n IH|]; intros x; cbn [SpecFloat.iter_pos Pos.iter]; [|by rewrite !IH|done].
  by rewrite !IH, <- !Pos.iter_swap.
Qed.

(** Shifting out [n] digits that are all zero loses nothing. *)
Lemma shr_exact (q m : positive) (n : positive) :
  Z.pos q = (Z.pos m * 2 ^ Z.pos n)%Z ->
  SpecFloat.iter_pos shr_1 n (Build_shr_record (Z.pos q) false false)
  = Build_shr_record (Z.pos m) false false.
Proof.
  rewrite iter_pos_iter. revert q.
  induction n as [|n IH] using Pos.peano_ind; intros q Hq.
  - cbn [Pos.iter]. destruct q as [q|q|]; try lia. cbn.
    f_equal. lia.
  - rewrite Pos.iter_succ_r. rewrite Pos2Z.inj_succ, Z.pow_succ_r in Hq by lia.
    destruct q as [q|q|]; try lia. cbn [shr_1 orb]. apply IH. lia.
Qed.

(** ** binary32: whole numbers *)

Lemma canon_pos (r : positive) :
  (Z.pos (digits2_pos r) <= 24)%Z ->
  Z.pos (canon r) = (Z.pos r * 2 ^ (24 - Z.pos (digits2_pos r)))%Z.
Proof.
  intros Hd. unfold canon. rewrite Z2Pos.id; [done|].
  apply Z.mul_pos_pos; [lia|]. apply Z.pow_pos_nonneg; lia.
Qed.

Lemma canon_digits (r : positive) :
  (Z.pos (digits2_pos r) <= 24)%Z -> Z.pos (digits2_pos (canon r)) = 24%Z.
Proof.
  intros Hd. apply digits_unique. rewrite canon_pos by done.
  destruct (digits_bounds r) as [Hlo Hhi].
  set (D := Z.pos (digits2_pos r)) in *.
  assert (E1 : (2 ^ (24 - 1) = 2 ^ (D - 1) * 2 ^ (24 - D))%Z)
    by (rewrite <- Z.pow_add_r by lia; f_equal; lia).
  assert (E2 : (2 ^ 24 = 2 ^ D * 2 ^ (24 - D))%Z)
    by (rewrite <- Z.pow_add_r by lia; f_equal; lia).
  rewrite E1, E2.
  assert (0 < 2 ^ (24 - D))%Z by (apply Z.pow_pos_nonneg; lia). nia.
Qed.

Lemma binary_round_aux_canonical (s : bool) (m : positive) (e : Z) :
  Z.pos (digits2_pos m) = 24%Z -> (-149 <= e <= 104)%Z ->
  binary_round_aux 24 128 s (Z.pos m) e loc_Exact = S754_finite s m e.
Proof.
  intros Hd He.
  assert (Hf : (fexp 24 128 (Z.pos (digits2_pos m) + e) - e = 0)%Z)
    by (unfold fexp, emin; lia).
  unfold binary_round_aux, shr_fexp. cbn [Zdigits2 shr_record_of_loc]. rewrite Hf.
  cbn [shr shr_m loc_of_shr_record round_nearest_even Zdigits2 shr_record_of_loc].
  rewrite Hf. cbn [shr shr_m].
  destruct (Z.leb_spec e (128 - 24)); [done|lia].
Qed.

Lemma binary_round_aux_shift (s : bool) (q m n : positive) (e : Z) :
  Z.pos q = (Z.pos m * 2 ^ Z.pos n)%Z -> Z.pos (digits2_pos m) = 24%Z ->
  (-149 <= e)%Z -> (e + Z.pos n <= 104)%Z ->
  binary_round_aux 24 128 s (Z.pos q) e loc_Exact = S754_finite s m (e + Z.pos n).
Proof.
  intros Hq Hd He1 He2.
  assert (Hdq : Z.pos (digits2_pos q) = (24 + Z.pos n)%Z).
  { apply digits_unique. rewrite Hq. destruct (digits_bounds m) as [Hlo Hhi].
    rewrite Hd in Hlo, Hhi.
    replace (24 + Z.pos n - 1)%Z with ((24 - 1) + Z.pos n)%Z by lia.
    rewrite !Z.pow_add_r by lia.
    assert (0 < 2 ^ Z.pos n)%Z by (apply Z.pow_pos_nonneg; lia). nia. }
  assert (Hf : (fexp 24 128 (Z.pos (digits2_pos q) + e) - e = Z.pos n)%Z)
    by (unfold fexp, emin; lia).
  assert (Hf' : (fexp 24 128 (Z.pos (digits2_pos m) + (e + Z.pos n)) - (e + Z.pos n) = 0)%Z)
    by (unfold fexp, emin; lia).
  unfold binary_round_aux, shr_fexp. cbn [Zdigits2 shr_record_of_loc]. rewrite Hf.
  cbn [shr]. rewrite (shr_exact q m n Hq).
  cbn [shr_m loc_of_shr_record round_nearest_even Zdigits2 shr_record_of_loc].
  rewrite Hf'. cbn [shr shr_m].
  destruct (Z.leb_spec (e + Z.pos n) (128 - 24)); [done|lia].
Qed.

(** Rounding a whole number of at most 24 digits that is given with [K]
    more zero digits gives the number itself. *)
Lemma binary_round_scaled (s : bool) (q r : positive) (K : Z) :
  (0 <= K <= 125)%Z -> Z.pos q = (Z.pos r * 2 ^ K)%Z ->
  (Z.pos (digits2_pos r) <= 24)%Z ->
  binary_round 24 128 s q (- K) = S754_finite s (canon r) (Z.pos (digits2_pos r) - 24).
Proof.
  intros HK Hq Hd. pose proof (canon_pos r Hd) as Hc. pose proof (canon_digits r Hd) as Hcd.
  set (D := Z.pos (digits2_pos r)) in *.
  assert (Hdq : Z.pos (digits2_pos q) = (D + K)%Z).
  { apply digits_unique. rewrite Hq. destruct (digits_bounds r) as [Hlo Hhi]. fold D in Hlo, Hhi.
    replace (D + K - 1)%Z with ((D - 1) + K)%Z by lia.
    rewrite !Z.pow_add_r by lia.
    assert (0 < 2 ^ K)%Z by (apply Z.pow_pos_nonneg; lia). nia. }
  assert (Hf : fexp 24 128 (Z.pos (digits2_pos q) + - K) = (D - 24)%Z)
    by (unfold fexp, emin; lia).
  unfold binary_round. rewrite Hf. unfold shl_align.
  destruct (D - 24 - - K)%Z as [|n|d] eqn:Ht.
  - assert (q = canon r) as ->.
    { apply Pos2Z.inj. rewrite Hc, Hq. f_equal. f_equal. lia. }
    replace (- K)%Z with (D - 24)%Z by lia.
    apply binary_round_aux_canonical; [done|lia].
  - replace (D - 24)%Z with (- K + Z.pos n)%Z by lia.
    apply binary_round_aux_shift; [|done|lia|lia].
    rewrite Hq, Hc, <- Z.mul_assoc, <- Z.pow_add_r by lia. f_equal. f_equal. lia.
  - assert (Pos.iter xO q d = canon r) as ->.
    { apply Pos2Z.inj. rewrite iter_xO_pow, Hc, Hq, <- Z.mul_assoc, <- Z.pow_add_r by lia.
      f_equal. f_equal. lia. }
    apply binary_round_aux_canonical; [done|lia].
Qed.

Lemma f32_of_int_whole (z : Z) : (Z.abs z < 2 ^ 24)%Z -> f32_of_int z = f32_whole z.
Proof.
  intros Hz. destruct z as [|r|r]; [done| |]; unfold f32_of_int, binary_normalize, f32_whole.
  - assert (Hd : (Z.pos (digits2_pos r) <= 24)%Z).
    { destruct (digits_bounds r) as [Hlo _].
      destruct (Z.le_gt_cases (Z.pos (digits2_pos r)) 24) as [|Hgt]; [done|].
      pose proof (Z.pow_le_mono_r 2 24 (Z.pos (digits2_pos r) - 1)). lia. }
    apply (binary_round_scaled false r r 0); [lia|cbn; lia|done].
  - assert (Hd : (Z.pos (digits2_pos r) <= 24)%Z).
    { destruct (digits_bounds r) as [Hlo _].
      destruct (Z.le_gt_cases (Z.pos (digits2_pos r)) 24) as [|Hgt]; [done|].
      pose proof (Z.pow_le_mono_r 2 24 (Z.pos (digits2_pos r) - 1)). lia. }
    apply (binary_round_scaled true r r 0); [lia|cbn; lia|done].
Qed.

Lemma digits_le_24 (r : positive) : (Z.pos r < 2 ^ 24)%Z -> (Z.pos (digits2_pos r) <= 24)%Z.
Proof.
  intros Hr. destruct (digits_bounds r) as [Hlo _].
  destruct (Z.le_gt_cases (Z.pos (digits2_pos r)) 24) as [|Hgt]; [done|].
  pose proof (Z.pow_le_mono_r 2 24 (Z.pos (digits2_pos r) - 1)). lia.
Qed.

Lemma binary_normalize_scaled (z K : Z) :
  (Z.abs z < 2 ^ 24)%Z -> (0 <= K <= 125)%Z ->
  binary_normalize 24 128 (z * 2 ^ K) (- K) false = f32_whole z.
Proof.
  intros Hz HK. assert (HP : (0 < 2 ^ K)%Z) by (apply Z.pow_pos_nonneg; lia).
  destruct z as [|r|r]; [done| |].
  - destruct (Z.pos r * 2 ^ K)%Z as [|q|q] eqn:Hq; [lia| |lia].
    apply binary_round_scaled; [done|done|]. apply digits_le_24. lia.
  - destruct (Z.neg r * 2 ^ K)%Z as [|q|q] eqn:Hq; [lia|lia|].
    apply binary_round_scaled; [done|lia|]. apply digits_le_24. lia.
Qed.

Lemma shl_align_value (m : positive) (e ez : Z) :
  (ez <= e)%Z -> Z.pos (fst (shl_align m e ez)) = (Z.pos m * 2 ^ (e - ez))%Z.
Proof.
  intros He. unfold shl_align. destruct (ez - e)%Z as [|n|d] eqn:Hd; [|lia|].
  - replace (e - ez)%Z with 0%Z by lia. cbn. lia.
  - cbn [fst]. rewrite iter_xO_pow. f_equal. f_equal. lia.
Qed.

(** The parts of a whole number other than 0, and its mantissa aligned at a
    lower exponent. *)
Lemma f32_whole_parts (z : Z) :
  z ≠ 0%Z -> (Z.abs z < 2 ^ 24)%Z ->
  ∃ s m e, f32_whole z = S754_finite s m e ∧ (-23 <= e <= 0)%Z ∧
    ∀ ez, (ez <= e)%Z ->
      cond_Zopp s (Z.pos (fst (shl_align m e ez))) = (z * 2 ^ (- ez))%Z.
Proof.
  intros Hz Hlt.
  assert (Hgen : ∀ r, (Z.pos r < 2 ^ 24)%Z ->
            (-23 <= Z.pos (digits2_pos r) - 24 <= 0)%Z ∧
            ∀ ez, (ez <= Z.pos (digits2_pos r) - 24)%Z ->
              Z.pos (fst (shl_align (canon r) (Z.pos (digits2_pos r) - 24) ez))
              = (Z.pos r * 2 ^ (- ez))%Z).
  { intros r Hr. pose proof (digits_le_24 r Hr) as Hd. split; [lia|]. intros ez Hez.
    rewrite shl_align_value, canon_pos, <- Z.mul_assoc, <- Z.pow_add_r by lia.
    f_equal. f_equal. lia. }
  destruct z as [|r|r]; [done| |].
  - destruct (Hgen r) as [He Hv]; [lia|]. eexists false, _, _. split; [done|]. split; [done|].
    intros ez Hez. cbn [cond_Zopp]. by apply Hv.
  - destruct (Hgen r) as [He Hv]; [lia|]. eexists true, _, _. split; [done|]. split; [done|].
    intros ez Hez. cbn [cond_Zopp]. rewrite (Hv ez Hez). lia.
Qed.

(** Sums and differences of whole numbers below [2 ^ 24] in magnitude are
    exact in binary32. *)
Lemma f32_add_whole (a b : Z) :
  (Z.abs a < 2 ^ 24)%Z -> (Z.abs b < 2 ^ 24)%Z -> (Z.abs (a + b) < 2 ^ 24)%Z ->
  f32_add (f32_whole a) (f32_whole b) = f32_whole (a + b).
Proof.
  intros Ha Hb Hab.
  destruct (decide (a = 0%Z)) as [->|Hna]; [by destruct b|].
  destruct (decide (b = 0%Z)) as [->|Hnb]; [rewrite Z.add_0_r; by destruct a|].
  destruct (f32_whole_parts a Hna Ha) as (sa & ma & ea & -> & Hea & Hva).
  destruct (f32_whole_parts b Hnb Hb) as (sb & mb & eb & -> & Heb & Hvb).
  unfold f32_add, SFadd.
  rewrite Hva, Hvb by lia. rewrite <- Z.mul_add_distr_r.
  rewrite <- (Z.opp_involutive (Z.min ea eb)) at 2.
  apply binary_normalize_scaled; [done|lia].
Qed.

Lemma f32_sub_whole (a b : Z) :
  (Z.abs a < 2 ^ 24)%Z -> (Z.abs b < 2 ^ 24)%Z -> (Z.abs (a - b) < 2 ^ 24)%Z ->
  f32_sub (f32_whole a) (f32_whole b) = f32_whole (a - b).
Proof.
  intros Ha Hb Hab.
  destruct (decide (b = 0%Z)) as [->|Hnb]; [rewrite Z.sub_0_r; by destruct a|].
  destruct (decide (a = 0%Z)) as [->|Hna]; [by destruct b|].
  destruct (f32_whole_parts a Hna Ha) as (sa & ma & ea & -> & Hea & Hva).
  destruct (f32_whole_parts b Hnb Hb) as (sb & mb & eb & -> & Heb & Hvb).
  unfold f32_sub, SFsub.
  rewrite Hva, Hvb by lia. rewrite <- Z.mul_sub_distr_r.
  rewrite <- (Z.opp_involutive (Z.min ea eb)) at 2.
  apply binary_normalize_scaled; [done|lia].
Qed.

(** Whole numbers compare in binary32 as they do as integers. *)
Lemma f32_whole_compare (a b : Z) :
  (Z.abs a < 2 ^ 24)%Z -> (Z.abs b < 2 ^ 24)%Z ->
  SFcompare (f32_whole a) (f32_whole b) = Some (a ?= b)%Z.
Proof.
  intros Ha Hb.
  assert (Hpos : ∀ r q, (Z.pos r < 2 ^ 24)%Z -> (Z.pos q < 2 ^ 24)%Z ->
            match (Z.pos (digits2_pos r) - 24 ?= Z.pos (digits2_pos q) - 24)%Z with
            | Lt => Lt | Gt => Gt
            | Eq => Pos.compare_cont Eq (canon r) (canon q)
            end = (r ?= q)%positive).
  { intros r q Hr Hq. pose proof (digits_le_24 r Hr) as Hdr.
    pose proof (digits_le_24 q Hq) as Hdq.
    destruct (digits_bounds r) as [Hr1 Hr2]. destruct (digits_bounds q) as [Hq1 Hq2].
    destruct (Z.compare_spec (Z.pos (digits2_pos r) - 24) (Z.pos (digits2_pos q) - 24))
      as [Heq|Hlt|Hgt].
    - change (Pos.compare_cont Eq (canon r) (canon q)) with (Z.pos (canon r) ?= Z.pos (canon q))%Z.
      rewrite !canon_pos by done.
      replace (Z.pos (digits2_pos q)) with (Z.pos (digits2_pos r)) by lia.
      change (r ?= q)%positive with (Z.pos r ?= Z.pos q)%Z.
      assert (0 < 2 ^ (24 - Z.pos (digits2_pos r)))%Z by (apply Z.pow_pos_nonneg; lia).
      destruct (Z.compare_spec (Z.pos r) (Z.pos q)).
      + apply Z.compare_eq_iff. nia.
      + apply Z.compare_lt_iff. nia.
      + apply Z.compare_gt_iff. nia.
    - symmetry. apply Pos.compare_lt_iff.
      pose proof (Z.pow_le_mono_r 2 (Z.pos (digits2_pos r)) (Z.pos (digits2_pos q) - 1)). lia.
    - symmetry. apply Pos.compare_gt_iff.
      pose proof (Z.pow_le_mono_r 2 (Z.pos (digits2_pos q)) (Z.pos (digits2_pos r) - 1)). lia. }
  destruct a as [|r|r], b as [|q|q]; try done; cbn [f32_whole SFcompare].
  - f_equal. apply Hpos; lia.
  - f_equal. cbn [Z.compare]. rewrite <- (Hpos r q) by lia.
    destruct (Z.pos (digits2_pos r) - 24 ?= Z.pos (digits2_pos q) - 24)%Z; done.
Qed.

(** ** binary32: the order *)

Lemma SFcompare_antisym (x y : float) :
  SFcompare y x = CompOpp <$> SFcompare x y.
Proof.
  destruct x as [[]|[]| |[] mx ex], y as [[]|[]| |[] my ey]; cbn; try done.
  - rewrite (Z.compare_antisym ex ey). destruct (ex ?= ey)%Z; cbn; try done.
    f_equal. rewrite CompOpp_involutive. symmetry. apply (Pos.compare_antisym my mx).
  - rewrite (Z.compare_antisym ex ey). destruct (ex ?= ey)%Z; cbn; try done.
    f_equal. apply (Pos.compare_antisym mx my).
Qed.

Lemma SFcompare_is_Some (x y : float) :
  x ≠ S754_nan -> y ≠ S754_nan -> is_Some (SFcompare x y).
Proof.
  intros Hx Hy.
  destruct x as [[]|[]| |[] mx ex], y as [[]|[]| |[] my ey]; cbn; done.
Qed.

Lemma f32_ltb_leb (x y : float) : f32_ltb x y = true -> f32_leb x y = true.
Proof. unfold f32_ltb, f32_leb, SFltb, SFleb. by destruct (SFcompare x y) as [[]|]. Qed.

Lemma f32_ltb_false_leb (x y : float) :
  x ≠ S754_nan -> y ≠ S754_nan -> f32_ltb y x = false -> f32_leb x y = true.
Proof.
  intros Hx Hy. unfold f32_ltb, f32_leb, SFltb, SFleb.
  rewrite (SFcompare_antisym x y).
  destruct (SFcompare_is_Some x y Hx Hy) as [c ->]. by destruct c.
Qed.

Lemma f32_ltb_not_leb (x y : float) : f32_ltb x y = true -> f32_leb y x = false.
Proof.
  unfold f32_ltb, f32_leb, SFltb, SFleb. rewrite (SFcompare_antisym x y).
  by destruct (SFcompare x y) as [[]|].
Qed.

Lemma lex_leb_pos (e1 e2 : Z) (m1 m2 : positive) :
  match (match (e1 ?= e2)%Z with
         | Eq => Pos.compare_cont Eq m1 m2 | Lt => Lt | Gt => Gt
         end) with
  | Lt | Eq => true | Gt => false
  end = true <-> (e1 < e2)%Z ∨ (e1 = e2 ∧ (m1 <= m2)%positive).
Proof.
  change (Pos.compare_cont Eq m1 m2) with (m1 ?= m2)%positive.
  destruct (Z.compare_spec e1 e2); [|split; [lia|done]|split; [done|lia]].
  destruct (Pos.compare_spec m1 m2); split; try done; try lia.
Qed.

Lemma lex_leb_neg (e1 e2 : Z) (m1 m2 : positive) :
  match (match (e1 ?= e2)%Z with
         | Eq => CompOpp (Pos.compare_cont Eq m1 m2) | Lt => Gt | Gt => Lt
         end) with
  | Lt | Eq => true | Gt => false
  end = true <-> (e2 < e1)%Z ∨ (e1 = e2 ∧ (m2 <= m1)%positive).
Proof.
  change (Pos.compare_cont Eq m1 m2) with (m1 ?= m2)%positive.
  destruct (Z.compare_spec e1 e2); [|split; [done|lia]|split; [lia|done]].
  destruct (Pos.compare_spec m1 m2); cbn; split; try done; try lia.
Qed.

Lemma f32_leb_trans (x y z : float) :
  f32_leb x y = true -> f32_leb y z = true -> f32_leb x z = true.
Proof.
  unfold f32_leb, SFleb.
  destruct x as [[]|[]| |[] mx ex], y as [[]|[]| |[] my ey], z as [[]|[]| |[] mz ez];
    cbn; try done.
  - rewrite !lex_leb_neg. lia.
  - rewrite !lex_leb_pos. lia.
Qed.

Lemma f32_ltb_leb_trans (x y z : float) :
  f32_ltb x y = true -> f32_leb y z = true -> f32_ltb x z = true.
Proof.
  intros Hxy Hyz.
  assert (Hxz : f32_leb x z = true) by (eapply f32_leb_trans; [by apply f32_ltb_leb|done]).
  unfold f32_ltb, f32_leb, SFltb, SFleb in *.
  destruct (SFcompare x z) as [[]|] eqn:Exz; try done.
  (* x = z in the order: then z <= y and y <= z, against x < y *)
  exfalso.
  assert (Hzx : f32_leb z x = true).
  { unfold f32_leb, SFleb. rewrite (SFcompare_antisym x z), Exz. done. }
  assert (Hyx : f32_leb y x = true) by (eapply f32_leb_trans; done).
  pose proof (f32_ltb_not_leb x y) as Hn. unfold f32_ltb, SFltb in Hn.
  rewrite Hn in Hyx; done.
Qed.

(** ** binary32: whole numbers through [f32_of_int] *)

Lemma f32_of_int_add (a b : Z) :
  (Z.abs a < 2 ^ 24)%Z -> (Z.abs b < 2 ^ 24)%Z -> (Z.abs (a + b) < 2 ^ 24)%Z ->
  f32_add (f32_of_int a) (f32_of_int b) = f32_of_int (a + b).
Proof. intros. rewrite !f32_of_int_whole by done. by apply f32_add_whole. Qed.

Lemma f32_of_int_sub (a b : Z) :
  (Z.abs a < 2 ^ 24)%Z -> (Z.abs b < 2 ^ 24)%Z -> (Z.abs (a - b) < 2 ^ 24)%Z ->
  f32_sub (f32_of_int a) (f32_of_int b) = f32_of_int (a - b).
Proof. intros. rewrite !f32_of_int_whole by done. by apply f32_sub_whole. Qed.

Lemma f32_of_int_compare (a b : Z) :
  (Z.abs a < 2 ^ 24)%Z -> (Z.abs b < 2 ^ 24)%Z ->
  SFcompare (f32_of_int a) (f32_of_int b) = Some (a ?= b)%Z.
Proof. intros. rewrite !f32_of_int_whole by done. by apply f32_whole_compare. Qed.

Lemma f32_of_int_ltb (a b : Z) :
  (Z.abs a < 2 ^ 24)%Z -> (Z.abs b < 2 ^ 24)%Z ->
  f32_ltb (f32_of_int a) (f32_of_int b) = (a <? b)%Z.
Proof. intros. unfold f32_ltb, SFltb. by rewrite f32_of_int_compare. Qed.

Lemma f32_of_int_leb (a b : Z) :
  (Z.abs a < 2 ^ 24)%Z -> (Z.abs b < 2 ^ 24)%Z ->
  f32_leb (f32_of_int a) (f32_of_int b) = (a <=? b)%Z.
Proof.
  intros. unfold f32_leb, SFleb, Z.leb. rewrite f32_of_int_compare by done.
  by destruct (a ?= b)%Z.
Qed.

Lemma f32_of_int_gtb (a b : Z) :
  (Z.abs a < 2 ^ 24)%Z -> (Z.abs b < 2 ^ 24)%Z ->
  f32_gtb (f32_of_int a) (f32_of_int b) = (a >? b)%Z.
Proof. intros. unfold f32_gtb, Z.gtb. by rewrite f32_of_int_compare. Qed.

Lemma f32_of_int_geb (a b : Z) :
  (Z.abs a < 2 ^ 24)%Z -> (Z.abs b < 2 ^ 24)%Z ->
  f32_geb (f32_of_int a) (f32_of_int b) = (a >=? b)%Z.
Proof.
  intros. unfold f32_geb, Z.geb. rewrite f32_of_int_compare by done.
  by destruct (a ?= b)%Z.
Qed.

Lemma f32_of_int_eqb (a b : Z) :
  (Z.abs a < 2 ^ 24)%Z -> (Z.abs b < 2 ^ 24)%Z ->
  f32_eqb (f32_of_int a) (f32_of_int b) = (a =? b)%Z.
Proof.
  intros. unfold f32_eqb, SFeqb. rewrite f32_of_int_compare by done.
  destruct (Z.eqb_spec a b) as [->|Hne]; [by rewrite Z.compare_refl|].
  destruct (Z.compare_spec a b); [lia|done|done].
Qed.

Lemma f32_of_int_inj (a b : Z) :
  (Z.abs a < 2 ^ 24)%Z -> (Z.abs b < 2 ^ 24)%Z -> f32_of_int a = f32_of_int b -> a = b.
Proof.
  intros Ha Hb E. pose proof (f32_of_int_compare a b Ha Hb) as Hc.
  rewrite <- E, f32_of_int_compare in Hc by done. rewrite Z.compare_refl in Hc.
  apply Z.compare_eq. congruence.
Qed.

Lemma f32_of_int_lt_FLT_MAX (z : Z) :
  (Z.abs z < 2 ^ 24)%Z -> f32_ltb (f32_of_int z) FLT_MAX = true.
Proof.
  intros Hz. rewrite f32_of_int_whole by done. destruct z as [|r|r]; [done| |done].
  unfold f32_ltb, SFltb, FLT_MAX. cbn [f32_whole SFcompare].
  pose proof (digits_le_24 r ltac:(lia)).
  by destruct (Z.compare_spec (Z.pos (digits2_pos r) - 24) 104); try lia.
Qed.

Lemma f32_of_int_not_nan (z : Z) : (Z.abs z < 2 ^ 24)%Z -> f32_of_int z ≠ S754_nan.
Proof. intros Hz. rewrite f32_of_int_whole by done. by destruct z. Qed.


(** ** Combine: the map of least width *)

Lemma f32_ltb_not_nan (x y : float) : f32_ltb x y = true -> x ≠ S754_nan ∧ y ≠ S754_nan.
Proof. unfold f32_ltb, SFltb. by destruct x as [[]|[]| |[] mx ex], y as [[]|[]| |[] my ey]. Qed.

Lemma f32_ltb_irrefl (x : float) : f32_ltb x x = false.
Proof.
  destruct (f32_ltb x x) eqn:E; [|done].
  pose proof (f32_ltb_not_leb x x E) as Hn. by rewrite (f32_ltb_leb x x E) in Hn.
Qed.

Lemma Combine_widths_step (l : list (list (addr * float))) (L : list (addr * float))
    (s : Z * float * list (float * float)) :
  Combine_widths_inv l s -> Combine_widths_inv (l ++ [L]) (Combine_width s (length l, L)).
Proof.
  destruct s as [[idx m] B]. intros (HB & Hnan & Hmax & Hmin & Hidx). cbn [fst snd] in *.
  unfold Combine_width. cbn [fst snd].
  destruct (Combine_bounds L) as [LeftMost RightMost] eqn:EL.
  assert (EW : f32_sub RightMost LeftMost = width L) by (unfold width; by rewrite EL).
  rewrite EW. destruct (f32_ltb (width L) m) eqn:Elt; cbn [fst snd].
  - destruct (f32_ltb_not_nan _ _ Elt) as [HW _].
    pose proof (f32_ltb_leb _ _ Elt) as Hle.
    split; [by rewrite HB, map_app; cbn; rewrite EL|]. split; [done|].
    split; [by apply (f32_leb_trans _ m)|]. split.
    + intros j L' Hj. apply lookup_app_Some in Hj as [Hj|[_ Hj]].
      * destruct (f32_ltb (width L') (width L)) eqn:E; [|done].
        pose proof (f32_ltb_leb_trans _ _ m E Hle) as Hc. by rewrite (Hmin j L' Hj) in Hc.
      * apply list_lookup_singleton_Some in Hj as [_ <-]. apply f32_ltb_irrefl.
    + right. exists (length l), L. split; [done|]. split; [by apply list_lookup_middle|].
      split; [done|]. intros j L' Hj HL' Hlt.
      rewrite lookup_app_l in HL' by done.
      destruct (f32_ltb_not_nan _ _ Hlt) as [HW' _].
      apply (f32_ltb_leb_trans _ m); [done|].
      apply f32_ltb_false_leb; [done|done|]. by apply (Hmin j).
  - split; [by rewrite HB, map_app; cbn; rewrite EL|]. split; [done|]. split; [done|]. split.
    + intros j L' Hj. apply lookup_app_Some in Hj as [Hj|[_ Hj]]; [by apply (Hmin j)|].
      by apply list_lookup_singleton_Some in Hj as [_ <-].
    + destruct Hidx as [?|(i0 & L0 & ? & Hi0 & ? & Hfirst)]; [by left|]. right.
      exists i0, L0. split; [done|]. split; [by apply lookup_app_l_Some|]. split; [done|].
      intros j L' Hj HL'. pose proof (lookup_lt_Some _ _ _ Hi0).
      rewrite lookup_app_l in HL' by lia. by apply (Hfirst j).
Qed.

Lemma Combine_widths_inv_holds (Layouts : list (list (addr * float))) :
  Combine_widths_inv Layouts (Combine_widths Layouts).
Proof.
  unfold Combine_widths. induction Layouts as [|L l IH] using rev_ind.
  - cbn. split; [done|]. split; [done|]. split; [done|]. split; [done|]. by left.
  - rewrite imap_app, fold_left_app. cbn [imap fold_left]. rewrite Nat.add_0_r.
    by apply Combine_widths_step.
Qed.

(** ** Combine: the second loop *)

Lemma mapM_imap_Some {A B C} (h : nat -> A -> C) (f : C -> option B) (g : nat -> A -> B)
    (l : list A) :
  (∀ i x, l !! i = Some x -> f (h i x) = Some (g i x)) ->
  mapM f (imap h l) = Some (imap g l).
Proof.
  revert h g. induction l as [|x l IH]; intros h g Hf; [done|].
  cbn [imap mapM]. rewrite (Hf 0 x eq_refl). cbn [mbind option_bind].
  rewrite (IH (h ∘ S) (g ∘ S)); [done|]. intros i y Hi. apply (Hf (S i) y Hi).
Qed.

Lemma TArray_at_nat {A} (l : list A) (i : nat) : TArray_at l (Z.of_nat i) = l !! i.
Proof.
  unfold TArray_at. destruct (Z.ltb_spec (Z.of_nat i) 0); [lia|]. by rewrite Nat2Z.id.
Qed.

Lemma Combine_shift_shifted (Layouts : list (list (addr * float))) (i0 : nat)
    (L0 : list (addr * float)) :
  Layouts !! i0 = Some L0 ->
  mapM (Combine_shift (Z.of_nat i0) (map Combine_bounds Layouts)) (imap pair Layouts)
  = Some (shifted i0 Layouts).
Proof.
  intros Hi0. unfold shifted. apply mapM_imap_Some. intros i L Hi.
  unfold Combine_shift. cbn [fst snd].
  destruct (decide (i = i0)) as [->|Hne].
  - by rewrite decide_False by lia.
  - rewrite decide_True by lia. rewrite !TArray_at_nat, !list_lookup_fmap, Hi0, Hi.
    cbn. by rewrite (list_lookup_total_correct _ _ _ Hi0).
Qed.

(** ** Combine: the third loop *)

Lemma fold_left_concat {A B} (f : B -> A -> B) (ls : list (list A)) (b : B) :
  fold_left (λ b l, fold_left f l b) ls b = fold_left f (concat ls) b.
Proof.
  revert b. induction ls as [|l ls IH]; intros b; [done|].
  cbn [fold_left concat]. by rewrite fold_left_app, IH.
Qed.

Lemma Combine_node_value (Sort : SortFloatFn) (Algorithm : EGraphFormatterPositioningAlgorithm)
    (Layouts : list (list (addr * float))) (C : gmap addr float) (n : addr) (x : float) :
  Combine_value Sort Algorithm Layouts n = Some x ->
  Combine_node Sort Algorithm Layouts (Some C) n = Some (<[n := x]> C).
Proof.
  unfold Combine_value, Combine_node. cbn [mbind option_bind].
  destruct (mapM _ Layouts) as [v|]; [|done]. cbn [mbind option_bind].
  destruct Algorithm; try done.
  - destruct (TArray_at (Sort v) 1) as [a|]; [|done].
    destruct (TArray_at (Sort v) 2) as [b|]; [|done]. cbn. by intros [= <-].
  - destruct (TArray_at (Sort v) 0) as [a|]; [|done].
    destruct (TArray_at (Sort v) 3) as [b|]; [|done]. cbn. by intros [= <-].
Qed.

Lemma Combine_nodes_values (Sort : SortFloatFn) (Algorithm : EGraphFormatterPositioningAlgorithm)
    (Layouts : list (list (addr * float))) (C : gmap addr float) (ns : list addr) :
  (∀ n, n ∈ ns -> is_Some (Combine_value Sort Algorithm Layouts n)) ->
  ∃ C', fold_left (Combine_node Sort Algorithm Layouts) ns (Some C) = Some C' ∧
    (∀ n, n ∈ ns -> C' !! n = Combine_value Sort Algorithm Layouts n) ∧
    (∀ n, n ∉ ns -> C' !! n = C !! n).
Proof.
  induction ns as [|n ns IH] using rev_ind; intros Hv.
  - exists C. split; [done|]. split; [|done]. intros n Hn. by apply elem_of_nil in Hn.
  - destruct IH as (C1 & E1 & Hin & Hout).
    { intros m Hm. apply Hv, elem_of_app. by left. }
    destruct (Hv n) as [x Hx]; [apply elem_of_app; right; apply list_elem_of_here|].
    exists (<[n := x]> C1). rewrite fold_left_app, E1. cbn [fold_left].
    split; [by apply Combine_node_value|]. split.
    + intros m Hm. destruct (decide (m = n)) as [->|Hne].
      * by rewrite lookup_insert_eq.
      * rewrite lookup_insert_ne by done. apply Hin.
        apply elem_of_app in Hm as [Hm|Hm]; [done|]. by apply list_elem_of_singleton in Hm.
    + intros m Hm. rewrite lookup_insert_ne.
      * apply Hout. intros Hin'. apply Hm, elem_of_app. by left.
      * intros ->. apply Hm, elem_of_app. right. apply list_elem_of_here.
Qed.

Lemma Combine_nodes_other (Sort : SortFloatFn) (Algorithm : EGraphFormatterPositioningAlgorithm)
    (Layouts : list (list (addr * float))) (C : gmap addr float) (ns : list addr) :
  Algorithm ≠ EFastAndSimpleMethodTop -> Algorithm ≠ EFastAndSimpleMethodMedian ->
  (∀ n, n ∈ ns -> is_Some (mapM (λ Layout, TMap_at Layout n) Layouts)) ->
  fold_left (Combine_node Sort Algorithm Layouts) ns (Some C) = Some C.
Proof.
  intros HT HM. induction ns as [|n ns IH]; intros Hv; [done|]. cbn [fold_left].
  destruct (Hv n) as [v Ev]; [apply list_elem_of_here|].
  assert (E : Combine_node Sort Algorithm Layouts (Some C) n = Some C).
  { unfold Combine_node. cbn [mbind option_bind]. rewrite Ev. cbn [mbind option_bind].
    by destruct Algorithm. }
  rewrite E. apply IH. intros m Hm. apply Hv. by apply list_elem_of_further.
Qed.

Lemma TMap_at_map (g : float -> float) (L : list (addr * float)) (k : addr) :
  TMap_at (map (λ Pair, (Pair.1, g Pair.2)) L) k = g <$> TMap_at L k.
Proof.
  unfold TMap_at. induction L as [|[k' v] L IH]; [done|]. cbn [map List.find fst snd].
  destruct (bool_decide (k' = k)); [done|]. exact IH.
Qed.

Lemma TMap_at_shifted (i0 : nat) (Layouts : list (list (addr * float))) (n : addr) :
  (∀ L, L ∈ Layouts -> is_Some (TMap_at L n)) ->
  is_Some (mapM (λ L, TMap_at L n) (shifted i0 Layouts)).
Proof.
  intros Hk. unfold shifted. generalize (leftmost (Layouts !!! i0)). intros l0.
  assert (Hgen : ∀ (l : list (list (addr * float))) (h : nat -> nat),
            (∀ L, L ∈ l -> is_Some (TMap_at L n)) ->
            is_Some (mapM (λ L, TMap_at L n)
              (imap (λ i Layout, if decide (h i = i0) then Layout
                 else map (λ Pair, (Pair.1, f32_add Pair.2 (f32_sub l0 (leftmost Layout))))
                          Layout) l))).
  { clear. induction l as [|L l IH]; intros h Hk; [done|]. cbn [imap mapM].
    destruct (Hk L) as [x Hx]; [apply list_elem_of_here|].
    assert (Hx' : is_Some (TMap_at (if decide (h 0 = i0) then L
       else map (λ Pair, (Pair.1, f32_add Pair.2 (f32_sub l0 (leftmost L)))) L) n)).
    { destruct (decide (h 0 = i0)); [done|].
      rewrite (TMap_at_map (λ v, f32_add v (f32_sub l0 (leftmost L)))), Hx. done. }
    destruct Hx' as [x' ->]. cbn [mbind option_bind].
    destruct (IH (h ∘ S)) as [r Hr].
    { intros L' HL'. apply Hk. by apply list_elem_of_further. }
    unfold compose in Hr. unfold compose. rewrite Hr. done. }
  apply (Hgen Layouts id Hk).
Qed.

(** ** Combine: layouts of whole numbers *)

Lemma whole_layout_values (M : Z) (L : list (addr * float)) :
  Forall (λ Pair, ∃ z, (Z.abs z <= M)%Z ∧ Pair.2 = f32_of_int z) L ->
  ∃ Lz : list (addr * Z),
    L = map (λ p, (p.1, f32_of_int p.2)) Lz ∧ Forall (λ p, (Z.abs p.2 <= M)%Z) Lz.
Proof.
  induction 1 as [|[k v] L (z & Hz & Hv) _ (Lz & -> & HLz)].
  - by exists [].
  - exists ((k, z) :: Lz). cbn in Hv. subst v. split; [done|]. by constructor.
Qed.

Lemma Combine_bounds_fst (L : list (addr * float)) :
  (Combine_bounds L).1
  = fold_left (λ LeftMost Pair, if f32_ltb Pair.2 LeftMost then Pair.2 else LeftMost)
              L FLT_MAX.
Proof.
  unfold Combine_bounds. generalize FLT_MAX (f32_opp FLT_MAX).
  induction L as [|p L IH]; intros a b; [done|]. cbn [fold_left]. apply IH.
Qed.

Lemma leftmost_fold_whole (M : Z) (Lz : list (addr * Z)) :
  (M < 2 ^ 24)%Z -> Forall (λ p, (Z.abs p.2 <= M)%Z) Lz ->
  ∀ a, (Z.abs a <= M)%Z ->
  fold_left (λ LeftMost (Pair : addr * float),
               if f32_ltb Pair.2 LeftMost then Pair.2 else LeftMost)
            (map (λ p, (p.1, f32_of_int p.2)) Lz) (f32_of_int a)
  = f32_of_int (fold_left Z.min Lz.*2 a).
Proof.
  intros HM. induction 1 as [|[k z] Lz Hz _ IH]; intros a Ha; [done|].
  cbn [map fold_left fmap list_fmap fst snd] in *.
  rewrite f32_of_int_ltb by lia.
  destruct (Z.ltb_spec z a).
  - rewrite IH by done. f_equal. f_equal. lia.
  - rewrite IH by done. f_equal. f_equal. lia.
Qed.

Lemma leftmost_whole (M : Z) (k : addr) (z : Z) (Lz : list (addr * Z)) :
  (M < 2 ^ 24)%Z -> Forall (λ p, (Z.abs p.2 <= M)%Z) ((k, z) :: Lz) ->
  leftmost (map (λ p, (p.1, f32_of_int p.2)) ((k, z) :: Lz))
  = f32_of_int (fold_left Z.min Lz.*2 z).
Proof.
  intros HM HF. apply Forall_cons in HF as [Hz HF]. cbn [fst snd] in Hz.
  unfold leftmost. rewrite Combine_bounds_fst. cbn [map fold_left fst snd].
  rewrite f32_of_int_lt_FLT_MAX by lia. by apply (leftmost_fold_whole M).
Qed.

Lemma fold_min_bounds (l : list Z) (a M : Z) :
  (Z.abs a <= M)%Z -> Forall (λ z, (Z.abs z <= M)%Z) l ->
  (Z.abs (fold_left Z.min l a) <= M)%Z.
Proof.
  intros Ha HF. revert a Ha. induction HF as [|z l Hz _ IH]; intros a Ha; [done|].
  cbn [fold_left]. apply IH. lia.
Qed.

Lemma fold_min_shift (l : list Z) (a c : Z) :
  fold_left Z.min (map (λ z, z + c)%Z l) (a + c)%Z = (fold_left Z.min l a + c)%Z.
Proof.
  revert a. induction l as [|z l IH]; intros a; [done|]. cbn [map fold_left].
  rewrite <- IH. f_equal. lia.
Qed.

(** When the four layouts hold whole numbers of magnitude at most [2 ^ 22],
    the second loop of [Combine] puts the leftmost value of every layout on
    the leftmost value of the layout it leaves as it is. *)
Lemma shifted_whole_leftmost (Layouts : list (list (addr * float))) (i0 : nat)
    (L0 L' : list (addr * float)) :
  Layouts !! i0 = Some L0 -> Forall (whole_layout (2 ^ 22)) Layouts ->
  L' ∈ shifted i0 Layouts -> leftmost L' = leftmost L0.
Proof.
  intros Hi0 Hwhole HL'. unfold shifted in HL'.
  apply list_elem_of_lookup in HL' as [i HL'].
  rewrite list_lookup_imap in HL'.
  destruct (Layouts !! i) as [L|] eqn:Hi; [|done]. cbn in HL'. injection HL' as <-.
  rewrite (list_lookup_total_correct _ _ _ Hi0).
  destruct (decide (i = i0)) as [->|Hne]; [congruence|].
  pose proof (proj1 (Forall_forall _ _) Hwhole L0 (list_elem_of_lookup_2 _ _ _ Hi0)) as [Hn0 Hv0].
  pose proof (proj1 (Forall_forall _ _) Hwhole L (list_elem_of_lookup_2 _ _ _ Hi)) as [Hn Hv].
  destruct (whole_layout_values _ _ Hv0) as (Lz0 & -> & HF0).
  destruct (whole_layout_values _ _ Hv) as (Lz & -> & HF).
  destruct Lz0 as [|[k0 z0] Lz0]; [done|]. destruct Lz as [|[k z] Lz]; [done|].
  assert (H22 : (2 ^ 22 = 4194304)%Z) by done. assert (H24 : (2 ^ 24 = 16777216)%Z) by done.
  rewrite (leftmost_whole (2 ^ 22) k0 z0 Lz0), (leftmost_whole (2 ^ 22) k z Lz) by (done || lia).
  set (m0 := fold_left Z.min Lz0.*2 z0). set (m := fold_left Z.min Lz.*2 z).
  assert (Hm0 : (Z.abs m0 <= 2 ^ 22)%Z).
  { apply Forall_cons in HF0 as [Hz0 HF0']. apply fold_min_bounds; [done|].
    apply Forall_fmap. exact HF0'. }
  assert (Hm : (Z.abs m <= 2 ^ 22)%Z).
  { apply Forall_cons in HF as [Hz HF']. apply fold_min_bounds; [done|].
    apply Forall_fmap. exact HF'. }
  rewrite f32_of_int_sub by lia.
  assert (E : map (λ Pair : addr * float, (Pair.1, f32_add Pair.2 (f32_of_int (m0 - m))))
                (map (λ p : addr * Z, (p.1, f32_of_int p.2)) ((k, z) :: Lz))
              = map (λ p : addr * Z, (p.1, f32_of_int p.2))
                  ((k, z + (m0 - m))%Z :: map (λ p : addr * Z, (p.1, p.2 + (m0 - m))%Z) Lz)).
  { change ((k, (z + (m0 - m))%Z) :: map (λ p : addr * Z, (p.1, (p.2 + (m0 - m))%Z)) Lz)
      with (map (λ p : addr * Z, (p.1, (p.2 + (m0 - m))%Z)) ((k, z) :: Lz)).
    rewrite !map_map. apply map_ext_in. intros [k' z'] Hin. cbn [fst snd].
    apply list_elem_of_In in Hin.
    pose proof (proj1 (Forall_forall _ _) HF _ Hin) as Hz'. cbn [snd] in Hz'.
    by rewrite f32_of_int_add by lia. }
  rewrite E.
  rewrite (leftmost_whole (2 ^ 24 - 1)); [|lia|].
  - f_equal.
    assert (E2 : ∀ l : list (addr * Z),
              (map (λ p : addr * Z, (p.1, (p.2 + (m0 - m))%Z)) l).*2
              = map (λ z', z' + (m0 - m))%Z l.*2).
    { induction l as [|p l IHl]; [done|]. cbn. by rewrite <- IHl. }
    rewrite E2, fold_min_shift. fold m. lia.
  - apply Forall_cons in HF as [Hz HF']. cbn [snd] in Hz. constructor; [cbn [snd]; lia|].
    apply Forall_fmap. apply (Forall_impl _ _ _ HF'). intros [k' z'] Hz'. cbn in *. lia.
Qed.

(** ** Combine *)

Lemma Combine_value_sorted (Sort : SortFloatFn) (Algorithm : EGraphFormatterPositioningAlgorithm)
    (Layouts : list (list (addr * float))) (n : addr) :
  (∀ l, Sort l ≡ₚ l) -> (∀ l, Forall (λ v : float, v ≠ S754_nan) l -> ascending (Sort l)) ->
  length Layouts = 4 -> is_Some (mapM (λ L, TMap_at L n) Layouts) ->
  ∃ (v : list float) (s0 s1 s2 s3 : float),
    mapM (λ L, TMap_at L n) Layouts = Some v ∧
    [s0; s1; s2; s3] ≡ₚ v ∧
    (Forall (λ x : float, x ≠ S754_nan) v -> ascending [s0; s1; s2; s3]) ∧
    (Algorithm = EFastAndSimpleMethodTop ->
     Combine_value Sort Algorithm Layouts n = Some (mean s1 s2)) ∧
    (Algorithm = EFastAndSimpleMethodMedian ->
     Combine_value Sort Algorithm Layouts n = Some (mean s0 s3)).
Proof.
  intros HP HS Hlen [v Hv]. pose proof (length_mapM _ _ _ Hv) as Hlv.
  pose proof (Permutation_length (HP v)) as Hls. rewrite <- Hlv, Hlen in Hls.
  destruct (Sort v) as [|s0 [|s1 [|s2 [|s3 [|]]]]] eqn:ES; cbn in Hls; try lia.
  exists v, s0, s1, s2, s3. split; [done|]. split; [by rewrite <- ES|].
  split; [intros Hn; rewrite <- ES; by apply HS|].
  unfold Combine_value. rewrite Hv. cbn [mbind option_bind]. rewrite ES.
  split; intros ->; done.
Qed.



(** ** Combine: the insertion sort of the examples, and the examples *)

Lemma insert_sorted_ascending (x : float) (l : list float) :
  x ≠ S754_nan -> Forall (λ v : float, v ≠ S754_nan) l -> ascending l ->
  ascending (insert_sorted f32_ltb x l).
Proof.
  intros Hx. induction 1 as [|y r Hy Hr IH]; intros Hasc; [done|].
  destruct Hasc as [Hyr Hasc]. cbn [insert_sorted].
  destruct (f32_ltb y x) eqn:E.
  - split; [|by apply IH]. rewrite insert_sorted_Permutation.
    constructor; [by apply f32_ltb_leb|done].
  - assert (Hxy : f32_leb x y = true) by (by apply f32_ltb_false_leb).
    split; [|done]. constructor; [done|].
    apply (Forall_impl _ _ _ Hyr). intros z Hz. by apply (f32_leb_trans _ y).
Qed.

Lemma insertion_sort_ascending (l : list float) :
  Forall (λ v : float, v ≠ S754_nan) l -> ascending (insertion_sort f32_ltb l).
Proof.
  induction 1 as [|x l Hx Hl IH]; [done|]. unfold insertion_sort in *. cbn [foldr].
  apply insert_sorted_ascending; [done| |done].
  change (foldr (insert_sorted f32_ltb) [] l) with (insertion_sort f32_ltb l).
  by rewrite insertion_sort_Permutation.
Qed.


(** On the maps of whole numbers the leftmost values coincide after the
    shift, at 0, and the top method gives the nodes 1 and 2 the coordinates
    0 and 10. *)
Lemma Combine_plain_maps :
  Forall (whole_layout (2 ^ 22)) plain_maps ∧
  leftmost <$> shifted 0 plain_maps
    = [f32_of_int 0; f32_of_int 0; f32_of_int 0; f32_of_int 0] ∧
  Combine (insertion_sort f32_ltb) EFastAndSimpleMethodTop
    [(1, f32_of_int 0); (2, f32_of_int 10)] [(1, f32_of_int 5); (2, f32_of_int 20)]
    [(1, f32_of_int 3); (2, f32_of_int 13)] [(1, f32_of_int (-4)); (2, f32_of_int 6)]
    [[1]; [2]] ∅ = Some {[ 1 := f32_of_int 0; 2 := f32_of_int 10 ]}.
Proof.
  split; [|split; vm_compute; reflexivity].
  assert (H22 : (2 ^ 22 = 4194304)%Z) by done.
  repeat constructor; try done; eexists; (split; [|reflexivity]); lia.
Qed.



(** ** Rectangles of whole numbers *)

Lemma IsValid_default : IsValid FSlateRect_default = false.
Proof. by vm_compute. Qed.

Lemma IsValid_whole (R : ZRect) (K : Z) :
  (K < 2 ^ 24)%Z -> ZRect_within K R -> (zLeft R < zRight R)%Z -> (zTop R <= zBottom R)%Z ->
  IsValid (whole_rect R) = true.
Proof.
  intros HK (Hl & Ht & Hr & Hb) Hlr Htb. assert (H24 : (2 ^ 24 = 16777216)%Z) by done.
  unfold IsValid, whole_rect. cbn [Left Top Right Bottom].
  rewrite !f32_of_int_eqb, !f32_of_int_geb by lia.
  destruct (Z.eqb_spec (zLeft R) (-1)), (Z.eqb_spec (zRight R) (-1)); try lia;
    cbn [andb negb]; apply andb_true_intro; split; apply Z.geb_le; lia.
Qed.

Lemma FSlateRect_OffsetBy_whole (R : ZRect) (dx dy K : Z) :
  (K < 2 ^ 24)%Z -> ZRect_within K R -> (Z.abs dx <= K)%Z -> (Z.abs dy <= K)%Z ->
  ZRect_within K (ZRect_move dx dy R) ->
  FSlateRect_OffsetBy (whole_rect R) (mkFVector2D (f32_of_int dx) (f32_of_int dy))
  = whole_rect (ZRect_move dx dy R).
Proof.
  intros HK (Hl & Ht & Hr & Hb) Hdx Hdy (Hl' & Ht' & Hr' & Hb'). cbn [ZRect_move zLeft zTop zRight zBottom] in *.
  unfold FSlateRect_OffsetBy, whole_rect, FVector2D_add, GetTopLeft, GetBottomRight.
  cbn [X Y Left Top Right Bottom ZRect_move zLeft zTop zRight zBottom].
  by rewrite !f32_of_int_add by lia.
Qed.

Lemma Expand_whole (U R : ZRect) (K : Z) :
  (K < 2 ^ 24)%Z -> ZRect_within K U -> ZRect_within K R ->
  Expand (whole_rect U) (whole_rect R) = whole_rect (ZRect_union U R).
Proof.
  intros HK (Hl & Ht & Hr & Hb) (Hl' & Ht' & Hr' & Hb').
  unfold Expand, whole_rect, FMath_Min, FMath_Max, ZRect_union.
  cbn [Left Top Right Bottom zLeft zTop zRight zBottom].
  rewrite !f32_of_int_leb, !f32_of_int_geb by lia.
  f_equal.
  - destruct (Z.leb_spec (zLeft U) (zLeft R)); f_equal; lia.
  - destruct (Z.leb_spec (zTop U) (zTop R)); f_equal; lia.
  - rewrite Z.geb_leb. destruct (Z.leb_spec (zRight R) (zRight U)); f_equal; lia.
  - rewrite Z.geb_leb. destruct (Z.leb_spec (zBottom R) (zBottom U)); f_equal; lia.
Qed.

Lemma ZRect_below_move (vs : Z) (U R : ZRect) :
  ZRect_below vs U R = ZRect_move (zLeft U - zLeft R) (zBottom U + vs - zTop R) R.
Proof. unfold ZRect_below, ZRect_move. f_equal; lia. Qed.

(** ** OffsetBy *)

Lemma same_shape_refl (h : Heap) : same_shape h h.
Proof. by split. Qed.

Lemma same_shape_trans (h1 h2 h3 : Heap) :
  same_shape h1 h2 -> same_shape h2 h3 -> same_shape h1 h3.
Proof.
  intros [G1 S1] [G2 S2]. split; [congruence|]. intros n. by rewrite S2, S1.
Qed.

Lemma same_shape_graph (h h' : Heap) (a : addr) : same_shape h h' -> graph h' a = graph h a.
Proof. intros [G _]. unfold graph. by rewrite G. Qed.

Lemma moved_graphs_same_shape (h h' : Heap) (fuel : nat) :
  same_shape h h' -> ∀ g, moved_graphs fuel h' g = moved_graphs fuel h g.
Proof.
  intros Hs. induction fuel as [|fuel IH]; intros g; [done|]. cbn [moved_graphs].
  rewrite (same_shape_graph h h' g Hs).
  destruct (Num (IsolatedGraphs (graph h g)) >? 0)%Z.
  - f_equal. apply Forall2_mapM_ext, Forall_Forall2_diag, Forall_forall. intros x _. apply IH.
  - f_equal. apply Forall2_mapM_ext, Forall_Forall2_diag, Forall_forall. intros x _.
    rewrite (proj2 Hs x). destruct (SubGraph (node h x)); [apply IH|done].
Qed.

Lemma same_shape_set_Position (h : Heap) (n : addr) (p : FVector2D) :
  same_shape h (set_node h n (with_Position p (node h n))).
Proof.
  split; [done|]. intros m. unfold node at 1, set_node. cbn [nodes].
  destruct (decide (m = n)) as [->|Hne].
  - by rewrite lookup_insert_eq.
  - by rewrite lookup_insert_ne.
Qed.

(** A loop of calls each of which keeps the shape of the store and writes
    the bounds of the graphs that [mv] lists for it. *)
Lemma fold_leftM_moved {A} (F : FLayout -> A -> option FLayout)
    (mv : Heap -> A -> option (list addr)) :
  (∀ h h' x, same_shape h h' -> mv h' x = mv h x) ->
  (∀ s x l, mv (store s) x = Some l ->
     ∃ s', F s x = Some s' ∧ same_shape (store s) (store s') ∧
           ∀ a, a ∉ l -> TotalBound s' a = TotalBound s a) ->
  ∀ xs s ls, mapM (mv (store s)) xs = Some ls ->
    ∃ s', fold_leftM F xs s = Some s' ∧ same_shape (store s) (store s') ∧
          ∀ a, a ∉ concat ls -> TotalBound s' a = TotalBound s a.
Proof.
  intros Hext Hstep. induction xs as [|x xs IH]; intros s ls Hls.
  - injection Hls as <-. exists s. split; [done|]. split; [apply same_shape_refl|done].
  - cbn [mapM] in Hls. destruct (mv (store s) x) as [l|] eqn:El; [|done].
    cbn [mbind option_bind] in Hls.
    destruct (mapM (mv (store s)) xs) as [ls'|] eqn:Els; [|done].
    cbn in Hls. injection Hls as <-.
    destruct (Hstep s x l El) as (s1 & E1 & Hs1 & Hb1).
    destruct (IH s1 ls') as (s2 & E2 & Hs2 & Hb2).
    { rewrite <- Els. apply Forall2_mapM_ext, Forall_Forall2_diag, Forall_forall.
      intros y _. by apply Hext. }
    exists s2. cbn [fold_leftM]. rewrite E1. cbn [mbind option_bind].
    split; [done|]. split; [by apply (same_shape_trans _ (store s1))|].
    intros a Ha. cbn [concat] in Ha. apply not_elem_of_app in Ha as [Ha1 Ha2].
    by rewrite Hb2, Hb1.
Qed.

(** [OffsetBy] returns on a graph nested within the fuel, keeps the shape of
    the store, writes the bound of no other graph than those that it
    reaches, and moves the bound of the graph itself by the offset. *)
Lemma OffsetBy_moved (fuel : nat) :
  ∀ s g off l, moved_graphs fuel (store s) g = Some l ->
    ∃ s', OffsetBy fuel s g off = Some s' ∧ same_shape (store s) (store s') ∧
      (∀ a, a ∉ l -> TotalBound s' a = TotalBound s a) ∧
      (NoDup l -> TotalBound s' g = FSlateRect_OffsetBy (TotalBound s g) off).
Proof.
  induction fuel as [|fuel IH]; intros s g off l Hl; [done|].
  cbn [moved_graphs] in Hl. cbn [OffsetBy].
  assert (Hloop : ∀ ls,
    (if (Num (IsolatedGraphs (graph (store s) g)) >? 0)%Z
     then mapM (moved_graphs fuel (store s)) (IsolatedGraphs (graph (store s) g))
     else mapM (λ Node, match SubGraph (node (store s) Node) with
                        | Some g => moved_graphs fuel (store s) g
                        | None => Some []
                        end) (Nodes (graph (store s) g))) = Some ls ->
    ∃ s1,
      (if (Num (IsolatedGraphs (graph (store s) g)) >? 0)%Z
       then fold_leftM (λ s isolatedGraph, OffsetBy fuel s isolatedGraph off)
                       (IsolatedGraphs (graph (store s) g)) s
       else fold_leftM (λ s Node,
              FFormatterNode_SetPosition (OffsetBy fuel) s Node
                (FVector2D_add (Position (node (store s) Node)) off))
              (Nodes (graph (store s) g)) s) = Some s1 ∧
      same_shape (store s) (store s1) ∧
      ∀ a, a ∉ concat ls -> TotalBound s1 a = TotalBound s a).
  { intros ls Hls. destruct (Num (IsolatedGraphs (graph (store s) g)) >? 0)%Z.
    - apply (fold_leftM_moved _ (λ h x, moved_graphs fuel h x)); [| |done].
      + intros h h' x Hs. by apply moved_graphs_same_shape.
      + intros s0 x l0 Hl0. destruct (IH s0 x off l0 Hl0) as (s' & ? & ? & ? & _).
        by exists s'.
    - apply (fold_leftM_moved _ (λ h Node, match SubGraph (node h Node) with
                                           | Some g => moved_graphs fuel h g
                                           | None => Some []
                                           end)); [| |done].
      + intros h h' x Hs. rewrite (proj2 Hs x).
        destruct (SubGraph (node h x)); [by apply moved_graphs_same_shape|done].
      + intros s0 x l0 Hl0. unfold FFormatterNode_SetPosition. cbn [store bounds].
        set (p := FVector2D_add (Position (node (store s0) x)) off).
        pose proof (same_shape_set_Position (store s0) x p) as Hs.
        rewrite (proj2 Hs x).
        destruct (SubGraph (node (store s0) x)) as [sg|] eqn:Esg.
        * rewrite <- (moved_graphs_same_shape _ _ fuel Hs sg) in Hl0.
          destruct (IH (mkLayout (set_node (store s0) x (with_Position p (node (store s0) x)))
                                 (bounds s0)) sg
                       (FVector2D_sub p (Position (node (store s0) x))) l0 Hl0)
            as (s' & E' & Hs' & Hb' & _).
          exists s'. split; [done|]. split; [by apply (same_shape_trans _ _ _ Hs)|done].
        * injection Hl0 as <-. eexists. split; [done|]. split; [done|]. done. }
  destruct (if (Num (IsolatedGraphs (graph (store s) g)) >? 0)%Z
            then mapM (moved_graphs fuel (store s)) (IsolatedGraphs (graph (store s) g))
            else _) as [ls|] eqn:Els; [|done].
  cbn [mbind option_bind] in Hl. injection Hl as <-.
  destruct (Hloop ls eq_refl) as (s1 & E1 & Hs1 & Hb1). rewrite E1. cbn [mbind option_bind].
  eexists. split; [done|]. split; [done|]. split.
  - intros a Ha. apply not_elem_of_cons in Ha as [Hag Ha].
    unfold TotalBound at 1, set_TotalBound. cbn [bounds].
    rewrite lookup_insert_ne by done. by apply Hb1.
  - intros Hnd. apply NoDup_cons in Hnd as [Hg _].
    unfold TotalBound at 1, set_TotalBound. cbn [bounds].
    rewrite lookup_insert_eq. cbn [default]. by rewrite (Hb1 g Hg).
Qed.

(** ** Format: the loop over the isolated graphs *)

Lemma nested_same_shape (fuel : nat) (avoid : list addr) (s s' : FLayout) (c : addr) :
  same_shape (store s) (store s') -> nested fuel avoid s c -> nested fuel avoid s' c.
Proof.
  intros Hs (Hlen & l & Hl & Hnd & Hav). split.
  - by rewrite (same_shape_graph _ _ c Hs).
  - exists l. by rewrite (moved_graphs_same_shape _ _ fuel Hs).
Qed.

Lemma ZRect_in_within (M : Z) (R : ZRect) : ZRect_in M R -> ZRect_within M R.
Proof. by intros [? _]. Qed.

Lemma ZRect_union_within (K : Z) (U R : ZRect) :
  ZRect_within K U -> ZRect_within K R -> ZRect_within K (ZRect_union U R).
Proof.
  intros (? & ? & ? & ?) (? & ? & ? & ?). unfold ZRect_within, ZRect_union.
  cbn [zLeft zTop zRight zBottom]. repeat split; lia.
Qed.

Lemma ZRect_within_mono (K K' : Z) (R : ZRect) :
  (K <= K')%Z -> ZRect_within K R -> ZRect_within K' R.
Proof. intros HK (? & ? & ? & ?). unfold ZRect_within. lia. Qed.

Section format_loop.
Context (VerticalSpacing : float) (Format_single : FLayout -> addr -> option FLayout).
Context (fuel : nat) (this : addr) (Isolated : list addr) (B : addr -> ZRect) (M vs : Z).
Context (Hvs : VerticalSpacing = f32_of_int vs) (Hvs0 : (0 <= vs)%Z).
Context (HB : ∀ c, c ∈ Isolated -> ZRect_in M (B c)).
Context (Hthis : this ∉ Isolated).
Context (Hsingle : ∀ s c, c ∈ Isolated ->
  (∀ c', c' ∈ Isolated -> nested fuel (this :: Isolated) s c') ->
  ∃ s', Format_single s c = Some s' ∧ TotalBound s' c = whole_rect (B c) ∧
    (∀ a, a ∈ this :: Isolated -> a ≠ c -> TotalBound s' a = TotalBound s a) ∧
    (∀ c', c' ∈ Isolated -> nested fuel (this :: Isolated) s' c')).

Lemma Format_component (s : FLayout) (c : addr) :
  c ∈ Isolated -> (∀ c', c' ∈ Isolated -> nested fuel (this :: Isolated) s c') ->
  Format VerticalSpacing Format_single fuel s c = Format_single s c.
Proof.
  intros Hc Hn. destruct (Hn c Hc) as (Hlen & l & Hl & _).
  destruct fuel as [|f]; [done|]. cbn [Format].
  destruct (Z.gtb_spec (Num (IsolatedGraphs (graph (store s) c))) 1) as [Hgt|]; [|done].
  unfold Num in Hgt. lia.
Qed.

Lemma PreBound_whole (U : ZRect) (K : Z) :
  (K + vs < 2 ^ 24)%Z -> ZRect_within K U ->
  FSlateRect_OffsetBy (whole_rect U) (mkFVector2D f32_zero VerticalSpacing)
  = whole_rect (ZRect_move 0 vs U).
Proof.
  intros HK (Hl & Ht & Hr & Hb). rewrite Hvs. change f32_zero with (f32_of_int 0).
  apply (FSlateRect_OffsetBy_whole U 0 vs (K + vs)); [done| | | |];
    unfold ZRect_within; cbn [ZRect_move zLeft zTop zRight zBottom]; lia.
Qed.

(** One round of the loop for an isolated graph after the first. *)
Lemma Format_isolated_later (s : FLayout) (U : ZRect) (K : Z) (c : addr) :
  c ∈ Isolated -> (∀ c', c' ∈ Isolated -> nested fuel (this :: Isolated) s c') ->
  TotalBound s this = whole_rect U -> ZRect_within K U ->
  (zLeft U < zRight U)%Z -> (zTop U < zBottom U)%Z ->
  (K + (2 * M + vs) + vs < 2 ^ 24)%Z ->
  ∃ s', Format_isolated VerticalSpacing (Format VerticalSpacing Format_single fuel) fuel this
          (s, whole_rect (ZRect_move 0 vs U)) c
        = Some (s', whole_rect (ZRect_move 0 vs (ZRect_union U (ZRect_below vs U (B c))))) ∧
    TotalBound s' c = whole_rect (ZRect_below vs U (B c)) ∧
    TotalBound s' this = whole_rect (ZRect_union U (ZRect_below vs U (B c))) ∧
    (∀ a, a ∈ Isolated -> a ≠ c -> TotalBound s' a = TotalBound s a) ∧
    (∀ c', c' ∈ Isolated -> nested fuel (this :: Isolated) s' c') ∧
    ZRect_within (K + (2 * M + vs)) (ZRect_union U (ZRect_below vs U (B c))).
Proof.
  intros Hc Hn HU HK Hlr Htb Hbudget.
  destruct (HB c Hc) as ((HBl & HBt & HBr & HBb) & HBlr & HBtb).
  destruct HK as (HUl & HUt & HUr & HUb).
  assert (Hne : this ≠ c) by (intros ->; done).
  unfold Format_isolated. cbn [fst snd]. rewrite (Format_component s c Hc Hn).
  destruct (Hsingle s c Hc Hn) as (s1 & E1 & Hb1 & Hf1 & Hn1). rewrite E1.
  cbn [mbind option_bind].
  rewrite (IsValid_whole _ (K + vs)); [| lia | | |];
    [|unfold ZRect_within|..]; cbn [ZRect_move zLeft zTop zRight zBottom]; try lia.
  destruct (Hn1 c Hc) as (_ & l & Hl & Hnd & Hav).
  unfold SetPosition. rewrite Hb1.
  assert (Eoff : FVector2D_sub (GetBottomLeft (whole_rect (ZRect_move 0 vs U)))
                               (GetTopLeft (whole_rect (B c)))
                 = mkFVector2D (f32_of_int (zLeft U - zLeft (B c)))
                               (f32_of_int (zBottom U + vs - zTop (B c)))).
  { unfold GetBottomLeft, GetTopLeft, FVector2D_sub, whole_rect.
    cbn [X Y Left Top Right Bottom ZRect_move zLeft zTop zRight zBottom].
    rewrite !f32_of_int_sub by lia. f_equal. f_equal. lia. }
  rewrite Eoff.
  destruct (OffsetBy_moved fuel s1 c
              (mkFVector2D (f32_of_int (zLeft U - zLeft (B c)))
                           (f32_of_int (zBottom U + vs - zTop (B c)))) l Hl)
    as (s2 & E2 & Hs2 & Hf2 & Hb2).
  rewrite E2. cbn [mbind option_bind].
  assert (Hc2 : TotalBound s2 c = whole_rect (ZRect_below vs U (B c))).
  { rewrite (Hb2 Hnd), Hb1, ZRect_below_move.
    apply (FSlateRect_OffsetBy_whole _ _ _ (K + (2 * M + vs))); [lia| | | |];
      unfold ZRect_within; cbn [ZRect_move zLeft zTop zRight zBottom]; lia. }
  assert (Ht2 : TotalBound s2 this = whole_rect U).
  { rewrite Hf2, Hf1, HU; [done|apply list_elem_of_here|done|].
    apply Hav; [apply list_elem_of_here|done]. }
  assert (HR' : ZRect_within (K + (2 * M + vs)) (ZRect_below vs U (B c))).
  { unfold ZRect_within, ZRect_below. cbn [zLeft zTop zRight zBottom]. lia. }
  assert (HU' : ZRect_within (K + (2 * M + vs)) (ZRect_union U (ZRect_below vs U (B c)))).
  { apply ZRect_union_within; [|done]. unfold ZRect_within. lia. }
  rewrite Ht2, Hc2.
  rewrite (IsValid_whole U K); [|lia|done|done|lia].
  rewrite (Expand_whole U _ (K + (2 * M + vs))); [|lia| |done].
  2:{ unfold ZRect_within. lia. }
  eexists. split.
  - f_equal. f_equal. unfold TotalBound, set_TotalBound. cbn [bounds].
    rewrite lookup_insert_eq. cbn [default].
    by apply (PreBound_whole _ (K + (2 * M + vs))).
  - split; [|split; [|split; [|split]]].
    + unfold TotalBound at 1, set_TotalBound. cbn [bounds].
      rewrite lookup_insert_ne by done. exact Hc2.
    + unfold TotalBound at 1, set_TotalBound. cbn [bounds].
      by rewrite lookup_insert_eq.
    + intros a Ha Hac. unfold TotalBound at 1, set_TotalBound. cbn [bounds].
      rewrite lookup_insert_ne by (intros ->; done).
      change (default FSlateRect_default (bounds s2 !! a)) with (TotalBound s2 a).
      rewrite Hf2, Hf1; [done|by apply list_elem_of_further|done|].
      apply Hav; [by apply list_elem_of_further|done].
    + intros c' Hc'. apply (nested_same_shape _ _ s2); [done|].
      apply (nested_same_shape _ _ s1); [done|]. by apply Hn1.
    + done.
Qed.

(** The first round of the loop. *)
Lemma Format_isolated_first (s : FLayout) (c : addr) :
  c ∈ Isolated -> (∀ c', c' ∈ Isolated -> nested fuel (this :: Isolated) s c') ->
  IsValid (TotalBound s this) = false -> (M + vs < 2 ^ 24)%Z ->
  ∃ s', Format_isolated VerticalSpacing (Format VerticalSpacing Format_single fuel) fuel this
          (s, FSlateRect_default) c
        = Some (s', whole_rect (ZRect_move 0 vs (B c))) ∧
    TotalBound s' c = whole_rect (B c) ∧ TotalBound s' this = whole_rect (B c) ∧
    (∀ a, a ∈ Isolated -> a ≠ c -> TotalBound s' a = TotalBound s a) ∧
    (∀ c', c' ∈ Isolated -> nested fuel (this :: Isolated) s' c').
Proof.
  intros Hc Hn Hinv Hbudget. destruct (HB c Hc) as (HBw & HBlr & HBtb).
  assert (Hne : this ≠ c) by (intros ->; done).
  unfold Format_isolated. cbn [fst snd]. rewrite (Format_component s c Hc Hn).
  destruct (Hsingle s c Hc Hn) as (s1 & E1 & Hb1 & Hf1 & Hn1). rewrite E1.
  cbn [mbind option_bind]. rewrite IsValid_default. cbn [mbind option_bind].
  rewrite (Hf1 this (list_elem_of_here _ _) Hne), Hinv, Hb1.
  eexists. split.
  - f_equal. f_equal. unfold TotalBound, set_TotalBound. cbn [bounds].
    rewrite lookup_insert_eq. cbn [default]. by apply (PreBound_whole _ M).
  - split; [|split; [|split]].
    + unfold TotalBound at 1, set_TotalBound. cbn [bounds].
      rewrite lookup_insert_ne by done. exact Hb1.
    + unfold TotalBound at 1, set_TotalBound. cbn [bounds]. by rewrite lookup_insert_eq.
    + intros a Ha Hac. unfold TotalBound at 1, set_TotalBound. cbn [bounds].
      rewrite lookup_insert_ne by (intros ->; done).
      apply Hf1; [by apply list_elem_of_further|done].
    + done.
Qed.

(** The rounds after the first. *)
Lemma Format_loop (rest : list addr) :
  ∀ (s : FLayout) (U : ZRect) (K : Z),
    (∀ c, c ∈ rest -> c ∈ Isolated) -> NoDup rest ->
    (∀ c', c' ∈ Isolated -> nested fuel (this :: Isolated) s c') ->
    TotalBound s this = whole_rect U -> ZRect_within K U ->
    (zLeft U < zRight U)%Z -> (zTop U < zBottom U)%Z ->
    (K + Z.of_nat (length rest) * (2 * M + vs) + vs < 2 ^ 24)%Z ->
    ∃ sF P,
      fold_leftM (Format_isolated VerticalSpacing
                    (Format VerticalSpacing Format_single fuel) fuel this)
                 rest (s, whole_rect (ZRect_move 0 vs U)) = Some (sF, P) ∧
      Forall2 (λ c R, TotalBound sF c = whole_rect R) rest (stack vs U (map B rest)) ∧
      TotalBound sF this = whole_rect (ZRect_unions U (stack vs U (map B rest))) ∧
      (∀ a, a ∈ Isolated -> a ∉ rest -> TotalBound sF a = TotalBound s a).
Proof.
  induction rest as [|c rest IH]; intros s U K Hsub Hnd Hn HU HK Hlr Htb Hbudget.
  - eexists _, _. split; [done|]. split; [constructor|]. split; [done|]. done.
  - apply NoDup_cons in Hnd as [Hc Hnd].
    assert (HcI : c ∈ Isolated) by apply Hsub, list_elem_of_here.
    assert (HM0 : (0 <= M)%Z) by (destruct (HB c HcI) as ((? & _) & _); lia).
    cbn [length] in Hbudget. rewrite Nat2Z.inj_succ, Z.mul_succ_l in Hbudget.
    assert (0 <= Z.of_nat (length rest) * (2 * M + vs))%Z by (apply Z.mul_nonneg_nonneg; lia).
    destruct (Format_isolated_later s U K c HcI Hn HU HK Hlr Htb)
      as (s1 & E1 & Hc1 & Ht1 & Hf1 & Hn1 & HK1); [lia|].
    destruct (IH s1 (ZRect_union U (ZRect_below vs U (B c))) (K + (2 * M + vs))%Z)
      as (sF & P & EF & HF & HtF & HfF); try done.
    { intros c' Hc'. apply Hsub. by apply list_elem_of_further. }
    { unfold ZRect_union. cbn [zLeft zRight]. lia. }
    { unfold ZRect_union. cbn [zTop zBottom]. lia. }
    { lia. }
    exists sF, P. cbn [fold_leftM]. rewrite E1. cbn [mbind option_bind].
    split; [done|]. cbn [map stack]. split; [|split].
    + constructor; [|done]. by rewrite (HfF c HcI Hc).
    + done.
    + intros a Ha Hna. apply not_elem_of_cons in Hna as [Hac Hna].
      rewrite (HfF a Ha Hna). by apply Hf1.
Qed.
End format_loop.

(** ** The rectangles one below the other *)

Lemma stack_top (vs : Z) (Rs : list ZRect) :
  ∀ U j R, stack vs U Rs !! j = Some R -> (zBottom U + vs <= zTop R)%Z.
Proof.
  induction Rs as [|R0 Rs IH]; intros U j R Hj; [done|]. cbn [stack] in Hj.
  destruct j as [|j].
  - injection Hj as <-. cbn. lia.
  - apply IH in Hj. unfold ZRect_union in Hj. cbn [zBottom] in Hj. lia.
Qed.

Lemma stack_separated (vs : Z) (Rs : list ZRect) :
  ∀ U i j R R', i < j -> stack vs U Rs !! i = Some R -> stack vs U Rs !! j = Some R' ->
    (zBottom R + vs <= zTop R')%Z.
Proof.
  induction Rs as [|R0 Rs IH]; intros U i j R R' Hij Hi Hj; [done|]. cbn [stack] in Hi, Hj.
  destruct j as [|j]; [lia|]. destruct i as [|i].
  - injection Hi as <-. apply stack_top in Hj. unfold ZRect_union in Hj.
    cbn [zBottom] in Hj. lia.
  - apply (IH (ZRect_union U (ZRect_below vs U R0)) i j); [lia|done|done].
Qed.

Lemma place_separated (vs : Z) (Rs : list ZRect) (i j : nat) (R R' : ZRect) :
  i < j -> place vs Rs !! i = Some R -> place vs Rs !! j = Some R' ->
  (zBottom R + vs <= zTop R')%Z.
Proof.
  intros Hij Hi Hj. destruct Rs as [|R0 Rs]; [done|]. cbn [place] in Hi, Hj.
  destruct j as [|j]; [lia|]. destruct i as [|i].
  - injection Hi as <-. by apply stack_top in Hj.
  - apply (stack_separated vs Rs R0 i j); [lia|done|done].
Qed.

(** ** Format on a graph with more than one isolated graph *)



(** ** Format on the two disjoint edges *)

Lemma Format_place_shape (p : FVector2D) (ns : list addr) :
  ∀ h, same_shape h (fold_left (λ h Node, set_node h Node (with_Position p (node h Node))) ns h).
Proof.
  induction ns as [|n ns IH]; intros h; [apply same_shape_refl|]. cbn [fold_left].
  eapply same_shape_trans; [apply (same_shape_set_Position h n p)|apply IH].
Qed.

Lemma Format_place_returns (Bound : addr -> FSlateRect) (s : FLayout) (c : addr) :
  ∃ s', Format_place Bound s c = Some s' ∧ TotalBound s' c = Bound c ∧
    (∀ a, a ≠ c -> TotalBound s' a = TotalBound s a) ∧ same_shape (store s) (store s').
Proof.
  eexists. split; [done|]. split; [|split].
  - unfold TotalBound. cbn [bounds]. by rewrite lookup_insert_eq.
  - intros a Ha. unfold TotalBound. cbn [bounds]. by rewrite lookup_insert_ne.
  - cbn [store]. apply Format_place_shape.
Qed.


(** With the bounds (0, 0, 200, 100) and (50, 30, 350, 130) and the spacing
    100, the second isolated graph is moved to (0, 200, 300, 300), its nodes
    with it, and the bound of the graph is (0, 0, 300, 300). *)
Lemma Format_two_edges_plain :
  ∃ sF,
    Format (f32_of_int 100) (Format_place (λ c, whole_rect (plain_bounds c))) 2
           two_edges.1 two_edges.2 = Some sF ∧
    IsolatedGraphs (graph (store two_edges.1) two_edges.2) = [17; 18] ∧
    Nodes (graph (store two_edges.1) 18) = [7; 10] ∧
    TotalBound sF 17 = whole_rect (mkZRect 0 0 200 100) ∧
    TotalBound sF 18 = whole_rect (mkZRect 0 200 300 300) ∧
    TotalBound sF two_edges.2 = whole_rect (mkZRect 0 0 300 300) ∧
    Position (node (store sF) 7) = mkFVector2D (f32_of_int 0) (f32_of_int 200) ∧
    Position (node (store sF) 10) = mkFVector2D (f32_of_int 0) (f32_of_int 200).
Proof.
  eexists. split; [vm_compute; reflexivity|].
  repeat (split; [vm_compute; reflexivity|]). vm_compute. reflexivity.
Qed.

